(** * XLS middle end: proc-state optimisation, SDC scheduling, VAST emission

    A shallow embedding of three parts of the XLS toolchain and the
    properties its specification states about them:

    - [Vast]    : [xls/codegen/vast.cc], identifier sanitisation and the
                  expression emitter (parenthesisation, scalar indexing);
    - [ProcOpt] : [xls/passes/proc_state_optimization_pass.cc], removal of
                  zero-width and unobservable proc state;
    - [Sdc]     : the SDC scheduler that follows it in the same file
                  (timing constraints, LP construction, result extraction).

    Machine integers ([int64_t]) are embedded as [Z]/[N]/[nat].  Signed
    overflow is undefined behaviour in C++: delays, distances, node bit
    counts, indices and line numbers are taken to stay within range, and
    the one product the code forms from dimensions its caller supplies (the
    flat bit count of a Verilog data type) has its wrap-around written out.
    The solver's [double]s are embedded as rationals, with exact
    arithmetic; the [double] literal the code compares them with, [0.001],
    is embedded as the binary number it denotes. *)

From stdpp Require Import base list gmap strings pretty.
From Stdlib Require Import ZArith QArith Qround Qabs Lia Lqa Relations.
From Stdlib Require Ascii String.

Set Warnings "-register-all,-clear-no-such-hyp".

Open Scope Z_scope.
Open Scope nat_scope.

(* ===================================================================== *)
(** * Part I: the Verilog AST emitter ([xls/codegen/vast.cc])            *)
(* ===================================================================== *)

Module Vast.

Import Stdlib.Strings.Ascii.

(** ** Character classes

    [absl::ascii_isdigit] / [absl::ascii_isalnum] classify one byte; bytes
    above 127 belong to no class. *)

Definition ascii_isdigit (c : ascii) : bool :=
  let n := nat_of_ascii c in (48 <=? n) && (n <=? 57).

Definition ascii_isupper (c : ascii) : bool :=
  let n := nat_of_ascii c in (65 <=? n) && (n <=? 90).

Definition ascii_islower (c : ascii) : bool :=
  let n := nat_of_ascii c in (97 <=? n) && (n <=? 122).

Definition ascii_isalpha (c : ascii) : bool :=
  ascii_isupper c || ascii_islower c.

Definition ascii_isalnum (c : ascii) : bool :=
  ascii_isalpha c || ascii_isdigit c.

Definition underscore : ascii := ascii_of_nat 95.

(** The in-place loop of [SanitizeIdentifier]:
    [for i: if (!isalnum(s[i])) s[i] = '_']. *)
Fixpoint replace_non_alnum (s : string) : string :=
  match s with
  | EmptyString => EmptyString
  | String c rest =>
      String (if ascii_isalnum c then c else underscore) (replace_non_alnum rest)
  end.

(** [std::string SanitizeIdentifier(absl::string_view name)] *)
Definition SanitizeIdentifier (name : string) : string :=
  match name with
  | EmptyString => "_"
  | String c0 _ =>
      let sanitized :=
        if ascii_isdigit c0 then String underscore name else name in
      replace_non_alnum sanitized
  end.

(** The character set [[A-Za-z0-9_]], stated on character codes. *)
Definition ident_char (c : ascii) : Prop :=
  let n := nat_of_ascii c in
  (65 <= n <= 90) \/ (97 <= n <= 122) \/ (48 <= n <= 57) \/ n = 95.

Definition is_digit (c : ascii) : Prop :=
  48 <= nat_of_ascii c <= 57.

Fixpoint string_chars (s : string) : list ascii :=
  match s with
  | EmptyString => []
  | String c rest => c :: string_chars rest
  end.

Definition starts_with_digit (s : string) : Prop :=
  match s with
  | EmptyString => False
  | String c _ => is_digit c
  end.

Example sanitize_empty : SanitizeIdentifier "" = "_".
Proof. reflexivity. Qed.

Example sanitize_leading_digit : SanitizeIdentifier "42foo" = "_42foo".
Proof. reflexivity. Qed.

Example sanitize_punct : SanitizeIdentifier "a.b-c d" = "a_b_c_d".
Proof. reflexivity. Qed.

(** ** Properties of [SanitizeIdentifier] *)

Section Sanitize.

Lemma isdigit_spec c : ascii_isdigit c = true <-> is_digit c.
Proof.
  unfold ascii_isdigit, is_digit.
  rewrite andb_true_iff, !Nat.leb_le. reflexivity.
Qed.

Lemma isalnum_ident c : ascii_isalnum c = true -> ident_char c.
Proof.
  unfold ascii_isalnum, ascii_isalpha, ascii_isupper, ascii_islower,
    ascii_isdigit, ident_char.
  rewrite !orb_true_iff, !andb_true_iff, !Nat.leb_le. tauto.
Qed.

Lemma ident_char_cases c :
  ident_char c -> ascii_isalnum c = true \/ c = underscore.
Proof.
  unfold ident_char, ascii_isalnum, ascii_isalpha, ascii_isupper,
    ascii_islower, ascii_isdigit.
  rewrite !orb_true_iff, !andb_true_iff, !Nat.leb_le.
  intros [H | [H | [H | H]]]; try tauto.
  right. rewrite <- (ascii_nat_embedding c), H. reflexivity.
Qed.

Lemma underscore_not_alnum : ascii_isalnum underscore = false.
Proof. reflexivity. Qed.

Lemma underscore_not_digit : ascii_isdigit underscore = false.
Proof. reflexivity. Qed.

Lemma underscore_ident : ident_char underscore.
Proof. unfold ident_char. do 3 right. reflexivity. Qed.

Lemma replaced_char_ident c :
  ident_char (if ascii_isalnum c then c else underscore).
Proof.
  destruct (ascii_isalnum c) eqn:E.
  - now apply isalnum_ident.
  - apply underscore_ident.
Qed.

Lemma replace_non_alnum_chars s :
  Forall ident_char (string_chars (replace_non_alnum s)).
Proof.
  induction s as [| c rest IH]; cbn.
  - constructor.
  - constructor; [apply replaced_char_ident | exact IH].
Qed.

Lemma replace_non_alnum_idem s :
  replace_non_alnum (replace_non_alnum s) = replace_non_alnum s.
Proof.
  induction s as [| c rest IH]; cbn; [reflexivity |].
  rewrite IH. f_equal.
  destruct (ascii_isalnum c) eqn:E.
  - now rewrite E.
  - now rewrite underscore_not_alnum.
Qed.

Lemma replace_non_alnum_length s :
  String.length (replace_non_alnum s) = String.length s.
Proof. induction s; cbn; congruence. Qed.

(** The sanitised name is the character-wise image of the (possibly
    prefixed) input: position by position, alphanumerics are kept and
    everything else becomes an underscore. *)
Lemma sanitize_unfold c rest :
  SanitizeIdentifier (String c rest) =
  if ascii_isdigit c
  then String underscore (replace_non_alnum (String c rest))
  else replace_non_alnum (String c rest).
Proof.
  unfold SanitizeIdentifier. destruct (ascii_isdigit c); reflexivity.
Qed.

Lemma sanitize_head s :
  exists c rest, SanitizeIdentifier s = String c rest /\ ascii_isdigit c = false.
Proof.
  destruct s as [| c rest].
  - exists underscore, EmptyString. split; reflexivity.
  - rewrite sanitize_unfold. destruct (ascii_isdigit c) eqn:D.
    + eexists _, _. split; [reflexivity | reflexivity].
    + cbn. eexists _, _. split; [reflexivity |].
      destruct (ascii_isalnum c); [exact D | reflexivity].
Qed.

End Sanitize.

(** [out] is [s] with every character that is not alphanumeric turned
    into an underscore: as long as [s], and at each position of [s] the
    character of [s] when it is alphanumeric, an underscore when not. *)
Definition non_alnum_replaced (s out : string) : Prop :=
  length (string_chars out) = length (string_chars s)
  /\ forall i c, string_chars s !! i = Some c ->
       string_chars out !! i = Some (if ascii_isalnum c then c else underscore).

Lemma replace_non_alnum_replaced s : non_alnum_replaced s (replace_non_alnum s).
Proof.
  split.
  - induction s as [| c0 rest IH]; cbn; [reflexivity | now rewrite IH].
  - induction s as [| c0 rest IH]; intros i c; [discriminate |].
    destruct i as [| i]; cbn.
    + now intros [= <-].
    + apply IH.
Qed.

(** C9. For every input [s], [SanitizeIdentifier s] consists only of
    characters of [[A-Za-z0-9_]] and does not start with a digit; the empty
    string maps to ["_"]; an input that starts with a digit gets the prefix
    ["_"]; in both non-empty cases every character of the input is still
    there, in its place when it is alphanumeric and as ["_"] when it is
    not, and nothing else is added or dropped; and the result is a function
    of the input. *)
Theorem C9_sanitize_identifier_valid :
  forall s : string,
    Forall ident_char (string_chars (SanitizeIdentifier s))
    /\ ~ starts_with_digit (SanitizeIdentifier s)
    /\ SanitizeIdentifier "" = "_"
    /\ (forall c rest, s = String c rest -> is_digit c ->
          exists body,
            SanitizeIdentifier s = String underscore body
            /\ non_alnum_replaced s body)
    /\ (forall c rest, s = String c rest -> ~ is_digit c ->
          non_alnum_replaced s (SanitizeIdentifier s))
    /\ (forall s', s = s' -> SanitizeIdentifier s = SanitizeIdentifier s').
Proof.
  intros s.
  split; [| split; [| split; [reflexivity | split; [| split]]]].
  - destruct s as [| c rest]; [repeat constructor; apply underscore_ident |].
    rewrite sanitize_unfold. destruct (ascii_isdigit c).
    + cbn [string_chars]. constructor; [apply underscore_ident |].
      apply replace_non_alnum_chars.
    + apply replace_non_alnum_chars.
  - destruct (sanitize_head s) as (c & rest & -> & D). cbn.
    rewrite <- isdigit_spec. congruence.
  - intros c rest -> D. apply isdigit_spec in D.
    exists (replace_non_alnum (String c rest)).
    split; [| apply replace_non_alnum_replaced].
    rewrite sanitize_unfold, D. reflexivity.
  - intros c rest -> D. rewrite sanitize_unfold.
    destruct (ascii_isdigit c) eqn:E.
    + exfalso. apply D. now apply isdigit_spec.
    + apply replace_non_alnum_replaced.
  - intros s' ->. reflexivity.
Qed.

Lemma C9_sanitize_identifier_valid_witness :
  (exists body,
      SanitizeIdentifier "4a.b" = String underscore body
      /\ non_alnum_replaced "4a.b" body)
  /\ non_alnum_replaced "a.b-c d" (SanitizeIdentifier "a.b-c d").
Proof.
  split.
  - destruct (C9_sanitize_identifier_valid "4a.b") as (_ & _ & _ & H & _).
    apply (H "4"%char "a.b" eq_refl). vm_compute. lia.
  - destruct (C9_sanitize_identifier_valid "a.b-c d") as (_ & _ & _ & _ & H & _).
    apply (H "a"%char ".b-c d" eq_refl). intros D. vm_compute in D. lia.
Defined.

(** C10. [SanitizeIdentifier] is idempotent: a sanitised identifier passes
    through unchanged. *)
Theorem C10_sanitize_identifier_idempotent :
  forall s : string,
    SanitizeIdentifier (SanitizeIdentifier s) = SanitizeIdentifier s.
Proof.
  intros s.
  destruct s as [| c rest]; [reflexivity |].
  rewrite sanitize_unfold. destruct (ascii_isdigit c) eqn:D.
  - rewrite sanitize_unfold, underscore_not_digit.
    change (replace_non_alnum (String underscore ?x))
      with (String underscore (replace_non_alnum x)).
    now rewrite replace_non_alnum_idem.
  - assert (H : exists c' rest', replace_non_alnum (String c rest) = String c' rest'
                 /\ ascii_isdigit c' = false).
    { cbn. eexists _, _. split; [reflexivity |].
      destruct (ascii_isalnum c); [exact D | reflexivity]. }
    destruct H as (c' & rest' & E & D').
    rewrite E, sanitize_unfold, D', <- E.
    apply replace_non_alnum_idem.
Qed.

(** ** Expressions

    The expression classes of VAST whose [Emit] lives in [vast.cc], together
    with [LogicRef] and the declaration it points to.  [Bits] is the
    arbitrary-width value of a literal: a bit count and an unsigned value. *)

Record Bits := MkBits { bit_count : Z; bits_value : N }.

Inductive FormatPreference :=
  | kDefault | kBinary | kSignedDecimal | kUnsignedDecimal | kHex
  | kPlainBinary | kPlainHex.

Inductive FourValueBit := kZero | kOne | kUnknown | kHighZ.

Inductive DataKind := kReg | kWire | kLogic.

Inductive Expression : Type :=
  | Literal (bits : Bits) (format : FormatPreference) (emit_bit_count : bool)
  | XSentinel (width : Z)
  | FourValueBinaryLiteral (bits : list FourValueBit)
  | QuotedString (str : string)
  | MacroRef (name : string)
  | InlineVerilogRef (name : string)
  | LogicRef (def : Def)
  | Slice (subject hi lo : Expression)
  | PartSelect (subject start width : Expression)
  | Index (subject index : Expression)
  | Ternary (test consequent alternate : Expression)
  | BinaryInfix (lhs : Expression) (op : string) (rhs : Expression)
  | Unary (op : string) (arg : Expression)
  | Concat (replication : option Expression) (args : list Expression)
  | ArrayAssignmentPattern (args : list Expression)
  | SystemFunctionCall (name : string) (args : option (list Expression))
  | VerilogFunctionCall (func_name : string) (args : list Expression)
with Def : Type :=
  | MkDef (name : string) (data_kind : DataKind) (data_type : DataType)
with DataType : Type :=
  | MkDataType (is_signed : bool) (width : option Expression)
               (packed_dims unpacked_dims : list Expression).

Definition def_name (d : Def) : string :=
  let 'MkDef name _ _ := d in name.

Definition def_data_type (d : Def) : DataType :=
  let 'MkDef _ _ t := d in t.

(** [Bits::FitsInUint64] and [Bits::ToUint64]. *)
Definition FitsInUint64 (b : Bits) : bool := (bits_value b <? 2 ^ 64)%N.

(** [bool Literal::IsLiteralWithValue(int64_t target)]; every other
    expression class answers [false]. *)
Definition IsLiteralWithValue (e : Expression) (target : Z) : bool :=
  match e with
  | Literal bits _ _ =>
      if (target <? 0)%Z then false
      else if negb (FitsInUint64 bits) then false
      else (Z.of_N (bits_value bits) =? target)%Z
  | _ => false
  end.

Definition IsUnary (e : Expression) : bool :=
  match e with Unary _ _ => true | _ => false end.

(** [static std::string ParenWrap(absl::string_view s)] *)
Definition ParenWrap (s : string) : string := "(" +:+ s +:+ ")".

Definition FourValueFormatter (v : FourValueBit) : string :=
  match v with
  | kZero => "0" | kOne => "1" | kUnknown => "X" | kHighZ => "?"
  end.

Definition double_quote : string := String (ascii_of_nat 34) EmptyString.

(** [absl::StrJoin(parts, sep)] *)
Definition StrJoin (parts : list string) (sep : string) : string :=
  String.concat sep parts.

Section Emission.

(** Declared in [vast.h] and the IR's [Bits] class, which are not part of
    the sources at hand: the precedence level of an expression, the test
    for reduction operators on a [Unary], the scalar test on a declared
    type, and the digit formatting of a [Bits] value. *)
Variable precedence : Expression -> Z.
Variable IsReduction : Expression -> bool.
Variable IsScalar : DataType -> bool.
Variable Bits_ToString : FormatPreference -> Bits -> string.
Variable Bits_ToRawDigits : FormatPreference -> Bits -> bool -> string.

(** [static bool IsScalarLogicRef(IndexableExpression* expr)] *)
Definition IsScalarLogicRef (expr : Expression) : bool :=
  match expr with
  | LogicRef def => IsScalar (def_data_type def)
  | _ => false
  end.

(** The lambda [is_unary_reduction] of [BinaryInfix::Emit]. *)
Definition is_unary_reduction (e : Expression) : bool :=
  IsUnary e && IsReduction e.

(** [std::string Literal::Emit(LineInfo* line_info)] *)
Definition Literal_Emit (bits : Bits) (format : FormatPreference)
    (emit_bit_count : bool) : option string :=
  match format with
  | kDefault =>
      if (bit_count bits <=? 32)%Z
      then Some (Bits_ToString kUnsignedDecimal bits)
      else None
  | kUnsignedDecimal =>
      let prefix :=
        if emit_bit_count then pretty (bit_count bits) +:+ "'d" else "" in
      Some (prefix +:+ Bits_ToString kUnsignedDecimal bits)
  | kBinary =>
      Some (pretty (bit_count bits) +:+ "'b" +:+ Bits_ToRawDigits kBinary bits true)
  | kHex =>
      Some (pretty (bit_count bits) +:+ "'h" +:+ Bits_ToRawDigits kHex bits true)
  | _ => None
  end.

(** [Emit(LineInfo* line_info)] of every expression class, with line
    tracking switched off ([line_info == nullptr], for which the
    [LineInfoStart]/[LineInfoEnd]/[LineInfoIncrease] helpers do nothing).
    [None] stands for a failed [XLS_CHECK], which aborts the emitter
    without producing text. *)
Fixpoint Emit (e : Expression) : option string :=
  let EmitAll :=
    fix EmitAll (es : list Expression) : option (list string) :=
      match es with
      | [] => Some []
      | x :: rest => s ← Emit x; ss ← EmitAll rest; Some (s :: ss)
      end in
  match e with
  | Literal bits format emit_bit_count =>
      Literal_Emit bits format emit_bit_count
  | XSentinel width => Some (pretty width +:+ "'dx")
  | FourValueBinaryLiteral bits =>
      Some (pretty (Z.of_nat (length bits)) +:+ "'b"
            +:+ StrJoin (FourValueFormatter <$> bits) "")
  | QuotedString str => Some (double_quote +:+ str +:+ double_quote)
  | MacroRef name => Some ("`" +:+ name)
  | InlineVerilogRef name => Some name
  | LogicRef def => Some (def_name def)
  | Slice subject hi lo =>
      if IsScalarLogicRef subject then
        if IsLiteralWithValue hi 0 then
          if IsLiteralWithValue lo 0 then Emit subject else None
        else None
      else
        s ← Emit subject; h ← Emit hi; l ← Emit lo;
        Some (s +:+ "[" +:+ h +:+ ":" +:+ l +:+ "]")
  | PartSelect subject start width =>
      s ← Emit subject; st ← Emit start; w ← Emit width;
      Some (s +:+ "[" +:+ st +:+ " +: " +:+ w +:+ "]")
  | Index subject index =>
      if IsScalarLogicRef subject then
        if IsLiteralWithValue index 0 then Emit subject else None
      else
        s ← Emit subject; i ← Emit index;
        Some (s +:+ "[" +:+ i +:+ "]")
  | Ternary test consequent alternate =>
      let maybe_paren_wrap := fun (x : Expression) (sx : string) =>
        if (precedence x <=? precedence e)%Z then ParenWrap sx else sx in
      t ← Emit test; c ← Emit consequent; a ← Emit alternate;
      Some (maybe_paren_wrap test t +:+ " ? " +:+ maybe_paren_wrap consequent c
            +:+ " : " +:+ maybe_paren_wrap alternate a)
  | BinaryInfix lhs op rhs =>
      l ← Emit lhs;
      let lhs_string :=
        if (precedence lhs <? precedence e)%Z || is_unary_reduction lhs
        then ParenWrap l else l in
      r ← Emit rhs;
      let rhs_string :=
        if (precedence rhs <=? precedence e)%Z || is_unary_reduction rhs
        then ParenWrap r else r in
      Some (lhs_string +:+ " " +:+ op +:+ " " +:+ rhs_string)
  | Unary op arg =>
      a ← Emit arg;
      Some (op +:+ (if (precedence arg <? precedence e)%Z || IsUnary arg
                    then ParenWrap a else a))
  | Concat replication args =>
      rep ← match replication with
            | Some r => s ← Emit r; Some ("{" +:+ s)
            | None => Some ""
            end;
      ss ← EmitAll args;
      Some (rep +:+ "{" +:+ StrJoin ss ", " +:+ "}"
            +:+ (match replication with Some _ => "}" | None => "" end))
  | ArrayAssignmentPattern args =>
      ss ← EmitAll args; Some ("'{" +:+ StrJoin ss ", " +:+ "}")
  | SystemFunctionCall name args =>
      match args with
      | Some es => ss ← EmitAll es; Some ("$" +:+ name +:+ "(" +:+ StrJoin ss ", " +:+ ")")
      | None => Some ("$" +:+ name)
      end
  | VerilogFunctionCall func_name args =>
      ss ← EmitAll args; Some (func_name +:+ "(" +:+ StrJoin ss ", " +:+ ")")
  end.

End Emission.

(** ** Emission properties *)

Lemma append_length (s t : string) :
  String.length (s +:+ t) = String.length s + String.length t.
Proof.
  induction s as [| c s IH]; [reflexivity |].
  change (String c s +:+ t) with (String c (s +:+ t)). cbn. now rewrite IH.
Qed.

Lemma ParenWrap_length s : String.length (ParenWrap s) = S (S (String.length s)).
Proof. unfold ParenWrap. rewrite !append_length. cbn. lia. Qed.

Lemma ParenWrap_neq s : ParenWrap s <> s.
Proof.
  intros E. apply (f_equal String.length) in E.
  rewrite ParenWrap_length in E. lia.
Qed.

Section EmissionFacts.

Variable precedence : Expression -> Z.
Variable IsReduction : Expression -> bool.
Variable IsScalar : DataType -> bool.
Variable Bits_ToString : FormatPreference -> Bits -> string.
Variable Bits_ToRawDigits : FormatPreference -> Bits -> bool -> string.

Abbreviation emit := (Emit precedence IsReduction IsScalar Bits_ToString Bits_ToRawDigits).

Lemma Emit_Index subject index :
  emit (Index subject index) =
  if IsScalarLogicRef IsScalar subject then
    if IsLiteralWithValue index 0 then emit subject else None
  else s ← emit subject; i ← emit index; Some (s +:+ "[" +:+ i +:+ "]").
Proof. reflexivity. Qed.

Lemma Emit_Slice subject hi lo :
  emit (Slice subject hi lo) =
  if IsScalarLogicRef IsScalar subject then
    if IsLiteralWithValue hi 0 then
      if IsLiteralWithValue lo 0 then emit subject else None
    else None
  else s ← emit subject; h ← emit hi; l ← emit lo;
       Some (s +:+ "[" +:+ h +:+ ":" +:+ l +:+ "]").
Proof. reflexivity. Qed.

Lemma IsScalarLogicRef_inv subject :
  IsScalarLogicRef IsScalar subject = true ->
  exists def, subject = LogicRef def /\ IsScalar (def_data_type def) = true.
Proof. destruct subject; cbn; try discriminate. eauto. Qed.

(** C7. For an [Index] or [Slice] whose subject is a reference to a signal
    of scalar type: when the index (resp. both slice bounds) is the literal
    0, the emission is exactly the emission of the subject, the name of the
    signal, with the indexing left out; with any other index (resp. as soon
    as one bound is not the literal 0) the emitter fails its check and
    produces no text. *)
Theorem C7_scalar_index_slice_elided :
  forall (subject index hi lo : Expression),
    IsScalarLogicRef IsScalar subject = true ->
    (exists def, subject = LogicRef def /\ emit subject = Some (def_name def))
    /\ (IsLiteralWithValue index 0 = true ->
          emit (Index subject index) = emit subject)
    /\ (IsLiteralWithValue index 0 = false ->
          emit (Index subject index) = None)
    /\ (IsLiteralWithValue hi 0 = true -> IsLiteralWithValue lo 0 = true ->
          emit (Slice subject hi lo) = emit subject)
    /\ (IsLiteralWithValue hi 0 = false \/ IsLiteralWithValue lo 0 = false ->
          emit (Slice subject hi lo) = None).
Proof.
  intros subject index hi lo Hs.
  split; [| rewrite Emit_Index, Emit_Slice, Hs; repeat split].
  - destruct (IsScalarLogicRef_inv _ Hs) as (def & -> & _). eauto.
  - now intros ->.
  - now intros ->.
  - now intros -> ->.
  - intros [-> | ->]; [reflexivity |]. now destruct (IsLiteralWithValue hi 0).
Qed.

(** C8. In [BinaryInfix] emission the left operand is wrapped in
    parentheses iff its precedence is strictly below the operator's or it
    is a unary reduction, and the right operand iff its precedence is below
    or equal to the operator's or it is a unary reduction; so a
    unary-reduction operand of a binary operator is always wrapped.  In
    [Unary] emission the argument is wrapped iff its precedence is strictly
    below or it is itself a unary; so a unary nested directly in a unary is
    always wrapped.  An operand that is not wrapped is emitted as is. *)
Theorem C8_operand_parenthesization :
  forall (lhs rhs arg : Expression) (op uop : string) (ls rs sa : string),
    emit lhs = Some ls -> emit rhs = Some rs -> emit arg = Some sa ->
    let bin := BinaryInfix lhs op rhs in
    let un := Unary uop arg in
    (exists L R,
        emit bin = Some (L +:+ " " +:+ op +:+ " " +:+ R)
        /\ (L = ParenWrap ls <->
              (precedence lhs < precedence bin)%Z \/ is_unary_reduction IsReduction lhs = true)
        /\ (L = ls <->
              ~ ((precedence lhs < precedence bin)%Z \/ is_unary_reduction IsReduction lhs = true))
        /\ (R = ParenWrap rs <->
              (precedence rhs <= precedence bin)%Z \/ is_unary_reduction IsReduction rhs = true)
        /\ (R = rs <->
              ~ ((precedence rhs <= precedence bin)%Z \/ is_unary_reduction IsReduction rhs = true)))
    /\ (exists A,
        emit un = Some (uop +:+ A)
        /\ (A = ParenWrap sa <->
              (precedence arg < precedence un)%Z \/ IsUnary arg = true)
        /\ (A = sa <->
              ~ ((precedence arg < precedence un)%Z \/ IsUnary arg = true))).
Proof.
  intros lhs rhs arg op uop ls rs sa Hl Hr Ha bin un.
  assert (W : forall (b : bool) (P : Prop) (x : string),
             (b = true <-> P) ->
             ((if b then ParenWrap x else x) = ParenWrap x <-> P)
             /\ ((if b then ParenWrap x else x) = x <-> ~ P)).
  { intros b P x HbP. pose proof (ParenWrap_neq x) as Hne.
    assert (Hsym : x <> ParenWrap x) by congruence.
    destruct b; (split; split; intros H).
    - apply HbP. reflexivity.
    - reflexivity.
    - contradiction.
    - exfalso. apply H, HbP. reflexivity.
    - contradiction.
    - apply HbP in H. discriminate.
    - intros HP. apply HbP in HP. discriminate.
    - reflexivity. }
  split.
  - pose proof (W ((precedence lhs <? precedence bin)%Z
                   || is_unary_reduction IsReduction lhs) _ ls
                  ltac:(rewrite orb_true_iff, Z.ltb_lt; reflexivity)) as [L1 L2].
    pose proof (W ((precedence rhs <=? precedence bin)%Z
                   || is_unary_reduction IsReduction rhs) _ rs
                  ltac:(rewrite orb_true_iff, Z.leb_le; reflexivity)) as [R1 R2].
    eexists _, _. split; [| exact (conj L1 (conj L2 (conj R1 R2)))].
    subst bin. cbn [Emit]. rewrite Hl, Hr. reflexivity.
  - pose proof (W ((precedence arg <? precedence un)%Z || IsUnary arg) _ sa
                  ltac:(rewrite orb_true_iff, Z.ltb_lt; reflexivity)) as [A1 A2].
    eexists. split; [| exact (conj A1 A2)].
    subst un. cbn [Emit]. rewrite Ha. reflexivity.
Qed.

End EmissionFacts.

(** ** Test fixtures in the style of [vast_test.cc] *)

Module Fixtures.

(** Precedence levels as the file factory hands them out: operators carry
    their table entry, every other expression binds tightest. *)
Definition precedence (e : Expression) : Z :=
  match e with
  | Ternary _ _ _ => 0
  | BinaryInfix _ op _ =>
      if String.eqb op "*" then 10
      else if String.eqb op "+" then 9
      else if String.eqb op "||" then 1
      else 5
  | Unary _ _ => 12
  | _ => 13
  end%Z.

Definition IsReduction (e : Expression) : bool :=
  match e with
  | Unary op _ => String.eqb op "|" || String.eqb op "&" || String.eqb op "^"
  | _ => false
  end.

Definition IsScalar (t : DataType) : bool :=
  match t with
  | MkDataType _ None [] [] => true
  | _ => false
  end.

Definition Bits_ToString (_ : FormatPreference) (b : Bits) : string :=
  pretty (bits_value b).

Definition Bits_ToRawDigits (_ : FormatPreference) (b : Bits) (_ : bool) : string :=
  pretty (bits_value b).

Definition emit : Expression -> option string :=
  Emit precedence IsReduction IsScalar Bits_ToString Bits_ToRawDigits.

Definition PlainLiteral (v : N) : Expression :=
  Literal (MkBits 32 v) kDefault true.

Definition scalar_logic (name : string) : Expression :=
  LogicRef (MkDef name kLogic (MkDataType false None [] [])).

Definition vector_logic (name : string) (w : N) : Expression :=
  LogicRef (MkDef name kLogic (MkDataType false (Some (PlainLiteral w)) [] [])).

Definition r := scalar_logic "r".
Definition a := vector_logic "a" 8.
Definition b := vector_logic "b" 8.
Definition c := vector_logic "c" 8.

Example scalar_index_zero : emit (Index r (PlainLiteral 0)) = Some "r".
Proof. reflexivity. Qed.

Example scalar_slice_zero :
  emit (Slice r (PlainLiteral 0) (PlainLiteral 0)) = Some "r".
Proof. reflexivity. Qed.

Example scalar_index_one : emit (Index r (PlainLiteral 1)) = None.
Proof. reflexivity. Qed.

Example scalar_index_non_literal : emit (Index r a) = None.
Proof. reflexivity. Qed.

Example vector_index : emit (Index a (PlainLiteral 3)) = Some "a[3]".
Proof. vm_compute. reflexivity. Qed.

Example left_assoc_no_parens :
  emit (BinaryInfix (BinaryInfix a "+" b) "+" c) = Some "a + b + c".
Proof. vm_compute. reflexivity. Qed.

Example right_operand_parens :
  emit (BinaryInfix a "+" (BinaryInfix b "+" c)) = Some "a + (b + c)".
Proof. vm_compute. reflexivity. Qed.

Example lower_precedence_parens :
  emit (BinaryInfix (BinaryInfix a "+" b) "*" c) = Some "(a + b) * c".
Proof. vm_compute. reflexivity. Qed.

Example reduction_operands_wrapped :
  emit (BinaryInfix (Unary "|" a) "||" (Unary "|" b)) = Some "(|a) || (|b)".
Proof. vm_compute. reflexivity. Qed.

Example nested_unary_wrapped :
  emit (Unary "-" (Unary "~" a)) = Some "-(~a)".
Proof. vm_compute. reflexivity. Qed.

End Fixtures.

Lemma C7_scalar_index_slice_elided_witness :
  IsScalarLogicRef Fixtures.IsScalar Fixtures.r = true
  /\ Fixtures.emit (Index Fixtures.r (Fixtures.PlainLiteral 0)) = Fixtures.emit Fixtures.r
  /\ Fixtures.emit (Index Fixtures.r (Fixtures.PlainLiteral 1)) = None.
Proof.
  pose proof (C7_scalar_index_slice_elided
                Fixtures.precedence Fixtures.IsReduction Fixtures.IsScalar
                Fixtures.Bits_ToString Fixtures.Bits_ToRawDigits
                Fixtures.r (Fixtures.PlainLiteral 0) (Fixtures.PlainLiteral 0)
                (Fixtures.PlainLiteral 0) eq_refl) as (_ & H0 & _).
  pose proof (C7_scalar_index_slice_elided
                Fixtures.precedence Fixtures.IsReduction Fixtures.IsScalar
                Fixtures.Bits_ToString Fixtures.Bits_ToRawDigits
                Fixtures.r (Fixtures.PlainLiteral 1) (Fixtures.PlainLiteral 0)
                (Fixtures.PlainLiteral 0) eq_refl) as (_ & _ & H1 & _).
  split; [reflexivity |]. split; [exact (H0 eq_refl) | exact (H1 eq_refl)].
Defined.

Lemma C8_operand_parenthesization_witness :
  exists L R,
    Fixtures.emit (BinaryInfix (BinaryInfix Fixtures.a "+" Fixtures.b) "*"
                               (Unary "|" Fixtures.c))
    = Some (L +:+ " " +:+ "*" +:+ " " +:+ R)
    /\ L = ParenWrap "a + b" /\ R = ParenWrap "|c".
Proof.
  destruct (C8_operand_parenthesization
              Fixtures.precedence Fixtures.IsReduction Fixtures.IsScalar
              Fixtures.Bits_ToString Fixtures.Bits_ToRawDigits
              (BinaryInfix Fixtures.a "+" Fixtures.b) (Unary "|" Fixtures.c)
              Fixtures.a "*" "-" "a + b" "|c" "a"
              eq_refl eq_refl eq_refl)
    as ((L & R & HE & HL & _ & HR & _) & _).
  exists L, R. split; [exact HE |]. split.
  - apply HL. left. reflexivity.
  - apply HR. right. reflexivity.
Defined.

End Vast.

(* ===================================================================== *)
(** * Results of fallible operations ([absl::Status], [absl::StatusOr])   *)
(* ===================================================================== *)

Inductive StatusCode :=
  | kInternal | kUnavailable | kInvalidArgument | kFailedPrecondition | kNotFound.

Record Status := MkStatus { status_code : StatusCode; status_message : string }.

Inductive StatusOr (A : Type) : Type :=
  | Ok (a : A)
  | Error (s : Status).
Arguments Ok {A} a.
Arguments Error {A} s.

Definition InternalError {A} (msg : string) : StatusOr A :=
  Error (MkStatus kInternal msg).
Definition UnavailableError {A} (msg : string) : StatusOr A :=
  Error (MkStatus kUnavailable msg).
Definition InvalidArgumentError {A} (msg : string) : StatusOr A :=
  Error (MkStatus kInvalidArgument msg).

#[global] Instance StatusOr_ret : MRet StatusOr := fun A a => Ok a.
#[global] Instance StatusOr_bind : MBind StatusOr := fun A B f m =>
  match m with
  | Ok a => f a
  | Error s => Error s
  end.

(** A [for] loop over [l] whose body may return early with an error
    ([XLS_RETURN_IF_ERROR] inside the loop). *)
Fixpoint for_each {A S} (body : S -> A -> StatusOr S) (l : list A) (s : S)
  : StatusOr S :=
  match l with
  | [] => Ok s
  | x :: rest => s' ← body s x; for_each body rest s'
  end.

Lemma bind_Ok_inv {A B} (m : StatusOr A) (f : A -> StatusOr B) (b : B) :
  m ≫= f = Ok b -> exists a, m = Ok a /\ f a = Ok b.
Proof. destruct m as [a | s]; cbn; [eauto | discriminate]. Qed.

Lemma for_each_app {A S} (body : S -> A -> StatusOr S) l1 l2 s :
  for_each body (l1 ++ l2) s = s' ← for_each body l1 s; for_each body l2 s'.
Proof.
  revert s. induction l1 as [| x l1 IH]; intros s; cbn; [reflexivity |].
  destruct (body s x); cbn; [apply IH | reflexivity].
Qed.

(** An invariant of the loop body is an invariant of the loop. *)
Lemma for_each_invariant {A S} (body : S -> A -> StatusOr S) (I : S -> Prop) l :
  (forall s x s', x ∈ l -> I s -> body s x = Ok s' -> I s') ->
  forall s s', I s -> for_each body l s = Ok s' -> I s'.
Proof.
  induction l as [| x l IH]; intros Hbody s s' Hs; cbn.
  - now intros [= <-].
  - intros H. apply bind_Ok_inv in H as (s1 & H1 & H2).
    eapply IH; [| | exact H2].
    + intros ? ? ? Hin. apply Hbody. now right.
    + eapply Hbody; [left | exact Hs | exact H1].
Qed.

Lemma foldl_invariant_gen {A B} (I : B -> Prop) (f : B -> A -> B) (l : list A) (s : B) :
  (forall s x, x ∈ l -> I s -> I (f s x)) -> I s -> I (foldl f s l).
Proof.
  revert s. induction l as [| x l IH]; intros s Hf Hs; cbn; [exact Hs |].
  apply IH.
  - intros ? ? Hin. apply Hf. now right.
  - apply Hf; [left | exact Hs].
Qed.

(** ** Deleting a descending run of indices

    Both sub-passes of the proc-state optimiser gather the indices to drop
    from the highest to the lowest and then delete them one by one. *)

Definition delete_all {A} (indices : list nat) (xs : list A) : list A :=
  foldl (fun acc i => delete i acc) xs indices.

(** The elements of [xs] at the given positions. *)
Definition select {A} (indices : list nat) (xs : list A) : list A :=
  omap (fun i => xs !! i) indices.

Lemma select_delete_lt {A} (indices : list nat) (xs : list A) m :
  Forall (fun i => i < m) indices ->
  select indices (delete m xs) = select indices xs.
Proof.
  induction 1 as [| i l Hi _ IH]; cbn; [reflexivity |].
  unfold select in IH. rewrite IH, list_lookup_delete_lt by exact Hi. reflexivity.
Qed.

Lemma delete_descending {A} (P : nat -> bool) (xs : list A) n :
  n <= length xs ->
  delete_all (filter (fun i => P i = true) (reverse (seq 0 n))) xs
  = select (filter (fun i => P i = false) (seq 0 n)) xs ++ drop n xs.
Proof.
  revert xs. induction n as [| n IH]; intros xs Hn; [reflexivity |].
  rewrite seq_S, reverse_snoc, filter_app. cbn [Nat.add].
  assert (Hlt : Forall (fun i => i < n) (filter (fun i => P i = false) (seq 0 n))).
  { apply Forall_forall. intros i Hi.
    apply list_elem_of_filter in Hi as [_ Hi]. apply elem_of_seq in Hi. lia. }
  destruct (lookup_lt_is_Some_2 xs n ltac:(lia)) as [x Hx].
  destruct (P n) eqn:Pn.
  - rewrite filter_cons_True by exact Pn.
    rewrite (filter_cons_False _ n []) by congruence.
    rewrite filter_nil, app_nil_r. cbn [delete_all foldl].
    change (foldl _ (delete n xs) ?l) with (delete_all l (delete n xs)).
    rewrite IH by (rewrite length_delete; [lia | eauto]).
    rewrite select_delete_lt by exact Hlt. f_equal.
    rewrite delete_take_drop, drop_app_length'; [reflexivity |].
    rewrite length_take. lia.
  - rewrite filter_cons_False by congruence.
    rewrite (filter_cons_True _ n []) by exact Pn.
    rewrite filter_nil. rewrite IH by lia.
    unfold select. rewrite omap_app. cbn. rewrite Hx. cbn.
    rewrite <- app_assoc. cbn. f_equal.
    first [now apply drop_S | symmetry; now apply drop_S].
Qed.

Lemma delete_descending_all {A} (P : nat -> bool) (xs : list A) :
  delete_all (filter (fun i => P i = true) (reverse (seq 0 (length xs)))) xs
  = select (filter (fun i => P i = false) (seq 0 (length xs))) xs.
Proof. rewrite delete_descending, drop_all, app_nil_r by lia. reflexivity. Qed.

Lemma elem_of_select {A} (indices : list nat) (xs : list A) x :
  x ∈ select indices xs <-> exists i, i ∈ indices /\ xs !! i = Some x.
Proof. apply list_elem_of_omap. Qed.

Lemma Forall_delete_all {A} (Q : A -> Prop) indices (xs : list A) :
  Forall Q xs -> Forall Q (delete_all indices xs).
Proof.
  revert xs. induction indices as [| i l IH]; intros xs H; [exact H |].
  apply IH. now apply Forall_delete.
Qed.

(** Gathered from the top, the indices come out strictly descending. *)
Definition descending (l : list nat) : Prop :=
  forall i j a b, i < j -> l !! i = Some a -> l !! j = Some b -> b < a.

Lemma descending_cons a l :
  descending (a :: l) <-> Forall (fun b => b < a) l /\ descending l.
Proof.
  split.
  - intros H. split.
    + apply Forall_lookup. intros j b Hb. apply (H 0 (S j) a b); [lia | |]; auto.
    + intros i j x y Hij Hx Hy. apply (H (S i) (S j)); [lia | |]; auto.
  - intros [Ha Hl] i j x y Hij Hx Hy.
    destruct j as [| j]; [lia |]. cbn in Hy.
    destruct i as [| i]; cbn in Hx.
    + injection Hx as <-. eapply Forall_lookup in Ha; eauto.
    + apply (Hl i j); [lia | |]; auto.
Qed.

Lemma filter_reverse_seq_descending (P : nat -> bool) n :
  descending (filter (fun i => P i = true) (reverse (seq 0 n))).
Proof.
  induction n as [| n IH]; [intros [] ? ? ? ?; discriminate |].
  rewrite seq_S, reverse_snoc. cbn [Nat.add].
  destruct (P n) eqn:Pn.
  - rewrite filter_cons_True by exact Pn. apply descending_cons. split; [| exact IH].
    apply Forall_forall. intros i Hi.
    apply list_elem_of_filter in Hi as [_ Hi].
    apply elem_of_reverse, elem_of_seq in Hi. lia.
  - rewrite filter_cons_False by congruence. exact IH.
Qed.

(* ===================================================================== *)
(** * Part II: proc-state optimisation                                    *)
(**   ([xls/passes/proc_state_optimization_pass.cc])                      *)
(* ===================================================================== *)

Module ProcOpt.

(** ** The IR the pass works on

    The IR classes ([Type], [Value], [Node], [Proc], [InlineBitmap],
    [UnionFind], [DataFlowVisitor]) live in headers outside the pass; this
    section gives them the shape the specification describes. *)

(** Modelled from the spec: [xls/ir/type.h].  "A sum over [bits(width)],
    [tuple(elements)], [array(element, size)], [token] (order-only, zero
    bits)." *)
Inductive IrType : Type :=
  | BitsType (width : N)
  | TupleType (elements : list IrType)
  | ArrayType (size : N) (element : IrType)
  | TokenType.

(** Modelled from the spec: [Type::GetFlatBitCount].  "Every type has a
    flat bit count (0 for token)." *)
Fixpoint GetFlatBitCount (t : IrType) : N :=
  match t with
  | BitsType w => w
  | TupleType ts =>
      (fix sum (l : list IrType) : N :=
         match l with
         | [] => 0
         | x :: rest => GetFlatBitCount x + sum rest
         end) ts
  | ArrayType n e => n * GetFlatBitCount e
  | TokenType => 0
  end%N.

(** Number of leaves of a [LeafTypeTree] over [t]: bits and token types are
    leaves, tuples and arrays are interior. *)
Fixpoint leaf_count (t : IrType) : nat :=
  match t with
  | BitsType _ => 1
  | TupleType ts =>
      (fix sum (l : list IrType) : nat :=
         match l with
         | [] => 0
         | x :: rest => leaf_count x + sum rest
         end) ts
  | ArrayType n e => N.to_nat n * leaf_count e
  | TokenType => 1
  end.

(** Modelled from the spec: [xls/ir/value.h]. *)
Inductive Value : Type :=
  | VBits (width : N) (value : N)
  | VTuple (elements : list Value)
  | VArray (elements : list Value)
  | VToken.

(** Modelled from the spec: [ZeroOfType] of [xls/ir/value_helpers.h], the
    "zero-literal of its type". *)
Fixpoint ZeroOfType (t : IrType) : Value :=
  match t with
  | BitsType w => VBits w 0
  | TupleType ts => VTuple (ZeroOfType <$> ts)
  | ArrayType n e => VArray (replicate (N.to_nat n) (ZeroOfType e))
  | TokenType => VToken
  end.

Inductive Op :=
  | kParam | kLiteral
  | kAdd | kSub | kNot | kConcat | kSel | kTuple | kTupleIndex | kIdentity
  | kAfterAll
  | kSend | kReceive | kAssert | kCover | kTrace.

#[global] Instance Op_eq_dec : EqDecision Op.
Proof. solve_decision. Defined.

(** Modelled from the spec: [OpIsSideEffecting] of [xls/ir/op.h].  "Any op
    whose execution has externally visible effect (send, receive, assert,
    cover, and similar)"; parameters count as side-effecting too, which is
    why the pass excludes them by hand. *)
Definition OpIsSideEffecting (op : Op) : bool :=
  match op with
  | kParam | kSend | kReceive | kAssert | kCover | kTrace => true
  | _ => false
  end.

(** A node: its identity ([Node*]), operation, operands and result type; a
    literal also carries its value. *)
Record Node := MkNode {
  node_id : nat;
  node_op : Op;
  node_operands : list nat;
  node_type : IrType;
  node_value : option Value;
}.

(** A proc: its nodes in [nodes()] order, the token parameter, and per state
    element the parameter, the initial value and the next-state node.
    [next_node_id] is the id the next created node receives. *)
Record Proc := MkProc {
  proc_nodes : list Node;
  token_param : nat;
  state_params : list Node;
  init_values : list Value;
  next_state : list nat;
  next_token : nat;
  next_node_id : nat;
}.

Definition GetStateElementCount (p : Proc) : nat := length (state_params p).

Definition GetStateParam (p : Proc) (i : nat) : option Node := state_params p !! i.

Definition GetStateElementType (p : Proc) (i : nat) : option IrType :=
  node_type <$> GetStateParam p i.

Definition GetNextStateElement (p : Proc) (i : nat) : option nat := next_state p !! i.

Definition GetNode (p : Proc) (id : nat) : option Node :=
  List.find (fun n => Nat.eqb (node_id n) id) (proc_nodes p).

(** [absl::StatusOr<int64_t> Proc::GetStateParamIndex(Param* param)] *)
Fixpoint index_of (id : nat) (l : list Node) (i : nat) : option nat :=
  match l with
  | [] => None
  | n :: rest => if Nat.eqb (node_id n) id then Some i else index_of id rest (S i)
  end.

Definition GetStateParamIndex (p : Proc) (param : nat) : StatusOr nat :=
  match index_of param (state_params p) 0 with
  | Some i => Ok i
  | None => InvalidArgumentError "Given node is not a state parameter"
  end.

(** [Node::IsDead]: no user and no implicit use (for a proc, being the next
    token or a next-state value). *)
Definition IsDead (p : Proc) (id : nat) : bool :=
  forallb (fun n => negb (existsb (Nat.eqb id) (node_operands n))) (proc_nodes p)
  && negb (existsb (Nat.eqb id) (next_state p))
  && negb (Nat.eqb id (next_token p)).

Definition replace_id (old new x : nat) : nat :=
  if Nat.eqb x old then new else x.

Definition replace_operands (old new : nat) (n : Node) : Node :=
  MkNode (node_id n) (node_op n) (replace_id old new <$> node_operands n)
         (node_type n) (node_value n).

(** Modelled from the spec: [Node::ReplaceUsesWithNew<Literal>(value)].  A
    literal node is created (nodes are "created append-only") and "all
    users rewritten": operands, next-state bindings and the next token that
    were [old] now are the literal.  The literal is created with the type
    of the node it replaces, so the type check of the replacement holds. *)
Definition ReplaceUsesWithNewLiteral (p : Proc) (old : Node) (v : Value)
  : StatusOr Proc :=
  let lit := MkNode (next_node_id p) kLiteral [] (node_type old) (Some v) in
  Ok (MkProc ((replace_operands (node_id old) (node_id lit) <$> proc_nodes p) ++ [lit])
             (token_param p)
             (state_params p)
             (init_values p)
             (replace_id (node_id old) (node_id lit) <$> next_state p)
             (replace_id (node_id old) (node_id lit) (next_token p))
             (S (next_node_id p))).

(** Modelled from the spec: [Proc::RemoveStateElement(index)].  "Remove the
    state element (which also drops its next-state binding)"; "removal of a
    state element renumbers subsequent elements"; a node is "removed when
    dead". *)
Definition RemoveStateElement (p : Proc) (index : nat) : StatusOr Proc :=
  match GetStateParam p index with
  | None => InternalError "state element index out of range"
  | Some param =>
      let p' := MkProc (proc_nodes p) (token_param p)
                       (delete index (state_params p))
                       (delete index (init_values p))
                       (delete index (next_state p))
                       (next_token p) (next_node_id p) in
      if IsDead p' (node_id param) then
        Ok (MkProc (filter (fun n => node_id n ≠ node_id param) (proc_nodes p'))
                   (token_param p') (state_params p') (init_values p')
                   (next_state p') (next_token p') (next_node_id p'))
      else InvalidArgumentError "state parameter is not dead"
  end.

(** ** Zero-width elimination *)

(** The first loop of [RemoveZeroWidthStateElements]: indices of zero-width
    elements, gathered from [count - 1] down to [0]. *)
Definition is_zero_width (p : Proc) (i : nat) : bool :=
  match GetStateElementType p i with
  | Some t => (GetFlatBitCount t =? 0)%N
  | None => false
  end.

Definition zero_width_indices (p : Proc) : list nat :=
  filter (fun i => is_zero_width p i = true)
         (reverse (seq 0 (GetStateElementCount p))).

(** The body of its second loop: replace the uses of parameter [i] by a
    zero literal, then remove the element. *)
Definition remove_zero_width_element (p : Proc) (i : nat) : StatusOr Proc :=
  match GetStateParam p i with
  | None => InternalError "state element index out of range"
  | Some param =>
      p1 ← ReplaceUsesWithNewLiteral p param (ZeroOfType (node_type param));
      RemoveStateElement p1 i
  end.

(** [absl::StatusOr<bool> RemoveZeroWidthStateElements(Proc* proc)]; the
    result pairs the [changed] flag with the rewritten proc. *)
Definition RemoveZeroWidthStateElements (p : Proc) : StatusOr (bool * Proc) :=
  let to_remove := zero_width_indices p in
  match to_remove with
  | [] => Ok (false, p)
  | _ => p' ← for_each remove_zero_width_element to_remove p; Ok (true, p')
  end.

(** ** State dependencies *)

(** [InlineBitmap]: a fixed-length vector of bits. *)
Definition InlineBitmap := list bool.

Definition Bitmap_new (n : nat) : InlineBitmap := replicate n false.
Definition Bitmap_Set (b : InlineBitmap) (i : nat) (v : bool) : InlineBitmap := <[i := v]> b.
Definition Bitmap_Get (b : InlineBitmap) (i : nat) : bool := default false (b !! i).
Definition Bitmap_Union (a b : InlineBitmap) : InlineBitmap := zip_with orb a b.

(** [LeafTypeTree<InlineBitmap>(type, bitmap)]: one copy of the bitmap per
    leaf of the type; [elements()] lists them. *)
Definition LeafTypeTree := list InlineBitmap.
Definition LeafTypeTree_make (t : IrType) (b : InlineBitmap) : LeafTypeTree :=
  replicate (leaf_count t) b.

(** The union of all bitmaps of a tree, starting from an empty bitmap of
    [count] bits: the loop shared by [FlattenOperandBitmaps] and
    [FlattenNodeBitmaps]. *)
Definition union_all (acc : InlineBitmap) (tree : LeafTypeTree) : InlineBitmap :=
  foldl Bitmap_Union acc tree.

(** Modelled from the spec: the dispatch of [DataFlowVisitor<InlineBitmap>]
    ([xls/passes/dataflow_visitor.h], not among the sources), from which
    [StateDependencyVisitor] inherits the handlers of the operations it
    does not override.  "The parameter for state i has bitmap {i}; every
    other node's bitmap is the union of its operands' bitmaps.  (Token
    parameter has empty bitmap.)"  So every operation other than a
    parameter is given to [DefaultHandler].

    The two handlers themselves are those of the source:
    - [HandleParam]: the token parameter goes to [DefaultHandler]; a state
      parameter depends only on itself.
    - [DefaultHandler]: every leaf depends on all state elements that occur
      in the operands ([FlattenOperandBitmaps]).

    The function gives the value the visitor assigns to a node.  Operands
    are visited before their users ([proc->Accept(&visitor)] walks the
    graph depth first); [fuel] bounds the depth of that walk, and the node
    count of the proc always suffices on an acyclic graph. *)
Fixpoint visit (fuel : nat) (p : Proc) (id : nat) : StatusOr LeafTypeTree :=
  match fuel with
  | O => InternalError "cycle in the node graph"
  | S fuel' =>
      match GetNode p id with
      | None => InternalError "operand is not a node of the proc"
      | Some node =>
          let DefaultHandler :=
            result ← for_each
                       (fun (result : InlineBitmap) (operand : nat) =>
                          tree ← visit fuel' p operand;
                          Ok (union_all result tree))
                       (node_operands node)
                       (Bitmap_new (GetStateElementCount p));
            Ok (LeafTypeTree_make (node_type node) result) in
          if decide (node_op node = kParam) then
            if Nat.eqb (node_id node) (token_param p) then DefaultHandler
            else
              index ← GetStateParamIndex p (node_id node);
              let bitmap := Bitmap_Set (Bitmap_new (GetStateElementCount p)) index true in
              Ok (LeafTypeTree_make (node_type node) bitmap)
          else DefaultHandler
      end
  end.

(** [InlineBitmap FlattenNodeBitmaps(Node* node)] *)
Definition FlattenNodeBitmaps (p : Proc) (id : nat) : StatusOr InlineBitmap :=
  tree ← visit (S (length (proc_nodes p))) p id;
  Ok (union_all (Bitmap_new (GetStateElementCount p)) tree).

(** [ComputeStateDependencies(Proc* proc)]: a bitmap per node.
    [flat_hash_map::insert] keeps an entry that is already there. *)
Definition ComputeStateDependencies (p : Proc) : StatusOr (gmap nat InlineBitmap) :=
  for_each
    (fun (state_dependencies : gmap nat InlineBitmap) (node : Node) =>
       bitmap ← FlattenNodeBitmaps p (node_id node);
       Ok (match state_dependencies !! node_id node with
           | Some _ => state_dependencies
           | None => <[node_id node := bitmap]> state_dependencies
           end))
    (proc_nodes p) ∅.

(** [state_dependencies.at(node)]; every node of the proc has an entry. *)
Definition deps_at (sd : gmap nat InlineBitmap) (id : nat) : InlineBitmap :=
  default [] (sd !! id).

(** ** Union-find *)

(** Modelled from the spec: [UnionFind<int64_t>] of
    [xls/data_structures/union_find.h], "a union-find over [{0..N-1}]".
    Each element maps to the representative of its class; [Union] moves the
    whole class of [a] to the representative of [b]. *)
Definition UF_Insert (x : nat) (uf : gmap nat nat) : gmap nat nat :=
  match uf !! x with
  | Some _ => uf
  | None => <[x := x]> uf
  end.

Definition UF_Find (uf : gmap nat nat) (x : nat) : nat := default x (uf !! x).

Definition UF_Union (a b : nat) (uf : gmap nat nat) : gmap nat nat :=
  let ra := UF_Find uf a in
  let rb := UF_Find uf b in
  (fun r => if decide (r = ra) then rb else r) <$> uf.

(** ** Unobservable-state elimination *)

(** [next_state_indices]: from a node to the indices whose next-state value
    it is. *)
Definition next_state_indices (p : Proc) : gmap nat (list nat) :=
  foldl (fun (m : gmap nat (list nat)) (i : nat) =>
           match GetNextStateElement p i with
           | Some n => <[n := default [] (m !! n) ++ [i]]> m
           | None => m
           end)
        ∅ (seq 0 (GetStateElementCount p)).

(** The analysis state: the equivalence classes and the optional
    [observable_state_index]. *)
Definition Analysis : Type := gmap nat nat * option nat.

(** Loop over a side-effecting node's bitmap: the first index seen seeds
    [observable_state_index], every later one is united with it. *)
Definition mark_observable (count : nat) (deps : InlineBitmap) (st : Analysis) : Analysis :=
  foldl (fun (st : Analysis) (i : nat) =>
           if Bitmap_Get deps i then
             match st.2 with
             | None => (st.1, Some i)
             | Some o => (UF_Union i o st.1, st.2)
             end
           else st)
        st (seq 0 count).

(** Loop over the bitmap of the next-state node of [next_state_index]. *)
Definition union_next_state (count : nat) (deps : InlineBitmap)
    (st : Analysis) (next_state_index : nat) : Analysis :=
  foldl (fun (st : Analysis) (i : nat) =>
           if Bitmap_Get deps i then (UF_Union i next_state_index st.1, st.2) else st)
        st (seq 0 count).

(** The body of the loop over [proc->nodes()]. *)
Definition analyse_node (p : Proc) (sd : gmap nat InlineBitmap)
    (st : Analysis) (node : Node) : Analysis :=
  let count := GetStateElementCount p in
  let st1 :=
    if OpIsSideEffecting (node_op node) && negb (bool_decide (node_op node = kParam))
    then mark_observable count (deps_at sd (node_id node)) st
    else st in
  match next_state_indices p !! node_id node with
  | Some indices =>
      foldl (union_next_state count (deps_at sd (node_id node))) st1 indices
  | None => st1
  end.

Definition analyse (p : Proc) (sd : gmap nat InlineBitmap) : Analysis :=
  let uf0 := foldl (fun uf i => UF_Insert i uf) ∅ (seq 0 (GetStateElementCount p)) in
  let st := foldl (analyse_node p sd) (uf0, None) (proc_nodes p) in
  (st.1, UF_Find st.1 <$> st.2).

(** The test of the gathering loop:
    [!observable_state_index.has_value() ||
     state_components.Find(i) != observable_state_index.value()]. *)
Definition is_unobservable (st : Analysis) (i : nat) : bool :=
  match st.2 with
  | None => true
  | Some o => negb (Nat.eqb (UF_Find st.1 i) o)
  end.

(** [to_remove]: the unobservable indices, from [count - 1] down to [0]. *)
Definition unobservable_indices (p : Proc) (sd : gmap nat InlineBitmap) : list nat :=
  filter (fun i => is_unobservable (analyse p sd) i = true)
         (reverse (seq 0 (GetStateElementCount p))).

Definition replace_with_zero_if_used (p : Proc) (i : nat) : StatusOr Proc :=
  match GetStateParam p i with
  | None => InternalError "state element index out of range"
  | Some state_param =>
      if IsDead p (node_id state_param) then Ok p
      else ReplaceUsesWithNewLiteral p state_param (ZeroOfType (node_type state_param))
  end.

(** [absl::StatusOr<bool> RemoveUnobservableStateElements(Proc* proc)] *)
Definition RemoveUnobservableStateElements (p : Proc) : StatusOr (bool * Proc) :=
  state_dependencies ← ComputeStateDependencies p;
  let to_remove := unobservable_indices p state_dependencies in
  match to_remove with
  | [] => Ok (false, p)
  | _ =>
      p1 ← for_each replace_with_zero_if_used to_remove p;
      p2 ← for_each RemoveStateElement to_remove p1;
      Ok (true, p2)
  end.

(** [ProcStateOptimizationPass::RunOnProcInternal] *)
Definition RunOnProcInternal (p : Proc) : StatusOr (bool * Proc) :=
  '(zero_width_changed, p1) ← RemoveZeroWidthStateElements p;
  '(unobservable_changed, p2) ← RemoveUnobservableStateElements p1;
  Ok (zero_width_changed || unobservable_changed, p2).

(** ** Procs of the specification's scenarios *)

Module Scenarios.

Definition u8 := BitsType 8.
Definition param (id : nat) (t : IrType) := MkNode id kParam [] t None.

(** Scenario 1: state [{a: bits(0), b: bits(8)}], [b' = op(a, b)], and a
    send of [b]. *)
Definition zero_width_proc : Proc :=
  MkProc [ param 0 TokenType; param 1 (BitsType 0); param 2 u8;
           MkNode 3 kConcat [1; 2] u8 None;
           MkNode 4 kSend [0; 2] TokenType None ]
         0 [param 1 (BitsType 0); param 2 u8] [VBits 0 0; VBits 8 0]
         [1; 3] 4 5.

(** Scenario 2: states [{x, y}], only [x] feeds a send, and the next state
    of [y] depends only on [y]. *)
Definition unobservable_proc : Proc :=
  MkProc [ param 0 TokenType; param 1 u8; param 2 u8;
           MkNode 3 kSend [0; 1] TokenType None;
           MkNode 4 kNot [2] u8 None ]
         0 [param 1 u8; param 2 u8] [VBits 8 0; VBits 8 0]
         [1; 4] 3 5.

(** States [{x, y}]: only [x] feeds a send, the next state of [x] is [x],
    and the next state of [y] is [x + y]. *)
Definition follower_proc : Proc :=
  MkProc [ param 0 TokenType; param 1 u8; param 2 u8;
           MkNode 3 kSend [0; 1] TokenType None;
           MkNode 4 kAdd [1; 2] u8 None ]
         0 [param 1 u8; param 2 u8] [VBits 8 0; VBits 8 0]
         [1; 4] 3 5.

Example scenario_zero_width :
  RunOnProcInternal zero_width_proc =
  Ok (true,
      MkProc [ param 0 TokenType; param 2 u8;
               MkNode 3 kConcat [5; 2] u8 None;
               MkNode 4 kSend [0; 2] TokenType None;
               MkNode 5 kLiteral [] (BitsType 0) (Some (VBits 0 0)) ]
             0 [param 2 u8] [VBits 8 0] [3] 4 6).
Proof. vm_compute. reflexivity. Qed.

Example scenario_unobservable :
  RunOnProcInternal unobservable_proc =
  Ok (true,
      MkProc [ param 0 TokenType; param 1 u8;
               MkNode 3 kSend [0; 1] TokenType None;
               MkNode 4 kNot [5] u8 None;
               MkNode 5 kLiteral [] u8 (Some (VBits 8 0)) ]
             0 [param 1 u8] [VBits 8 0] [1] 3 6).
Proof. vm_compute. reflexivity. Qed.

Example scenario_follower :
  RunOnProcInternal follower_proc = Ok (false, follower_proc).
Proof. vm_compute. reflexivity. Qed.

End Scenarios.

(** ** Observability *)

Lemma foldl_invariant {A B} (f : B -> A -> B) (I : B -> Prop) (l : list A) :
  (forall s x, x ∈ l -> I s -> I (f s x)) ->
  forall s, I s -> I (foldl f s l).
Proof.
  induction l as [| x l IH]; intros Hf s Hs; cbn; [exact Hs |].
  apply IH.
  - intros ? ? Hin. apply Hf. now right.
  - apply Hf; [left | exact Hs].
Qed.

Section Observability.

Variable p : Proc.
Variable sd : gmap nat InlineBitmap.

(** Some side-effecting node that is not a parameter has [i] in its
    bitmap. *)
Definition side_effect_depends (i : nat) : Prop :=
  exists node, node ∈ proc_nodes p
    /\ OpIsSideEffecting (node_op node) = true
    /\ node_op node <> kParam
    /\ Bitmap_Get (deps_at sd (node_id node)) i = true.

(** The next-state value of element [k] has [i] in its bitmap. *)
Definition next_state_depends (k i : nat) : Prop :=
  exists n, GetNextStateElement p k = Some n
    /\ Bitmap_Get (deps_at sd n) i = true.

(** Observability as the specification defines it: [i] is reached from a
    side-effect dependency by following next-state dependencies. *)
Definition observable (i : nat) : Prop :=
  exists e, side_effect_depends e /\ rtc next_state_depends e i.

(** What the equivalence classes track: [i] is joined to a side-effect
    dependency by next-state dependencies followed in either direction. *)
Definition linked_to_side_effect (i : nat) : Prop :=
  exists e, side_effect_depends e /\ rtsc next_state_depends e i.

Lemma observable_linked i : observable i -> linked_to_side_effect i.
Proof.
  intros (e & He & Hr). exists e. split; [exact He |].
  eapply rtc_subrel; [| exact Hr]. intros x y H. now left.
Qed.

(** Two indices may share a class when next-state dependencies join them,
    possibly passing from one side-effect dependency to another. *)
Definition joined (x y : nat) : Prop :=
  rtsc next_state_depends x y
  \/ exists e1 e2, side_effect_depends e1 /\ side_effect_depends e2
       /\ rtsc next_state_depends x e1 /\ rtsc next_state_depends e2 y.

Lemma joined_refl x : joined x x.
Proof. left. reflexivity. Qed.

Lemma joined_sym x y : joined x y -> joined y x.
Proof.
  intros [H | (e1 & e2 & H1 & H2 & Hx & Hy)].
  - left. now symmetry.
  - right. exists e2, e1. repeat split; try assumption; now symmetry.
Qed.

Lemma joined_trans x y z : joined x y -> joined y z -> joined x z.
Proof.
  intros [H | (e1 & e2 & H1 & H2 & Hx & Hy)] [H' | (e3 & e4 & H3 & H4 & Hy' & Hz)].
  - left. now transitivity y.
  - right. exists e3, e4. repeat split; try assumption. now transitivity y.
  - right. exists e1, e2. repeat split; try assumption. now transitivity y.
  - right. exists e1, e4. repeat split; assumption.
Qed.

Lemma joined_side_effects e1 e2 :
  side_effect_depends e1 -> side_effect_depends e2 -> joined e1 e2.
Proof. intros H1 H2. right. exists e1, e2. repeat split; (assumption || reflexivity). Qed.

Lemma joined_linked i o :
  joined i o -> side_effect_depends o -> linked_to_side_effect i.
Proof.
  intros [H | (e1 & e2 & H1 & H2 & Hx & Hy)] Ho.
  - exists o. split; [exact Ho | now symmetry].
  - exists e1. split; [exact H1 | now symmetry].
Qed.

(** Classes only ever contain joined indices. *)
Definition classes_sound (uf : gmap nat nat) : Prop :=
  forall x y, UF_Find uf x = UF_Find uf y -> joined x y.

Definition analysis_sound (st : Analysis) : Prop :=
  classes_sound st.1 /\ (forall o, st.2 = Some o -> side_effect_depends o).

Lemma UF_Find_Union a b uf x :
  UF_Find (UF_Union a b uf) x = UF_Find uf x
  \/ (UF_Find uf x = UF_Find uf a /\ UF_Find (UF_Union a b uf) x = UF_Find uf b).
Proof.
  assert (Hx : UF_Find (UF_Union a b uf) x =
               match uf !! x with
               | Some r => if decide (r = UF_Find uf a) then UF_Find uf b else r
               | None => x
               end).
  { unfold UF_Union. unfold UF_Find at 1. rewrite lookup_fmap.
    now destruct (uf !! x). }
  rewrite Hx. change (UF_Find uf x) with (default x (uf !! x)).
  destruct (uf !! x) as [r |]; cbn; [| now left].
  destruct (decide (r = UF_Find uf a)) as [-> | Hne]; [right | left]; auto.
Qed.

Lemma UF_Union_sound a b uf :
  classes_sound uf -> joined a b -> classes_sound (UF_Union a b uf).
Proof.
  intros Huf Hab x y Hxy.
  destruct (UF_Find_Union a b uf x) as [Ex | [Ex Ex']];
    destruct (UF_Find_Union a b uf y) as [Ey | [Ey Ey']].
  - apply Huf. congruence.
  - apply joined_trans with b; [| apply joined_trans with a].
    + apply Huf. congruence.
    + now apply joined_sym.
    + apply joined_sym, Huf. exact Ey.
  - apply joined_trans with a; [| apply joined_trans with b].
    + apply Huf. exact Ex.
    + exact Hab.
    + apply Huf. congruence.
  - apply Huf. congruence.
Qed.

Lemma UF_initial_sound (l : list nat) :
  classes_sound (foldl (fun uf i => UF_Insert i uf) ∅ l).
Proof.
  assert (H : forall uf : gmap nat nat,
             (forall x r, uf !! x = Some r -> r = x) ->
             forall x r, foldl (fun uf i => UF_Insert i uf) uf l !! x = Some r -> r = x).
  { induction l as [| i l IH]; intros uf Huf; cbn; [exact Huf |].
    apply IH. intros x r. unfold UF_Insert.
    destruct (uf !! i) eqn:E; [apply Huf |].
    destruct (decide (i = x)) as [-> | Hne].
    - rewrite lookup_insert_eq. congruence.
    - rewrite lookup_insert_ne by exact Hne. apply Huf. }
  intros x y. unfold UF_Find.
  specialize (H ∅ ltac:(intros ? ?; rewrite lookup_empty; discriminate)).
  destruct (_ !! x) as [rx |] eqn:Ex; destruct (_ !! y) as [ry |] eqn:Ey; cbn;
    try apply H in Ex; try apply H in Ey; intros; subst; apply joined_refl.
Qed.

Lemma mark_observable_sound count node st :
  node ∈ proc_nodes p ->
  OpIsSideEffecting (node_op node) = true -> node_op node <> kParam ->
  analysis_sound st ->
  analysis_sound (mark_observable count (deps_at sd (node_id node)) st).
Proof.
  intros Hin Hse Hnp. unfold mark_observable.
  apply foldl_invariant. intros [uf obs] i _ [Huf Hobs].
  destruct (Bitmap_Get _ i) eqn:G; [| now split].
  assert (Hi : side_effect_depends i) by (exists node; auto).
  destruct obs as [o |]; cbn.
  - split; [| exact Hobs]. cbn. apply UF_Union_sound; [exact Huf |].
    apply joined_side_effects; [exact Hi | now apply Hobs].
  - split; [exact Huf |]. cbn. now intros ? [= <-].
Qed.

Lemma union_next_state_sound count n k st :
  GetNextStateElement p k = Some n ->
  analysis_sound st ->
  analysis_sound (union_next_state count (deps_at sd n) st k).
Proof.
  intros Hk. unfold union_next_state.
  apply foldl_invariant. intros [uf obs] i _ [Huf Hobs].
  destruct (Bitmap_Get _ i) eqn:G; [| now split].
  split; [| exact Hobs]. cbn. apply UF_Union_sound; [exact Huf |].
  left. apply rtsc_rl. exists n. auto.
Qed.

Lemma next_state_indices_spec n indices k :
  next_state_indices p !! n = Some indices -> k ∈ indices ->
  GetNextStateElement p k = Some n.
Proof.
  unfold next_state_indices. revert n indices k.
  apply (foldl_invariant _
           (fun m : gmap nat (list nat) => forall n indices k,
                m !! n = Some indices -> k ∈ indices ->
                GetNextStateElement p k = Some n)).
  - intros m i _ Hm n indices k.
    destruct (GetNextStateElement p i) as [ni |] eqn:E; [| apply Hm].
    destruct (decide (ni = n)) as [-> | Hne].
    + rewrite lookup_insert_eq. intros [= <-] Hin.
      apply elem_of_app in Hin as [Hin | Hin].
      * destruct (m !! n) as [l |] eqn:El; cbn in Hin.
        -- eapply Hm; eauto.
        -- now apply elem_of_nil in Hin.
      * apply list_elem_of_singleton in Hin. now subst.
    + rewrite lookup_insert_ne by exact Hne. apply Hm.
  - intros n indices k. rewrite lookup_empty. discriminate.
Qed.

Lemma analyse_node_sound st node :
  node ∈ proc_nodes p -> analysis_sound st -> analysis_sound (analyse_node p sd st node).
Proof.
  intros Hin Hst. unfold analyse_node.
  set (st1 := if _ && _ then _ else st).
  assert (H1 : analysis_sound st1).
  { subst st1. destruct (OpIsSideEffecting _) eqn:Hse; cbn; [| exact Hst].
    destruct (bool_decide _) eqn:Hp; cbn; [exact Hst |].
    apply bool_decide_eq_false in Hp. now apply mark_observable_sound. }
  destruct (next_state_indices p !! node_id node) as [indices |] eqn:E; [| exact H1].
  apply foldl_invariant; [| exact H1].
  intros s k Hk Hs. apply union_next_state_sound; [| exact Hs].
  eapply next_state_indices_spec; eauto.
Qed.

Lemma analyse_retained i :
  is_unobservable (analyse p sd) i = false -> linked_to_side_effect i.
Proof.
  unfold analyse, is_unobservable.
  set (uf0 := foldl _ ∅ _).
  pose proof (foldl_invariant (analyse_node p sd) analysis_sound (proc_nodes p)
                (fun s x Hx => analyse_node_sound s x Hx) (uf0, None)) as H.
  destruct (foldl (analyse_node p sd) (uf0, None) (proc_nodes p)) as [uf obs].
  destruct H as [Huf Hobs].
  { split; [apply UF_initial_sound | discriminate]. }
  cbn in *. destruct obs as [o |]; cbn; [| discriminate].
  intros Hf. apply negb_false_iff, Nat.eqb_eq in Hf.
  eapply joined_linked; [apply Huf; exact Hf | now apply Hobs].
Qed.

Lemma unobservable_indices_spec i :
  i ∈ unobservable_indices p sd <->
  i < GetStateElementCount p /\ is_unobservable (analyse p sd) i = true.
Proof.
  unfold unobservable_indices.
  rewrite list_elem_of_filter, elem_of_reverse, elem_of_seq. intuition lia.
Qed.

End Observability.

(** ** Which state elements survive *)

Lemma ReplaceUsesWithNewLiteral_params p old v q :
  ReplaceUsesWithNewLiteral p old v = Ok q -> state_params q = state_params p.
Proof. now intros [= <-]. Qed.

Lemma RemoveStateElement_params p i q :
  RemoveStateElement p i = Ok q -> state_params q = delete i (state_params p).
Proof.
  unfold RemoveStateElement.
  destruct (GetStateParam p i); [| discriminate].
  destruct (IsDead _ _); [| discriminate]. now intros [= <-].
Qed.

Lemma remove_zero_width_element_inv p i r :
  remove_zero_width_element p i = Ok r ->
  exists param q,
    GetStateParam p i = Some param
    /\ ReplaceUsesWithNewLiteral p param (ZeroOfType (node_type param)) = Ok q
    /\ RemoveStateElement q i = Ok r.
Proof.
  unfold remove_zero_width_element.
  destruct (GetStateParam p i) as [param |]; [| discriminate].
  intros H. apply bind_Ok_inv in H as (q & Hq & Hr). eauto.
Qed.

Lemma remove_zero_width_element_params p i r :
  remove_zero_width_element p i = Ok r -> state_params r = delete i (state_params p).
Proof.
  intros H. apply remove_zero_width_element_inv in H as (param & q & _ & Hq & Hr).
  apply RemoveStateElement_params in Hr. apply ReplaceUsesWithNewLiteral_params in Hq.
  congruence.
Qed.

Lemma replace_with_zero_if_used_params p i q :
  replace_with_zero_if_used p i = Ok q -> state_params q = state_params p.
Proof.
  unfold replace_with_zero_if_used.
  destruct (GetStateParam p i); [| discriminate].
  destruct (IsDead _ _); [now intros [= <-] | apply ReplaceUsesWithNewLiteral_params].
Qed.

Lemma for_each_delete_params (body : Proc -> nat -> StatusOr Proc) l :
  (forall p i q, body p i = Ok q -> state_params q = delete i (state_params p)) ->
  forall p q, for_each body l p = Ok q ->
    state_params q = delete_all l (state_params p).
Proof.
  intros Hbody. induction l as [| i l IH]; intros p q; cbn.
  - now intros [= <-].
  - intros H. apply bind_Ok_inv in H as (r & Hr & Hq).
    apply IH in Hq. apply Hbody in Hr. now rewrite Hq, Hr.
Qed.

Lemma for_each_keep_params (body : Proc -> nat -> StatusOr Proc) l :
  (forall p i q, body p i = Ok q -> state_params q = state_params p) ->
  forall p q, for_each body l p = Ok q -> state_params q = state_params p.
Proof.
  intros Hbody p q. apply (for_each_invariant body (fun r => state_params r = state_params p)).
  - intros r i r' _ Hr Hb. apply Hbody in Hb. congruence.
  - reflexivity.
Qed.

(** After the zero-width sub-pass the state elements are those that were
    not zero-width, in their original order. *)
Lemma RemoveZeroWidthStateElements_params p c p1 :
  RemoveZeroWidthStateElements p = Ok (c, p1) ->
  state_params p1 =
  select (filter (fun i => is_zero_width p i = false) (seq 0 (GetStateElementCount p)))
         (state_params p).
Proof.
  intros H.
  transitivity (delete_all (zero_width_indices p) (state_params p));
    [| apply (delete_descending_all (is_zero_width p))].
  revert H. unfold RemoveZeroWidthStateElements.
  destruct (zero_width_indices p) as [| i l] eqn:E.
  - now intros [= _ <-].
  - intros H. apply bind_Ok_inv in H as (q & Hq & [= _ <-]).
    revert Hq. apply for_each_delete_params.
    exact remove_zero_width_element_params.
Qed.

(** After the unobservable sub-pass the state elements are those the
    analysis did not find unobservable, in their original order. *)
Lemma RemoveUnobservableStateElements_params p c p2 :
  RemoveUnobservableStateElements p = Ok (c, p2) ->
  exists sd,
    ComputeStateDependencies p = Ok sd
    /\ state_params p2 =
       select (filter (fun i => is_unobservable (analyse p sd) i = false)
                      (seq 0 (GetStateElementCount p)))
              (state_params p).
Proof.
  unfold RemoveUnobservableStateElements. intros H.
  apply bind_Ok_inv in H as (sd & Hsd & H). exists sd. split; [exact Hsd |].
  transitivity (delete_all (unobservable_indices p sd) (state_params p));
    [| apply (delete_descending_all (is_unobservable (analyse p sd)))].
  destruct (unobservable_indices p sd) as [| i l] eqn:E.
  - now injection H as _ <-.
  - apply bind_Ok_inv in H as (p1 & Hp1 & H).
    apply bind_Ok_inv in H as (q & Hq & [= _ <-]).
    apply (for_each_delete_params _ _ RemoveStateElement_params) in Hq.
    apply (for_each_keep_params _ _ replace_with_zero_if_used_params) in Hp1.
    now rewrite Hq, Hp1.
Qed.

Lemma RunOnProcInternal_inv p changed p' :
  RunOnProcInternal p = Ok (changed, p') ->
  exists c1 p1 c2,
    RemoveZeroWidthStateElements p = Ok (c1, p1)
    /\ RemoveUnobservableStateElements p1 = Ok (c2, p')
    /\ changed = c1 || c2.
Proof.
  unfold RunOnProcInternal. intros H.
  apply bind_Ok_inv in H as ([c1 p1] & H1 & H).
  apply bind_Ok_inv in H as ([c2 p2] & H2 & [= <- <-]). eauto 6.
Qed.

Lemma zero_width_indices_spec p i :
  i ∈ zero_width_indices p <->
  exists param, GetStateParam p i = Some param
                /\ GetFlatBitCount (node_type param) = 0%N.
Proof.
  unfold zero_width_indices, is_zero_width, GetStateElementType.
  rewrite list_elem_of_filter, elem_of_reverse, elem_of_seq. split.
  - intros [H _]. destruct (GetStateParam p i) as [param |]; [| discriminate].
    exists param. split; [reflexivity |]. now apply N.eqb_eq.
  - intros (param & Hp & Hz). rewrite Hp. cbn. split; [now apply N.eqb_eq |].
    apply lookup_lt_Some in Hp. unfold GetStateElementCount. lia.
Qed.

(** The indices the unobservable sub-pass keeps. *)
Definition retained_indices (p : Proc) (sd : gmap nat InlineBitmap) : list nat :=
  filter (fun i => is_unobservable (analyse p sd) i = false)
         (seq 0 (GetStateElementCount p)).

Lemma retained_indices_spec p sd i :
  i ∈ retained_indices p sd <->
  i < GetStateElementCount p /\ i ∉ unobservable_indices p sd.
Proof.
  unfold retained_indices.
  rewrite list_elem_of_filter, elem_of_seq, unobservable_indices_spec.
  destruct (is_unobservable (analyse p sd) i); split.
  - intros [[=] _].
  - intros [Hi Hn]. exfalso. apply Hn. split; [lia | reflexivity].
  - intros [_ Hi]. split; [lia | intros [_ [=]]].
  - intros [Hi _]. split; [reflexivity | lia].
Qed.

(** After the pass has run, the state elements left are those at the
    indices the unobservable sub-pass retained, and every retained index is
    joined to an element in the bitmap of some side-effecting non-parameter
    node by next-state dependencies, where a dependency may be followed in
    either direction (the classes are built with a union-find, which
    forgets the direction).  Indices and bitmaps are those of the proc the
    sub-pass analyses, that is, the proc after zero-width removal. *)
Lemma retained_are_linked :
  forall (p : Proc) (changed : bool) (p' : Proc),
    RunOnProcInternal p = Ok (changed, p') ->
    exists c1 p1 sd,
      RemoveZeroWidthStateElements p = Ok (c1, p1)
      /\ ComputeStateDependencies p1 = Ok sd
      /\ state_params p' = select (retained_indices p1 sd) (state_params p1)
      /\ forall i, i ∈ retained_indices p1 sd ->
           exists e, side_effect_depends p1 sd e
                     /\ rtsc (next_state_depends p1 sd) e i.
Proof.
  intros p changed p' H.
  apply RunOnProcInternal_inv in H as (c1 & p1 & c2 & H1 & H2 & _).
  apply RemoveUnobservableStateElements_params in H2 as (sd & Hsd & Hparams).
  exists c1, p1, sd. repeat split; try assumption.
  intros i Hi. apply analyse_retained.
  now apply list_elem_of_filter in Hi as [Hi _].
Qed.

(** *** The follower proc: an element kept although nothing observes it *)

Module Follower.

Import Scenarios.

Definition deps : gmap nat InlineBitmap :=
  list_to_map [ (0, [false; false]); (1, [true; false]); (2, [false; true]);
                (3, [true; false]); (4, [true; true]) ].

Lemma dependencies : ComputeStateDependencies follower_proc = Ok deps.
Proof. vm_compute. reflexivity. Qed.

Lemma nothing_unobservable : unobservable_indices follower_proc deps = [].
Proof. vm_compute. reflexivity. Qed.

Lemma all_retained : retained_indices follower_proc deps = [0; 1].
Proof. vm_compute. reflexivity. Qed.

Lemma bitmap_x_only (b : nat) : Bitmap_Get [true; false] b = true -> b = 0.
Proof.
  destruct b as [| [| b]]; [reflexivity | discriminate |].
  unfold Bitmap_Get. cbn. now rewrite ?lookup_nil.
Qed.

(** Only [x] (index 0) is in the bitmap of a side-effecting node. *)
Lemma side_effect_only_x e : side_effect_depends follower_proc deps e -> e = 0.
Proof.
  intros (node & Hin & Hse & Hnp & Hget).
  unfold follower_proc in Hin. cbn [proc_nodes] in Hin.
  repeat (apply elem_of_cons in Hin as [-> | Hin]);
    try (cbn in Hse; discriminate); try (now cbn in Hnp);
    try (now apply elem_of_nil in Hin).
  revert Hget. change (deps_at deps _) with [true; false]. apply bitmap_x_only.
Qed.

(** The next state of [x] depends on [x] alone. *)
Lemma next_state_of_x_only_x z : next_state_depends follower_proc deps 0 z -> z = 0.
Proof.
  intros (n & Hn & Hget). injection Hn as <-.
  revert Hget. change (deps_at deps _) with [true; false]. apply bitmap_x_only.
Qed.

Lemma reachable_from_x e i :
  rtc (next_state_depends follower_proc deps) e i -> e = 0 -> i = 0.
Proof.
  induction 1 as [| a b c Hab _ IH]; [auto |].
  intros ->. apply IH. now apply next_state_of_x_only_x.
Qed.

Lemma y_not_observable : ~ observable follower_proc deps 1.
Proof.
  intros (e & He & Hr). apply side_effect_only_x in He.
  apply reachable_from_x in Hr; [discriminate | exact He].
Qed.

End Follower.

(** Counterexample to C1 as stated.  In the follower proc the pass changes
    nothing, so [y] (index 1) is retained; yet no side-effecting node has
    [y] in its bitmap, and [y] is not reachable along next-state
    dependencies from [x], the only element such a node has in its bitmap:
    the next state of [x] depends on [x] alone.  [y] is kept because its
    own next state depends on [x]. *)
Lemma C1_follower_retained_not_observable :
  RunOnProcInternal Scenarios.follower_proc = Ok (false, Scenarios.follower_proc)
  /\ ComputeStateDependencies Scenarios.follower_proc = Ok Follower.deps
  /\ 1 ∈ retained_indices Scenarios.follower_proc Follower.deps
  /\ ~ (side_effect_depends Scenarios.follower_proc Follower.deps 1
        \/ exists e, side_effect_depends Scenarios.follower_proc Follower.deps e
                     /\ tc (next_state_depends Scenarios.follower_proc Follower.deps) e 1).
Proof.
  split; [exact Scenarios.scenario_follower |].
  split; [exact Follower.dependencies |].
  split; [rewrite Follower.all_retained; set_solver |].
  intros [H | (e & He & Ht)]; apply Follower.y_not_observable.
  - exists 1. split; [exact H | reflexivity].
  - exists e. split; [exact He | now apply tc_rtc].
Qed.

End ProcOpt.

(* ===================================================================== *)
(** * Part III: the SDC scheduler                                         *)
(**   (second half of [xls/passes/proc_state_optimization_pass.cc])       *)
(* ===================================================================== *)

Module Sdc.

Export ProcOpt (Op(..)).

(** ** The scheduled graph

    A node is identified by its position in [f->nodes()]; operands are
    given by position.  Of a node the scheduler reads the name, whether it
    is a send or a receive and on which channel, and the flat bit count of
    its type. *)

(** Modelled from the spec: [Node] of [xls/ir/node.h], reduced to what the
    scheduler reads. *)
Record Node := MkNode {
  node_name : string;
  node_op : Op;
  node_operands : list nat;
  node_bit_count : Z;
  node_channel : option string;
}.

(** Modelled from the spec: [FunctionBase] of [xls/ir/function_base.h];
    "within a function, [nodes()] iteration follows insertion order". *)
Record FunctionBase := MkFunctionBase {
  fb_nodes : list Node;
  fb_implicit_uses : list nat;
}.

Definition node_count (f : FunctionBase) : nat := length (fb_nodes f).

(** Modelled from the spec: [f->nodes()], as positions. *)
Definition nodes (f : FunctionBase) : list nat := seq 0 (node_count f).

(** Modelled from the spec: [node->operands()]. *)
Definition operands (f : FunctionBase) (node : nat) : list nat :=
  default [] (node_operands <$> fb_nodes f !! node).

(** Modelled from the spec: [node->users()], the nodes that have [node]
    among their operands. *)
Definition users (f : FunctionBase) (node : nat) : list nat :=
  filter (fun user => node ∈ operands f user) (nodes f).

(** Modelled from the spec: [f->HasImplicitUse(node)], [node->Is<Receive>()],
    [node->Is<Send>()] and [node->GetName()]. *)
Definition HasImplicitUse (f : FunctionBase) (node : nat) : bool :=
  bool_decide (node ∈ fb_implicit_uses f).

Definition IsReceive (f : FunctionBase) (node : nat) : bool :=
  bool_decide (node_op <$> fb_nodes f !! node = Some kReceive).

Definition IsSend (f : FunctionBase) (node : nat) : bool :=
  bool_decide (node_op <$> fb_nodes f !! node = Some kSend).

Definition GetName (f : FunctionBase) (node : nat) : string :=
  default "" (node_name <$> fb_nodes f !! node).

(** Modelled from the spec: [node->GetType()->GetFlatBitCount()]. *)
Definition node_bit_count_of (f : FunctionBase) (node : nat) : Z :=
  default 0%Z (node_bit_count <$> fb_nodes f !! node).

(** ** Timing constraints *)

(** [using DelayMap = absl::flat_hash_map<Node*, int64_t>] *)
Definition delay_of (delay_map : gmap nat Z) (node : nat) : Z :=
  default 0%Z (delay_map !! node).

(** [result[a].push_back(b)] *)
Definition push_back (result : gmap nat (list nat)) (a b : nat) : gmap nat (list nat) :=
  <[a := default [] (result !! a) ++ [b]]> result.

Definition constraints_of (result : gmap nat (list nat)) (a : nat) : list nat :=
  default [] (result !! a).

(** Body of the innermost loop, for source index [i]. *)
Definition relax_source (clock_period_ps node_delay : Z) (node : nat)
    (distances_to_operand : list Z)
    (st : list Z * gmap nat (list nat)) (i : nat) : list Z * gmap nat (list nat) :=
  let operand_distance := default (-1)%Z (distances_to_operand !! i) in
  if decide (operand_distance ≠ -1)%Z then
    if decide (default (-1) (st.1 !! i) < operand_distance + node_delay)%Z then
      let distances := <[i := (operand_distance + node_delay)%Z]> st.1 in
      if decide (operand_distance ≤ clock_period_ps
                 ∧ operand_distance + node_delay > clock_period_ps)%Z
      then (distances, push_back st.2 i node)
      else (distances, st.2)
    else st
  else st.

(** Body of the loop over the operands of [node]. *)
Definition relax_operand (count : nat) (clock_period_ps node_delay : Z) (node : nat)
    (distances_to_node : gmap nat (list Z))
    (st : list Z * gmap nat (list nat)) (operand : nat) : list Z * gmap nat (list nat) :=
  let distances_to_operand := default [] (distances_to_node !! operand) in
  foldl (relax_source clock_period_ps node_delay node distances_to_operand)
        st (seq 0 count).

(** Body of the loop over [TopoSort(f)]. *)
Definition visit_node (f : FunctionBase) (clock_period_ps : Z) (delay_map : gmap nat Z)
    (st : gmap nat (list Z) * gmap nat (list nat)) (node : nat)
  : gmap nat (list Z) * gmap nat (list nat) :=
  let node_delay := delay_of delay_map node in
  let distances := replicate (node_count f) (-1)%Z in
  let st' := foldl (relax_operand (node_count f) clock_period_ps node_delay node st.1)
                   (distances, st.2) (operands f node) in
  (<[node := <[node := node_delay]> st'.1]> st.1, st'.2).

(** The first loop: an empty constraint vector per node. *)
Definition empty_constraints (f : FunctionBase) : gmap nat (list nat) :=
  foldl (fun result node => <[node := []]> result) ∅ (nodes f).

Section Timing.

(** [TopoSort(f)] of [xls/ir/node_iterator.h]: the nodes of [f], operands
    before users. *)
Variable TopoSort : FunctionBase -> list nat.

Definition distances_and_constraints (f : FunctionBase) (clock_period_ps : Z)
    (delay_map : gmap nat Z) : gmap nat (list Z) * gmap nat (list nat) :=
  foldl (visit_node f clock_period_ps delay_map)
        (∅, empty_constraints f) (TopoSort f).

(** [ComputeCombinationalDelayConstraints(f, clock_period_ps, delay_map)].
    The lookups [delay_map.at], [node_to_index.at] and
    [distances_to_node.at] always hit: the delay map has an entry per node
    and operands are visited before their users. *)
Definition ComputeCombinationalDelayConstraints (f : FunctionBase)
    (clock_period_ps : Z) (delay_map : gmap nat Z) : gmap nat (list nat) :=
  (distances_and_constraints f clock_period_ps delay_map).2.

End Timing.

(** *** Example graphs *)

Module Graphs.

Definition op (name : string) (operands : list nat) : Node :=
  MkNode name kAdd operands 32 None.

Definition uniform_delays (f : FunctionBase) (d : Z) : gmap nat Z :=
  list_to_map ((fun n => (n, d)) <$> nodes f).

Definition in_order (f : FunctionBase) : list nat := nodes f.

(** Scenario 3: [z = ((a * b) + c) * d], every operation 600ps. *)
Definition mul_add_mul : FunctionBase :=
  MkFunctionBase
    [ op "a" []; op "b" []; op "c" []; op "d" [];
      op "mul1" [0; 1]; op "add" [4; 2]; op "mul2" [5; 3] ]
    [6].

(** A diamond: [b = f(a, m)] and [m = g(a)]. *)
Definition diamond : FunctionBase :=
  MkFunctionBase [ op "a" []; op "m" [0]; op "b" [0; 1] ] [2].

Definition diamond_delays : gmap nat Z := list_to_map [(0, 6%Z); (1, 6%Z); (2, 5%Z)].

Example diamond_constraints :
  ComputeCombinationalDelayConstraints in_order diamond 10 diamond_delays
  = list_to_map [(0, [1; 2]); (1, [2]); (2, [])].
Proof. vm_compute. reflexivity. Qed.

Example diamond_distances :
  (distances_and_constraints in_order diamond 10 diamond_delays).1
  = list_to_map [(0, [6; -1; -1]%Z); (1, [12; 6; -1]%Z); (2, [17; 11; 5]%Z)].
Proof. vm_compute. reflexivity. Qed.

End Graphs.

(** ** Correctness of the timing constraints *)

(** *** The loops, one source index at a time *)

Definition dist_at (distances : list Z) (a : nat) : Z := default (-1)%Z (distances !! a).

(** What one operand does to the distance from a fixed source: [od] is the
    distance from the source to the operand, [x] the distance gathered so
    far. *)
Definition relax_value (node_delay od x : Z) : Z :=
  if decide (od ≠ -1)%Z then
    if decide (x < od + node_delay)%Z then (od + node_delay)%Z else x
  else x.

Definition relax_pushes (clock_period_ps node_delay od x : Z) : bool :=
  bool_decide (od ≠ -1 ∧ x < od + node_delay
               ∧ od ≤ clock_period_ps ∧ od + node_delay > clock_period_ps)%Z.

Lemma dist_at_insert distances i j v :
  i < length distances ->
  dist_at (<[i := v]> distances) j = if decide (i = j) then v else dist_at distances j.
Proof.
  intros Hi. unfold dist_at. destruct (decide (i = j)) as [-> | Hne].
  - now rewrite list_lookup_insert_eq.
  - now rewrite list_lookup_insert_ne.
Qed.

Lemma constraints_of_push_back result a b c :
  constraints_of (push_back result a b) c =
  if decide (a = c) then constraints_of result a ++ [b] else constraints_of result c.
Proof.
  unfold constraints_of, push_back. destruct (decide (a = c)) as [-> | Hne].
  - now rewrite lookup_insert_eq.
  - now rewrite lookup_insert_ne.
Qed.

Lemma relax_source_spec clock nd node dto (ds : list Z) (res : gmap nat (list nat)) i :
  i < length ds ->
  relax_source clock nd node dto (ds, res) i =
  (<[i := relax_value nd (dist_at dto i) (dist_at ds i)]> ds,
   if relax_pushes clock nd (dist_at dto i) (dist_at ds i)
   then push_back res i node else res).
Proof.
  intros Hi. unfold relax_source, relax_value, relax_pushes. cbn [fst snd].
  fold (dist_at dto i). fold (dist_at ds i).
  assert (Hid : <[i := dist_at ds i]> ds = ds).
  { apply list_insert_id. unfold dist_at.
    destruct (lookup_lt_is_Some_2 ds i Hi) as [x ->]. reflexivity. }
  destruct (decide (dist_at dto i ≠ -1)%Z) as [H1 | H1].
  - destruct (decide (dist_at ds i < dist_at dto i + nd)%Z) as [H2 | H2].
    + destruct (decide (_ ∧ _)) as [H3 | H3].
      * now rewrite bool_decide_eq_true_2 by tauto.
      * now rewrite bool_decide_eq_false_2 by tauto.
    + rewrite bool_decide_eq_false_2 by tauto. now rewrite Hid.
  - rewrite bool_decide_eq_false_2 by tauto. now rewrite Hid.
Qed.

(** The loop over all source indices, for one operand. *)
Lemma relax_operand_prefix clock nd node dto (ds : list Z) (res : gmap nat (list nat)) k :
  k <= length ds ->
  let st := foldl (relax_source clock nd node dto) (ds, res) (seq 0 k) in
  length st.1 = length ds
  /\ (forall a, dist_at st.1 a =
                if decide (a < k) then relax_value nd (dist_at dto a) (dist_at ds a)
                else dist_at ds a)
  /\ (forall a, constraints_of st.2 a =
                constraints_of res a ++
                if decide (a < k) then
                  if relax_pushes clock nd (dist_at dto a) (dist_at ds a)
                  then [node] else []
                else []).
Proof.
  induction k as [| k IH]; intros Hk; cbn zeta.
  - cbn. split; [reflexivity |]. split; intros a.
    + now rewrite decide_False by lia.
    + rewrite decide_False by lia. now rewrite app_nil_r.
  - rewrite seq_S, foldl_app. cbn [foldl Nat.add].
    destruct (IH ltac:(lia)) as (Hlen & Hd & Hr).
    destruct (foldl _ (ds, res) (seq 0 k)) as [ds' res']. cbn [fst snd] in *.
    rewrite relax_source_spec by lia. cbn [fst snd].
    assert (Hk' : dist_at ds' k = dist_at ds k).
    { rewrite Hd. now rewrite decide_False by lia. }
    rewrite Hk'. split; [now rewrite length_insert |]. split; intros a.
    + rewrite dist_at_insert by lia. rewrite Hd.
      destruct (decide (k = a)) as [<- | Hne].
      * now rewrite decide_True by lia.
      * destruct (decide (a < k)); [rewrite decide_True by lia | rewrite decide_False by lia];
          reflexivity.
    + destruct (relax_pushes clock nd (dist_at dto k) (dist_at ds k)) eqn:Hp.
      * rewrite constraints_of_push_back, !Hr.
        destruct (decide (k = a)) as [<- | Hne].
        -- rewrite decide_False by lia. rewrite decide_True by lia.
           now rewrite Hp, app_nil_r.
        -- destruct (decide (a < k)); [rewrite decide_True by lia | rewrite decide_False by lia];
             reflexivity.
      * rewrite Hr. destruct (decide (k = a)) as [<- | Hne].
        -- rewrite decide_False by lia. rewrite decide_True by lia. now rewrite Hp.
        -- destruct (decide (a < k)); [rewrite decide_True by lia | rewrite decide_False by lia];
             reflexivity.
Qed.

(** The effect of all operands of a node on one source index: the distance
    gathered and whether a constraint was pushed. *)
Definition relax_step (clock_period_ps node_delay : Z) (acc : Z * bool) (od : Z) : Z * bool :=
  (relax_value node_delay od acc.1,
   acc.2 || relax_pushes clock_period_ps node_delay od acc.1).

Definition relax_all (clock_period_ps node_delay : Z) (x : Z) (ods : list Z) : Z * bool :=
  foldl (relax_step clock_period_ps node_delay) (x, false) ods.

Lemma relax_step_fold clock nd x b ods :
  foldl (relax_step clock nd) (x, b) ods =
  ((relax_all clock nd x ods).1, b || (relax_all clock nd x ods).2).
Proof.
  unfold relax_all. revert x b. induction ods as [| od ods IH]; intros x b; cbn [foldl].
  - cbn. now rewrite orb_false_r.
  - change (relax_step clock nd (x, b) od)
      with (relax_value nd od x, b || relax_pushes clock nd od x).
    change (relax_step clock nd (x, false) od)
      with (relax_value nd od x, false || relax_pushes clock nd od x).
    rewrite IH. rewrite (IH _ (false || relax_pushes clock nd od x)).
    cbn. now rewrite orb_assoc.
Qed.

Lemma relax_all_cons clock nd x od ods :
  relax_all clock nd x (od :: ods) =
  ((relax_all clock nd (relax_value nd od x) ods).1,
   relax_pushes clock nd od x || (relax_all clock nd (relax_value nd od x) ods).2).
Proof.
  unfold relax_all at 1. cbn [foldl].
  change (relax_step clock nd (x, false) od)
    with (relax_value nd od x, false || relax_pushes clock nd od x).
  now rewrite relax_step_fold.
Qed.

(** The loop over the operands of [node]. *)
Lemma relax_operands_spec clock nd node (dtn : gmap nat (list Z)) ops
    (ds : list Z) (res : gmap nat (list nat)) :
  let n := length ds in
  let st := foldl (relax_operand n clock nd node dtn) (ds, res) ops in
  let ods a := (fun o => dist_at (default [] (dtn !! o)) a) <$> ops in
  length st.1 = n
  /\ (forall a, a < n -> dist_at st.1 a = (relax_all clock nd (dist_at ds a) (ods a)).1)
  /\ (forall a c, c ∈ constraints_of st.2 a <->
                  c ∈ constraints_of res a
                  \/ (c = node /\ a < n
                      /\ (relax_all clock nd (dist_at ds a) (ods a)).2 = true)).
Proof.
  revert ds res. induction ops as [| o ops IH]; intros ds res; cbn zeta.
  - cbn. split; [reflexivity |]. split; [reflexivity |].
    intros a c. split; [auto | intros [H | (_ & _ & [=])]; exact H].
  - cbn [foldl fmap list_fmap].
    pose proof (relax_operand_prefix clock nd node (default [] (dtn !! o)) ds res
                  (length ds) ltac:(lia)) as H. cbn zeta in H.
    change (foldl _ (ds, res) (seq 0 (length ds)))
      with (relax_operand (length ds) clock nd node dtn (ds, res) o) in H.
    destruct (relax_operand (length ds) clock nd node dtn (ds, res) o) as [ds1 res1].
    cbn [fst snd] in H. destruct H as (Hlen & Hd & Hr).
    specialize (IH ds1 res1). cbn zeta in IH. rewrite Hlen in IH.
    destruct IH as (Hlen' & Hd' & Hr'). split; [exact Hlen' |]. split.
    + intros a Ha. rewrite (Hd' a Ha), relax_all_cons, Hd. cbn [fst].
      now rewrite decide_True by lia.
    + intros a c. rewrite Hr', Hr, relax_all_cons, Hd. cbn [snd].
      destruct (decide (a < length ds)) as [Ha | Ha].
      * destruct (relax_pushes clock nd _ (dist_at ds a)) eqn:Hp; cbn.
        -- rewrite elem_of_app, list_elem_of_singleton. intuition.
        -- rewrite app_nil_r. intuition.
      * rewrite app_nil_r. intuition lia.
Qed.

(** *** What the operands of a node contribute, as a pure fold *)

Section RelaxAll.

Variables clock nd : Z.
Hypothesis nd_nonneg : (0 <= nd)%Z.

Lemma relax_all_value x ods :
  let r := (relax_all clock nd x ods).1 in
  (x <= r)%Z
  /\ (r = x \/ exists od, od ∈ ods /\ od ≠ (-1)%Z /\ r = (od + nd)%Z)
  /\ (forall od, od ∈ ods -> od ≠ (-1)%Z -> (od + nd <= r)%Z).
Proof.
  revert x. induction ods as [| od ods IH]; intros x; cbn zeta.
  - cbn. split; [lia |]. split; [now left |]. intros od Hod. now apply elem_of_nil in Hod.
  - rewrite relax_all_cons. cbn [fst].
    destruct (IH (relax_value nd od x)) as (Hle & Hor & Hub).
    assert (Hx : (x <= relax_value nd od x)%Z
                 /\ (od ≠ (-1)%Z -> (od + nd <= relax_value nd od x)%Z)
                 /\ (relax_value nd od x = x
                     \/ (od ≠ (-1)%Z /\ relax_value nd od x = (od + nd)%Z))).
    { unfold relax_value. repeat case_decide; repeat split; try lia; auto. }
    destruct Hx as (Hx1 & Hx2 & Hx3).
    split; [lia |]. split.
    + destruct Hor as [-> | (od' & Hin & Hne & ->)].
      * destruct Hx3 as [-> | [Hne ->]]; [now left |].
        right. exists od. split; [left | auto].
      * right. exists od'. split; [now right | auto].
    + intros od' Hin Hne. apply elem_of_cons in Hin as [-> | Hin].
      * specialize (Hx2 Hne). lia.
      * now apply Hub.
Qed.

(** A constraint is pushed whenever the gathered distance ends above the
    clock period while the distance to the operand that set it is not. *)
Lemma relax_all_pushes_if x ods :
  let r := (relax_all clock nd x ods).1 in
  r ≠ x -> (r > clock)%Z -> (r - nd <= clock)%Z ->
  (relax_all clock nd x ods).2 = true.
Proof.
  revert x. induction ods as [| od ods IH]; intros x; cbn zeta.
  - cbn. congruence.
  - rewrite relax_all_cons. cbn [fst snd]. intros Hne Hgt Hle.
    destruct (decide ((relax_all clock nd (relax_value nd od x) ods).1
                      = relax_value nd od x)) as [E | E].
    + rewrite E in *. apply orb_true_iff. left.
      unfold relax_pushes. apply bool_decide_eq_true.
      unfold relax_value in *. repeat case_decide; try congruence.
      repeat split; try assumption; lia.
    + apply orb_true_iff. right. now apply IH.
Qed.

(** A pushed constraint comes from an operand at which the distance
    crosses the clock period. *)
Lemma relax_all_pushes_only_if x ods :
  (relax_all clock nd x ods).2 = true ->
  exists od, od ∈ ods /\ od ≠ (-1)%Z /\ (od <= clock)%Z /\ (od + nd > clock)%Z.
Proof.
  revert x. induction ods as [| od ods IH]; intros x.
  - cbn. discriminate.
  - rewrite relax_all_cons. cbn [snd]. intros H.
    apply orb_true_iff in H as [H | H].
    + unfold relax_pushes in H. apply bool_decide_eq_true in H as (? & ? & ? & ?).
      exists od. split; [left | auto].
    + apply IH in H as (od' & Hin & ?). exists od'. split; [now right | auto].
Qed.

End RelaxAll.

(** *** Longest delay-weighted distances *)

Section Distances.

Variable f : FunctionBase.
Variable delay_map : gmap nat Z.

(** [path a b d]: some path from [a] to [b] along operand edges has total
    delay [d], the delays of [a] and [b] included. *)
Inductive path : nat -> nat -> Z -> Prop :=
  | path_single a :
      a < node_count f -> path a a (delay_of delay_map a)
  | path_step a o b d :
      path a o d -> o ∈ operands f b -> b < node_count f ->
      path a b (d + delay_of delay_map b).

(** [longest a b d]: [d] is the critical-path distance [d(a,b)]. *)
Definition longest (a b : nat) (d : Z) : Prop :=
  path a b d /\ forall d', path a b d' -> (d' <= d)%Z.

(** The entry a distance vector should hold: [-1] when there is no path,
    the longest distance otherwise. *)
Definition dval (a b : nat) (z : Z) : Prop :=
  (z = (-1)%Z /\ forall d, ~ path a b d) \/ ((0 <= z)%Z /\ longest a b z).

Hypothesis delays_nonneg : forall b, (0 <= delay_of delay_map b)%Z.

Lemma path_nonneg a b d : path a b d -> (0 <= d)%Z.
Proof.
  induction 1 as [a _ | a o b d _ IH _ _].
  - apply delays_nonneg.
  - pose proof (delays_nonneg b). lia.
Qed.

Lemma path_nodes a b d : path a b d -> a < node_count f /\ b < node_count f.
Proof. induction 1; intuition. Qed.

Lemma path_inv a b d :
  path a b d ->
  (a = b /\ d = delay_of delay_map a)
  \/ exists o d', path a o d' /\ o ∈ operands f b /\ d = (d' + delay_of delay_map b)%Z.
Proof. destruct 1; [now left | right; eauto]. Qed.

Lemma longest_unique a b d1 d2 : longest a b d1 -> longest a b d2 -> d1 = d2.
Proof.
  intros [P1 U1] [P2 U2]. specialize (U1 _ P2). specialize (U2 _ P1). lia.
Qed.

Lemma dval_unique a b z1 z2 : dval a b z1 -> dval a b z2 -> z1 = z2.
Proof.
  intros [[-> N1] | [_ L1]] [[-> N2] | [_ L2]].
  - reflexivity.
  - destruct L2 as [P _]. now apply N1 in P.
  - destruct L1 as [P _]. now apply N2 in P.
  - eapply longest_unique; eauto.
Qed.

Lemma dval_range a b z : dval a b z -> z = (-1)%Z \/ (0 <= z)%Z.
Proof. intros [[-> _] | [H _]]; auto. Qed.

Lemma Forall2_dval_unique a os zs1 zs2 :
  Forall2 (dval a) os zs1 -> Forall2 (dval a) os zs2 -> zs1 = zs2.
Proof.
  intros H. revert zs2. induction H as [| o z os zs Hz _ IH]; intros zs2 H2.
  - now apply Forall2_nil_inv_l in H2.
  - apply Forall2_cons_inv_l in H2 as (z' & zs' & Hz' & H2 & ->).
    f_equal; [eapply dval_unique; eauto | now apply IH].
Qed.

(** The distance to a node from another one is the best over its operands. *)
Lemma dval_from_operands clock a b zs :
  a ≠ b -> b < node_count f ->
  Forall2 (dval a) (operands f b) zs ->
  dval a b (relax_all clock (delay_of delay_map b) (-1) zs).1.
Proof.
  intros Hab Hb Hzs.
  pose proof (delays_nonneg b) as Hnd.
  destruct (relax_all_value clock (delay_of delay_map b) (-1) zs) as (Hle & Hor & Hub).
  set (r := (relax_all clock (delay_of delay_map b) (-1) zs).1) in *.
  assert (Hvia : forall d, path a b d ->
            exists o z, o ∈ operands f b /\ z ∈ zs /\ longest a o z /\ (0 <= z)%Z
                        /\ (d <= z + delay_of delay_map b)%Z).
  { intros d Hp. apply path_inv in Hp as [[-> _] | (o & d' & Hp & Ho & ->)]; [done |].
    apply list_elem_of_lookup in Ho as [j Hj].
    destruct (Forall2_lookup_l _ _ _ _ _ Hzs Hj) as (z & Hz & Hd).
    destruct Hd as [[_ Hno] | [Hz0 Hl]]; [now apply Hno in Hp |].
    exists o, z.
    split; [apply list_elem_of_lookup; eauto |].
    split; [apply list_elem_of_lookup; eauto |].
    split; [exact Hl |]. split; [exact Hz0 |].
    destruct Hl as [_ Hl]. specialize (Hl _ Hp). lia. }
  destruct Hor as [Hr | (od & Hin & Hne & Hr)].
  - left. split; [exact Hr |]. intros d Hp.
    destruct (Hvia d Hp) as (o & z & _ & Hz & _ & Hz0 & _).
    specialize (Hub z Hz ltac:(lia)). lia.
  - right.
    apply list_elem_of_lookup in Hin as [j Hj].
    destruct (Forall2_lookup_r _ _ _ _ _ Hzs Hj) as (o & Ho & Hd).
    destruct Hd as [[-> _] | [Hz0 [Hp Hl]]]; [done |].
    split; [lia |]. split.
    + rewrite Hr. econstructor; eauto. apply list_elem_of_lookup. eauto.
    + intros d' Hp'. destruct (Hvia d' Hp') as (o' & z & _ & Hz & _ & Hz0' & Hle').
      specialize (Hub z Hz ltac:(lia)). lia.
Qed.

End Distances.

(** *** The invariant of the loop over [TopoSort(f)] *)

(** What [TopoSort] promises: every node once, operands before users. *)
Definition topological (f : FunctionBase) (order : list nat) : Prop :=
  NoDup order
  /\ (forall i, i ∈ order <-> i < node_count f)
  /\ (forall done b rest, order = done ++ b :: rest ->
        forall o, o ∈ operands f b -> o ∈ done).

Lemma Forall2_fmap_self {A B} (R : A -> B -> Prop) (g : A -> B) (l : list A) :
  (forall x, x ∈ l -> R x (g x)) -> Forall2 R l (g <$> l).
Proof.
  induction l as [| x l IH]; intros H; cbn; constructor.
  - apply H. left.
  - apply IH. intros y Hy. apply H. now right.
Qed.

Lemma dist_at_replicate n a : dist_at (replicate n (-1)%Z) a = (-1)%Z.
Proof.
  unfold dist_at. destruct (replicate n (-1)%Z !! a) as [z |] eqn:E; [| reflexivity].
  apply lookup_replicate in E as [-> _]. reflexivity.
Qed.

Lemma constraints_of_empty f a : constraints_of (empty_constraints f) a = [].
Proof.
  unfold empty_constraints.
  apply (foldl_invariant_gen (fun result : gmap nat (list nat) => constraints_of result a = [])).
  - intros result node _ H. unfold constraints_of in *.
    destruct (decide (node = a)) as [-> | Hne].
    + now rewrite lookup_insert_eq.
    + now rewrite lookup_insert_ne.
  - reflexivity.
Qed.

Section TimingCorrect.

Variable TopoSort : FunctionBase -> list nat.
Variable f : FunctionBase.
Variable clock : Z.
Variable delay_map : gmap nat Z.

Hypothesis topo_ok : topological f (TopoSort f).
Hypothesis delays_nonneg : forall b, (0 <= delay_of delay_map b)%Z.

Abbreviation path := (path f delay_map).
Abbreviation longest := (longest f delay_map).
Abbreviation dval := (dval f delay_map).

Lemma path_closed done rest a b d :
  TopoSort f = done ++ rest -> b ∈ done -> path a b d -> a ∈ done.
Proof.
  intros Htopo Hb Hp. revert done rest Htopo Hb.
  induction Hp as [a _ | a o b d _ IH Ho _]; intros done rest Htopo Hb; [exact Hb |].
  apply list_elem_of_split in Hb as (l1 & l2 & ->).
  destruct topo_ok as (_ & _ & Hops).
  rewrite <- app_assoc in Htopo. cbn in Htopo.
  specialize (Hops _ _ _ Htopo o Ho).
  apply (IH (l1 ++ b :: l2) rest).
  - now rewrite <- app_assoc.
  - apply elem_of_app. now left.
Qed.

Lemma no_back_path done b rest o d :
  TopoSort f = done ++ b :: rest -> o ∈ operands f b -> ~ path b o d.
Proof.
  intros Htopo Ho Hp.
  destruct topo_ok as (Hnd & _ & Hops).
  pose proof (Hops _ _ _ Htopo o Ho) as Hdone.
  pose proof (path_closed _ _ _ _ _ Htopo Hdone Hp) as Hb.
  rewrite Htopo in Hnd. apply NoDup_app in Hnd as (_ & Hdisj & _).
  apply (Hdisj b Hb). left.
Qed.

Lemma dval_self done b rest :
  TopoSort f = done ++ b :: rest -> dval b b (delay_of delay_map b).
Proof.
  intros Htopo. right. split; [apply delays_nonneg |].
  assert (Hb : b < node_count f).
  { destruct topo_ok as (_ & Hn & _). apply Hn. rewrite Htopo.
    apply elem_of_app. right. left. }
  split; [now constructor |].
  intros d' Hp. apply path_inv in Hp as [[_ ->] | (o & d'' & Hp & Ho & _)]; [lia |].
  exfalso. eapply no_back_path; eauto.
Qed.

(** A constraint [(a, c)] is pushed when, folding over the operands of [c]
    with their true distances from [a], some operand makes the distance
    cross the clock period. *)
Definition pushed (a c : nat) : Prop :=
  exists zs, Forall2 (dval a) (operands f c) zs
             /\ (relax_all clock (delay_of delay_map c) (-1) zs).2 = true.

Definition timing_invariant (done : list nat)
    (st : gmap nat (list Z) * gmap nat (list nat)) : Prop :=
  (forall b, b ∈ done ->
     exists v, st.1 !! b = Some v /\ length v = node_count f
               /\ forall a, a < node_count f -> dval a b (dist_at v a))
  /\ (forall a c, c ∈ constraints_of st.2 a <->
                  c ∈ done /\ a < node_count f /\ pushed a c).

Lemma visit_node_invariant done b rest st :
  TopoSort f = done ++ b :: rest ->
  timing_invariant done st ->
  timing_invariant (done ++ [b]) (visit_node f clock delay_map st b).
Proof.
  intros Htopo [HD HR]. destruct st as [dtn res]. cbn [fst snd] in *.
  unfold visit_node. cbn [fst snd].
  pose proof topo_ok as (Hnd & Hnodes & Hops).
  assert (Hb : b < node_count f).
  { apply Hnodes. rewrite Htopo. apply elem_of_app. right. left. }
  assert (Hfresh : b ∉ done).
  { rewrite Htopo in Hnd. apply NoDup_app in Hnd as (_ & Hdisj & _).
    intros Hin. apply (Hdisj b Hin). left. }
  pose proof (relax_operands_spec clock (delay_of delay_map b) b dtn (operands f b)
                (replicate (node_count f) (-1)%Z) res) as H.
  cbn zeta in H. rewrite length_replicate in H.
  destruct (foldl _ (replicate (node_count f) (-1)%Z, res) (operands f b)) as [ds' res'].
  cbn [fst snd] in *. destruct H as (Hlen & Hd & Hr).
  set (ods a := (fun o => dist_at (default [] (dtn !! o)) a) <$> operands f b) in *.
  assert (Hods : forall a, a < node_count f -> Forall2 (dval a) (operands f b) (ods a)).
  { intros a Ha. apply Forall2_fmap_self. intros o Ho.
    destruct (HD o (Hops _ _ _ Htopo o Ho)) as (v & -> & _ & Hv). now apply Hv. }
  split; cbn [fst snd].
  - intros c Hc. apply elem_of_app in Hc as [Hc | Hc].
    + destruct (HD c Hc) as (v & Hv & Hrest). exists v. split; [| exact Hrest].
      rewrite lookup_insert_ne by (intros ->; contradiction). exact Hv.
    + apply list_elem_of_singleton in Hc as ->.
      eexists. split; [apply lookup_insert_eq |]. split; [now rewrite length_insert |].
      intros a Ha. rewrite dist_at_insert by lia.
      destruct (decide (b = a)) as [<- | Hne].
      * eapply dval_self; eauto.
      * rewrite (Hd a Ha), dist_at_replicate.
        apply dval_from_operands; auto.
  - intros a c. rewrite Hr, HR, elem_of_app, list_elem_of_singleton.
    rewrite dist_at_replicate. split.
    + intros [(Hc & Ha & Hp) | (-> & Ha & Hp)]; [tauto |].
      split; [now right |]. split; [exact Ha |]. exists (ods a). auto.
    + intros ([Hc | ->] & Ha & Hp); [tauto | right].
      split; [reflexivity |]. split; [exact Ha |].
      destruct Hp as (zs & Hzs & Hp).
      rewrite <- (Forall2_dval_unique _ _ _ _ _ _ (Hods a Ha) Hzs) in Hp. exact Hp.
Qed.

Lemma timing_invariant_final :
  timing_invariant (TopoSort f) (distances_and_constraints TopoSort f clock delay_map).
Proof.
  unfold distances_and_constraints.
  assert (H : forall rest done st,
             TopoSort f = done ++ rest -> timing_invariant done st ->
             timing_invariant (TopoSort f) (foldl (visit_node f clock delay_map) st rest)).
  { induction rest as [| b rest IH]; intros done st Htopo Hinv; cbn [foldl].
    - rewrite app_nil_r in Htopo. now rewrite Htopo.
    - apply (IH (done ++ [b])).
      + now rewrite <- app_assoc.
      + eapply visit_node_invariant; eauto. }
  apply (H (TopoSort f) []); [reflexivity |]. split.
  - intros b Hb. now apply elem_of_nil in Hb.
  - intros a c. cbn [snd]. rewrite constraints_of_empty. split.
    + intros Hc. now apply elem_of_nil in Hc.
    + intros [Hc _]. now apply elem_of_nil in Hc.
Qed.

End TimingCorrect.

(** *** The constraints that come out *)

Section TimingResult.

Variable TopoSort : FunctionBase -> list nat.
Variable f : FunctionBase.
Variable clock : Z.
Variable delay_map : gmap nat Z.

Hypothesis topo_ok : topological f (TopoSort f).
Hypothesis delays_nonneg : forall b, (0 <= delay_of delay_map b)%Z.

Abbreviation result := (ComputeCombinationalDelayConstraints TopoSort f clock delay_map).

Lemma operand_distances a b :
  a < node_count f -> b ∈ TopoSort f ->
  exists zs, Forall2 (dval f delay_map a) (operands f b) zs.
Proof.
  intros Ha Hb.
  destruct (timing_invariant_final TopoSort f clock delay_map topo_ok delays_nonneg)
    as [HD _].
  exists ((fun o => dist_at
                      (default [] ((distances_and_constraints TopoSort f clock delay_map).1 !! o))
                      a) <$> operands f b).
  apply Forall2_fmap_self. intros o Ho.
  apply list_elem_of_split in Hb as (done & rest & Htopo).
  destruct topo_ok as (_ & _ & Hops).
  assert (Hin : o ∈ TopoSort f).
  { rewrite Htopo. apply elem_of_app. left. eapply Hops; eauto. }
  destruct (HD o Hin) as (v & -> & _ & Hv). now apply Hv.
Qed.

Lemma crossing_is_constrained a b d :
  a ≠ b -> longest f delay_map a b d ->
  (d > clock)%Z -> (d - delay_of delay_map b <= clock)%Z ->
  b ∈ constraints_of result a.
Proof.
  intros Hab Hl Hgt Hle.
  destruct (timing_invariant_final TopoSort f clock delay_map topo_ok delays_nonneg)
    as [_ HR].
  destruct (path_nodes _ _ _ _ _ (proj1 Hl)) as [Ha Hb].
  assert (Hin : b ∈ TopoSort f) by (now apply topo_ok).
  apply HR. split; [exact Hin |]. split; [exact Ha |].
  destruct (operand_distances a b Ha Hin) as (zs & Hzs). exists zs. split; [exact Hzs |].
  pose proof (dval_from_operands f delay_map delays_nonneg clock a b zs Hab Hb Hzs) as Hr.
  assert (Hd : dval f delay_map a b d).
  { right. split; [| exact Hl]. eapply path_nonneg; [exact delays_nonneg | apply Hl]. }
  pose proof (dval_unique _ _ _ _ _ _ Hr Hd) as E.
  apply relax_all_pushes_if; rewrite E; try assumption.
  pose proof (path_nonneg f delay_map delays_nonneg _ _ _ (proj1 Hl)). lia.
Qed.

Lemma constrained_crosses a b :
  b ∈ constraints_of result a ->
  a ≠ b
  /\ exists o z d,
       o ∈ operands f b
       /\ longest f delay_map a o z
       /\ (z <= clock)%Z /\ (z + delay_of delay_map b > clock)%Z
       /\ longest f delay_map a b d /\ (d > clock)%Z.
Proof.
  intros Hin.
  destruct (timing_invariant_final TopoSort f clock delay_map topo_ok delays_nonneg)
    as [_ HR].
  apply HR in Hin as (Hb & Ha & zs & Hzs & Hp).
  apply relax_all_pushes_only_if in Hp as (z & Hz & Hne & Hle & Hgt).
  apply list_elem_of_lookup in Hz as [j Hj].
  destruct (Forall2_lookup_r _ _ _ _ _ Hzs Hj) as (o & Ho & Hd).
  destruct Hd as [[-> _] | [Hz0 Hl]]; [done |].
  assert (Hop : o ∈ operands f b) by (apply list_elem_of_lookup; eauto).
  assert (Hbn : b < node_count f) by (now apply topo_ok).
  assert (Hab : a ≠ b).
  { intros ->. apply list_elem_of_split in Hb as (done & rest & Htopo).
    eapply (no_back_path TopoSort f delay_map topo_ok); eauto. apply Hl. }
  split; [exact Hab |].
  pose proof (dval_from_operands f delay_map delays_nonneg clock a b zs Hab Hbn Hzs) as Hr.
  assert (Hp : path f delay_map a b (z + delay_of delay_map b)).
  { econstructor; eauto. apply Hl. }
  destruct Hr as [[_ Hno] | [_ Hlong]]; [now apply Hno in Hp |].
  eexists o, z, _. repeat split; try apply Hl; try apply Hlong; try assumption.
  destruct Hlong as [_ Hub]. specialize (Hub _ Hp). lia.
Qed.

End TimingResult.

(** The claim as the specification states it: [(a, b)] is constrained iff
    [d(a,b)] exceeds the clock period and [d(a,b) - delay(b)] does not. *)
Definition constrained_iff_crossing (TopoSort : FunctionBase -> list nat)
    (f : FunctionBase) (clock : Z) (delay_map : gmap nat Z) : Prop :=
  forall a b,
    b ∈ constraints_of (ComputeCombinationalDelayConstraints TopoSort f clock delay_map) a
    <-> exists d, longest f delay_map a b d
                  /\ (d > clock)%Z /\ (d - delay_of delay_map b <= clock)%Z.

(** What the function computes.  For distinct nodes [a] and [b]: if
    [d(a,b)] exceeds the clock period and [d(a,b) - delay(b)] does not,
    [b] is in the result vector of [a].  Conversely, every [b] in the
    result vector of [a] is a node other than [a] with [d(a,b)] above the
    clock period, and it has an operand [o] at which the distance from [a]
    crosses the period: [d(a,o) <= clock_period_ps < d(a,o) + delay(b)]. *)
Lemma constraints_where_an_operand_crosses :
  forall (TopoSort : FunctionBase -> list nat) (f : FunctionBase)
         (clock_period_ps : Z) (delay_map : gmap nat Z),
    topological f (TopoSort f) ->
    (forall b, (0 <= delay_of delay_map b)%Z) ->
    let result := ComputeCombinationalDelayConstraints TopoSort f clock_period_ps delay_map in
    (forall a b d,
        a ≠ b -> longest f delay_map a b d ->
        (d > clock_period_ps)%Z -> (d - delay_of delay_map b <= clock_period_ps)%Z ->
        b ∈ constraints_of result a)
    /\ (forall a b,
          b ∈ constraints_of result a ->
          a ≠ b
          /\ exists o z d,
               o ∈ operands f b
               /\ longest f delay_map a o z
               /\ (z <= clock_period_ps)%Z
               /\ (z + delay_of delay_map b > clock_period_ps)%Z
               /\ longest f delay_map a b d /\ (d > clock_period_ps)%Z).
Proof.
  intros TopoSort f clock delay_map Htopo Hdelay result. split.
  - intros a b d. now apply crossing_is_constrained.
  - intros a b. now apply constrained_crosses.
Qed.

(** *** The diamond *)

Lemma in_order_topological f :
  (forall b o, b < node_count f -> o ∈ operands f b -> o < b) ->
  topological f (nodes f).
Proof.
  intros Hops. unfold nodes. split; [apply NoDup_seq |]. split.
  - intros i. rewrite elem_of_seq. lia.
  - intros done b rest Hsplit o Ho.
    assert (Hb : seq 0 (node_count f) !! length done = Some b).
    { rewrite Hsplit. now rewrite list_lookup_middle. }
    apply lookup_seq in Hb as [Hb Hlt]. cbn in Hb, Hlt. subst b.
    assert (Hdone : done = seq 0 (length done)).
    { pose proof (f_equal (take (length done)) Hsplit) as Ht.
      rewrite take_app_length, take_seq in Ht.
      replace (length done `min` node_count f) with (length done) in Ht by lia.
      now symmetry. }
    rewrite Hdone. apply elem_of_seq.
    specialize (Hops (length done) o Hlt Ho). lia.
Qed.

Module Diamond.

Import Graphs.

Lemma topo : topological diamond (in_order diamond).
Proof.
  apply in_order_topological. intros b o Hb Ho.
  do 3 (destruct b as [| b]; [cbn in Ho; set_solver by lia |]).
  cbn in Hb. lia.
Qed.

Lemma delays b : (0 <= delay_of diamond_delays b)%Z.
Proof.
  unfold delay_of. destruct (diamond_delays !! b) as [z |] eqn:E; [| cbn; lia].
  apply elem_of_list_to_map_2 in E. cbn. set_solver by lia.
Qed.

(** The entries of the distance vectors are the longest distances. *)
Lemma distance a b z :
  (distances_and_constraints in_order diamond 10 diamond_delays).1 !! b = Some z ->
  forall d, dist_at z a = d -> a < 3 -> d ≠ (-1)%Z ->
  longest diamond diamond_delays a b d.
Proof.
  intros Hz d Hd Ha Hne.
  destruct (timing_invariant_final in_order diamond 10 diamond_delays topo delays)
    as [HD _].
  assert (Hb : b ∈ in_order diamond).
  { rewrite diamond_distances in Hz. apply elem_of_list_to_map_2 in Hz.
    cbn. set_solver. }
  destruct (HD b Hb) as (v & Hv & _ & Hval). rewrite Hz in Hv. injection Hv as <-.
  destruct (Hval a Ha) as [[E _] | [_ Hl]]; [congruence |]. now rewrite <- Hd.
Qed.

Lemma delay_b : delay_of diamond_delays 2 = 5%Z.
Proof. reflexivity. Qed.

Lemma longest_a_b : longest diamond diamond_delays 0 2 17.
Proof.
  eapply (distance 0 2); [rewrite diamond_distances; reflexivity | reflexivity | lia | lia].
Qed.

Lemma longest_m_b : longest diamond diamond_delays 1 2 11.
Proof.
  eapply (distance 1 2); [rewrite diamond_distances; reflexivity | reflexivity | lia | lia].
Qed.

End Diamond.

(** The diamond with the operands of [b] in the other order:
    [b = f(m, a)]. *)
Definition diamond_swapped : FunctionBase :=
  MkFunctionBase [ Graphs.op "a" []; Graphs.op "m" [0]; Graphs.op "b" [1; 0] ] [2].

(** C2, at the diamond ([m = g(a)], [b = f(a, m)], delays 6, 6 and 5,
    clock period 10).  The function puts [b] in the result vector of [a]:
    the push test runs inside the operand loop, on the distance through
    the operand [a] alone, [6 <= 10 < 6 + 5].  But the longest distance is
    [d(a,b) = 17], through [m], and [d(a,b) - delay(b) = 12] exceeds the
    period, so by the function's own comment the pair is not to be in the
    set: [b] is in the vector of [a] without the two conditions holding.
    With the operands of [b] in the other order the same graph gives the
    set the comment describes, [(a,m)] and [(m,b)] only. *)
Theorem C2_diamond_pair_constrained_without_crossing :
  2 ∈ constraints_of
        (ComputeCombinationalDelayConstraints Graphs.in_order Graphs.diamond 10
           Graphs.diamond_delays) 0
  /\ longest Graphs.diamond Graphs.diamond_delays 0 2 17
  /\ (17 > 10)%Z
  /\ ~ (17 - delay_of Graphs.diamond_delays 2 <= 10)%Z
  /\ ~ constrained_iff_crossing Graphs.in_order Graphs.diamond 10 Graphs.diamond_delays
  /\ ComputeCombinationalDelayConstraints Graphs.in_order diamond_swapped 10
       Graphs.diamond_delays
     = list_to_map [(0, [1]); (1, [2]); (2, [])].
Proof.
  assert (Hin : 2 ∈ constraints_of
                      (ComputeCombinationalDelayConstraints Graphs.in_order
                         Graphs.diamond 10 Graphs.diamond_delays) 0).
  { rewrite Graphs.diamond_constraints. cbn. set_solver. }
  split; [exact Hin |]. split; [exact Diamond.longest_a_b |].
  split; [lia |]. split; [rewrite Diamond.delay_b; lia |].
  split; [| vm_compute; reflexivity].
  intros H. destruct (H 0 2) as [Hfwd _].
  destruct (Hfwd Hin) as (d & Hl & _ & Hle).
  rewrite (longest_unique _ _ _ _ _ _ Hl Diamond.longest_a_b) in Hle.
  rewrite Diamond.delay_b in Hle. lia.
Qed.

(** ** The linear program

    The scheduler talks to an LP solver through [MPSolver]: variables with
    bounds, row constraints [lb <= sum coeff * var <= ub], an objective, and
    after [Solve] a value per variable.  Values are [double]s; the
    embedding takes them in [Q] extended by the two infinities, with exact
    arithmetic. *)

(** Modelled from the spec: the bounds the scheduler hands to the LP
    back end, a [double] or one of [MPSolver::infinity()] and its negation. *)
Inductive Double :=
  | MinusInfinity
  | Real (q : Q)
  | PlusInfinity.

(** Modelled from the spec: [MPVariable] of the LP back end ("an external
    library invoked synchronously").  An [MPVariable*] or [MPConstraint*]
    is the position of the object in the solver. *)
Record MPVariable := MkVariable {
  var_lb : Double;
  var_ub : Double;
  var_name : string;
}.

(** Modelled from the spec: [MPConstraint], a row
    [lb <= sum coeff * var <= ub]. *)
Record MPConstraint := MkConstraint {
  row_lb : Double;
  row_ub : Double;
  row_name : string;
  row_coefficients : list (nat * Q);
}.

(** Modelled from the spec: [MPSolver], the problem as built so far. *)
Record MPSolver := MkSolver {
  solver_variables : list MPVariable;
  solver_constraints : list MPConstraint;
  solver_objective : list (nat * Q);
  solver_minimization : bool;
}.

(** Modelled from the spec: [MPSolver::ResultStatus]. *)
Inductive ResultStatus :=
  | OPTIMAL | FEASIBLE | INFEASIBLE | UNBOUNDED | ABNORMAL | MODEL_INVALID | NOT_SOLVED.

#[global] Instance ResultStatus_eq_dec : EqDecision ResultStatus.
Proof. solve_decision. Defined.

(** Modelled from the spec: [MPSolver::MakeNumVar(lb, ub, name)]. *)
Definition MakeNumVar (lb ub : Double) (name : string) (solver : MPSolver)
  : MPSolver * nat :=
  (MkSolver (solver_variables solver ++ [MkVariable lb ub name])
            (solver_constraints solver) (solver_objective solver)
            (solver_minimization solver),
   length (solver_variables solver)).

(** Modelled from the spec: [SetCoefficient(var, coeff)]; a later call for
    the same variable replaces the earlier coefficient. *)
Definition SetCoefficient (var : nat) (coeff : Q) (coefficients : list (nat * Q))
  : list (nat * Q) :=
  (var, coeff) :: filter (fun vc => vc.1 ≠ var) coefficients.

(** Modelled from the spec: [MPSolver::MakeRowConstraint(lb, ub, name)]
    followed by the [SetCoefficient] calls on the new row. *)
Definition MakeRowConstraint (lb ub : Double) (name : string)
    (coefficients : list (nat * Q)) (solver : MPSolver) : MPSolver :=
  MkSolver (solver_variables solver)
           (solver_constraints solver ++ [MkConstraint lb ub name coefficients])
           (solver_objective solver) (solver_minimization solver).

(** The value of a linear form under an assignment. *)
Definition linear_value (solution : nat -> Q) (coefficients : list (nat * Q)) : Q :=
  foldr (fun vc acc => (vc.2 * solution vc.1 + acc)%Q) 0%Q coefficients.

(** [lb - tol <= x <= ub + tol] *)
Definition within (tol : Q) (lb ub : Double) (x : Q) : Prop :=
  match lb with
  | MinusInfinity => True
  | Real l => (l - tol <= x)%Q
  | PlusInfinity => False
  end
  /\ match ub with
     | MinusInfinity => False
     | Real u => (x <= u + tol)%Q
     | PlusInfinity => True
     end.

(** [solution] satisfies every variable bound and every row of the
    problem, up to the solver's tolerance. *)
Definition feasible (tol : Q) (solver : MPSolver) (solution : nat -> Q) : Prop :=
  (forall i var, solver_variables solver !! i = Some var ->
                 within tol (var_lb var) (var_ub var) (solution i))
  /\ (forall row, row ∈ solver_constraints solver ->
                  within tol (row_lb row) (row_ub row)
                         (linear_value solution (row_coefficients row))).

(** ** Scheduling constraints *)

(** Modelled from the spec: [IODirection] of the scheduling options. *)
Inductive IODirection := kIOReceive | kIOSend.

#[global] Instance IODirection_eq_dec : EqDecision IODirection.
Proof. solve_decision. Defined.

(** Modelled from the spec: [IOConstraint], a latency window between the
    operations on two channels. *)
Record IOConstraint := MkIOConstraint {
  SourceChannel : string;
  SourceDirection : IODirection;
  TargetChannel : string;
  TargetDirection : IODirection;
  MinimumLatency : Z;
  MaximumLatency : Z;
}.

(** Modelled from the spec: [SchedulingConstraint], a
    [std::variant<IOConstraint, RecvsFirstSendsLastConstraint>]. *)
Inductive SchedulingConstraint :=
  | IO (constraint : IOConstraint)
  | RecvsFirstSendsLast.

(** Modelled from the spec: [sched::ScheduleBounds], the lower and upper
    bound of each node. *)
Record ScheduleBounds := MkBounds {
  bounds_lb : nat -> Z;
  bounds_ub : nat -> Z;
}.

(** ** [ConstraintBuilder] *)

Record ConstraintBuilder := MkBuilder {
  func_ : FunctionBase;
  solver_ : MPSolver;
  pipeline_length_ : Z;
  clock_period_ps_ : Z;
  delay_map_ : gmap nat Z;
  cycle_var_ : gmap nat nat;
  lifetime_var_ : gmap nat nat;
  cycle_at_sinknode_ : nat;
  delay_constraints_ : gmap nat (list nat);
}.

Definition with_solver (b : ConstraintBuilder) (solver : MPSolver) : ConstraintBuilder :=
  MkBuilder (func_ b) solver (pipeline_length_ b) (clock_period_ps_ b) (delay_map_ b)
            (cycle_var_ b) (lifetime_var_ b) (cycle_at_sinknode_ b) (delay_constraints_ b).

(** [cycle_var_.at(node)] and [lifetime_var_.at(node)]; the constructor
    fills both maps for every node. *)
Definition cycle_var_at (b : ConstraintBuilder) (node : nat) : nat :=
  default 0 (cycle_var_ b !! node).
Definition lifetime_var_at (b : ConstraintBuilder) (node : nat) : nat :=
  default 0 (lifetime_var_ b !! node).

(** The loop of the constructor: a cycle variable and a lifetime variable
    per node. *)
Definition make_node_vars (f : FunctionBase) (bounds : ScheduleBounds)
    (st : MPSolver * gmap nat nat * gmap nat nat) (node : nat)
  : MPSolver * gmap nat nat * gmap nat nat :=
  let '(solver, cycle_var, lifetime_var) := st in
  let '(solver, c) :=
    MakeNumVar (Real (inject_Z (bounds_lb bounds node)))
               (Real (inject_Z (bounds_ub bounds node)))
               (GetName f node) solver in
  let '(solver, l) :=
    MakeNumVar (Real 0) PlusInfinity ("lifetime_" +:+ GetName f node) solver in
  (solver, <[node := c]> cycle_var, <[node := l]> lifetime_var).

(** [ConstraintBuilder::ConstraintBuilder] *)
Definition ConstraintBuilder_new (func : FunctionBase) (solver : MPSolver)
    (pipeline_length clock_period_ps : Z) (bounds : ScheduleBounds)
    (delay_map : gmap nat Z) : ConstraintBuilder :=
  let '(solver, cycle_var, lifetime_var) :=
    foldl (make_node_vars func bounds) (solver, ∅, ∅) (nodes func) in
  let '(solver, sink) := MakeNumVar MinusInfinity PlusInfinity "cycle_at_sinknode" solver in
  MkBuilder func solver pipeline_length clock_period_ps delay_map
            cycle_var lifetime_var sink ∅.

Definition user_var (b : ConstraintBuilder) (user : option nat) : nat :=
  match user with
  | Some u => cycle_var_at b u
  | None => cycle_at_sinknode_ b
  end.

Definition user_str (b : ConstraintBuilder) (user : option nat) : string :=
  match user with
  | Some u => GetName (func_ b) u
  | None => "«sink»"
  end.

(** [ConstraintBuilder::AddCausalConstraint]:
    [cycle[node] - cycle[node_user] <= 0]. *)
Definition AddCausalConstraint (b : ConstraintBuilder) (node : nat) (user : option nat)
  : StatusOr ConstraintBuilder :=
  let cycle_at_node := cycle_var_at b node in
  let cycle_at_user := user_var b user in
  Ok (with_solver b
        (MakeRowConstraint MinusInfinity (Real 0)
           ("causal_" +:+ GetName (func_ b) node +:+ "_" +:+ user_str b user)
           (SetCoefficient cycle_at_user (-1) (SetCoefficient cycle_at_node 1 []))
           (solver_ b))).

(** [ConstraintBuilder::AddLifetimeConstraint]:
    [cycle[node_user] - cycle[node] - lifetime[node] <= 0]. *)
Definition AddLifetimeConstraint (b : ConstraintBuilder) (node : nat) (user : option nat)
  : StatusOr ConstraintBuilder :=
  let cycle_at_node := cycle_var_at b node in
  let lifetime_at_node := lifetime_var_at b node in
  let cycle_at_user := user_var b user in
  Ok (with_solver b
        (MakeRowConstraint MinusInfinity (Real 0)
           ("lifetime_" +:+ GetName (func_ b) node +:+ "_" +:+ user_str b user)
           (SetCoefficient lifetime_at_node (-1)
              (SetCoefficient cycle_at_node (-1)
                 (SetCoefficient cycle_at_user 1 [])))
           (solver_ b))).

(** [ConstraintBuilder::AddDefUseConstraints] *)
Definition AddDefUseConstraints (b : ConstraintBuilder) (node : nat) (user : option nat)
  : StatusOr ConstraintBuilder :=
  b ← AddCausalConstraint b node user;
  AddLifetimeConstraint b node user.

(** Modelled from the spec: [GetChannelUsedByNode(node)] of
    [xls/ir/node_util.h], the channel of a send or receive, an error when
    there is none. *)
Definition GetChannelUsedByNode (f : FunctionBase) (node : nat) : StatusOr string :=
  match fb_nodes f !! node ≫= node_channel with
  | Some channel => Ok channel
  | None => Error (MkStatus kNotFound "No channel for node")
  end.

(** The lambda [node_matches_direction] of [AddIOConstraint]. *)
Definition node_matches_direction (f : FunctionBase) (node : nat) (dir : IODirection) : bool :=
  (IsSend f node && bool_decide (dir = kIOSend))
  || (IsReceive f node && bool_decide (dir = kIOReceive)).

Definition add_channel_node (f : FunctionBase)
    (channel_to_nodes : gmap string (list nat)) (node : nat)
  : StatusOr (gmap string (list nat)) :=
  if IsReceive f node || IsSend f node then
    channel ← GetChannelUsedByNode f node;
    Ok (<[channel := default [] (channel_to_nodes !! channel) ++ [node]]> channel_to_nodes)
  else Ok channel_to_nodes.

(** The body of the two nested loops of [AddIOConstraint]. *)
Definition add_io_rows (constraint : IOConstraint) (source : nat)
    (b : ConstraintBuilder) (target : nat) : StatusOr ConstraintBuilder :=
  let f := func_ b in
  if negb (node_matches_direction f source (SourceDirection constraint)) then Ok b
  else if negb (node_matches_direction f target (TargetDirection constraint)) then Ok b
  else if Nat.eqb source target then Ok b
  else
    let source_var := cycle_var_at b source in
    let target_var := cycle_var_at b target in
    let solver :=
      MakeRowConstraint MinusInfinity (Real (inject_Z (- MinimumLatency constraint)))
        ("min_io_" +:+ GetName f source +:+ "_" +:+ GetName f target)
        (SetCoefficient target_var (-1) (SetCoefficient source_var 1 []))
        (solver_ b) in
    let solver :=
      MakeRowConstraint MinusInfinity (Real (inject_Z (MaximumLatency constraint)))
        ("max_io_" +:+ GetName f source +:+ "_" +:+ GetName f target)
        (SetCoefficient source_var (-1) (SetCoefficient target_var 1 []))
        solver in
    Ok (with_solver b solver).

(** [ConstraintBuilder::AddIOConstraint] *)
Definition AddIOConstraint (b : ConstraintBuilder) (constraint : IOConstraint)
  : StatusOr ConstraintBuilder :=
  channel_to_nodes ← for_each (add_channel_node (func_ b)) (nodes (func_ b)) ∅;
  for_each
    (fun b source =>
       for_each (add_io_rows constraint source) 
                (default [] (channel_to_nodes !! TargetChannel constraint)) b)
    (default [] (channel_to_nodes !! SourceChannel constraint)) b.

(** The body of the loop of [AddRFSLConstraint]: [cycle[node] <= 0] for a
    receive, [pipeline_length - 1 <= cycle[node]] for a send. *)
Definition add_rfsl_rows (b : ConstraintBuilder) (node : nat) : StatusOr ConstraintBuilder :=
  let f := func_ b in
  let b1 :=
    if IsReceive f node then
      with_solver b
        (MakeRowConstraint MinusInfinity (Real 0) ("recv_" +:+ GetName f node)
           (SetCoefficient (cycle_var_at b node) 1 []) (solver_ b))
    else b in
  let b2 :=
    if IsSend f node then
      with_solver b1
        (MakeRowConstraint MinusInfinity (Real (inject_Z (- (pipeline_length_ b1 - 1))))
           ("send_" +:+ GetName f node)
           (SetCoefficient (cycle_var_at b1 node) (-1) []) (solver_ b1))
    else b1 in
  Ok b2.

(** [ConstraintBuilder::AddRFSLConstraint] *)
Definition AddRFSLConstraint (b : ConstraintBuilder) : StatusOr ConstraintBuilder :=
  for_each add_rfsl_rows (nodes (func_ b)) b.

(** [ConstraintBuilder::AddSchedulingConstraint] *)
Definition AddSchedulingConstraint (b : ConstraintBuilder) (constraint : SchedulingConstraint)
  : StatusOr ConstraintBuilder :=
  match constraint with
  | IO c => AddIOConstraint b c
  | RecvsFirstSendsLast => AddRFSLConstraint b
  end.

Definition add_timing_row (source : nat) (b : ConstraintBuilder) (target : nat)
  : StatusOr ConstraintBuilder :=
  Ok (with_solver b
        (MakeRowConstraint (Real 1) PlusInfinity
           ("timing_" +:+ GetName (func_ b) source +:+ "_" +:+ GetName (func_ b) target)
           (SetCoefficient (cycle_var_at b source) (-1)
              (SetCoefficient (cycle_var_at b target) 1 []))
           (solver_ b))).

(** [ConstraintBuilder::AddObjective] *)
Definition AddObjective (b : ConstraintBuilder) : StatusOr ConstraintBuilder :=
  let objective :=
    foldl (fun objective node =>
             SetCoefficient (lifetime_var_at b node)
               (inject_Z (1024 * node_bit_count_of (func_ b) node))
               (SetCoefficient (cycle_var_at b node) 1 objective))
          (solver_objective (solver_ b)) (nodes (func_ b)) in
  Ok (with_solver b
        (MkSolver (solver_variables (solver_ b)) (solver_constraints (solver_ b))
                  objective true)).

(** [std::round]: to the nearest integer, halves away from zero. *)
Definition round (x : Q) : Z :=
  if Qle_bool 0 x then Qfloor (x + (1 # 2)) else Qceiling (x - (1 # 2)).

(** The [double] that the literal [0.001] of [ExtractResult] denotes: the
    binary64 number nearest to 1/1000, which is 1152921504606847 / 2^60
    and lies a little above 1/1000. *)
Definition double_0_001 : Q := 1152921504606847 # 1152921504606846976.

(** [ConstraintBuilder::ExtractResult], on the values the solver holds
    after [Solve].  The test is
    [std::fabs(cycle - std::round(cycle)) > 0.001] on [double]s: the
    difference of a [double] and its rounding is a [double] again, so
    nothing is rounded before the comparison, and the comparison is with
    the [double] [0.001]. *)
Definition ExtractResult (b : ConstraintBuilder) (solution_value : nat -> Q)
  : StatusOr (gmap nat Z) :=
  for_each
    (fun (cycle_map : gmap nat Z) (node : nat) =>
       let cycle := solution_value (cycle_var_at b node) in
       if Qle_bool (Qabs (cycle - inject_Z (round cycle))) double_0_001
       then Ok (<[node := round cycle]> cycle_map)
       else InternalError "The scheduling result is expected to be integer")
    (nodes (func_ b)) ∅.

(** [ComputeNodeDelays(f, delay_estimator)] *)
Definition ComputeNodeDelays (f : FunctionBase) (delay_estimator : nat -> StatusOr Z)
  : StatusOr (gmap nat Z) :=
  for_each (fun (result : gmap nat Z) (node : nat) =>
              delay ← delay_estimator node; Ok (<[node := delay]> result))
           (nodes f) ∅.

Section Scheduler.

(** The pieces the scheduler takes from outside: [TopoSort] of the IR and
    the LP library ([MPSolver::CreateSolver], which returns no solver when
    the back end is not linked in, and [MPSolver::Solve], which returns a
    status and leaves a value in every variable). *)
Variable TopoSort : FunctionBase -> list nat.
Variable CreateSolver : string -> option MPSolver.
Variable Solve : MPSolver -> ResultStatus * (nat -> Q).

(** [ConstraintBuilder::AddTimingConstraints] *)
Definition AddTimingConstraints (b : ConstraintBuilder) : StatusOr ConstraintBuilder :=
  let b :=
    if decide (delay_constraints_ b = ∅) then
      MkBuilder (func_ b) (solver_ b) (pipeline_length_ b) (clock_period_ps_ b)
                (delay_map_ b) (cycle_var_ b) (lifetime_var_ b) (cycle_at_sinknode_ b)
                (ComputeCombinationalDelayConstraints TopoSort (func_ b)
                   (clock_period_ps_ b) (delay_map_ b))
    else b in
  for_each
    (fun b source =>
       for_each (add_timing_row source) (constraints_of (delay_constraints_ b) source) b)
    (nodes (func_ b)) b.

(** The loop of [SDCScheduler] over the nodes and their users. *)
Definition add_def_use (f : FunctionBase) (b : ConstraintBuilder) (node : nat)
  : StatusOr ConstraintBuilder :=
  b ← for_each (fun b user => AddDefUseConstraints b node (Some user)) (users f node) b;
  if HasImplicitUse f node then AddDefUseConstraints b node None else Ok b.

(** [SDCScheduler] up to the call of [Solve]: the builder with all rows
    and the objective. *)
Definition build_problem (f : FunctionBase) (solver : MPSolver)
    (pipeline_stages clock_period_ps : Z) (delay_estimator : nat -> StatusOr Z)
    (bounds : ScheduleBounds) (constraints : list SchedulingConstraint)
  : StatusOr ConstraintBuilder :=
  delay_map ← ComputeNodeDelays f delay_estimator;
  let builder :=
    ConstraintBuilder_new f solver pipeline_stages clock_period_ps bounds delay_map in
  builder ← for_each AddSchedulingConstraint constraints builder;
  builder ← for_each (add_def_use f) (nodes f) builder;
  builder ← AddTimingConstraints builder;
  AddObjective builder.

(** [absl::StatusOr<ScheduleCycleMap> SDCScheduler(f, pipeline_stages,
    clock_period_ps, delay_estimator, bounds, constraints)] *)
Definition SDCScheduler (f : FunctionBase) (pipeline_stages clock_period_ps : Z)
    (delay_estimator : nat -> StatusOr Z) (bounds : ScheduleBounds)
    (constraints : list SchedulingConstraint) : StatusOr (gmap nat Z) :=
  match CreateSolver "GLOP" with
  | None => UnavailableError "GLOP solver unavailable."
  | Some solver =>
      builder ← build_problem f solver pipeline_stages clock_period_ps
                  delay_estimator bounds constraints;
      let '(status, solution_value) := Solve (solver_ builder) in
      if decide (status ≠ OPTIMAL) then
        InternalError "The problem does not have an optimal solution"
      else ExtractResult builder solution_value
  end.

End Scheduler.

(** ** What the builder leaves in the solver *)

(** Every method of the builder keeps the function, the variables and the
    variable maps, and only appends rows. *)
Definition extends (b b' : ConstraintBuilder) : Prop :=
  func_ b' = func_ b
  /\ pipeline_length_ b' = pipeline_length_ b
  /\ cycle_var_ b' = cycle_var_ b
  /\ cycle_at_sinknode_ b' = cycle_at_sinknode_ b
  /\ solver_variables (solver_ b') = solver_variables (solver_ b)
  /\ exists extra,
       solver_constraints (solver_ b') = solver_constraints (solver_ b) ++ extra.

Lemma extends_refl b : extends b b.
Proof. repeat split. exists []. now rewrite app_nil_r. Qed.

Lemma extends_trans b1 b2 b3 : extends b1 b2 -> extends b2 b3 -> extends b1 b3.
Proof.
  intros (F1 & P1 & C1 & S1 & V1 & e1 & R1) (F2 & P2 & C2 & S2 & V2 & e2 & R2).
  repeat split; try congruence.
  exists (e1 ++ e2). now rewrite R2, R1, app_assoc.
Qed.

Lemma extends_rows b b' row :
  extends b b' -> row ∈ solver_constraints (solver_ b) ->
  row ∈ solver_constraints (solver_ b').
Proof.
  intros (_ & _ & _ & _ & _ & e & ->) H. apply elem_of_app. now left.
Qed.

Lemma extends_cycle_var b b' node :
  extends b b' -> cycle_var_at b' node = cycle_var_at b node.
Proof. intros (_ & _ & C & _). unfold cycle_var_at. now rewrite C. Qed.

Lemma extends_row b lb ub name coefficients :
  extends b (with_solver b (MakeRowConstraint lb ub name coefficients (solver_ b))).
Proof. repeat split. cbn. eauto. Qed.

Lemma row_added b lb ub name coefficients :
  MkConstraint lb ub name coefficients
  ∈ solver_constraints
      (solver_ (with_solver b (MakeRowConstraint lb ub name coefficients (solver_ b)))).
Proof. cbn. apply elem_of_app. right. left. Qed.

Lemma for_each_extends {A} (body : ConstraintBuilder -> A -> StatusOr ConstraintBuilder) l :
  (forall b x b', body b x = Ok b' -> extends b b') ->
  forall b b', for_each body l b = Ok b' -> extends b b'.
Proof.
  intros Hbody b b'.
  apply (for_each_invariant body (extends b)); [| apply extends_refl].
  intros s x s' _ Hs Hx. eapply extends_trans; eauto.
Qed.

(** A loop whose body extends the builder runs its body on every element,
    between two extensions. *)
Lemma for_each_visits {A} (body : ConstraintBuilder -> A -> StatusOr ConstraintBuilder) l :
  (forall b x b', body b x = Ok b' -> extends b b') ->
  forall b b' x, for_each body l b = Ok b' -> x ∈ l ->
    exists b1 b2, extends b b1 /\ body b1 x = Ok b2 /\ extends b2 b'.
Proof.
  intros Hbody. induction l as [| y l IH]; intros b b' x H Hx.
  - now apply elem_of_nil in Hx.
  - cbn in H. apply bind_Ok_inv in H as (b1 & Hy & Hrest).
    apply elem_of_cons in Hx as [-> | Hx].
    + exists b, b1. split; [apply extends_refl |]. split; [exact Hy |].
      eapply for_each_extends; eauto.
    + destruct (IH _ _ _ Hrest Hx) as (b2 & b3 & E1 & Hb & E2).
      exists b2, b3. split; [| auto]. eapply extends_trans; eauto.
Qed.

Lemma AddCausalConstraint_extends b node user b' :
  AddCausalConstraint b node user = Ok b' -> extends b b'.
Proof. intros [= <-]. apply extends_row. Qed.

Lemma AddLifetimeConstraint_extends b node user b' :
  AddLifetimeConstraint b node user = Ok b' -> extends b b'.
Proof. intros [= <-]. apply extends_row. Qed.

Lemma AddDefUseConstraints_extends b node user b' :
  AddDefUseConstraints b node user = Ok b' -> extends b b'.
Proof.
  unfold AddDefUseConstraints. intros H. apply bind_Ok_inv in H as (b1 & H1 & H2).
  eapply extends_trans.
  - eapply AddCausalConstraint_extends; eauto.
  - eapply AddLifetimeConstraint_extends; eauto.
Qed.

(** The causal row of a def-use pair. *)
Definition causal_row (b : ConstraintBuilder) (node : nat) (user : option nat) : MPConstraint :=
  MkConstraint MinusInfinity (Real 0)
    ("causal_" +:+ GetName (func_ b) node +:+ "_" +:+ user_str b user)
    (SetCoefficient (user_var b user) (-1) (SetCoefficient (cycle_var_at b node) 1 [])).

Lemma AddDefUseConstraints_causal b node user b' :
  AddDefUseConstraints b node user = Ok b' ->
  causal_row b node user ∈ solver_constraints (solver_ b').
Proof.
  unfold AddDefUseConstraints. intros H. apply bind_Ok_inv in H as (b1 & H1 & H2).
  eapply extends_rows; [eapply AddLifetimeConstraint_extends; eauto |].
  injection H1 as <-. apply row_added.
Qed.

Lemma add_io_rows_extends constraint source b target b' :
  add_io_rows constraint source b target = Ok b' -> extends b b'.
Proof.
  unfold add_io_rows.
  repeat (match goal with |- context [if ?c then _ else _] => destruct c end;
          [intros [= <-]; apply extends_refl |]).
  intros [= <-].
  eapply extends_trans; [apply extends_row | apply (extends_row (with_solver _ _))].
Qed.

Lemma AddIOConstraint_extends b constraint b' :
  AddIOConstraint b constraint = Ok b' -> extends b b'.
Proof.
  unfold AddIOConstraint. intros H. apply bind_Ok_inv in H as (m & _ & H).
  revert H. apply for_each_extends. intros b1 source b2.
  apply for_each_extends. intros ? ? ?. apply add_io_rows_extends.
Qed.

Lemma add_rfsl_rows_extends b node b' :
  add_rfsl_rows b node = Ok b' -> extends b b'.
Proof.
  unfold add_rfsl_rows. intros [= <-].
  destruct (IsReceive _ node), (IsSend _ node);
    try apply extends_refl; try apply extends_row.
  eapply extends_trans; [apply extends_row | apply (extends_row (with_solver _ _))].
Qed.

Lemma AddRFSLConstraint_extends b b' :
  AddRFSLConstraint b = Ok b' -> extends b b'.
Proof. apply for_each_extends. intros ? ? ?. apply add_rfsl_rows_extends. Qed.

Lemma AddSchedulingConstraint_extends b constraint b' :
  AddSchedulingConstraint b constraint = Ok b' -> extends b b'.
Proof.
  destruct constraint; [apply AddIOConstraint_extends | apply AddRFSLConstraint_extends].
Qed.

Lemma add_timing_row_extends source b target b' :
  add_timing_row source b target = Ok b' -> extends b b'.
Proof. intros [= <-]. apply extends_row. Qed.

Lemma AddObjective_extends b b' : AddObjective b = Ok b' -> extends b b'.
Proof. intros [= <-]. repeat split. exists []. cbn. now rewrite app_nil_r. Qed.

Section BuilderFacts.

Variable TopoSort : FunctionBase -> list nat.

Lemma AddTimingConstraints_extends b b' :
  AddTimingConstraints TopoSort b = Ok b' -> extends b b'.
Proof.
  unfold AddTimingConstraints. intros H.
  eapply extends_trans; [| eapply for_each_extends; [| exact H]].
  - destruct (decide _); [| apply extends_refl].
    repeat split. exists []. cbn. now rewrite app_nil_r.
  - intros b1 source b2. apply for_each_extends.
    intros ? ? ?. apply add_timing_row_extends.
Qed.

Lemma add_def_use_extends f b node b' :
  add_def_use f b node = Ok b' -> extends b b'.
Proof.
  unfold add_def_use. intros H. apply bind_Ok_inv in H as (b1 & H1 & H2).
  eapply extends_trans.
  - eapply for_each_extends; [| exact H1].
    intros ? ? ?. apply AddDefUseConstraints_extends.
  - destruct (HasImplicitUse f node).
    + eapply AddDefUseConstraints_extends; eauto.
    + injection H2 as <-. apply extends_refl.
Qed.

(** The stages of [build_problem]. *)
Lemma build_problem_inv f solver stages clock estimator bounds constraints bf :
  build_problem TopoSort f solver stages clock estimator bounds constraints = Ok bf ->
  exists delay_map b1 b2,
    ComputeNodeDelays f estimator = Ok delay_map
    /\ for_each AddSchedulingConstraint constraints
         (ConstraintBuilder_new f solver stages clock bounds delay_map) = Ok b1
    /\ for_each (add_def_use f) (nodes f) b1 = Ok b2
    /\ extends (ConstraintBuilder_new f solver stages clock bounds delay_map) b1
    /\ extends b1 b2 /\ extends b2 bf.
Proof.
  unfold build_problem. intros H.
  apply bind_Ok_inv in H as (delay_map & Hd & H).
  apply bind_Ok_inv in H as (b1 & H1 & H).
  apply bind_Ok_inv in H as (b2 & H2 & H).
  apply bind_Ok_inv in H as (b3 & H3 & H4).
  exists delay_map, b1, b2.
  split; [exact Hd |]. split; [exact H1 |]. split; [exact H2 |].
  split; [| split].
  - eapply for_each_extends; [| exact H1].
    intros ? ? ?. apply AddSchedulingConstraint_extends.
  - eapply for_each_extends; [| exact H2].
    intros ? ? ?. apply add_def_use_extends.
  - eapply extends_trans;
      [eapply AddTimingConstraints_extends | eapply AddObjective_extends]; eauto.
Qed.

End BuilderFacts.

(** ** Rounding the solution *)

(** [x] passes the integrality test of [ExtractResult] with result [k]. *)
Definition near (x : Q) (k : Z) : Prop :=
  (Qabs (x - inject_Z k) <= double_0_001)%Q.

Lemma double_0_001_range : (1 # 1000 < double_0_001)%Q /\ (double_0_001 < 2 # 1000)%Q.
Proof. split; reflexivity. Qed.

Lemma near_le x k u t :
  near x k -> (x <= inject_Z u + t)%Q -> (t + double_0_001 < 1)%Q -> (k <= u)%Z.
Proof.
  unfold near. intros Hn Hx Ht. apply Qabs_Qle_condition in Hn as [Hn _].
  destruct (Z_le_gt_dec k u) as [H | H]; [exact H | exfalso].
  assert (Hk : (inject_Z (u + 1) <= inject_Z k)%Q) by (rewrite <- Zle_Qle; lia).
  rewrite inject_Z_plus in Hk. change (inject_Z 1) with 1%Q in Hk. lra.
Qed.

Lemma near_ge x k l t :
  near x k -> (inject_Z l - t <= x)%Q -> (t + double_0_001 < 1)%Q -> (l <= k)%Z.
Proof.
  unfold near. intros Hn Hx Ht. apply Qabs_Qle_condition in Hn as [_ Hn].
  destruct (Z_le_gt_dec l k) as [H | H]; [exact H | exfalso].
  assert (Hk : (inject_Z (k + 1) <= inject_Z l)%Q) by (rewrite <- Zle_Qle; lia).
  rewrite inject_Z_plus in Hk. change (inject_Z 1) with 1%Q in Hk. lra.
Qed.

Lemma near_monotone x kx y ky t :
  near x kx -> near y ky -> (x <= y + t)%Q -> (t + 2 * double_0_001 < 1)%Q ->
  (kx <= ky)%Z.
Proof.
  intros Hx Hy Hxy Ht. apply (near_le x kx ky (t + double_0_001)); [exact Hx | | lra].
  unfold near in Hy. apply Qabs_Qle_condition in Hy as [_ Hy]. lra.
Qed.

(** Every node gets the rounded value of its cycle variable, and that
    value passed the integrality test. *)
Lemma ExtractResult_spec b solution cycle_map node :
  ExtractResult b solution = Ok cycle_map ->
  node < node_count (func_ b) ->
  cycle_map !! node = Some (round (solution (cycle_var_at b node)))
  /\ near (solution (cycle_var_at b node)) (round (solution (cycle_var_at b node))).
Proof.
  unfold ExtractResult, nodes. intros H Hn.
  set (P := fun (k : nat) (z : Z) =>
              z = round (solution (cycle_var_at b k))
              /\ near (solution (cycle_var_at b k)) z).
  assert (G : forall l m m',
             for_each
               (fun (cycle_map : gmap nat Z) (node : nat) =>
                  let cycle := solution (cycle_var_at b node) in
                  if Qle_bool (Qabs (cycle - inject_Z (round cycle))) double_0_001
                  then Ok (<[node := round cycle]> cycle_map)
                  else InternalError "The scheduling result is expected to be integer")
               l m = Ok m' ->
             (forall k z, m !! k = Some z -> P k z) ->
             (forall k z, m' !! k = Some z -> P k z)
             /\ (forall k, k ∈ l \/ is_Some (m !! k) -> is_Some (m' !! k))).
  { induction l as [| x l IH]; intros m m' Hl Hm; cbn in Hl.
    - injection Hl as <-. split; [exact Hm |]. intros k [Hk | Hk]; [| exact Hk].
      now apply elem_of_nil in Hk.
    - apply bind_Ok_inv in Hl as (m1 & Hx & Hl). cbn zeta in Hx.
      destruct (Qle_bool _ _) eqn:Hq; [| discriminate]. injection Hx as <-.
      apply Qle_bool_iff in Hq.
      destruct (IH _ _ Hl) as [IH1 IH2].
      { intros k z. destruct (decide (x = k)) as [<- | Hne].
        - rewrite lookup_insert_eq. intros [= <-]. split; [reflexivity | exact Hq].
        - rewrite lookup_insert_ne by exact Hne. apply Hm. }
      split; [exact IH1 |]. intros k Hk. apply IH2.
      destruct (decide (x = k)) as [<- | Hne].
      + right. rewrite lookup_insert_eq. eauto.
      + rewrite lookup_insert_ne by exact Hne.
        destruct Hk as [Hk | Hk]; [| now right].
        apply elem_of_cons in Hk as [-> | Hk]; [done | now left]. }
  destruct (G _ _ _ H) as [G1 G2].
  { intros k z. rewrite lookup_empty. discriminate. }
  destruct (G2 node) as [z Hz].
  { left. apply elem_of_seq. lia. }
  destruct (G1 _ _ Hz) as [-> Hnear]. auto.
Qed.

Lemma ConstraintBuilder_new_func f solver stages clock bounds delay_map :
  func_ (ConstraintBuilder_new f solver stages clock bounds delay_map) = f
  /\ pipeline_length_ (ConstraintBuilder_new f solver stages clock bounds delay_map) = stages.
Proof.
  unfold ConstraintBuilder_new.
  destruct (foldl _ _ _) as [[s c] l]. now destruct (MakeNumVar _ _ _ s).
Qed.

Section SchedulerFacts.

Variable TopoSort : FunctionBase -> list nat.
Variable CreateSolver : string -> option MPSolver.
Variable Solve : MPSolver -> ResultStatus * (nat -> Q).

Lemma SDCScheduler_inv f stages clock estimator bounds constraints cycle_map :
  SDCScheduler TopoSort CreateSolver Solve f stages clock estimator bounds constraints
  = Ok cycle_map ->
  exists solver b solution,
    CreateSolver "GLOP" = Some solver
    /\ build_problem TopoSort f solver stages clock estimator bounds constraints = Ok b
    /\ Solve (solver_ b) = (OPTIMAL, solution)
    /\ ExtractResult b solution = Ok cycle_map.
Proof.
  unfold SDCScheduler. destruct (CreateSolver "GLOP") as [solver |]; [| discriminate].
  intros H. apply bind_Ok_inv in H as (b & Hb & H).
  destruct (Solve (solver_ b)) as [status solution] eqn:HS.
  destruct (decide (status ≠ OPTIMAL)) as [Hne | He]; [discriminate |].
  assert (status = OPTIMAL) as ->.
  { destruct status; try reflexivity; exfalso; apply He; discriminate. }
  exists solver, b, solution. auto.
Qed.

Lemma build_problem_func f solver stages clock estimator bounds constraints b :
  build_problem TopoSort f solver stages clock estimator bounds constraints = Ok b ->
  func_ b = f /\ pipeline_length_ b = stages.
Proof.
  intros H. apply build_problem_inv in H as (dm & b1 & b2 & _ & _ & _ & E0 & E1 & E2).
  pose proof (extends_trans _ _ _ (extends_trans _ _ _ E0 E1) E2) as (F & P & _).
  destruct (ConstraintBuilder_new_func f solver stages clock bounds dm) as [F0 P0].
  split; congruence.
Qed.

(** For every def-use pair the built problem holds the causal row. *)
Lemma build_problem_causal f solver stages clock estimator bounds constraints b u v :
  build_problem TopoSort f solver stages clock estimator bounds constraints = Ok b ->
  u < node_count f -> v < node_count f -> u ∈ operands f v ->
  exists name,
    MkConstraint MinusInfinity (Real 0) name
      (SetCoefficient (cycle_var_at b v) (-1) (SetCoefficient (cycle_var_at b u) 1 []))
    ∈ solver_constraints (solver_ b).
Proof.
  intros H Hu Hv Huv.
  apply build_problem_inv in H as (dm & b1 & b2 & _ & _ & H2 & _ & _ & E2).
  assert (Hin : u ∈ nodes f) by (apply elem_of_seq; lia).
  destruct (for_each_visits _ _ (add_def_use_extends f) _ _ _ H2 Hin)
    as (b3 & b4 & _ & Hb & E4).
  unfold add_def_use in Hb. apply bind_Ok_inv in Hb as (b5 & Hb5 & Hb4).
  assert (Huser : v ∈ users f u).
  { unfold users. apply list_elem_of_filter. split; [exact Huv |].
    apply elem_of_seq. lia. }
  destruct (for_each_visits _ _
              (fun b x b' => AddDefUseConstraints_extends b u (Some x) b')
              _ _ _ Hb5 Huser) as (b6 & b7 & _ & Hrow & E7).
  assert (E54 : extends b5 b4).
  { destruct (HasImplicitUse f u).
    - eapply AddDefUseConstraints_extends; eauto.
    - injection Hb4 as <-. apply extends_refl. }
  pose proof (extends_trans _ _ _ E7 (extends_trans _ _ _ E54 (extends_trans _ _ _ E4 E2)))
    as E.
  pose proof (AddDefUseConstraints_causal _ _ _ _ Hrow) as Hc.
  apply (extends_rows _ _ _ E) in Hc.
  pose proof (extends_trans _ _ _ (AddDefUseConstraints_extends _ _ _ _ Hrow) E) as E'.
  unfold causal_row in Hc. cbn [user_var] in Hc.
  rewrite <- !(extends_cycle_var _ _ _ E') in Hc. eauto.
Qed.

(** For every node with an implicit use the built problem holds the causal
    row towards the sink. *)
Lemma build_problem_causal_sink f solver stages clock estimator bounds constraints b u :
  build_problem TopoSort f solver stages clock estimator bounds constraints = Ok b ->
  u < node_count f -> HasImplicitUse f u = true ->
  exists name,
    MkConstraint MinusInfinity (Real 0) name
      (SetCoefficient (cycle_at_sinknode_ b) (-1) (SetCoefficient (cycle_var_at b u) 1 []))
    ∈ solver_constraints (solver_ b).
Proof.
  intros H Hu Himp.
  apply build_problem_inv in H as (dm & b1 & b2 & _ & _ & H2 & _ & _ & E2).
  assert (Hin : u ∈ nodes f) by (apply elem_of_seq; lia).
  destruct (for_each_visits _ _ (add_def_use_extends f) _ _ _ H2 Hin)
    as (b3 & b4 & _ & Hb & E4).
  unfold add_def_use in Hb. apply bind_Ok_inv in Hb as (b5 & _ & Hb4).
  rewrite Himp in Hb4.
  pose proof (extends_trans _ _ _ E4 E2) as E.
  pose proof (AddDefUseConstraints_causal _ _ _ _ Hb4) as Hc.
  apply (extends_rows _ _ _ E) in Hc.
  pose proof (AddDefUseConstraints_extends _ _ _ _ Hb4) as E5.
  pose proof (extends_trans _ _ _ E5 E) as E'.
  unfold causal_row in Hc. cbn [user_var] in Hc.
  destruct E' as (_ & _ & _ & HS & _). rewrite <- HS in Hc.
  rewrite <- !(extends_cycle_var _ _ _ (extends_trans _ _ _ E5 E)) in Hc. eauto.
Qed.

End SchedulerFacts.

(** What a causal row says about a solution. *)
Lemma causal_row_value tol solution vu vn :
  within tol MinusInfinity (Real 0)
    (linear_value solution (SetCoefficient vu (-1) (SetCoefficient vn 1 []))) ->
  vn ≠ vu -> (solution vn <= solution vu + tol)%Q.
Proof.
  intros [_ H] Hne. unfold SetCoefficient in H.
  rewrite filter_nil, filter_cons_True in H by (cbn; congruence).
  rewrite filter_nil in H. cbn in H. lra.
Qed.

(** ** The solver's side of the contract *)

(** A solver is sound when a solution it reports as optimal satisfies the
    bounds and rows of the problem, within the tolerance [tol]. *)
Definition solver_sound (tol : Q) (Solve : MPSolver -> ResultStatus * (nat -> Q)) : Prop :=
  forall lp solution, Solve lp = (OPTIMAL, solution) -> feasible tol lp solution.

Definition withinb (tol : Q) (lb ub : Double) (x : Q) : bool :=
  match lb with
  | MinusInfinity => true
  | Real l => Qle_bool (l - tol) x
  | PlusInfinity => false
  end
  && match ub with
     | MinusInfinity => false
     | Real u => Qle_bool x (u + tol)
     | PlusInfinity => true
     end.

Fixpoint variables_within (tol : Q) (solution : nat -> Q) (i : nat)
    (variables : list MPVariable) : bool :=
  match variables with
  | [] => true
  | var :: rest =>
      withinb tol (var_lb var) (var_ub var) (solution i)
      && variables_within tol solution (S i) rest
  end.

Fixpoint rows_within (tol : Q) (solution : nat -> Q) (rows : list MPConstraint) : bool :=
  match rows with
  | [] => true
  | row :: rest =>
      withinb tol (row_lb row) (row_ub row) (linear_value solution (row_coefficients row))
      && rows_within tol solution rest
  end.

Definition feasibleb (tol : Q) (solver : MPSolver) (solution : nat -> Q) : bool :=
  variables_within tol solution 0 (solver_variables solver)
  && rows_within tol solution (solver_constraints solver).

Lemma withinb_sound tol lb ub x : withinb tol lb ub x = true -> within tol lb ub x.
Proof.
  unfold withinb, within. intros H. apply andb_true_iff in H as [Hl Hu]. split.
  - destruct lb; [exact I | now apply Qle_bool_iff | discriminate].
  - destruct ub; [discriminate | now apply Qle_bool_iff | exact I].
Qed.

Lemma variables_within_sound tol solution k variables :
  variables_within tol solution k variables = true ->
  forall i var, variables !! i = Some var ->
                within tol (var_lb var) (var_ub var) (solution (k + i)).
Proof.
  revert k. induction variables as [| v rest IH]; intros k H i var Hi; [discriminate |].
  cbn in H. apply andb_true_iff in H as [Hv Hrest]. destruct i as [| i]; cbn in Hi.
  - injection Hi as <-. rewrite Nat.add_0_r. now apply withinb_sound.
  - replace (k + S i) with (S k + i) by lia. now apply IH.
Qed.

Lemma rows_within_sound tol solution rows :
  rows_within tol solution rows = true ->
  forall row, row ∈ rows ->
              within tol (row_lb row) (row_ub row)
                     (linear_value solution (row_coefficients row)).
Proof.
  induction rows as [| r rest IH]; intros H row Hin; [now apply elem_of_nil in Hin |].
  cbn in H. apply andb_true_iff in H as [Hr Hrest].
  apply elem_of_cons in Hin as [-> | Hin]; [now apply withinb_sound | now apply IH].
Qed.

Lemma feasibleb_sound tol solver solution :
  feasibleb tol solver solution = true -> feasible tol solver solution.
Proof.
  unfold feasibleb, feasible. intros H. apply andb_true_iff in H as [Hv Hr]. split.
  - intros i var Hi. now apply (variables_within_sound tol solution 0 _ Hv i var).
  - now apply rows_within_sound.
Qed.

(** A stand-in for the LP back end that replays a known solution: it
    answers [OPTIMAL] with the candidate when the candidate satisfies the
    problem exactly, and [ABNORMAL] otherwise. *)
Definition replay (candidate : nat -> Q) (lp : MPSolver) : ResultStatus * (nat -> Q) :=
  if feasibleb 0 lp candidate then (OPTIMAL, candidate) else (ABNORMAL, candidate).

Lemma replay_sound candidate : solver_sound 0 (replay candidate).
Proof.
  intros lp solution. unfold replay.
  destruct (feasibleb 0 lp candidate) eqn:E; [| discriminate].
  intros [= <-]. now apply feasibleb_sound.
Qed.

(** C3. When [SDCScheduler] returns a cycle map (the solver being sound
    within a tolerance below one, less the slack of the integrality test,
    which is twice the [double] [0.001]),
    every data edge [u -> v] of the function has [cycle[u] <= cycle[v]].
    A node with an implicit use is tied to the sink variable instead, which
    has no entry in the cycle map: its cycle variable is at most the sink
    variable in the solution the cycle map was read from. *)
Theorem C3_scheduled_edges_are_causal :
  forall (TopoSort : FunctionBase -> list nat)
         (CreateSolver : string -> option MPSolver)
         (Solve : MPSolver -> ResultStatus * (nat -> Q))
         (f : FunctionBase) (pipeline_stages clock_period_ps : Z)
         (delay_estimator : nat -> StatusOr Z) (bounds : ScheduleBounds)
         (constraints : list SchedulingConstraint)
         (tol : Q) (cycle_map : gmap nat Z),
    solver_sound tol Solve ->
    (0 <= tol)%Q -> (tol + 2 * double_0_001 < 1)%Q ->
    SDCScheduler TopoSort CreateSolver Solve f pipeline_stages clock_period_ps
                 delay_estimator bounds constraints = Ok cycle_map ->
    (forall u v,
        u < node_count f -> v < node_count f -> u ∈ operands f v ->
        exists cu cv,
          cycle_map !! u = Some cu /\ cycle_map !! v = Some cv /\ (cu <= cv)%Z)
    /\ exists solver b solution,
         CreateSolver "GLOP" = Some solver
         /\ build_problem TopoSort f solver pipeline_stages clock_period_ps
              delay_estimator bounds constraints = Ok b
         /\ Solve (solver_ b) = (OPTIMAL, solution)
         /\ forall u, u < node_count f -> HasImplicitUse f u = true ->
              (solution (cycle_var_at b u) <= solution (cycle_at_sinknode_ b) + tol)%Q.
Proof.
  intros TopoSort CreateSolver Solve f stages clock estimator bounds constraints
         tol cycle_map Hsound Htol0 Htol H.
  apply SDCScheduler_inv in H as (solver & b & solution & HC & Hb & HS & HE).
  destruct (build_problem_func _ _ _ _ _ _ _ _ _ Hb) as [Hf _].
  destruct (Hsound _ _ HS) as [_ Hrows].
  split.
  - intros u v Hu Hv Huv.
    destruct (ExtractResult_spec _ _ _ u HE ltac:(now rewrite Hf)) as [Eu Nu].
    destruct (ExtractResult_spec _ _ _ v HE ltac:(now rewrite Hf)) as [Ev Nv].
    eexists _, _. split; [exact Eu |]. split; [exact Ev |].
    destruct (decide (cycle_var_at b u = cycle_var_at b v)) as [E | Hne].
    + rewrite E. lia.
    + destruct (build_problem_causal _ _ _ _ _ _ _ _ _ _ _ Hb Hu Hv Huv) as (name & Hrow).
      apply Hrows in Hrow. cbn in Hrow.
      apply causal_row_value in Hrow; [| exact Hne].
      eapply near_monotone; eauto.
  - exists solver, b, solution. repeat split; try assumption.
    intros u Hu Himp.
    destruct (decide (cycle_var_at b u = cycle_at_sinknode_ b)) as [E | Hne].
    + rewrite E. lra.
    + destruct (build_problem_causal_sink _ _ _ _ _ _ _ _ _ _ Hb Hu Himp) as (name & Hrow).
      apply Hrows in Hrow. cbn in Hrow.
      now apply causal_row_value in Hrow.
Qed.

(** *** A three-stage pipeline: receive, compute, send *)

Module Pipeline.

Definition recv_op_send : FunctionBase :=
  MkFunctionBase
    [ MkNode "r" kReceive [] 8 (Some "in");
      MkNode "x" kNot [0] 8 None;
      MkNode "s" kSend [1] 0 (Some "out") ]
    [2].

Definition empty_solver : MPSolver := MkSolver [] [] [] false.

Definition glop (_ : string) : option MPSolver := Some empty_solver.

Definition estimator (_ : nat) : StatusOr Z := Ok 600%Z.

Definition bounds (ub : Z) : ScheduleBounds := MkBounds (fun _ => 0%Z) (fun _ => ub).

(** Variables in creation order: cycle and lifetime of [r], of [x], of
    [s], then the sink. *)
Definition candidate (i : nat) : Q :=
  nth i [0; 1; 1; 1; 2; 0; 2]%Q 0%Q.

Definition cycles : gmap nat Z := list_to_map [(0, 0%Z); (1, 1%Z); (2, 2%Z)].

Example scheduled :
  SDCScheduler Graphs.in_order glop (replay candidate) recv_op_send 3 1000
               estimator (bounds 2) [RecvsFirstSendsLast]
  = Ok cycles.
Proof. vm_compute. reflexivity. Qed.

End Pipeline.

Lemma C3_scheduled_edges_are_causal_witness :
  exists cu cv,
    Pipeline.cycles !! 1 = Some cu /\ Pipeline.cycles !! 2 = Some cv /\ (cu <= cv)%Z.
Proof.
  assert (H0 : (0 <= 0)%Q) by lra.
  assert (H1 : (0 + 2 * double_0_001 < 1)%Q) by reflexivity.
  destruct (C3_scheduled_edges_are_causal
              Graphs.in_order Pipeline.glop (replay Pipeline.candidate)
              Pipeline.recv_op_send 3 1000 Pipeline.estimator (Pipeline.bounds 2)
              [RecvsFirstSendsLast] 0%Q Pipeline.cycles
              (replay_sound Pipeline.candidate) H0 H1
              Pipeline.scheduled) as [H _].
  apply (H 1 2).
  - change (1 < 3). lia.
  - change (2 < 3). lia.
  - change (1 ∈ [1]). constructor.
Defined.

(** ** Bounds and the receives-first / sends-last rows *)

(** The constructor gives every node a cycle variable that carries the
    node's schedule bounds. *)
Lemma ConstraintBuilder_new_cycle_var f solver stages clock bounds delay_map node :
  node < node_count f ->
  let b := ConstraintBuilder_new f solver stages clock bounds delay_map in
  exists i,
    cycle_var_ b !! node = Some i
    /\ solver_variables (solver_ b) !! i
       = Some (MkVariable (Real (inject_Z (bounds_lb bounds node)))
                          (Real (inject_Z (bounds_ub bounds node)))
                          (GetName f node)).
Proof.
  intros Hn. cbn zeta. unfold ConstraintBuilder_new.
  set (J := fun st : MPSolver * gmap nat nat * gmap nat nat =>
              forall k i, st.1.2 !! k = Some i ->
                solver_variables st.1.1 !! i
                = Some (MkVariable (Real (inject_Z (bounds_lb bounds k)))
                                   (Real (inject_Z (bounds_ub bounds k)))
                                   (GetName f k))).
  assert (G : forall l st,
             J st ->
             J (foldl (make_node_vars f bounds) st l)
             /\ (forall k, k ∈ l \/ is_Some (st.1.2 !! k) ->
                           is_Some ((foldl (make_node_vars f bounds) st l).1.2 !! k))).
  { induction l as [| x l IH]; intros st HJ; cbn [foldl].
    - split; [exact HJ |]. intros k [Hk | Hk]; [now apply elem_of_nil in Hk | exact Hk].
    - destruct (IH (make_node_vars f bounds st x)) as [IH1 IH2].
      { destruct st as [[s c] lv]. unfold J in *. cbn in *. intros k i.
        destruct (decide (x = k)) as [<- | Hne].
        - rewrite lookup_insert_eq. intros [= <-].
          rewrite <- app_assoc. cbn [app]. now apply list_lookup_middle.
        - rewrite lookup_insert_ne by exact Hne. intros Hk.
          specialize (HJ k i Hk). rewrite <- app_assoc.
          rewrite lookup_app_l; [exact HJ |]. now apply lookup_lt_Some in HJ. }
      split; [exact IH1 |]. intros k Hk. apply IH2.
      destruct st as [[s c] lv]. cbn in *.
      destruct (decide (x = k)) as [<- | Hne].
      + right. rewrite lookup_insert_eq. eauto.
      + rewrite lookup_insert_ne by exact Hne.
        destruct Hk as [Hk | Hk]; [| now right].
        apply elem_of_cons in Hk as [-> | Hk]; [done | now left]. }
  destruct (G (nodes f) (solver, ∅, ∅)) as [G1 G2].
  { intros k i. cbn. rewrite lookup_empty. discriminate. }
  destruct (foldl (make_node_vars f bounds) (solver, ∅, ∅) (nodes f)) as [[s c] lv].
  cbn in *. destruct (G2 node) as [i Hi].
  { left. apply elem_of_seq. lia. }
  exists i. split; [exact Hi |].
  specialize (G1 node i Hi). rewrite lookup_app_l; [exact G1 |].
  now apply lookup_lt_Some in G1.
Qed.

Definition recv_row (b : ConstraintBuilder) (node : nat) : MPConstraint :=
  MkConstraint MinusInfinity (Real 0) ("recv_" +:+ GetName (func_ b) node)
               [(cycle_var_at b node, 1%Q)].

Definition send_row (b : ConstraintBuilder) (node : nat) : MPConstraint :=
  MkConstraint MinusInfinity (Real (inject_Z (- (pipeline_length_ b - 1))))
               ("send_" +:+ GetName (func_ b) node)
               [(cycle_var_at b node, (-1)%Q)].

Lemma add_rfsl_rows_spec b node b' :
  add_rfsl_rows b node = Ok b' ->
  (IsReceive (func_ b) node = true -> recv_row b node ∈ solver_constraints (solver_ b'))
  /\ (IsSend (func_ b) node = true -> send_row b node ∈ solver_constraints (solver_ b')).
Proof.
  unfold add_rfsl_rows, recv_row, send_row, SetCoefficient. intros [= <-].
  rewrite !filter_nil.
  destruct (IsReceive (func_ b) node), (IsSend (func_ b) node); cbn;
    split; intros [=]; rewrite ?elem_of_app, ?list_elem_of_singleton; auto.
Qed.

Lemma AddRFSLConstraint_spec b b' node :
  AddRFSLConstraint b = Ok b' -> node < node_count (func_ b) ->
  (IsReceive (func_ b) node = true -> recv_row b node ∈ solver_constraints (solver_ b'))
  /\ (IsSend (func_ b) node = true -> send_row b node ∈ solver_constraints (solver_ b')).
Proof.
  intros H Hn.
  assert (Hin : node ∈ nodes (func_ b)) by (apply elem_of_seq; lia).
  destruct (for_each_visits _ _ add_rfsl_rows_extends _ _ _ H Hin)
    as (b1 & b2 & E1 & Hb & E2).
  destruct (add_rfsl_rows_spec _ _ _ Hb) as [Hr Hs].
  assert (Er : recv_row b1 node = recv_row b node).
  { unfold recv_row. rewrite (extends_cycle_var _ _ _ E1).
    destruct E1 as (-> & _). reflexivity. }
  assert (Es : send_row b1 node = send_row b node).
  { unfold send_row. rewrite (extends_cycle_var _ _ _ E1).
    destruct E1 as (-> & -> & _). reflexivity. }
  assert (Ef : func_ b1 = func_ b) by apply E1.
  rewrite Ef, Er, Es in *.
  split; intros Hop; eapply extends_rows; eauto.
Qed.

Section RFSL.

Variable TopoSort : FunctionBase -> list nat.

Lemma build_problem_rfsl f solver stages clock estimator bounds constraints b node :
  build_problem TopoSort f solver stages clock estimator bounds constraints = Ok b ->
  RecvsFirstSendsLast ∈ constraints -> node < node_count f ->
  (IsReceive f node = true -> recv_row b node ∈ solver_constraints (solver_ b))
  /\ (IsSend f node = true -> send_row b node ∈ solver_constraints (solver_ b)).
Proof.
  intros H Hin Hn.
  apply build_problem_inv in H as (dm & b1 & b2 & _ & H1 & _ & _ & E1 & E2).
  destruct (for_each_visits _ _ AddSchedulingConstraint_extends _ _ _ H1 Hin)
    as (b3 & b4 & E3 & Hb & E4). cbn in Hb.
  destruct (ConstraintBuilder_new_func f solver stages clock bounds dm) as [F0 P0].
  assert (F3 : func_ b3 = f) by (destruct E3 as (-> & _); exact F0).
  destruct (AddRFSLConstraint_spec _ _ node Hb ltac:(now rewrite F3)) as [Hr Hs].
  pose proof (extends_trans _ _ _ (AddRFSLConstraint_extends _ _ Hb)
                (extends_trans _ _ _ E4 (extends_trans _ _ _ E1 E2))) as E.
  assert (Er : recv_row b3 node = recv_row b node).
  { unfold recv_row. rewrite (extends_cycle_var _ _ _ E).
    destruct E as (-> & _). reflexivity. }
  assert (Es : send_row b3 node = send_row b node).
  { unfold send_row. rewrite (extends_cycle_var _ _ _ E).
    destruct E as (-> & -> & _). reflexivity. }
  rewrite F3, Er, Es in *.
  pose proof (extends_trans _ _ _ E4 (extends_trans _ _ _ E1 E2)) as E'.
  split; intros Hop; eapply extends_rows; eauto.
Qed.

Lemma build_problem_cycle_var f solver stages clock estimator bounds constraints b node :
  build_problem TopoSort f solver stages clock estimator bounds constraints = Ok b ->
  node < node_count f ->
  solver_variables (solver_ b) !! cycle_var_at b node
  = Some (MkVariable (Real (inject_Z (bounds_lb bounds node)))
                     (Real (inject_Z (bounds_ub bounds node)))
                     (GetName f node)).
Proof.
  intros H Hn.
  apply build_problem_inv in H as (dm & b1 & b2 & _ & _ & _ & E0 & E1 & E2).
  pose proof (extends_trans _ _ _ E0 (extends_trans _ _ _ E1 E2)) as E.
  destruct (ConstraintBuilder_new_cycle_var f solver stages clock bounds dm node Hn)
    as (i & Hi & Hv).
  rewrite (extends_cycle_var _ _ _ E). unfold cycle_var_at. rewrite Hi. cbn.
  destruct E as (_ & _ & _ & _ & -> & _). exact Hv.
Qed.

End RFSL.

(** C4, as the scheduler implements it.  With a
    [RecvsFirstSendsLastConstraint] among the constraints, every receive is
    scheduled at a cycle that is at most 0 and every send at a cycle that
    is at least [pipeline_stages - 1]; the other side comes from the
    schedule bounds of the node.  So a receive is in cycle 0 when its lower
    bound is not negative, and a send is in cycle [pipeline_stages - 1] when
    its upper bound does not exceed [pipeline_stages - 1]. *)
Theorem C4_receives_first_sends_last :
  forall (TopoSort : FunctionBase -> list nat)
         (CreateSolver : string -> option MPSolver)
         (Solve : MPSolver -> ResultStatus * (nat -> Q))
         (f : FunctionBase) (pipeline_stages clock_period_ps : Z)
         (delay_estimator : nat -> StatusOr Z) (bounds : ScheduleBounds)
         (constraints : list SchedulingConstraint)
         (tol : Q) (cycle_map : gmap nat Z),
    solver_sound tol Solve ->
    (0 <= tol)%Q -> (tol + (2 # 1000) < 1)%Q ->
    RecvsFirstSendsLast ∈ constraints ->
    SDCScheduler TopoSort CreateSolver Solve f pipeline_stages clock_period_ps
                 delay_estimator bounds constraints = Ok cycle_map ->
    forall node, node < node_count f ->
      (IsReceive f node = true ->
         exists c, cycle_map !! node = Some c
                   /\ (bounds_lb bounds node <= c <= 0)%Z
                   /\ ((0 <= bounds_lb bounds node)%Z -> c = 0%Z))
      /\ (IsSend f node = true ->
            exists c, cycle_map !! node = Some c
                      /\ (pipeline_stages - 1 <= c <= bounds_ub bounds node)%Z
                      /\ ((bounds_ub bounds node <= pipeline_stages - 1)%Z ->
                          c = (pipeline_stages - 1)%Z)).
Proof.
  intros TopoSort CreateSolver Solve f stages clock estimator bounds constraints
         tol cycle_map Hsound Htol0 Htol Hin H node Hn.
  apply SDCScheduler_inv in H as (solver & b & solution & HC & Hb & HS & HE).
  destruct (build_problem_func _ _ _ _ _ _ _ _ _ Hb) as [Hf Hp].
  destruct (Hsound _ _ HS) as [Hvars Hrows].
  destruct (ExtractResult_spec _ _ _ node HE ltac:(now rewrite Hf)) as [Ec Nc].
  pose proof (Hvars _ _ (build_problem_cycle_var _ _ _ _ _ _ _ _ _ _ Hb Hn)) as [Hlb Hub].
  cbn in Hlb, Hub.
  destruct (build_problem_rfsl _ _ _ _ _ _ _ _ _ node Hb Hin Hn) as [Hr Hs].
  set (x := solution (cycle_var_at b node)) in *.
  pose proof double_0_001_range as [_ Hthr].
  assert (Lb : (bounds_lb bounds node <= round x)%Z).
  { apply (near_ge x _ _ tol); [exact Nc | exact Hlb | lra]. }
  assert (Ub : (round x <= bounds_ub bounds node)%Z).
  { apply (near_le x _ _ tol); [exact Nc | exact Hub | lra]. }
  split; intros Hop; exists (round x); (split; [exact Ec |]).
  - apply Hr, Hrows in Hop. destruct Hop as [_ Hop]. cbn in Hop. fold x in Hop.
    assert (U0 : (round x <= 0)%Z).
    { apply (near_le x _ _ tol); [exact Nc | | lra]. change (inject_Z 0) with 0%Q. lra. }
    split; lia.
  - apply Hs, Hrows in Hop. destruct Hop as [_ Hop]. cbn in Hop. fold x in Hop.
    rewrite Hp, inject_Z_opp in Hop.
    assert (L0 : (stages - 1 <= round x)%Z).
    { apply (near_ge x _ _ tol); [exact Nc | lra | lra]. }
    split; lia.
Qed.

(** ** The timing rows *)

(** The methods that add rows leave the clock period, the delay map and
    the cache of delay constraints alone. *)
Definition keeps_timing_setup (b b' : ConstraintBuilder) : Prop :=
  clock_period_ps_ b' = clock_period_ps_ b
  /\ delay_map_ b' = delay_map_ b
  /\ delay_constraints_ b' = delay_constraints_ b.

Lemma keeps_refl b : keeps_timing_setup b b.
Proof. repeat split. Qed.

Lemma keeps_trans b1 b2 b3 :
  keeps_timing_setup b1 b2 -> keeps_timing_setup b2 b3 -> keeps_timing_setup b1 b3.
Proof. intros (A1 & B1 & C1) (A2 & B2 & C2). repeat split; congruence. Qed.

Lemma keeps_with_solver b solver : keeps_timing_setup b (with_solver b solver).
Proof. repeat split. Qed.

Lemma for_each_keeps {A} (body : ConstraintBuilder -> A -> StatusOr ConstraintBuilder) l :
  (forall b x b', body b x = Ok b' -> keeps_timing_setup b b') ->
  forall b b', for_each body l b = Ok b' -> keeps_timing_setup b b'.
Proof.
  intros Hbody b b'.
  apply (for_each_invariant body (keeps_timing_setup b)); [| apply keeps_refl].
  intros s x s' _ Hs Hx. eapply keeps_trans; eauto.
Qed.

Lemma AddDefUseConstraints_keeps b node user b' :
  AddDefUseConstraints b node user = Ok b' -> keeps_timing_setup b b'.
Proof.
  unfold AddDefUseConstraints. intros H. apply bind_Ok_inv in H as (b1 & H1 & H2).
  injection H1 as <-. injection H2 as <-. repeat split.
Qed.

Lemma add_def_use_keeps f b node b' :
  add_def_use f b node = Ok b' -> keeps_timing_setup b b'.
Proof.
  unfold add_def_use. intros H. apply bind_Ok_inv in H as (b1 & H1 & H2).
  eapply keeps_trans.
  - eapply for_each_keeps; [| exact H1].
    intros ? ? ?. apply AddDefUseConstraints_keeps.
  - destruct (HasImplicitUse f node).
    + eapply AddDefUseConstraints_keeps; eauto.
    + injection H2 as <-. apply keeps_refl.
Qed.

Lemma add_io_rows_keeps constraint source b target b' :
  add_io_rows constraint source b target = Ok b' -> keeps_timing_setup b b'.
Proof.
  unfold add_io_rows.
  repeat (match goal with |- context [if ?c then _ else _] => destruct c end;
          [intros [= <-]; apply keeps_refl |]).
  intros [= <-]. repeat split.
Qed.

Lemma add_rfsl_rows_keeps b node b' :
  add_rfsl_rows b node = Ok b' -> keeps_timing_setup b b'.
Proof.
  unfold add_rfsl_rows. intros [= <-].
  destruct (IsReceive _ node), (IsSend _ node); repeat split.
Qed.

Lemma AddSchedulingConstraint_keeps b constraint b' :
  AddSchedulingConstraint b constraint = Ok b' -> keeps_timing_setup b b'.
Proof.
  destruct constraint as [c |]; cbn.
  - unfold AddIOConstraint. intros H. apply bind_Ok_inv in H as (m & _ & H).
    revert H. apply for_each_keeps. intros b1 source b2.
    apply for_each_keeps. intros ? ? ?. apply add_io_rows_keeps.
  - apply for_each_keeps. intros ? ? ?. apply add_rfsl_rows_keeps.
Qed.

Lemma add_timing_row_keeps source b target b' :
  add_timing_row source b target = Ok b' -> keeps_timing_setup b b'.
Proof. intros [= <-]. repeat split. Qed.

Lemma ConstraintBuilder_new_setup f solver stages clock bounds delay_map :
  let b := ConstraintBuilder_new f solver stages clock bounds delay_map in
  clock_period_ps_ b = clock /\ delay_map_ b = delay_map /\ delay_constraints_ b = ∅.
Proof.
  cbn zeta. unfold ConstraintBuilder_new.
  destruct (foldl _ _ _) as [[s c] l]. now destruct (MakeNumVar _ _ _ s).
Qed.

Definition timing_row (b : ConstraintBuilder) (source target : nat) : MPConstraint :=
  MkConstraint (Real 1) PlusInfinity
    ("timing_" +:+ GetName (func_ b) source +:+ "_" +:+ GetName (func_ b) target)
    (SetCoefficient (cycle_var_at b source) (-1)
       (SetCoefficient (cycle_var_at b target) 1 [])).

Section TimingRows.

Variable TopoSort : FunctionBase -> list nat.

(** Every delay constraint becomes a row [1 <= cycle[target] - cycle[source]]. *)
Lemma build_problem_timing f solver stages clock estimator bounds constraints b
    source target :
  build_problem TopoSort f solver stages clock estimator bounds constraints = Ok b ->
  source < node_count f ->
  (forall delay_map,
      ComputeNodeDelays f estimator = Ok delay_map ->
      target ∈ constraints_of
                 (ComputeCombinationalDelayConstraints TopoSort f clock delay_map) source) ->
  timing_row b source target ∈ solver_constraints (solver_ b).
Proof.
  unfold build_problem. intros H Hs Ht.
  apply bind_Ok_inv in H as (dm & Hd & H).
  apply bind_Ok_inv in H as (b1 & H1 & H).
  apply bind_Ok_inv in H as (b2 & H2 & H).
  apply bind_Ok_inv in H as (b3 & H3 & H4).
  specialize (Ht dm Hd).
  set (b0 := ConstraintBuilder_new f solver stages clock bounds dm) in *.
  destruct (ConstraintBuilder_new_setup f solver stages clock bounds dm) as (K1 & K2 & K3).
  destruct (ConstraintBuilder_new_func f solver stages clock bounds dm) as [F0 _].
  fold b0 in K1, K2, K3, F0.
  assert (K : keeps_timing_setup b0 b2).
  { eapply keeps_trans.
    - eapply for_each_keeps; [| exact H1]. intros ? ? ?. apply AddSchedulingConstraint_keeps.
    - eapply for_each_keeps; [| exact H2]. intros ? ? ?. apply add_def_use_keeps. }
  assert (E : extends b0 b2).
  { eapply extends_trans.
    - eapply for_each_extends; [| exact H1]. intros ? ? ?. apply AddSchedulingConstraint_extends.
    - eapply for_each_extends; [| exact H2]. intros ? ? ?. apply add_def_use_extends. }
  destruct K as (C2 & D2 & DC2). assert (F2 : func_ b2 = f) by (destruct E as (-> & _); exact F0).
  unfold AddTimingConstraints in H3.
  rewrite DC2, K3, decide_True in H3 by reflexivity.
  rewrite C2, D2, K1, K2, F2 in H3.
  set (b2' := MkBuilder _ _ _ _ _ _ _ _ _) in H3. cbn [func_] in H3.
  assert (Hin : source ∈ nodes f) by (apply elem_of_seq; lia).
  assert (Hbody_ext : forall b x b',
             for_each (add_timing_row x) (constraints_of (delay_constraints_ b) x) b = Ok b' ->
             extends b b').
  { intros b5 x b6. apply for_each_extends. intros ? ? ?. apply add_timing_row_extends. }
  assert (Hbody_keep : forall b x b',
             for_each (add_timing_row x) (constraints_of (delay_constraints_ b) x) b = Ok b' ->
             keeps_timing_setup b b').
  { intros b5 x b6. apply for_each_keeps. intros ? ? ?. apply add_timing_row_keeps. }
  assert (G : forall l bs bs',
             for_each (fun b source =>
                         for_each (add_timing_row source)
                                  (constraints_of (delay_constraints_ b) source) b)
                      l bs = Ok bs' ->
             source ∈ l ->
             exists b5 b6, extends bs b5 /\ keeps_timing_setup bs b5
                           /\ for_each (add_timing_row source)
                                (constraints_of (delay_constraints_ b5) source) b5 = Ok b6
                           /\ extends b6 bs').
  { induction l as [| y l IH]; intros bs bs' Hl Hy; [now apply elem_of_nil in Hy |].
    cbn in Hl. apply bind_Ok_inv in Hl as (bm & Hm & Hrest).
    apply elem_of_cons in Hy as [-> | Hy].
    - exists bs, bm. split; [apply extends_refl |]. split; [apply keeps_refl |].
      split; [exact Hm |]. eapply for_each_extends; [| exact Hrest].
      intros ? ? ?. apply Hbody_ext.
    - destruct (IH _ _ Hrest Hy) as (b5 & b6 & E5 & K5 & H5 & E6).
      exists b5, b6. split; [eapply extends_trans; eauto |].
      split; [eapply keeps_trans; eauto |]. auto. }
  destruct (G _ _ _ H3 Hin) as (b5 & b6 & E5 & K5 & H5 & E6).
  destruct K5 as (_ & _ & DC5). rewrite DC5 in H5. cbn [delay_constraints_ b2'] in H5.
  destruct (for_each_visits _ _ (add_timing_row_extends source) _ _ _ H5 Ht)
    as (b7 & b8 & E7 & Hrow & E8).
  injection Hrow as <-.
  pose proof (extends_trans _ _ _ E8
                (extends_trans _ _ _ E6 (AddObjective_extends _ _ H4))) as Etail.
  pose proof (extends_trans _ _ _ (extends_row b7 _ _ _ _) Etail) as E7b.
  eapply extends_rows; [exact Etail |].
  replace (timing_row b source target) with (timing_row b7 source target).
  - apply row_added.
  - unfold timing_row. rewrite !(extends_cycle_var _ _ _ E7b).
    destruct E7b as (-> & _). reflexivity.
Qed.

End TimingRows.

(** What a timing row says about a solution. *)
Lemma timing_row_value tol solution vs vt :
  within tol (Real 1) PlusInfinity
    (linear_value solution (SetCoefficient vs (-1) (SetCoefficient vt 1 []))) ->
  vt ≠ vs -> (solution vs + 1 - tol <= solution vt)%Q.
Proof.
  intros [H _] Hne. unfold SetCoefficient in H.
  rewrite filter_nil, filter_cons_True in H by (cbn; congruence).
  rewrite filter_nil in H. cbn in H. lra.
Qed.

(** Distinct nodes get distinct cycle variables. *)
Lemma ConstraintBuilder_new_cycle_var_inj f solver stages clock bounds delay_map u v :
  u < node_count f -> v < node_count f -> u ≠ v ->
  let b := ConstraintBuilder_new f solver stages clock bounds delay_map in
  cycle_var_at b u ≠ cycle_var_at b v.
Proof.
  intros Hu Hv Huv. cbn zeta. unfold ConstraintBuilder_new, cycle_var_at.
  set (J := fun st : MPSolver * gmap nat nat * gmap nat nat =>
              (forall k i, st.1.2 !! k = Some i -> i < length (solver_variables st.1.1))
              /\ (forall k k' i, st.1.2 !! k = Some i -> st.1.2 !! k' = Some i -> k = k')).
  assert (G : forall l st,
             J st ->
             J (foldl (make_node_vars f bounds) st l)
             /\ (forall k, k ∈ l \/ is_Some (st.1.2 !! k) ->
                           is_Some ((foldl (make_node_vars f bounds) st l).1.2 !! k))).
  { induction l as [| x l IH]; intros st HJ; cbn [foldl].
    - split; [exact HJ |]. intros k [Hk | Hk]; [now apply elem_of_nil in Hk | exact Hk].
    - destruct (IH (make_node_vars f bounds st x)) as [IH1 IH2].
      { destruct st as [[s c] lv]. destruct HJ as [J1 J2]. unfold J. cbn in *. split.
        - intros k i. rewrite !length_app. cbn. destruct (decide (x = k)) as [<- | Hne].
          + rewrite lookup_insert_eq. intros [= <-]. lia.
          + rewrite lookup_insert_ne by exact Hne. intros Hk. apply J1 in Hk. lia.
        - intros k k' i.
          destruct (decide (x = k)) as [<- | Hne], (decide (x = k')) as [<- | Hne'];
            rewrite ?lookup_insert_eq, ?lookup_insert_ne by assumption.
          + reflexivity.
          + intros [= <-] Hk. apply J1 in Hk. lia.
          + intros Hk [= <-]. apply J1 in Hk. lia.
          + apply J2. }
      split; [exact IH1 |]. intros k Hk. apply IH2.
      destruct st as [[s c] lv]. cbn in *.
      destruct (decide (x = k)) as [<- | Hne].
      + right. rewrite lookup_insert_eq. eauto.
      + rewrite lookup_insert_ne by exact Hne.
        destruct Hk as [Hk | Hk]; [| now right].
        apply elem_of_cons in Hk as [-> | Hk]; [done | now left]. }
  destruct (G (nodes f) (solver, ∅, ∅)) as [[G1 G2] G3].
  { split; cbn; intros *; rewrite lookup_empty; discriminate. }
  destruct (foldl (make_node_vars f bounds) (solver, ∅, ∅) (nodes f)) as [[s c] lv].
  cbn in *.
  destruct (G3 u) as [i Hi]; [left; apply elem_of_seq; lia |].
  destruct (G3 v) as [j Hj]; [left; apply elem_of_seq; lia |].
  rewrite Hi, Hj. cbn. intros <-. apply Huv. eapply G2; eauto.
Qed.

Lemma near_succ x k : near x k -> near (x + 1) (k + 1).
Proof.
  unfold near. intros H.
  assert (E : (x + 1 - inject_Z (k + 1) == x - inject_Z k)%Q).
  { rewrite inject_Z_plus. change (inject_Z 1) with 1%Q. ring. }
  now rewrite E.
Qed.

Section TimingRespected.

Variable TopoSort : FunctionBase -> list nat.
Variable CreateSolver : string -> option MPSolver.
Variable Solve : MPSolver -> ResultStatus * (nat -> Q).

Lemma build_problem_cycle_var_inj f solver stages clock estimator bounds constraints b u v :
  build_problem TopoSort f solver stages clock estimator bounds constraints = Ok b ->
  u < node_count f -> v < node_count f -> u ≠ v ->
  cycle_var_at b u ≠ cycle_var_at b v.
Proof.
  intros H Hu Hv Huv.
  apply build_problem_inv in H as (dm & b1 & b2 & _ & _ & _ & E0 & E1 & E2).
  pose proof (extends_trans _ _ _ E0 (extends_trans _ _ _ E1 E2)) as E.
  rewrite !(extends_cycle_var _ _ _ E).
  now apply ConstraintBuilder_new_cycle_var_inj.
Qed.

(** In a schedule that [SDCScheduler] returns, the target of a delay
    constraint is at least one cycle after its source. *)
Lemma scheduled_delay_constraint f stages clock estimator bounds constraints
    (tol : Q) cycle_map source target :
  solver_sound tol Solve -> (tol + 2 * double_0_001 < 1)%Q ->
  SDCScheduler TopoSort CreateSolver Solve f stages clock estimator bounds constraints
  = Ok cycle_map ->
  source < node_count f -> target < node_count f -> source ≠ target ->
  (forall delay_map,
      ComputeNodeDelays f estimator = Ok delay_map ->
      target ∈ constraints_of
                 (ComputeCombinationalDelayConstraints TopoSort f clock delay_map) source) ->
  exists cs ct, cycle_map !! source = Some cs /\ cycle_map !! target = Some ct
                /\ (cs + 1 <= ct)%Z.
Proof.
  intros Hsound Htol H Hs Ht Hne Hc.
  apply SDCScheduler_inv in H as (solver & b & solution & HC & Hb & HS & HE).
  destruct (build_problem_func _ _ _ _ _ _ _ _ _ Hb) as [Hf Hp].
  destruct (Hsound _ _ HS) as [_ Hrows].
  destruct (ExtractResult_spec _ _ _ source HE ltac:(now rewrite Hf)) as [Es Ns].
  destruct (ExtractResult_spec _ _ _ target HE ltac:(now rewrite Hf)) as [Et Nt].
  pose proof (build_problem_timing _ _ _ _ _ _ _ _ _ _ _ Hb Hs Hc) as Hrow.
  apply Hrows in Hrow. cbn [timing_row row_lb row_ub row_coefficients] in Hrow.
  apply timing_row_value in Hrow;
    [| apply not_eq_sym; eapply build_problem_cycle_var_inj; eauto].
  eexists _, _. split; [exact Es |]. split; [exact Et |].
  apply (near_monotone (solution (cycle_var_at b source) + 1) _
                       (solution (cycle_var_at b target)) _ tol);
    [now apply near_succ | exact Nt | lra | exact Htol].
Qed.

End TimingRespected.

Module LatePipeline.

Import Pipeline.

(** [Pipeline.recv_op_send] with two stages asked for: each node takes
    600ps of a 1000ps clock, so [r], [x] and [s] need three cycles. *)
Example scheduled_late :
  SDCScheduler Graphs.in_order glop (replay candidate) recv_op_send 2 1000
               estimator (bounds 2) [RecvsFirstSendsLast]
  = Ok cycles.
Proof. vm_compute. reflexivity. Qed.

Lemma delay_constraint_r_x delay_map :
  ComputeNodeDelays recv_op_send estimator = Ok delay_map ->
  1 ∈ constraints_of
        (ComputeCombinationalDelayConstraints Graphs.in_order recv_op_send 1000 delay_map) 0.
Proof.
  intros H. vm_compute in H. injection H as <-.
  apply (bool_decide_unpack _). vm_compute. exact I.
Qed.

Lemma delay_constraint_x_s delay_map :
  ComputeNodeDelays recv_op_send estimator = Ok delay_map ->
  2 ∈ constraints_of
        (ComputeCombinationalDelayConstraints Graphs.in_order recv_op_send 1000 delay_map) 1.
Proof.
  intros H. vm_compute in H. injection H as <-.
  apply (bool_decide_unpack _). vm_compute. exact I.
Qed.

(** No sound solver lets the send leave cycle 2. *)
Lemma send_in_cycle_two Solve cycle_map :
  solver_sound 0 Solve ->
  SDCScheduler Graphs.in_order glop Solve recv_op_send 2 1000
               estimator (bounds 2) [RecvsFirstSendsLast]
  = Ok cycle_map ->
  cycle_map !! 2 = Some 2%Z.
Proof.
  intros Hsound H.
  assert (Htol : (0 + 2 * double_0_001 < 1)%Q) by reflexivity.
  assert (H0 : (0 <= 0)%Q) by lra.
  destruct (scheduled_delay_constraint _ _ _ _ _ _ _ _ _ 0%Q _ 0 1 Hsound Htol H)
    as (cr & cx & Er & Ex & Hrx);
    [change (0 < 3); lia | change (1 < 3); lia | lia | apply delay_constraint_r_x |].
  destruct (scheduled_delay_constraint _ _ _ _ _ _ _ _ _ 0%Q _ 1 2 Hsound Htol H)
    as (cx' & cs & Ex' & Es & Hxs);
    [change (1 < 3); lia | change (2 < 3); lia | lia | apply delay_constraint_x_s |].
  assert (cx' = cx) as -> by congruence.
  apply SDCScheduler_inv in H as (solver & b & solution & HC & Hb & HS & HE).
  destruct (Hsound _ _ HS) as [Hvars _].
  assert (Hn : forall node, node < 3 ->
                 exists c, cycle_map !! node = Some c /\ (0 <= c <= 2)%Z).
  { intros node Hnode.
    destruct (ExtractResult_spec _ _ _ node HE) as [Ec Nc].
    { destruct (build_problem_func _ _ _ _ _ _ _ _ _ Hb) as [-> _]. exact Hnode. }
    pose proof (Hvars _ _ (build_problem_cycle_var _ _ _ _ _ _ _ _ _ node Hb Hnode))
      as [Hlb Hub].
    cbn in Hlb, Hub. eexists. split; [exact Ec |]. split.
    - apply (near_ge _ _ _ 0 Nc); [exact Hlb | lra].
    - apply (near_le _ _ _ 0 Nc); [exact Hub | lra]. }
  destruct (Hn 0) as (c0 & E0 & B0); [lia |].
  destruct (Hn 2) as (c2 & E2 & B2); [lia |].
  assert (c0 = cr) as -> by congruence.
  assert (c2 = cs) as -> by congruence.
  rewrite Es. f_equal. lia.
Qed.

End LatePipeline.

(** C4 as stated does not hold: with [RecvsFirstSendsLast] among the
    constraints and two pipeline stages asked for, [Pipeline.recv_op_send]
    is scheduled with its send in cycle 2, not in cycle
    [pipeline_stages - 1 = 1]; and no sound solver can answer otherwise. *)
Lemma C4_send_after_last_stage :
  RecvsFirstSendsLast ∈ [RecvsFirstSendsLast]
  /\ IsSend Pipeline.recv_op_send 2 = true
  /\ SDCScheduler Graphs.in_order Pipeline.glop (replay Pipeline.candidate)
                  Pipeline.recv_op_send 2 1000 Pipeline.estimator (Pipeline.bounds 2)
                  [RecvsFirstSendsLast]
     = Ok Pipeline.cycles
  /\ Pipeline.cycles !! 2 = Some 2%Z
  /\ Pipeline.cycles !! 2 ≠ Some (2 - 1)%Z
  /\ forall Solve cycle_map,
       solver_sound 0 Solve ->
       SDCScheduler Graphs.in_order Pipeline.glop Solve
                    Pipeline.recv_op_send 2 1000 Pipeline.estimator (Pipeline.bounds 2)
                    [RecvsFirstSendsLast]
       = Ok cycle_map ->
       cycle_map !! 2 ≠ Some (2 - 1)%Z.
Proof.
  split; [constructor |]. split; [reflexivity |].
  split; [exact LatePipeline.scheduled_late |].
  split; [reflexivity |]. split; [discriminate |].
  intros Solve cycle_map Hsound H.
  rewrite (LatePipeline.send_in_cycle_two Solve cycle_map Hsound H). discriminate.
Qed.

Lemma C4_receives_first_sends_last_witness :
  (exists c, Pipeline.cycles !! 0 = Some c
             /\ (0 <= c <= 0)%Z /\ ((0 <= 0)%Z -> c = 0%Z))
  /\ (exists c, Pipeline.cycles !! 2 = Some c
                /\ (3 - 1 <= c <= 2)%Z /\ ((2 <= 3 - 1)%Z -> c = (3 - 1)%Z)).
Proof.
  assert (H0 : (0 <= 0)%Q) by lra.
  assert (H1 : (0 + (2 # 1000) < 1)%Q) by lra.
  assert (Hin : RecvsFirstSendsLast ∈ [RecvsFirstSendsLast]) by constructor.
  pose proof (C4_receives_first_sends_last
                Graphs.in_order Pipeline.glop (replay Pipeline.candidate)
                Pipeline.recv_op_send 3 1000 Pipeline.estimator (Pipeline.bounds 2)
                [RecvsFirstSendsLast] 0%Q Pipeline.cycles
                (replay_sound Pipeline.candidate) H0 H1 Hin
                Pipeline.scheduled) as H.
  split.
  - refine (proj1 (H 0 _) eq_refl). change (0 < 3). lia.
  - refine (proj2 (H 2 _) eq_refl). change (2 < 3). lia.
Defined.

(** ** The ways [SDCScheduler] fails *)

(** The three error results of [SDCScheduler] itself. *)
Definition solver_unavailable : Status :=
  MkStatus kUnavailable "GLOP solver unavailable.".
Definition no_optimal_solution : Status :=
  MkStatus kInternal "The problem does not have an optimal solution".
Definition non_integer_result : Status :=
  MkStatus kInternal "The scheduling result is expected to be integer".

(** The loop of [ExtractResult] stops at the first node whose value is not
    within the [double] [0.001] of an integer; every other failure of the
    loop is the
    same error. *)
Lemma ExtractResult_not_integer b solution node :
  node < node_count (func_ b) ->
  ~ near (solution (cycle_var_at b node)) (round (solution (cycle_var_at b node))) ->
  ExtractResult b solution = Error non_integer_result.
Proof.
  unfold ExtractResult, nodes. intros Hn Hfar.
  assert (Hin : node ∈ seq 0 (node_count (func_ b))) by (apply elem_of_seq; lia).
  revert Hin. generalize (seq 0 (node_count (func_ b))) (∅ : gmap nat Z).
  induction l as [| x l IH]; intros m Hin; [now apply elem_of_nil in Hin |].
  cbn [for_each].
  destruct (Qle_bool (Qabs (solution (cycle_var_at b x)
                            - inject_Z (round (solution (cycle_var_at b x)))))
                     double_0_001) eqn:E; [| reflexivity].
  cbn. apply IH. apply elem_of_cons in Hin as [-> | Hin]; [| exact Hin].
  exfalso. apply Hfar. unfold near. now apply Qle_bool_iff.
Qed.

Section FailureModes.

Variable TopoSort : FunctionBase -> list nat.
Variable CreateSolver : string -> option MPSolver.
Variable Solve : MPSolver -> ResultStatus * (nat -> Q).

Lemma SDCScheduler_unavailable f stages clock estimator bounds constraints :
  CreateSolver "GLOP" = None ->
  SDCScheduler TopoSort CreateSolver Solve f stages clock estimator bounds constraints
  = Error solver_unavailable.
Proof. unfold SDCScheduler. now intros ->. Qed.

Lemma SDCScheduler_not_optimal f stages clock estimator bounds constraints solver b :
  CreateSolver "GLOP" = Some solver ->
  build_problem TopoSort f solver stages clock estimator bounds constraints = Ok b ->
  (Solve (solver_ b)).1 ≠ OPTIMAL ->
  SDCScheduler TopoSort CreateSolver Solve f stages clock estimator bounds constraints
  = Error no_optimal_solution.
Proof.
  unfold SDCScheduler. intros -> -> Hs. cbn.
  destruct (Solve (solver_ b)) as [status solution]. cbn in Hs.
  now rewrite decide_True by exact Hs.
Qed.

Lemma SDCScheduler_not_integer f stages clock estimator bounds constraints solver b
    solution node :
  CreateSolver "GLOP" = Some solver ->
  build_problem TopoSort f solver stages clock estimator bounds constraints = Ok b ->
  Solve (solver_ b) = (OPTIMAL, solution) ->
  node < node_count f ->
  ~ near (solution (cycle_var_at b node)) (round (solution (cycle_var_at b node))) ->
  SDCScheduler TopoSort CreateSolver Solve f stages clock estimator bounds constraints
  = Error non_integer_result.
Proof.
  unfold SDCScheduler. intros -> Hb HS Hn Hfar. rewrite Hb. cbn. rewrite HS.
  rewrite decide_False by (intros H; now apply H).
  apply (ExtractResult_not_integer b solution node); [| exact Hfar].
  now destruct (build_problem_func _ _ _ _ _ _ _ _ _ Hb) as [-> _].
Qed.

(** A sound solver does not report an optimum of a problem that has no
    solution, so the scheduler answers with [no_optimal_solution]. *)
Lemma SDCScheduler_infeasible f stages clock estimator bounds constraints solver b tol :
  solver_sound tol Solve ->
  CreateSolver "GLOP" = Some solver ->
  build_problem TopoSort f solver stages clock estimator bounds constraints = Ok b ->
  (forall solution, ~ feasible tol (solver_ b) solution) ->
  SDCScheduler TopoSort CreateSolver Solve f stages clock estimator bounds constraints
  = Error no_optimal_solution.
Proof.
  intros Hsound HC Hb Hinf. eapply SDCScheduler_not_optimal; eauto.
  destruct (Solve (solver_ b)) as [status solution] eqn:HS. cbn. intros ->.
  exact (Hinf solution (Hsound _ _ HS)).
Qed.

End FailureModes.

(** C5, as the scheduler implements it.  [SDCScheduler] has three error
    results of its own: [UnavailableError("GLOP solver unavailable.")]
    when the solver cannot be created; one fixed
    [InternalError("The problem does not have an optimal solution")]
    whenever the solver's status is anything but [OPTIMAL] (an infeasible
    problem included), whatever the problem was; and
    [InternalError("The scheduling result is expected to be integer")] when
    some node's value in an optimal solution differs from its rounding by
    more than the [double] [0.001] (1152921504606847 / 2^60).  The three results are pairwise different; the last two share
    the status code and differ in their message only. *)
Theorem C5_failure_modes_distinct :
  forall (TopoSort : FunctionBase -> list nat)
         (CreateSolver : string -> option MPSolver)
         (Solve : MPSolver -> ResultStatus * (nat -> Q))
         (f : FunctionBase) (pipeline_stages clock_period_ps : Z)
         (delay_estimator : nat -> StatusOr Z) (bounds : ScheduleBounds)
         (constraints : list SchedulingConstraint),
    (CreateSolver "GLOP" = None ->
       SDCScheduler TopoSort CreateSolver Solve f pipeline_stages clock_period_ps
                    delay_estimator bounds constraints
       = Error solver_unavailable)
    /\ (forall solver b,
          CreateSolver "GLOP" = Some solver ->
          build_problem TopoSort f solver pipeline_stages clock_period_ps
                        delay_estimator bounds constraints = Ok b ->
          (Solve (solver_ b)).1 ≠ OPTIMAL ->
          SDCScheduler TopoSort CreateSolver Solve f pipeline_stages clock_period_ps
                       delay_estimator bounds constraints
          = Error no_optimal_solution)
    /\ (forall solver b solution node,
          CreateSolver "GLOP" = Some solver ->
          build_problem TopoSort f solver pipeline_stages clock_period_ps
                        delay_estimator bounds constraints = Ok b ->
          Solve (solver_ b) = (OPTIMAL, solution) ->
          node < node_count f ->
          ~ near (solution (cycle_var_at b node))
                 (round (solution (cycle_var_at b node))) ->
          SDCScheduler TopoSort CreateSolver Solve f pipeline_stages clock_period_ps
                       delay_estimator bounds constraints
          = Error non_integer_result)
    /\ solver_unavailable ≠ no_optimal_solution
    /\ solver_unavailable ≠ non_integer_result
    /\ no_optimal_solution ≠ non_integer_result
    /\ status_code solver_unavailable = kUnavailable
    /\ status_code no_optimal_solution = kInternal
    /\ status_code non_integer_result = kInternal.
Proof.
  intros. split; [apply SDCScheduler_unavailable |].
  split; [intros *; apply SDCScheduler_not_optimal |].
  split; [intros *; apply SDCScheduler_not_integer |].
  repeat split; discriminate.
Qed.

Module Failures.

Import Pipeline.

(** A token runs from the send to the receive. *)
Definition send_then_recv : FunctionBase :=
  MkFunctionBase
    [ MkNode "s" kSend [] 0 (Some "out");
      MkNode "r" kReceive [0] 8 (Some "in") ]
    [1].

Definition no_solver (_ : string) : option MPSolver := None.

(** A back end that reports an optimum of one half for every variable. *)
Definition halves (_ : MPSolver) : ResultStatus * (nat -> Q) :=
  (OPTIMAL, fun _ => (1 # 2)%Q).

Example unavailable :
  SDCScheduler Graphs.in_order no_solver (replay candidate) recv_op_send 3 1000
               estimator (bounds 2) []
  = Error solver_unavailable.
Proof. reflexivity. Qed.

Example not_integer :
  SDCScheduler Graphs.in_order glop halves recv_op_send 3 1000 estimator (bounds 2) []
  = Error non_integer_result.
Proof. vm_compute. reflexivity. Qed.

Lemma tight_bounds_built :
  exists b, build_problem Graphs.in_order recv_op_send empty_solver 3 1000
                          estimator (bounds 1) [] = Ok b.
Proof. vm_compute. eexists. reflexivity. Qed.

Lemma send_then_recv_built :
  exists b, build_problem Graphs.in_order send_then_recv empty_solver 3 10000
                          estimator (bounds 2) [RecvsFirstSendsLast] = Ok b.
Proof. vm_compute. eexists. reflexivity. Qed.

(** Three nodes of 600ps each on a 1000ps clock need three cycles; the
    bounds allow cycles 0 and 1 only.  The timing rows and the bounds
    leave no solution. *)
Lemma tight_bounds_infeasible b solution :
  build_problem Graphs.in_order recv_op_send empty_solver 3 1000
                estimator (bounds 1) [] = Ok b ->
  ~ feasible 0 (solver_ b) solution.
Proof.
  intros Hb [Hvars Hrows].
  assert (H01 : cycle_var_at b 1 ≠ cycle_var_at b 0).
  { apply (build_problem_cycle_var_inj _ _ _ _ _ _ _ _ _ 1 0 Hb);
      [change (1 < 3) | change (0 < 3) |]; lia. }
  assert (H12 : cycle_var_at b 2 ≠ cycle_var_at b 1).
  { apply (build_problem_cycle_var_inj _ _ _ _ _ _ _ _ _ 2 1 Hb);
      [change (2 < 3) | change (1 < 3) |]; lia. }
  assert (T01 : timing_row b 0 1 ∈ solver_constraints (solver_ b)).
  { apply (build_problem_timing _ _ _ _ _ _ _ _ _ 0 1 Hb);
      [change (0 < 3); lia | apply LatePipeline.delay_constraint_r_x]. }
  assert (T12 : timing_row b 1 2 ∈ solver_constraints (solver_ b)).
  { apply (build_problem_timing _ _ _ _ _ _ _ _ _ 1 2 Hb);
      [change (1 < 3); lia | apply LatePipeline.delay_constraint_x_s]. }
  apply Hrows, timing_row_value in T01; [| exact H01].
  apply Hrows, timing_row_value in T12; [| exact H12].
  assert (B0 : 0 < 3) by lia. assert (B2 : 2 < 3) by lia.
  pose proof (Hvars _ _ (build_problem_cycle_var _ _ _ _ _ _ _ _ _ 0 Hb B0)) as [L0 _].
  pose proof (Hvars _ _ (build_problem_cycle_var _ _ _ _ _ _ _ _ _ 2 Hb B2)) as [_ U2].
  cbn in L0, U2. change (inject_Z 0) with 0%Q in L0. change (inject_Z 1) with 1%Q in U2.
  lra.
Qed.

(** The receive uses the token of the send, so it cannot come before the
    send; the receives-first / sends-last rows ask for the receive in
    cycle 0 and the send in cycle 2.  The causal row and these rows leave
    no solution, whatever the bounds. *)
Lemma send_then_recv_infeasible b solution :
  build_problem Graphs.in_order send_then_recv empty_solver 3 10000
                estimator (bounds 2) [RecvsFirstSendsLast] = Ok b ->
  ~ feasible 0 (solver_ b) solution.
Proof.
  intros Hb [_ Hrows].
  assert (B0 : 0 < 2) by lia. assert (B1 : 1 < 2) by lia.
  assert (Hin : RecvsFirstSendsLast ∈ [RecvsFirstSendsLast]) by constructor.
  assert (H01 : cycle_var_at b 0 ≠ cycle_var_at b 1).
  { apply (build_problem_cycle_var_inj _ _ _ _ _ _ _ _ _ 0 1 Hb B0 B1). lia. }
  destruct (build_problem_rfsl _ _ _ _ _ _ _ _ _ 0 Hb Hin B0) as [_ Hs].
  destruct (build_problem_rfsl _ _ _ _ _ _ _ _ _ 1 Hb Hin B1) as [Hr _].
  specialize (Hs eq_refl). specialize (Hr eq_refl).
  apply Hrows in Hs as [_ Hs]. apply Hrows in Hr as [_ Hr].
  destruct (build_problem_func _ _ _ _ _ _ _ _ _ Hb) as [_ Hp].
  cbn in Hs, Hr. rewrite Hp in Hs. change (inject_Z (- (3 - 1))) with (-2 # 1)%Q in Hs.
  destruct (build_problem_causal _ _ _ _ _ _ _ _ _ 0 1 Hb B0 B1) as [name Hc].
  { change (0 ∈ [0]). constructor. }
  apply Hrows, causal_row_value in Hc; [| exact H01].
  lra.
Qed.

(** The words by which the rows of the problem and the spec name a class
    of constraints. *)
Definition constraint_classes : list string :=
  [ "causal"; "lifetime"; "timing"; "min_io"; "max_io"; "recv"; "send";
    "bound"; "constraint" ].

Definition mentions (message word : string) : bool :=
  bool_decide (is_Some (String.index 0 word message)).

End Failures.

(** C5 as stated does not hold for the infeasible schedule.  One problem
    has no solution because of its timing rows and bounds, the other
    because of its causal row and its receives-first / sends-last rows;
    with any sound solver both give the same result, the fixed
    [no_optimal_solution], whose message names no class of constraints. *)
Lemma C5_infeasibility_names_no_constraint_class :
  (forall Solve,
      solver_sound 0 Solve ->
      SDCScheduler Graphs.in_order Pipeline.glop Solve Pipeline.recv_op_send 3 1000
                   Pipeline.estimator (Pipeline.bounds 1) []
      = Error no_optimal_solution)
  /\ (forall Solve,
        solver_sound 0 Solve ->
        SDCScheduler Graphs.in_order Pipeline.glop Solve Failures.send_then_recv 3 10000
                     Pipeline.estimator (Pipeline.bounds 2) [RecvsFirstSendsLast]
        = Error no_optimal_solution)
  /\ Forall (fun word => Failures.mentions (status_message no_optimal_solution) word = false)
            Failures.constraint_classes.
Proof.
  split; [| split].
  - intros Solve Hsound. destruct Failures.tight_bounds_built as [b Hb].
    eapply SDCScheduler_infeasible; [exact Hsound | reflexivity | exact Hb |].
    intros solution. now apply Failures.tight_bounds_infeasible.
  - intros Solve Hsound. destruct Failures.send_then_recv_built as [b Hb].
    eapply SDCScheduler_infeasible; [exact Hsound | reflexivity | exact Hb |].
    intros solution. now apply Failures.send_then_recv_infeasible.
  - repeat constructor.
Qed.

End Sdc.


(* ===================================================================== *)
(** * Part IV: further properties of the proc-state optimiser             *)
(* ===================================================================== *)

Module ProcFacts.

Import ProcOpt.

(** ** Bitmaps *)

Lemma Bitmap_new_length n : length (Bitmap_new n) = n.
Proof. apply length_replicate. Qed.

Lemma Bitmap_Get_new n i : Bitmap_Get (Bitmap_new n) i = false.
Proof.
  unfold Bitmap_Get, Bitmap_new. destruct (decide (i < n)) as [Hi | Hi].
  - pose proof (lookup_replicate_2 n false i Hi) as E.
    unfold InlineBitmap. rewrite E. reflexivity.
  - pose proof (proj1 (lookup_replicate_None n false i) ltac:(lia)) as E.
    unfold InlineBitmap. rewrite E. reflexivity.
Qed.

Lemma Bitmap_Get_lt b i : Bitmap_Get b i = true -> i < length b.
Proof.
  unfold Bitmap_Get, InlineBitmap in *. destruct (b !! i) eqn:E; [| discriminate].
  intros _. now apply lookup_lt_Some in E.
Qed.

Lemma Bitmap_Set_length b i v : length (Bitmap_Set b i v) = length b.
Proof. apply length_insert. Qed.

Lemma Bitmap_Get_Set_new n i j :
  i < n -> Bitmap_Get (Bitmap_Set (Bitmap_new n) i true) j = bool_decide (j = i).
Proof.
  intros Hi. pose proof (Bitmap_Get_new n j) as Hnew.
  unfold Bitmap_Get, Bitmap_Set, Bitmap_new, InlineBitmap in *.
  destruct (decide (j = i)) as [-> | Hne].
  - rewrite list_lookup_insert_eq by (rewrite length_replicate; lia).
    now rewrite bool_decide_eq_true_2.
  - rewrite list_lookup_insert_ne by congruence.
    rewrite bool_decide_eq_false_2 by exact Hne. exact Hnew.
Qed.

Lemma Bitmap_Union_length a b :
  length a = length b -> length (Bitmap_Union a b) = length a.
Proof. intros H. unfold Bitmap_Union. rewrite length_zip_with. lia. Qed.

Lemma Bitmap_Get_Union a b i :
  length a = length b ->
  Bitmap_Get (Bitmap_Union a b) i = Bitmap_Get a i || Bitmap_Get b i.
Proof.
  intros H. unfold Bitmap_Get, Bitmap_Union, InlineBitmap in *. rewrite lookup_zip_with.
  destruct (a !! i) as [x |] eqn:Ea; cbn.
  - destruct (lookup_lt_is_Some_2 b i) as [y Ey].
    { apply lookup_lt_Some in Ea. lia. }
    now rewrite Ey.
  - apply lookup_ge_None in Ea.
    rewrite (proj2 (lookup_ge_None b i)) by lia. reflexivity.
Qed.

Lemma union_all_spec tree acc :
  Forall (fun b => length b = length acc) tree ->
  length (union_all acc tree) = length acc
  /\ forall i, Bitmap_Get (union_all acc tree) i
               = Bitmap_Get acc i || existsb (fun b => Bitmap_Get b i) tree.
Proof.
  unfold union_all. revert acc.
  induction tree as [| b tree IH]; intros acc H; cbn.
  - split; [reflexivity |]. intros i. now rewrite orb_false_r.
  - apply Forall_cons in H as [Hb H].
    destruct (IH (Bitmap_Union acc b)) as [IL IG].
    { rewrite Bitmap_Union_length by congruence. exact H. }
    rewrite Bitmap_Union_length in IL by congruence.
    split; [exact IL |]. intros i.
    rewrite IG, Bitmap_Get_Union by congruence. now rewrite orb_assoc.
Qed.

Lemma existsb_replicate {A} (g : A -> bool) n x :
  existsb g (replicate n x) = negb (Nat.eqb n 0) && g x.
Proof.
  induction n as [| n IH]; cbn; [reflexivity |].
  rewrite IH. destruct (g x), (Nat.eqb n 0); reflexivity.
Qed.

(** ** What a dependency bitmap means *)

Lemma GetNode_Some p id node :
  GetNode p id = Some node -> node ∈ proc_nodes p /\ node_id node = id.
Proof.
  unfold GetNode. intros H. apply find_some in H as [Hin He].
  split; [now apply list_elem_of_In | now apply Nat.eqb_eq].
Qed.

Lemma GetNode_is_Some p node :
  node ∈ proc_nodes p -> is_Some (GetNode p (node_id node)).
Proof.
  intros Hin. unfold GetNode.
  destruct (List.find _ _) eqn:E; [eauto |].
  apply list_elem_of_In in Hin. eapply find_none in E; [| exact Hin].
  now rewrite Nat.eqb_refl in E.
Qed.

Lemma index_of_lt id l k i : index_of id l k = Some i -> k <= i < k + length l.
Proof.
  revert k. induction l as [| n l IH]; intros k; cbn; [discriminate |].
  destruct (Nat.eqb (node_id n) id).
  - intros [= <-]. lia.
  - intros H. apply IH in H. lia.
Qed.

Lemma GetStateParamIndex_lt p id i :
  GetStateParamIndex p id = Ok i -> i < GetStateElementCount p.
Proof.
  unfold GetStateParamIndex, GetStateElementCount.
  destruct (index_of _ _ _) as [j |] eqn:E; [| discriminate].
  intros [= <-]. apply index_of_lt in E. lia.
Qed.

(** State element [i] reaches the node [id]: the node is the state
    parameter of [i], or one of its operands is reached and the node is
    not a state parameter.  A node whose type has no leaf (an empty tuple,
    an array of size 0) holds no bitmap, so nothing is reached through
    it. *)
Inductive depends_on (p : Proc) : nat -> nat -> Prop :=
  | depends_state id node i :
      GetNode p id = Some node ->
      node_op node = kParam -> node_id node ≠ token_param p ->
      GetStateParamIndex p (node_id node) = Ok i ->
      leaf_count (node_type node) ≠ 0 ->
      depends_on p id i
  | depends_operand id node operand i :
      GetNode p id = Some node ->
      node_op node ≠ kParam \/ node_id node = token_param p ->
      operand ∈ node_operands node ->
      depends_on p operand i ->
      leaf_count (node_type node) ≠ 0 ->
      depends_on p id i.

(** The bitmap held by every leaf of the node's tree. *)
Definition leaf_bitmap_ok (p : Proc) (id : nat) (tree : LeafTypeTree) : Prop :=
  exists node b,
    GetNode p id = Some node
    /\ tree = LeafTypeTree_make (node_type node) b
    /\ length b = GetStateElementCount p
    /\ forall i, Bitmap_Get (union_all (Bitmap_new (GetStateElementCount p)) tree) i = true
                 <-> depends_on p id i.

Lemma flatten_replicate n b i count :
  length b = count ->
  Bitmap_Get (union_all (Bitmap_new count) (replicate n b)) i
  = negb (Nat.eqb n 0) && Bitmap_Get b i.
Proof.
  intros Hb.
  destruct (union_all_spec (replicate n b) (Bitmap_new count)) as [_ H].
  { apply Forall_replicate. now rewrite Bitmap_new_length. }
  now rewrite H, Bitmap_Get_new, existsb_replicate.
Qed.

(** The loop of [FlattenOperandBitmaps] over the operands. *)
Lemma operands_loop p fuel :
  (forall id tree, visit fuel p id = Ok tree -> leaf_bitmap_ok p id tree) ->
  forall operands acc result,
    length acc = GetStateElementCount p ->
    for_each (fun (result : InlineBitmap) (operand : nat) =>
                tree ← visit fuel p operand; Ok (union_all result tree))
             operands acc = Ok result ->
    length result = GetStateElementCount p
    /\ forall i, Bitmap_Get result i = true <->
                 Bitmap_Get acc i = true
                 \/ exists operand, operand ∈ operands /\ depends_on p operand i.
Proof.
  intros IH. induction operands as [| o operands IHo]; intros acc result Hacc; cbn.
  - intros [= <-]. split; [exact Hacc |]. intros i. split; [auto |].
    intros [H | (o & Ho & _)]; [exact H | now apply elem_of_nil in Ho].
  - intros H. apply bind_Ok_inv in H as (acc1 & H1 & H).
    apply bind_Ok_inv in H1 as (tree & Ht & [= <-]).
    destruct (IH _ _ Ht) as (node & b & Hnode & -> & Hb & Hdep).
    unfold LeafTypeTree_make in *.
    destruct (union_all_spec (replicate (leaf_count (node_type node)) b) acc) as [L G].
    { apply Forall_replicate. congruence. }
    destruct (IHo _ _ ltac:(now rewrite L) H) as [Lr Gr].
    split; [exact Lr |]. intros i. rewrite Gr, G, orb_true_iff.
    rewrite existsb_replicate.
    specialize (Hdep i). rewrite flatten_replicate in Hdep by exact Hb.
    rewrite Hdep. split.
    + intros [[Ha | Hd] | (o' & Ho' & Hd)]; [now left | right .. ].
      * exists o. split; [left | exact Hd].
      * exists o'. split; [now right | exact Hd].
    + intros [Ha | (o' & Ho' & Hd)]; [now left; left |].
      apply elem_of_cons in Ho' as [-> | Ho']; [left; now right | right; eauto].
Qed.

Lemma visit_spec p fuel :
  forall id tree, visit fuel p id = Ok tree -> leaf_bitmap_ok p id tree.
Proof.
  induction fuel as [| fuel IH]; intros id tree; [discriminate |].
  cbn [visit]. destruct (GetNode p id) as [node |] eqn:Hnode; [| discriminate].
  set (count := GetStateElementCount p).
  assert (Hdefault :
            node_op node ≠ kParam \/ node_id node = token_param p ->
            (result ← for_each
                        (fun (result : InlineBitmap) (operand : nat) =>
                           tree ← visit fuel p operand; Ok (union_all result tree))
                        (node_operands node) (Bitmap_new count);
             Ok (LeafTypeTree_make (node_type node) result)) = Ok tree ->
            leaf_bitmap_ok p id tree).
  { intros Hkind H. apply bind_Ok_inv in H as (result & Hr & [= <-]).
    destruct (operands_loop p fuel IH _ _ _ (Bitmap_new_length count) Hr) as [L G].
    exists node, result. split; [exact Hnode |]. split; [reflexivity |].
    split; [exact L |]. intros i. unfold LeafTypeTree_make.
    rewrite flatten_replicate by exact L. rewrite andb_true_iff, negb_true_iff, G.
    rewrite Bitmap_Get_new. split.
    - intros [Hn [[=] | (o & Ho & Hd)]].
      eapply depends_operand; eauto. now apply Nat.eqb_neq in Hn.
    - intros Hd. destruct Hd as [? n i ? ? ? ? ? | ? n o i ? ? ? ? ?].
      + exfalso. assert (n = node) as -> by congruence. tauto.
      + assert (n = node) as -> by congruence.
        split; [now apply Nat.eqb_neq | right; eauto]. }
  destruct (decide (node_op node = kParam)) as [Hp | Hp]; [| apply Hdefault; now left].
  destruct (Nat.eqb (node_id node) (token_param p)) eqn:Ht.
  { apply Hdefault. right. now apply Nat.eqb_eq. }
  apply Nat.eqb_neq in Ht.
  intros H. apply bind_Ok_inv in H as (index & Hi & [= <-]).
  pose proof (GetStateParamIndex_lt _ _ _ Hi) as Hlt.
  exists node, (Bitmap_Set (Bitmap_new count) index true).
  split; [exact Hnode |]. split; [reflexivity |].
  split; [now rewrite Bitmap_Set_length, Bitmap_new_length |].
  intros i. unfold LeafTypeTree_make.
  rewrite flatten_replicate by now rewrite Bitmap_Set_length, Bitmap_new_length.
  rewrite Bitmap_Get_Set_new by exact Hlt.
  rewrite andb_true_iff, negb_true_iff, bool_decide_eq_true. split.
  - intros [Hn ->]. eapply depends_state; eauto. now apply Nat.eqb_neq in Hn.
  - intros Hd. destruct Hd as [? n j ? ? ? Hj ? | ? n o j ? Hk ? ? ?].
    + assert (n = node) as -> by congruence.
      split; [now apply Nat.eqb_neq | congruence].
    + exfalso. assert (n = node) as -> by congruence. tauto.
Qed.

Lemma FlattenNodeBitmaps_spec p id bitmap :
  FlattenNodeBitmaps p id = Ok bitmap ->
  length bitmap = GetStateElementCount p
  /\ forall i, Bitmap_Get bitmap i = true <-> depends_on p id i.
Proof.
  unfold FlattenNodeBitmaps. intros H. apply bind_Ok_inv in H as (tree & Ht & [= <-]).
  destruct (visit_spec _ _ _ _ Ht) as (node & b & _ & -> & Hb & Hdep).
  split; [| exact Hdep].
  destruct (union_all_spec (LeafTypeTree_make (node_type node) b)
                           (Bitmap_new (GetStateElementCount p))) as [L _].
  - apply Forall_replicate. now rewrite Bitmap_new_length.
  - now rewrite L, Bitmap_new_length.
Qed.

(** [ComputeStateDependencies] holds, for every node of the proc and for
    nothing else, the flattened bitmap of the node. *)
Lemma ComputeStateDependencies_spec p sd :
  ComputeStateDependencies p = Ok sd ->
  (forall node, node ∈ proc_nodes p ->
      exists b, sd !! node_id node = Some b /\ FlattenNodeBitmaps p (node_id node) = Ok b)
  /\ (forall id b, sd !! id = Some b ->
        FlattenNodeBitmaps p id = Ok b
        /\ exists node, node ∈ proc_nodes p /\ node_id node = id).
Proof.
  unfold ComputeStateDependencies.
  set (body := fun (state_dependencies : gmap nat InlineBitmap) (node : Node) => _).
  assert (G : forall l (m m' : gmap nat InlineBitmap),
             for_each body l m = Ok m' ->
             (forall id b, m !! id = Some b -> FlattenNodeBitmaps p id = Ok b) ->
             (forall id b, m' !! id = Some b -> FlattenNodeBitmaps p id = Ok b)
             /\ (forall id, is_Some (m' !! id) <->
                            is_Some (m !! id) \/ exists node, node ∈ l /\ node_id node = id)).
  { induction l as [| x l IH]; intros m m'; cbn.
    - intros [= <-] Hm. split; [exact Hm |]. intros id. split; [auto |].
      intros [H | (n & Hn & _)]; [exact H | now apply elem_of_nil in Hn].
    - intros H Hm. apply bind_Ok_inv in H as (m1 & H1 & H).
      subst body. cbn beta in H1. apply bind_Ok_inv in H1 as (bitmap & Hb & [= <-]).
      set (m1 := match m !! node_id x with Some _ => m | None => _ end) in *.
      assert (Hm1 : forall id b, m1 !! id = Some b -> FlattenNodeBitmaps p id = Ok b).
      { subst m1. intros id b. destruct (m !! node_id x) eqn:E; [apply Hm |].
        destruct (decide (node_id x = id)) as [<- | Hne].
        - rewrite lookup_insert_eq. intros [= <-]. exact Hb.
        - rewrite lookup_insert_ne by exact Hne. apply Hm. }
      assert (Hd1 : forall id, is_Some (m1 !! id) <-> is_Some (m !! id) \/ node_id x = id).
      { subst m1. intros id. destruct (m !! node_id x) eqn:E.
        - split; [auto |]. intros [H' | <-]; [exact H' | eauto].
        - destruct (decide (node_id x = id)) as [<- | Hne].
          + rewrite lookup_insert_eq. split; eauto.
          + rewrite lookup_insert_ne by exact Hne. split; [auto |].
            intros [H' | H']; [exact H' | done]. }
      destruct (IH _ _ H Hm1) as [I1 I2]. split; [exact I1 |].
      intros id. rewrite I2, Hd1. split.
      + intros [[H' | <-] | (n & Hn & <-)]; [now left | right .. ].
        * exists x. split; [left | reflexivity].
        * exists n. split; [now right | reflexivity].
      + intros [H' | (n & Hn & <-)]; [now left; left |].
        apply elem_of_cons in Hn as [-> | Hn]; [left; now right | right; eauto]. }
  intros H. destruct (G _ _ _ H) as [G1 G2].
  { intros id b. rewrite lookup_empty. discriminate. }
  split.
  - intros node Hin. destruct (proj2 (G2 (node_id node))) as [b Hb]; [right; eauto |].
    exists b. split; [exact Hb | now apply G1].
  - intros id b Hb. split; [now apply G1 |].
    destruct (proj1 (G2 id)) as [[? H'] | H']; [eauto | | exact H'].
    now rewrite lookup_empty in H'.
Qed.

(** ** Enough fuel on an acyclic proc *)

Lemma index_of_elem id l k :
  (exists param, param ∈ l /\ node_id param = id) -> is_Some (index_of id l k).
Proof.
  intros (param & Hin & <-). revert k.
  induction l as [| n l IH]; intros k; [now apply elem_of_nil in Hin |].
  cbn. destruct (Nat.eqb (node_id n) (node_id param)) eqn:E; [eauto |].
  apply elem_of_cons in Hin as [-> | Hin]; [now rewrite Nat.eqb_refl in E | now apply IH].
Qed.

Section EnoughFuel.

Variable p : Proc.
Variable rank : nat -> nat.

(** Operands are nodes of the proc and have a smaller rank than their
    users: the node graph is closed and acyclic. *)
Hypothesis operands_ranked :
  forall node operand,
    node ∈ proc_nodes p -> operand ∈ node_operands node ->
    (exists n, n ∈ proc_nodes p /\ node_id n = operand)
    /\ rank operand < rank (node_id node).

(** A parameter other than the token is the parameter of a state
    element. *)
Hypothesis params_are_state :
  forall node,
    node ∈ proc_nodes p -> node_op node = kParam -> node_id node ≠ token_param p ->
    exists param, param ∈ state_params p /\ node_id param = node_id node.

Lemma visit_enough_fuel fuel id :
  (exists n, n ∈ proc_nodes p /\ node_id n = id) -> rank id < fuel ->
  exists tree, visit fuel p id = Ok tree.
Proof.
  revert id. induction fuel as [| fuel IH]; intros id Hid Hr; [lia |].
  destruct Hid as (n & Hn & <-).
  destruct (GetNode_is_Some p n Hn) as [node Hnode].
  destruct (GetNode_Some _ _ _ Hnode) as [Hin Hid].
  cbn [visit]. rewrite Hnode.
  assert (Hloop : forall operands acc,
             (forall o, o ∈ operands -> o ∈ node_operands node) ->
             exists result,
               for_each (fun (result : InlineBitmap) (operand : nat) =>
                           tree ← visit fuel p operand; Ok (union_all result tree))
                        operands acc = Ok result).
  { induction operands as [| o operands IHo]; intros acc Hsub; cbn; [eauto |].
    destruct (operands_ranked node o Hin (Hsub o ltac:(left))) as [Ho Hlt].
    rewrite Hid in Hlt.
    destruct (IH o Ho ltac:(lia)) as [tree ->]. cbn.
    apply IHo. intros o' Ho'. apply Hsub. now right. }
  destruct (Hloop (node_operands node) (Bitmap_new (GetStateElementCount p))
                  ltac:(auto)) as [result Hresult].
  destruct (decide (node_op node = kParam)) as [Hp | Hp];
    [| rewrite Hresult; cbn; eauto].
  destruct (Nat.eqb (node_id node) (token_param p)) eqn:Ht;
    [rewrite Hresult; cbn; eauto |].
  apply Nat.eqb_neq in Ht.
  destruct (index_of_elem (node_id node) (state_params p) 0
              (params_are_state node Hin Hp Ht)) as [i Hi].
  unfold GetStateParamIndex. rewrite Hi. cbn. eauto.
Qed.

Hypothesis rank_bounded :
  forall node, node ∈ proc_nodes p -> rank (node_id node) <= length (proc_nodes p).

Lemma ComputeStateDependencies_total :
  exists sd, ComputeStateDependencies p = Ok sd.
Proof.
  unfold ComputeStateDependencies.
  set (body := fun (state_dependencies : gmap nat InlineBitmap) (node : Node) => _).
  assert (G : forall l (m : gmap nat InlineBitmap),
             (forall node, node ∈ l -> node ∈ proc_nodes p) ->
             exists m', for_each body l m = Ok m').
  { induction l as [| x l IH]; intros m Hsub; cbn [for_each]; [eauto |].
    assert (Hx : x ∈ proc_nodes p) by (apply Hsub; left).
    destruct (visit_enough_fuel (S (length (proc_nodes p))) (node_id x)) as [tree Ht].
    { eauto. }
    { pose proof (rank_bounded x Hx). lia. }
    assert (Hb : exists m1, body m x = Ok m1).
    { unfold body, FlattenNodeBitmaps. rewrite Ht. cbn. eauto. }
    destruct Hb as [m1 ->]. change (exists m', for_each body l m1 = Ok m').
    apply IH. intros node Hnode. apply Hsub. now right. }
  apply G. auto.
Qed.

End EnoughFuel.

(** X2. On a proc whose node graph is closed and acyclic (operands are
    nodes of the proc and rank below their users, ranks bounded by the
    node count) and whose parameters, the token apart, are state
    parameters, [ComputeStateDependencies] returns a map: the visitor does
    not run out of depth and finds an index for every parameter. *)
Theorem X2_state_dependencies_computed :
  forall (p : Proc) (rank : nat -> nat),
    (forall node operand,
        node ∈ proc_nodes p -> operand ∈ node_operands node ->
        (exists n, n ∈ proc_nodes p /\ node_id n = operand)
        /\ rank operand < rank (node_id node)) ->
    (forall node,
        node ∈ proc_nodes p -> node_op node = kParam -> node_id node ≠ token_param p ->
        exists param, param ∈ state_params p /\ node_id param = node_id node) ->
    (forall node, node ∈ proc_nodes p -> rank (node_id node) <= length (proc_nodes p)) ->
    exists sd, ComputeStateDependencies p = Ok sd
               /\ forall node, node ∈ proc_nodes p -> is_Some (sd !! node_id node).
Proof.
  intros p rank H1 H2 H3.
  destruct (ComputeStateDependencies_total p rank H1 H2 H3) as [sd Hsd].
  exists sd. split; [exact Hsd |]. intros node Hin.
  destruct (ComputeStateDependencies_spec _ _ Hsd) as [H _].
  destruct (H node Hin) as (b & Hb & _). eauto.
Qed.

Lemma X2_state_dependencies_computed_witness :
  exists sd, ComputeStateDependencies Scenarios.follower_proc = Ok sd
             /\ forall node, node ∈ proc_nodes Scenarios.follower_proc ->
                             is_Some (sd !! node_id node).
Proof.
  apply (X2_state_dependencies_computed Scenarios.follower_proc (fun id => id)).
  - assert (H : Forall (fun node =>
                          Forall (fun o => o ∈ (node_id <$> proc_nodes Scenarios.follower_proc)
                                           /\ o < node_id node)
                                 (node_operands node))
                       (proc_nodes Scenarios.follower_proc))
      by (apply (bool_decide_unpack _); vm_compute; exact I).
    intros node operand Hn Ho.
    eapply Forall_forall in H; [| exact Hn]. eapply Forall_forall in H; [| exact Ho].
    destruct H as [H1 H2]. split; [| exact H2].
    apply list_elem_of_fmap in H1 as (n & -> & Hin). eauto.
  - assert (H : Forall (fun node =>
                          node_op node = kParam -> node_id node ≠ 0 ->
                          node_id node ∈ (node_id <$> state_params Scenarios.follower_proc))
                       (proc_nodes Scenarios.follower_proc))
      by (apply (bool_decide_unpack _); vm_compute; exact I).
    intros node Hn Hp Ht.
    eapply Forall_forall in H; [| exact Hn].
    apply list_elem_of_fmap in H as (n & Hid & Hin); eauto.
  - assert (H : Forall (fun node => node_id node <= 5)
                       (proc_nodes Scenarios.follower_proc))
      by (apply (bool_decide_unpack _); vm_compute; exact I).
    intros node Hn. eapply Forall_forall in H; [| exact Hn]. exact H.
Defined.

(** ** The analysis keeps every element linked to a side effect *)

Section Completeness.

Variable p : Proc.
Variable sd : gmap nat InlineBitmap.

Abbreviation count := (GetStateElementCount p).

Definition same (uf : gmap nat nat) (x y : nat) : Prop := UF_Find uf x = UF_Find uf y.

(** Every index is in the union-find and the seed, once chosen, is an
    index. *)
Definition analysis_ok (st : Analysis) : Prop :=
  (forall x, x < count -> is_Some (st.1 !! x))
  /\ (forall o, st.2 = Some o -> o < count).

(** From [st] to [st'] classes only merge and the seed stays. *)
Definition grows (st st' : Analysis) : Prop :=
  analysis_ok st'
  /\ (forall x y, x < count -> y < count -> same st.1 x y -> same st'.1 x y)
  /\ (forall o, st.2 = Some o -> st'.2 = Some o).

Lemma grows_refl st : analysis_ok st -> grows st st.
Proof. intros H. split; [exact H |]. split; auto. Qed.

Lemma grows_trans st1 st2 st3 : grows st1 st2 -> grows st2 st3 -> grows st1 st3.
Proof.
  intros (_ & S1 & O1) (I2 & S2 & O2). split; [exact I2 |]. split; auto.
Qed.

Lemma UF_Find_Union_in a b uf x :
  is_Some (uf !! x) ->
  UF_Find (UF_Union a b uf) x
  = if decide (UF_Find uf x = UF_Find uf a) then UF_Find uf b else UF_Find uf x.
Proof.
  intros [r Hr]. unfold UF_Union. unfold UF_Find at 1. rewrite lookup_fmap, Hr. cbn.
  change (UF_Find uf x) with (default x (uf !! x)). rewrite Hr. cbn.
  destruct (decide (r = UF_Find uf a)); reflexivity.
Qed.

Lemma UF_Union_lookup a b uf x : is_Some (UF_Union a b uf !! x) <-> is_Some (uf !! x).
Proof. unfold UF_Union. rewrite lookup_fmap. apply fmap_is_Some. Qed.

Lemma UF_Union_same a b uf :
  is_Some (uf !! a) -> is_Some (uf !! b) -> same (UF_Union a b uf) a b.
Proof.
  intros Ha Hb. unfold same. rewrite !UF_Find_Union_in by assumption.
  rewrite decide_True by reflexivity.
  destruct (decide (UF_Find uf b = UF_Find uf a)); reflexivity.
Qed.

Lemma UF_Union_grows a b uf obs :
  analysis_ok (uf, obs) -> a < count -> b < count ->
  grows (uf, obs) (UF_Union a b uf, obs).
Proof.
  intros [D O] Ha Hb. split; [| split].
  - split; [| exact O]. intros x Hx. cbn. apply UF_Union_lookup. now apply D.
  - intros x y Hx Hy. unfold same. cbn. intros E.
    rewrite !UF_Find_Union_in by now apply D. rewrite E.
    destruct (decide (UF_Find uf y = UF_Find uf a)); reflexivity.
  - auto.
Qed.

(** A loop that establishes a fact per element, where facts survive later
    steps. *)
Lemma foldl_establish {A} (step : Analysis -> A -> Analysis)
    (fact : A -> Analysis -> Prop) (ok : A -> Prop) (l : list A) :
  (forall st x, analysis_ok st -> ok x -> grows st (step st x) /\ fact x (step st x)) ->
  (forall x st st', ok x -> analysis_ok st -> grows st st' -> fact x st -> fact x st') ->
  forall st, analysis_ok st -> Forall ok l ->
    grows st (foldl step st l) /\ forall x, x ∈ l -> fact x (foldl step st l).
Proof.
  intros Hstep Hmono. induction l as [| a l IH]; intros st Hst Hok; cbn.
  - split; [now apply grows_refl |]. intros x Hx. now apply elem_of_nil in Hx.
  - apply Forall_cons in Hok as [Ha Hok].
    destruct (Hstep st a Hst Ha) as [G1 F1].
    destruct (IH (step st a) (proj1 G1) Hok) as [G2 F2].
    split; [eapply grows_trans; eauto |].
    intros x Hx. apply elem_of_cons in Hx as [-> | Hx]; [| now apply F2].
    eapply Hmono; [exact Ha | exact (proj1 G1) | exact G2 | exact F1].
Qed.

Lemma seq_ok n : Forall (fun i => i < n) (seq 0 n).
Proof. apply Forall_forall. intros i Hi. apply elem_of_seq in Hi. lia. Qed.

Lemma mark_observable_complete deps st :
  analysis_ok st ->
  let st' := mark_observable count deps st in
  grows st st'
  /\ forall i, i < count -> Bitmap_Get deps i = true ->
               exists o, st'.2 = Some o /\ same st'.1 i o.
Proof.
  intros Hst. cbn zeta. unfold mark_observable.
  destruct (foldl_establish
              (fun (st : Analysis) (i : nat) =>
                 if Bitmap_Get deps i then
                   match st.2 with
                   | None => (st.1, Some i)
                   | Some o => (UF_Union i o st.1, st.2)
                   end
                 else st)
              (fun i st => Bitmap_Get deps i = true ->
                           exists o, st.2 = Some o /\ same st.1 i o)
              (fun i => i < count) (seq 0 count)) with (st := st) as [G F].
  - intros [uf obs] i Hok Hi. cbn [fst snd].
    destruct (Bitmap_Get deps i) eqn:B; [| split; [now apply grows_refl | discriminate]].
    destruct obs as [o |].
    + pose proof (proj2 Hok o eq_refl) as Ho. cbn in Ho.
      split; [now apply UF_Union_grows |]. intros _. exists o. split; [reflexivity |].
      cbn. apply UF_Union_same; now apply (proj1 Hok).
    + split.
      * split; [| split]; cbn; auto.
        -- split; [apply Hok |]. cbn. now intros ? [= <-].
        -- discriminate.
      * intros _. exists i. split; reflexivity.
  - intros i s s' Hi Hs (Hs' & S & O) H B. destruct (H B) as (o & Ho & E).
    exists o. split; [now apply O |].
    apply S; [exact Hi | now apply (proj2 Hs) | exact E].
  - exact Hst.
  - apply seq_ok.
  - split; [exact G |]. intros i Hi B. apply F; [| exact B]. apply elem_of_seq. lia.
Qed.

Lemma union_next_state_complete deps st k :
  analysis_ok st -> k < count ->
  let st' := union_next_state count deps st k in
  grows st st'
  /\ forall i, i < count -> Bitmap_Get deps i = true -> same st'.1 i k.
Proof.
  intros Hst Hk. cbn zeta. unfold union_next_state.
  destruct (foldl_establish
              (fun (st : Analysis) (i : nat) =>
                 if Bitmap_Get deps i then (UF_Union i k st.1, st.2) else st)
              (fun i st => Bitmap_Get deps i = true -> same st.1 i k)
              (fun i => i < count) (seq 0 count)) with (st := st) as [G F].
  - intros [uf obs] i Hok Hi. cbn [fst snd].
    destruct (Bitmap_Get deps i) eqn:B; [| split; [now apply grows_refl | discriminate]].
    split; [now apply UF_Union_grows |]. intros _.
    cbn. apply UF_Union_same; now apply (proj1 Hok).
  - intros i s s' Hi Hs (Hs' & S & O) H B. apply S; auto.
  - exact Hst.
  - apply seq_ok.
  - split; [exact G |]. intros i Hi B. apply F; [| exact B]. apply elem_of_seq. lia.
Qed.

(** The indices [next_state_indices] files under a node are state indices
    whose next-state value is that node, and all of them. *)
Lemma next_state_indices_bound n indices k :
  next_state_indices p !! n = Some indices -> k ∈ indices -> k < count.
Proof.
  unfold next_state_indices.
  assert (G : forall l (m : gmap nat (list nat)) bound,
             (forall i, i ∈ l -> i < bound) ->
             (forall n indices k, m !! n = Some indices -> k ∈ indices -> k < bound) ->
             forall n indices k,
               foldl (fun (m : gmap nat (list nat)) (i : nat) =>
                        match GetNextStateElement p i with
                        | Some n => <[n := default [] (m !! n) ++ [i]]> m
                        | None => m
                        end) m l !! n = Some indices ->
               k ∈ indices -> k < bound).
  { induction l as [| i l IH]; intros m bound Hl Hm; cbn; [exact Hm |].
    apply IH; [intros j Hj; apply Hl; now right |].
    intros n' indices' k'.
    destruct (GetNextStateElement p i) as [ni |]; [| apply Hm].
    destruct (decide (ni = n')) as [-> | Hne].
    - rewrite lookup_insert_eq. intros [= <-] Hin.
      apply elem_of_app in Hin as [Hin | Hin].
      + destruct (m !! n') as [l' |] eqn:E; cbn in Hin; [eapply Hm; eauto |].
        now apply elem_of_nil in Hin.
      + apply list_elem_of_singleton in Hin as ->. apply Hl. left.
    - rewrite lookup_insert_ne by exact Hne. apply Hm. }
  apply G.
  - intros i Hi. apply elem_of_seq in Hi. lia.
  - intros ? ? ?. rewrite lookup_empty. discriminate.
Qed.

Lemma next_state_indices_complete k n :
  k < count -> GetNextStateElement p k = Some n ->
  exists indices, next_state_indices p !! n = Some indices /\ k ∈ indices.
Proof.
  intros Hk Hn. unfold next_state_indices.
  assert (G : forall l (m : gmap nat (list nat)),
             (k ∈ l \/ exists indices, m !! n = Some indices /\ k ∈ indices) ->
             exists indices,
               foldl (fun (m : gmap nat (list nat)) (i : nat) =>
                        match GetNextStateElement p i with
                        | Some n => <[n := default [] (m !! n) ++ [i]]> m
                        | None => m
                        end) m l !! n = Some indices
               /\ k ∈ indices).
  { induction l as [| i l IH]; intros m H; cbn.
    - destruct H as [H | H]; [now apply elem_of_nil in H | exact H].
    - apply IH. destruct H as [H | (indices & Hm & Hin)].
      + apply elem_of_cons in H as [<- | H]; [| now left].
        right. rewrite Hn. rewrite lookup_insert_eq. eexists. split; [reflexivity |].
        apply elem_of_app. right. now left.
      + right. destruct (GetNextStateElement p i) as [ni |]; [| eauto].
        destruct (decide (ni = n)) as [-> | Hne].
        * rewrite lookup_insert_eq, Hm. eexists. split; [reflexivity |].
          apply elem_of_app. now left.
        * rewrite lookup_insert_ne by exact Hne. eauto. }
  apply G. left. apply elem_of_seq. lia.
Qed.

(** What the loop body has recorded about a node once it is done with
    it. *)
Definition node_recorded (node : Node) (st : Analysis) : Prop :=
  (OpIsSideEffecting (node_op node) = true -> node_op node ≠ kParam ->
   forall i, i < count -> Bitmap_Get (deps_at sd (node_id node)) i = true ->
             exists o, st.2 = Some o /\ same st.1 i o)
  /\ (forall indices k i,
         next_state_indices p !! node_id node = Some indices -> k ∈ indices ->
         i < count -> Bitmap_Get (deps_at sd (node_id node)) i = true ->
         same st.1 i k).

Lemma node_recorded_mono node st st' :
  analysis_ok st -> grows st st' -> node_recorded node st -> node_recorded node st'.
Proof.
  intros Hst (Hst' & S & O) [F1 F2]. split.
  - intros Hse Hnp i Hi B. destruct (F1 Hse Hnp i Hi B) as (o & Ho & E).
    exists o. split; [now apply O |]. apply S; [exact Hi | now apply (proj2 Hst) | exact E].
  - intros indices k i Hm Hk Hi B. apply S; [exact Hi | | eauto].
    eapply next_state_indices_bound; eauto.
Qed.

Lemma analyse_node_complete st node :
  analysis_ok st ->
  grows st (analyse_node p sd st node) /\ node_recorded node (analyse_node p sd st node).
Proof.
  intros Hst. unfold analyse_node.
  set (deps := deps_at sd (node_id node)).
  set (st1 := if _ && _ then _ else st).
  assert (H1 : grows st st1
               /\ (OpIsSideEffecting (node_op node) = true -> node_op node ≠ kParam ->
                   forall i, i < count -> Bitmap_Get deps i = true ->
                             exists o, st1.2 = Some o /\ same st1.1 i o)).
  { subst st1. destruct (OpIsSideEffecting (node_op node)) eqn:Hse; cbn.
    - destruct (bool_decide (node_op node = kParam)) eqn:Hp; cbn.
      + apply bool_decide_eq_true in Hp. split; [now apply grows_refl | tauto].
      + destruct (mark_observable_complete deps st Hst) as [G F]. split; [exact G |].
        intros _ _. exact F.
    - split; [now apply grows_refl | discriminate]. }
  destruct H1 as [G1 F1].
  destruct (next_state_indices p !! node_id node) as [indices |] eqn:E.
  - destruct (foldl_establish (union_next_state count deps)
                (fun k st => forall i, i < count -> Bitmap_Get deps i = true -> same st.1 i k)
                (fun k => k < count) indices) with (st := st1) as [G2 F2].
    + intros s k Hs Hk. now apply union_next_state_complete.
    + intros k s s' Hk Hs (_ & S & _) H i Hi B. apply S; auto.
    + exact (proj1 G1).
    + apply Forall_forall. intros k Hk. eapply next_state_indices_bound; eauto.
    + split; [eapply grows_trans; eauto |]. split.
      * intros Hse Hnp i Hi B. destruct (F1 Hse Hnp i Hi B) as (o & Ho & Eo).
        destruct G2 as (_ & S & O). exists o. split; [now apply O |].
        apply S; [exact Hi | now apply (proj2 (proj1 G1)) | exact Eo].
      * intros indices' k i Hm Hk Hi B. rewrite E in Hm. injection Hm as <-.
        now apply F2.
  - split; [exact G1 |]. split; [exact F1 |].
    intros ? ? ? Hm. rewrite E in Hm. discriminate.
Qed.

Lemma UF_initial_ok :
  analysis_ok (foldl (fun uf i => UF_Insert i uf) ∅ (seq 0 count), None).
Proof.
  split; [| discriminate]. cbn.
  assert (G : forall l (uf : gmap nat nat) x,
             x ∈ l \/ is_Some (uf !! x) ->
             is_Some (foldl (fun uf i => UF_Insert i uf) uf l !! x)).
  { induction l as [| i l IH]; intros uf x H; cbn.
    - destruct H as [H | H]; [now apply elem_of_nil in H | exact H].
    - apply IH. unfold UF_Insert.
      destruct (decide (i = x)) as [-> | Hne].
      + right. destruct (uf !! x) eqn:E; [rewrite E; eauto |].
        rewrite lookup_insert_eq. eauto.
      + destruct H as [H | H].
        * apply elem_of_cons in H as [-> | H]; [done | now left].
        * right. destruct (uf !! i); [exact H |].
          now rewrite lookup_insert_ne. }
  intros x Hx. apply G. left. apply elem_of_seq. lia.
Qed.

(** After the loop over the nodes every node is recorded. *)
Lemma analyse_complete :
  let st := foldl (analyse_node p sd)
                  (foldl (fun uf i => UF_Insert i uf) ∅ (seq 0 count), None)
                  (proc_nodes p) in
  analysis_ok st /\ forall node, node ∈ proc_nodes p -> node_recorded node st.
Proof.
  cbn zeta.
  destruct (foldl_establish (analyse_node p sd) node_recorded (fun _ => True)
              (proc_nodes p)) with (st := (foldl (fun uf i => UF_Insert i uf) ∅
                                                 (seq 0 count), @None nat))
    as [G F].
  - intros st node Hst _. now apply analyse_node_complete.
  - intros node st st' _. apply node_recorded_mono.
  - apply UF_initial_ok.
  - now apply Forall_forall.
  - split; [apply G | exact F].
Qed.

Hypothesis computed : ComputeStateDependencies p = Ok sd.
Hypothesis next_state_sized : length (next_state p) = count.

Lemma bit_lt id i : Bitmap_Get (deps_at sd id) i = true -> i < count.
Proof.
  intros B. pose proof (Bitmap_Get_lt _ _ B) as Hlt.
  unfold deps_at in *. destruct (sd !! id) as [b |] eqn:E; cbn in *; [| lia].
  destruct (ComputeStateDependencies_spec _ _ computed) as [_ H].
  destruct (H id b) as [Hf _].
  { unfold InlineBitmap in *. exact E. }
  apply FlattenNodeBitmaps_spec in Hf as [L _]. lia.
Qed.

Lemma bit_node id i :
  Bitmap_Get (deps_at sd id) i = true ->
  exists node, node ∈ proc_nodes p /\ node_id node = id.
Proof.
  intros B. pose proof (Bitmap_Get_lt _ _ B) as Hlt.
  unfold deps_at in *. destruct (sd !! id) as [b |] eqn:E; cbn in *; [| lia].
  destruct (ComputeStateDependencies_spec _ _ computed) as [_ H].
  destruct (H id b) as [_ Hn]; [| exact Hn].
  unfold InlineBitmap in *. exact E.
Qed.

Lemma linked_retained i :
  linked_to_side_effect p sd i ->
  i < count /\ is_unobservable (analyse p sd) i = false.
Proof.
  intros (e & He & Hr).
  destruct analyse_complete as [Hok Hrec].
  unfold analyse, is_unobservable.
  set (st := foldl (analyse_node p sd) _ (proc_nodes p)) in *.
  destruct He as (node & Hin & Hse & Hnp & B).
  pose proof (bit_lt _ _ B) as He.
  destruct (proj1 (Hrec node Hin) Hse Hnp e He B) as (o & Ho & Eo).
  assert (Hchain : i < count /\ same st.1 e i).
  { clear -Hr He Hrec computed next_state_sized.
    induction Hr as [x | x y z Hxy _ IH].
    - split; [exact He | reflexivity].
    - assert (Hy : y < count /\ same st.1 x y).
      { destruct Hxy as [(n & Hn & B) | (n & Hn & B)].
        - (* the next state of [x] depends on [y] *)
          pose proof (bit_lt _ _ B) as Hy. split; [exact Hy |].
          destruct (bit_node _ _ B) as (node & Hin & <-).
          destruct (next_state_indices_complete x (node_id node) He Hn)
            as (indices & Hi & Hx).
          symmetry. exact (proj2 (Hrec node Hin) indices x y Hi Hx Hy B).
        - (* the next state of [y] depends on [x] *)
          assert (Hy : y < count).
          { unfold GetNextStateElement in Hn. apply lookup_lt_Some in Hn. lia. }
          split; [exact Hy |].
          destruct (bit_node _ _ B) as (node & Hin & <-).
          destruct (next_state_indices_complete y (node_id node) Hy Hn)
            as (indices & Hi & Hx).
          exact (proj2 (Hrec node Hin) indices y x Hi Hx He B). }
      destruct Hy as [Hy Exy]. destruct (IH Hy) as [Hz Eyz].
      split; [exact Hz |]. unfold same in *. congruence. }
  destruct Hchain as [Hi Ei]. split; [exact Hi |].
  rewrite Ho. cbn. apply negb_false_iff, Nat.eqb_eq.
  unfold same in *. congruence.
Qed.

End Completeness.

(** X3. The unobservable-state analysis never gives up an element that is
    linked to a side effect: if some side-effecting node (other than a
    parameter) depends on [e] and [i] is joined to [e] by next-state
    dependencies, followed forwards or backwards, then [i] is among the
    retained indices, and its parameter is still a state parameter after
    [RemoveUnobservableStateElements].  Every observable element is linked
    in this sense ([observable_linked]), so none of them is removed. *)
Theorem X3_linked_state_is_retained :
  forall (p : Proc) (sd : gmap nat InlineBitmap) (i : nat),
    ComputeStateDependencies p = Ok sd ->
    length (next_state p) = GetStateElementCount p ->
    linked_to_side_effect p sd i ->
    i ∈ retained_indices p sd
    /\ forall changed p',
         RemoveUnobservableStateElements p = Ok (changed, p') ->
         exists param, GetStateParam p i = Some param /\ param ∈ state_params p'.
Proof.
  intros p sd i Hsd Hlen Hl.
  destruct (linked_retained p sd Hsd Hlen i Hl) as [Hi Hu].
  assert (Hr : i ∈ retained_indices p sd).
  { unfold retained_indices. apply list_elem_of_filter. split; [exact Hu |].
    apply elem_of_seq. lia. }
  split; [exact Hr |].
  intros changed p' H.
  apply RemoveUnobservableStateElements_params in H as (sd' & Hsd' & Hparams).
  assert (sd' = sd) as -> by congruence.
  destruct (lookup_lt_is_Some_2 (state_params p) i Hi) as [param Hp].
  exists param. split; [exact Hp |]. rewrite Hparams.
  apply elem_of_select. exists i. split; [exact Hr | exact Hp].
Qed.

Lemma X3_linked_state_is_retained_witness :
  1 ∈ retained_indices Scenarios.follower_proc Follower.deps.
Proof.
  refine (proj1 (X3_linked_state_is_retained Scenarios.follower_proc Follower.deps 1
                   Follower.dependencies eq_refl _)).
  exists 0. split.
  - exists (MkNode 3 kSend [0; 1] TokenType None).
    split; [unfold Scenarios.follower_proc; cbn [proc_nodes]; set_solver |].
    repeat split; discriminate.
  - apply rtsc_rl. exists 4. split; reflexivity.
Defined.

(** ** The retained elements are the linked ones *)

Lemma RemoveStateElement_next_state_sized p i r :
  RemoveStateElement p i = Ok r ->
  length (next_state p) = GetStateElementCount p ->
  length (next_state r) = GetStateElementCount r.
Proof.
  unfold RemoveStateElement, GetStateElementCount.
  destruct (GetStateParam p i) as [param |] eqn:Hp; [| discriminate].
  destruct (IsDead _ _); [| discriminate]. intros [= <-] Hlen. cbn.
  apply lookup_lt_Some in Hp.
  rewrite !length_delete by (apply lookup_lt_is_Some; lia). lia.
Qed.

Lemma RemoveZeroWidthStateElements_next_state_sized p c p1 :
  RemoveZeroWidthStateElements p = Ok (c, p1) ->
  length (next_state p) = GetStateElementCount p ->
  length (next_state p1) = GetStateElementCount p1.
Proof.
  unfold RemoveZeroWidthStateElements.
  destruct (zero_width_indices p) as [| i l]; [now intros [= _ <-] |].
  intros H Hlen. apply bind_Ok_inv in H as (q & Hq & [= _ <-]).
  revert Hlen Hq.
  apply (for_each_invariant remove_zero_width_element
           (fun q => length (next_state q) = GetStateElementCount q)).
  intros s x s' _ Hs Hx.
  apply remove_zero_width_element_inv in Hx as (param & q0 & _ & Hq0 & Hr).
  apply (RemoveStateElement_next_state_sized _ _ _ Hr).
  injection Hq0 as <-. unfold GetStateElementCount in *. cbn.
  now rewrite length_fmap.
Qed.

(** C1, as the pass implements it.  After the pass has run, the state
    elements left are those at the indices the unobservable sub-pass
    retained.  Every retained index is joined to an element in the bitmap
    of some side-effecting non-parameter node by next-state dependencies,
    where a dependency may be followed in either direction (the classes
    are built with a union-find, which forgets the direction).  On a proc
    with one next-state value for each state element the converse holds
    too: every index joined in this way is retained, and so is every
    observable element, which is joined by dependencies followed forwards
    only.  Indices and bitmaps are those of the proc the sub-pass analyses,
    that is, the proc after zero-width removal. *)
Theorem C1_retained_are_the_linked_elements :
  forall (p : Proc) (changed : bool) (p' : Proc),
    RunOnProcInternal p = Ok (changed, p') ->
    exists c1 p1 sd,
      RemoveZeroWidthStateElements p = Ok (c1, p1)
      /\ ComputeStateDependencies p1 = Ok sd
      /\ state_params p' = select (retained_indices p1 sd) (state_params p1)
      /\ (forall i, i ∈ retained_indices p1 sd ->
            exists e, side_effect_depends p1 sd e
                      /\ rtsc (next_state_depends p1 sd) e i)
      /\ (length (next_state p) = GetStateElementCount p ->
          (forall i e, side_effect_depends p1 sd e ->
                       rtsc (next_state_depends p1 sd) e i ->
                       i ∈ retained_indices p1 sd)
          /\ (forall i, observable p1 sd i -> i ∈ retained_indices p1 sd)).
Proof.
  intros p changed p' H.
  apply RunOnProcInternal_inv in H as (c1 & p1 & c2 & H1 & H2 & _).
  apply RemoveUnobservableStateElements_params in H2 as (sd & Hsd & Hparams).
  exists c1, p1, sd. split; [exact H1 |]. split; [exact Hsd |].
  split; [exact Hparams |]. split.
  - intros i Hi. apply analyse_retained.
    now apply list_elem_of_filter in Hi as [Hi _].
  - intros Hlen.
    pose proof (RemoveZeroWidthStateElements_next_state_sized _ _ _ H1 Hlen) as Hlen1.
    assert (Hl : forall i, linked_to_side_effect p1 sd i -> i ∈ retained_indices p1 sd).
    { intros i Hi. destruct (linked_retained p1 sd Hsd Hlen1 i Hi) as [Hc Hu].
      unfold retained_indices. apply list_elem_of_filter. split; [exact Hu |].
      apply elem_of_seq. lia. }
    split.
    + intros i e He Hr. apply Hl. exists e. split; assumption.
    + intros i Hi. apply Hl. now apply observable_linked.
Qed.

Lemma C1_retained_are_the_linked_elements_witness :
  0 ∈ retained_indices Scenarios.follower_proc Follower.deps
  /\ exists e, side_effect_depends Scenarios.follower_proc Follower.deps e
               /\ rtsc (next_state_depends Scenarios.follower_proc Follower.deps) e 1.
Proof.
  destruct (C1_retained_are_the_linked_elements Scenarios.follower_proc _ _
              Scenarios.scenario_follower) as (c1 & p1 & sd & H1 & Hsd & _ & Hr & H).
  injection H1 as _ <-.
  rewrite Follower.dependencies in Hsd. injection Hsd as <-.
  split.
  - apply (proj2 (H eq_refl)). exists 0. split; [| reflexivity].
    exists (MkNode 3 kSend [0; 1] TokenType None).
    split; [unfold Scenarios.follower_proc; cbn [proc_nodes]; set_solver |].
    repeat split; discriminate.
  - apply Hr. rewrite Follower.all_retained. set_solver.
Defined.

(** ** What the pass reports and what it leaves *)

Lemma delete_all_sublist {A} (indices : list nat) (xs : list A) :
  delete_all indices xs `sublist_of` xs.
Proof.
  unfold delete_all. revert xs.
  induction indices as [| i l IH]; intros xs; cbn; [reflexivity |].
  etransitivity; [apply IH | apply sublist_delete].
Qed.

Lemma delete_all_length_le {A} (indices : list nat) (xs : list A) :
  length (delete_all indices xs) <= length xs.
Proof. apply sublist_length, delete_all_sublist. Qed.

Lemma delete_all_cons_length_lt {A} i (indices : list nat) (xs : list A) :
  i < length xs -> length (delete_all (i :: indices) xs) < length xs.
Proof.
  intros Hi. unfold delete_all. cbn [foldl].
  pose proof (delete_all_length_le indices (delete i xs)) as H. unfold delete_all in H.
  rewrite length_delete in H by now apply lookup_lt_is_Some_2. lia.
Qed.

Lemma RemoveZeroWidthStateElements_changed p c p1 :
  RemoveZeroWidthStateElements p = Ok (c, p1) ->
  (c = false /\ p1 = p)
  \/ (c = true /\ GetStateElementCount p1 < GetStateElementCount p).
Proof.
  unfold RemoveZeroWidthStateElements.
  destruct (zero_width_indices p) as [| i l] eqn:E.
  - intros [= <- <-]. now left.
  - intros H. apply bind_Ok_inv in H as (q & Hq & [= <- <-]). right.
    split; [reflexivity |].
    apply (for_each_delete_params _ _ remove_zero_width_element_params) in Hq.
    unfold GetStateElementCount. rewrite Hq. apply delete_all_cons_length_lt.
    assert (Hi : i ∈ zero_width_indices p) by (rewrite E; left).
    apply zero_width_indices_spec in Hi as (param & Hp & _).
    now apply lookup_lt_Some in Hp.
Qed.

Lemma RemoveUnobservableStateElements_changed p c p2 :
  RemoveUnobservableStateElements p = Ok (c, p2) ->
  (c = false /\ p2 = p)
  \/ (c = true /\ GetStateElementCount p2 < GetStateElementCount p).
Proof.
  unfold RemoveUnobservableStateElements. intros H.
  apply bind_Ok_inv in H as (sd & Hsd & H).
  destruct (unobservable_indices p sd) as [| i l] eqn:E.
  - injection H as <- <-. now left.
  - apply bind_Ok_inv in H as (p1 & Hp1 & H).
    apply bind_Ok_inv in H as (q & Hq & [= <- <-]). right.
    split; [reflexivity |].
    apply (for_each_delete_params _ _ RemoveStateElement_params) in Hq.
    apply (for_each_keep_params _ _ replace_with_zero_if_used_params) in Hp1.
    unfold GetStateElementCount. rewrite Hq, Hp1. apply delete_all_cons_length_lt.
    assert (Hi : i ∈ unobservable_indices p sd) by (rewrite E; left).
    apply unobservable_indices_spec in Hi as [Hi _]. exact Hi.
Qed.

(** X4. The [changed] flag of the pass is exact: when it is [false] the
    proc is returned as it was given, and when it is [true] the proc has
    strictly fewer state elements than before. *)
Theorem X4_changed_flag_is_exact :
  forall (p : Proc) (changed : bool) (p' : Proc),
    RunOnProcInternal p = Ok (changed, p') ->
    (changed = false -> p' = p)
    /\ (changed = true -> GetStateElementCount p' < GetStateElementCount p)
    /\ GetStateElementCount p' <= GetStateElementCount p.
Proof.
  intros p changed p' H.
  apply RunOnProcInternal_inv in H as (c1 & p1 & c2 & H1 & H2 & ->).
  apply RemoveZeroWidthStateElements_changed in H1.
  apply RemoveUnobservableStateElements_changed in H2.
  destruct H1 as [[-> ->] | [-> L1]], H2 as [[-> ->] | [-> L2]]; cbn;
    (split; [intros; (reflexivity || discriminate) |]); (split; [intros |]); lia.
Qed.

Definition unobservable_proc_after : Proc :=
  MkProc [ Scenarios.param 0 TokenType; Scenarios.param 1 Scenarios.u8;
           MkNode 3 kSend [0; 1] TokenType None;
           MkNode 4 kNot [5] Scenarios.u8 None;
           MkNode 5 kLiteral [] Scenarios.u8 (Some (VBits 8 0)) ]
         0 [Scenarios.param 1 Scenarios.u8] [VBits 8 0] [1] 3 6.

Lemma X4_changed_flag_is_exact_witness :
  GetStateElementCount unobservable_proc_after
  < GetStateElementCount Scenarios.unobservable_proc.
Proof.
  exact (proj1 (proj2 (X4_changed_flag_is_exact
                         Scenarios.unobservable_proc true unobservable_proc_after
                         Scenarios.scenario_unobservable))
               eq_refl).
Defined.

(** ** Parameters and initial values stay paired *)

Lemma zip_delete {A B} (i : nat) (xs : list A) (ys : list B) :
  zip (delete i xs) (delete i ys) = delete i (zip xs ys).
Proof.
  revert xs ys. induction i as [| i IH]; intros [| x xs] [| y ys]; cbn;
    try reflexivity; try (now destruct xs); try (now destruct (delete i xs));
    now rewrite IH.
Qed.

Definition state_pairs (p : Proc) : list (Node * Value) :=
  zip (state_params p) (init_values p).

Lemma RemoveStateElement_pairs p i q :
  RemoveStateElement p i = Ok q -> state_pairs q = delete i (state_pairs p).
Proof.
  unfold RemoveStateElement, state_pairs.
  destruct (GetStateParam p i); [| discriminate].
  destruct (IsDead _ _); [| discriminate]. intros [= <-]. cbn. apply zip_delete.
Qed.

Lemma for_each_pairs_sublist (body : Proc -> nat -> StatusOr Proc) l :
  (forall p i q, body p i = Ok q -> state_pairs q `sublist_of` state_pairs p) ->
  forall p q, for_each body l p = Ok q -> state_pairs q `sublist_of` state_pairs p.
Proof.
  intros Hbody p q.
  apply (for_each_invariant body (fun r => state_pairs r `sublist_of` state_pairs p)).
  - intros r i r' _ Hr Hb. etransitivity; [eapply Hbody; eauto | exact Hr].
  - reflexivity.
Qed.

Lemma remove_zero_width_element_pairs p i q :
  remove_zero_width_element p i = Ok q -> state_pairs q `sublist_of` state_pairs p.
Proof.
  intros H. apply remove_zero_width_element_inv in H as (param & r & _ & Hr & Hq).
  apply RemoveStateElement_pairs in Hq. injection Hr as <-.
  rewrite Hq. apply sublist_delete.
Qed.

Lemma replace_with_zero_if_used_pairs p i q :
  replace_with_zero_if_used p i = Ok q -> state_pairs q = state_pairs p.
Proof.
  unfold replace_with_zero_if_used.
  destruct (GetStateParam p i); [| discriminate].
  destruct (IsDead _ _); now intros [= <-].
Qed.

(** X5. The pass only drops state elements.  The (parameter, initial
    value) pairs of the result are a subsequence of the pairs of the proc
    it was given: no element is added, reordered or paired with another
    element's initial value. *)
Theorem X5_state_pairs_are_a_subsequence :
  forall (p : Proc) (changed : bool) (p' : Proc),
    RunOnProcInternal p = Ok (changed, p') ->
    zip (state_params p') (init_values p')
    `sublist_of` zip (state_params p) (init_values p).
Proof.
  intros p changed p' H.
  apply RunOnProcInternal_inv in H as (c1 & p1 & c2 & H1 & H2 & _).
  change (state_pairs p' `sublist_of` state_pairs p).
  transitivity (state_pairs p1).
  - revert H2. unfold RemoveUnobservableStateElements. intros H.
    apply bind_Ok_inv in H as (sd & _ & H).
    destruct (unobservable_indices p1 sd) as [| i l].
    + now injection H as _ <-.
    + apply bind_Ok_inv in H as (q1 & Hq1 & H).
      apply bind_Ok_inv in H as (q2 & Hq2 & [= _ <-]).
      transitivity (state_pairs q1).
      * revert Hq2. apply for_each_pairs_sublist. intros r j r' Hr.
        apply RemoveStateElement_pairs in Hr. rewrite Hr. apply sublist_delete.
      * revert Hq1. apply for_each_pairs_sublist. intros r j r' Hr.
        now rewrite (replace_with_zero_if_used_pairs _ _ _ Hr).
  - revert H1. unfold RemoveZeroWidthStateElements.
    destruct (zero_width_indices p) as [| i l].
    + now intros [= _ <-].
    + intros H. apply bind_Ok_inv in H as (q & Hq & [= _ <-]).
      revert Hq. apply for_each_pairs_sublist. exact remove_zero_width_element_pairs.
Qed.

Lemma X5_state_pairs_are_a_subsequence_witness :
  [(Scenarios.param 1 Scenarios.u8, VBits 8 0)]
  `sublist_of` [(Scenarios.param 1 Scenarios.u8, VBits 8 0);
                (Scenarios.param 2 Scenarios.u8, VBits 8 0)].
Proof.
  exact (X5_state_pairs_are_a_subsequence
           Scenarios.unobservable_proc true unobservable_proc_after
           Scenarios.scenario_unobservable).
Defined.

(** ** The zero-width sub-pass does not fail *)

Lemma replace_id_neq old new x : new ≠ old -> replace_id old new x ≠ old.
Proof.
  intros Hne. unfold replace_id. destruct (Nat.eqb x old) eqn:E; [exact Hne |].
  now apply Nat.eqb_neq in E.
Qed.

Lemma existsb_eqb_false id (l : list nat) :
  (forall x, x ∈ l -> x ≠ id) -> existsb (Nat.eqb id) l = false.
Proof.
  induction l as [| y l IH]; intros H; cbn; [reflexivity |].
  rewrite IH by (intros x Hx; apply H; now right).
  rewrite orb_false_r. apply Nat.eqb_neq. intros ->. now apply (H y); [left |].
Qed.

(** Once its uses are replaced by a fresh literal, a state parameter is
    dead and its element can be removed. *)
Lemma RemoveStateElement_after_replace p i param v q :
  GetStateParam p i = Some param -> node_id param ≠ next_node_id p ->
  ReplaceUsesWithNewLiteral p param v = Ok q ->
  exists r, RemoveStateElement q i = Ok r.
Proof.
  intros Hp Hfresh [= <-]. unfold RemoveStateElement, GetStateParam. cbn [state_params].
  unfold GetStateParam in Hp. rewrite Hp.
  set (old := node_id param). set (new := next_node_id p).
  assert (Hne : new ≠ old) by (subst old new; congruence).
  assert (Hdead : IsDead
                    (MkProc ((replace_operands old new <$> proc_nodes p)
                             ++ [MkNode new kLiteral [] (node_type param) (Some v)])
                            (token_param p) (delete i (state_params p))
                            (delete i (init_values p))
                            (delete i (replace_id old new <$> next_state p))
                            (replace_id old new (next_token p)) (S new))
                    old = true).
  { unfold IsDead. cbn [proc_nodes next_state next_token].
    rewrite !andb_true_iff, !negb_true_iff. split; [split |].
    - apply forallb_forall. intros n Hn. apply negb_true_iff, existsb_eqb_false.
      apply in_app_or in Hn as [Hn | Hn].
      + apply list_elem_of_In, list_elem_of_fmap in Hn as (n0 & -> & _).
        cbn. intros x Hx. apply list_elem_of_fmap in Hx as (x0 & -> & _).
        now apply replace_id_neq.
      + destruct Hn as [<- | []]. cbn. intros x Hx. now apply elem_of_nil in Hx.
    - apply existsb_eqb_false. intros x Hx.
      assert (Hx' : x ∈ replace_id old new <$> next_state p).
      { eapply list_elem_of_delete_inv; exact Hx. }
      apply list_elem_of_fmap in Hx' as (x0 & -> & _). now apply replace_id_neq.
    - apply Nat.eqb_neq. intros E. symmetry in E. revert E. now apply replace_id_neq. }
  cbn [proc_nodes token_param state_params init_values next_state next_token next_node_id].
  rewrite Hdead. eauto.
Qed.

Lemma remove_zero_width_elements_total l :
  descending l ->
  forall p,
    (forall i, i ∈ l -> i < GetStateElementCount p) ->
    (forall param, param ∈ state_params p -> node_id param < next_node_id p) ->
    exists p', for_each remove_zero_width_element l p = Ok p'.
Proof.
  induction l as [| i l IH]; intros Hd p Hl Hids; cbn [for_each]; [eauto |].
  apply descending_cons in Hd as [Hlt Hd].
  destruct (lookup_lt_is_Some_2 (state_params p) i (Hl i ltac:(left))) as [param Hp].
  assert (Hin : param ∈ state_params p) by (eapply list_elem_of_lookup_2; eauto).
  destruct (RemoveStateElement_after_replace p i param (ZeroOfType (node_type param)) _
              Hp ltac:(specialize (Hids param Hin); lia) eq_refl) as [r Hr].
  assert (Hstep : remove_zero_width_element p i = Ok r).
  { unfold remove_zero_width_element. unfold GetStateParam at 1. rewrite Hp. exact Hr. }
  rewrite Hstep. change (exists p', for_each remove_zero_width_element l r = Ok p').
  pose proof (RemoveStateElement_params _ _ _ Hr) as Hparams. cbn in Hparams.
  apply IH; [exact Hd | |].
  - intros j Hj. eapply Forall_forall in Hlt; [| exact Hj].
    unfold GetStateElementCount. rewrite Hparams.
    rewrite length_delete by eauto.
    specialize (Hl i ltac:(left)). unfold GetStateElementCount in Hl. lia.
  - intros q Hq. rewrite Hparams in Hq.
    assert (Hq' : q ∈ state_params p).
    { eapply list_elem_of_delete_inv; exact Hq. }
    specialize (Hids q Hq').
    unfold RemoveStateElement in Hr. cbn in Hr. unfold GetStateParam in Hr. cbn in Hr.
    rewrite Hp in Hr. destruct (IsDead _ _); [| discriminate]. injection Hr as <-. cbn. lia.
Qed.

(** X6. [RemoveZeroWidthStateElements] returns a result on every proc
    whose state parameters have ids below the id of the next node to be
    created: each zero-width parameter is dead once its uses are replaced
    by the fresh literal, so removing its element cannot fail. *)
Theorem X6_zero_width_removal_succeeds :
  forall (p : Proc),
    (forall param, param ∈ state_params p -> node_id param < next_node_id p) ->
    exists changed p1,
      RemoveZeroWidthStateElements p = Ok (changed, p1)
      /\ Forall (fun param => (0 < GetFlatBitCount (node_type param))%N) (state_params p1).
Proof.
  intros p Hids.
  assert (H : exists r, RemoveZeroWidthStateElements p = Ok r).
  { unfold RemoveZeroWidthStateElements.
    destruct (zero_width_indices p) as [| i l] eqn:E; [eauto |].
    destruct (remove_zero_width_elements_total (i :: l)) with (p := p) as [p' Hp'].
    - rewrite <- E. apply filter_reverse_seq_descending.
    - intros j Hj. rewrite <- E in Hj.
      apply zero_width_indices_spec in Hj as (param & Hp & _).
      now apply lookup_lt_Some in Hp.
    - exact Hids.
    - rewrite Hp'. cbn. eauto. }
  destruct H as [[changed p1] H]. exists changed, p1. split; [exact H |].
  rewrite (RemoveZeroWidthStateElements_params _ _ _ H).
  apply Forall_forall. intros x Hx.
  apply elem_of_select in Hx as (i & Hi & Hx).
  apply list_elem_of_filter in Hi as [Hi _].
  unfold is_zero_width, GetStateElementType, GetStateParam in Hi.
  rewrite Hx in Hi. cbn in Hi. apply N.eqb_neq in Hi. lia.
Qed.

Lemma X6_zero_width_removal_succeeds_witness :
  exists changed p1,
    RemoveZeroWidthStateElements Scenarios.zero_width_proc = Ok (changed, p1)
    /\ Forall (fun param => (0 < GetFlatBitCount (node_type param))%N) (state_params p1).
Proof.
  apply (X6_zero_width_removal_succeeds Scenarios.zero_width_proc).
  assert (H : Forall (fun param => node_id param < 5)
                     (state_params Scenarios.zero_width_proc))
    by (apply (bool_decide_unpack _); vm_compute; exact I).
  intros param Hin. eapply Forall_forall in H; [| exact Hin]. exact H.
Defined.

(** ** The run of the zero-width loop, step by step *)








(** ** No other node is removed *)

(** State parameters have ids below the next fresh id, and a node that
    carries the id of a state parameter is a parameter. *)
Definition params_distinct (p : Proc) : Prop :=
  (forall param, param ∈ state_params p -> node_id param < next_node_id p)
  /\ (forall node param,
         node ∈ proc_nodes p -> param ∈ state_params p ->
         node_id node = node_id param -> node_op node = kParam).

(** [q] still has a node with the id, operation and type of every
    non-parameter node of [p]. *)
Definition keeps_nodes (p q : Proc) : Prop :=
  forall node,
    node ∈ proc_nodes p -> node_op node ≠ kParam ->
    exists node', node' ∈ proc_nodes q
                  /\ node_id node' = node_id node
                  /\ node_op node' = node_op node
                  /\ node_type node' = node_type node.

Lemma keeps_nodes_refl p : keeps_nodes p p.
Proof. intros node Hin _. eauto. Qed.

Lemma keeps_nodes_trans p q r : keeps_nodes p q -> keeps_nodes q r -> keeps_nodes p r.
Proof.
  intros H1 H2 node Hin Hop.
  destruct (H1 node Hin Hop) as (n1 & Hin1 & Hid1 & Hop1 & Hty1).
  destruct (H2 n1 Hin1 ltac:(congruence)) as (n2 & Hin2 & Hid2 & Hop2 & Hty2).
  exists n2. repeat split; congruence.
Qed.

Lemma ReplaceUsesWithNewLiteral_keeps p param v q :
  params_distinct p -> param ∈ state_params p ->
  ReplaceUsesWithNewLiteral p param v = Ok q ->
  params_distinct q /\ keeps_nodes p q.
Proof.
  intros [Hids Hops] Hparam [= <-]. split; [split |]; cbn.
  - intros x Hx. specialize (Hids x Hx). lia.
  - intros node x Hn Hx Hid. apply elem_of_app in Hn as [Hn | Hn].
    + apply list_elem_of_fmap in Hn as (n0 & -> & Hn0). cbn in *. eapply Hops; eauto.
    + apply list_elem_of_singleton in Hn as ->. cbn in Hid.
      specialize (Hids x Hx). lia.
  - intros node Hin Hop. exists (replace_operands (node_id param) (next_node_id p) node).
    split; [| now cbn]. cbn. apply elem_of_app. left. now apply list_elem_of_fmap_2.
Qed.

Lemma RemoveStateElement_keeps p i q :
  params_distinct p -> RemoveStateElement p i = Ok q ->
  params_distinct q /\ keeps_nodes p q.
Proof.
  intros [Hids Hops]. unfold RemoveStateElement.
  destruct (GetStateParam p i) as [param |] eqn:Hp; [| discriminate].
  destruct (IsDead _ _); [| discriminate]. intros [= <-]. cbn.
  assert (Hparam : param ∈ state_params p) by (eapply list_elem_of_lookup_2; eauto).
  split; [split |]; cbn.
  - intros x Hx. apply Hids. eapply list_elem_of_delete_inv; eauto.
  - intros node x Hn Hx. apply list_elem_of_filter in Hn as [_ Hn].
    apply Hops; [exact Hn | eapply list_elem_of_delete_inv; eauto].
  - intros node Hin Hop. exists node. split; [| auto].
    apply list_elem_of_filter. split; [| exact Hin].
    intros Hid. apply Hop. eapply Hops; eauto.
Qed.

Lemma for_each_keeps_nodes (body : Proc -> nat -> StatusOr Proc) l :
  (forall p i q, params_distinct p -> body p i = Ok q ->
                 params_distinct q /\ keeps_nodes p q) ->
  forall p q, params_distinct p -> for_each body l p = Ok q ->
    params_distinct q /\ keeps_nodes p q.
Proof.
  intros Hbody p q Hp.
  apply (for_each_invariant body (fun r => params_distinct r /\ keeps_nodes p r)).
  - intros r i r' _ [Hr Hk] Hb. destruct (Hbody _ _ _ Hr Hb) as [Hr' Hk'].
    split; [exact Hr' | eapply keeps_nodes_trans; eauto].
  - split; [exact Hp | apply keeps_nodes_refl].
Qed.

Lemma remove_zero_width_element_keeps p i q :
  params_distinct p -> remove_zero_width_element p i = Ok q ->
  params_distinct q /\ keeps_nodes p q.
Proof.
  intros Hp H. apply remove_zero_width_element_inv in H as (param & r & Hparam & Hr & Hq).
  destruct (ReplaceUsesWithNewLiteral_keeps _ _ _ _ Hp
              ltac:(eapply list_elem_of_lookup_2; exact Hparam) Hr) as [Hr1 Hk1].
  destruct (RemoveStateElement_keeps _ _ _ Hr1 Hq) as [Hq1 Hk2].
  split; [exact Hq1 | eapply keeps_nodes_trans; eauto].
Qed.

Lemma replace_with_zero_if_used_keeps p i q :
  params_distinct p -> replace_with_zero_if_used p i = Ok q ->
  params_distinct q /\ keeps_nodes p q.
Proof.
  intros Hp. unfold replace_with_zero_if_used.
  destruct (GetStateParam p i) as [param |] eqn:Hparam; [| discriminate].
  destruct (IsDead _ _).
  - intros [= <-]. split; [exact Hp | apply keeps_nodes_refl].
  - apply ReplaceUsesWithNewLiteral_keeps; [exact Hp |].
    eapply list_elem_of_lookup_2; exact Hparam.
Qed.

(** X7. The pass removes parameters only.  On a proc whose state
    parameters have ids of their own (below the next fresh id, and carried
    by parameter nodes only), every node that is not a parameter, so every
    send, receive, assert, cover and trace, is still a node of the result,
    with its id, operation and type. *)
Theorem X7_only_parameters_are_removed :
  forall (p : Proc) (changed : bool) (p' : Proc) (node : Node),
    params_distinct p ->
    RunOnProcInternal p = Ok (changed, p') ->
    node ∈ proc_nodes p -> node_op node ≠ kParam ->
    exists node', node' ∈ proc_nodes p'
                  /\ node_id node' = node_id node
                  /\ node_op node' = node_op node
                  /\ node_type node' = node_type node.
Proof.
  intros p changed p' node Hp H.
  apply RunOnProcInternal_inv in H as (c1 & p1 & c2 & H1 & H2 & _).
  assert (K1 : params_distinct p1 /\ keeps_nodes p p1).
  { revert H1. unfold RemoveZeroWidthStateElements.
    destruct (zero_width_indices p) as [| i l].
    - intros [= _ <-]. split; [exact Hp | apply keeps_nodes_refl].
    - intros H. apply bind_Ok_inv in H as (q & Hq & [= _ <-]).
      revert Hq. apply for_each_keeps_nodes; [| exact Hp].
      exact remove_zero_width_element_keeps. }
  destruct K1 as [Hp1 K1].
  assert (K2 : keeps_nodes p1 p').
  { revert H2. unfold RemoveUnobservableStateElements. intros H.
    apply bind_Ok_inv in H as (sd & _ & H).
    destruct (unobservable_indices p1 sd) as [| i l].
    - injection H as _ <-. apply keeps_nodes_refl.
    - apply bind_Ok_inv in H as (q1 & Hq1 & H).
      apply bind_Ok_inv in H as (q2 & Hq2 & [= _ <-]).
      apply (for_each_keeps_nodes _ _ replace_with_zero_if_used_keeps) in Hq1
        as [Hd1 Hk1]; [| exact Hp1].
      apply (for_each_keeps_nodes _ _ RemoveStateElement_keeps) in Hq2
        as [_ Hk2]; [| exact Hd1].
      eapply keeps_nodes_trans; eauto. }
  apply (keeps_nodes_trans _ _ _ K1 K2).
Qed.

Lemma X7_only_parameters_are_removed_witness :
  exists node', node' ∈ proc_nodes unobservable_proc_after
                /\ node_id node' = 3
                /\ node_op node' = kSend
                /\ node_type node' = TokenType.
Proof.
  apply (X7_only_parameters_are_removed
           Scenarios.unobservable_proc true unobservable_proc_after
           (MkNode 3 kSend [0; 1] TokenType None)).
  - split.
    + assert (H : Forall (fun param => node_id param < 5)
                         (state_params Scenarios.unobservable_proc))
        by (apply (bool_decide_unpack _); vm_compute; exact I).
      intros param Hin. eapply Forall_forall in H; [| exact Hin]. exact H.
    + assert (H : Forall (fun node =>
                            Forall (fun param => node_id node = node_id param ->
                                                 node_op node = kParam)
                                   (state_params Scenarios.unobservable_proc))
                         (proc_nodes Scenarios.unobservable_proc))
        by (apply (bool_decide_unpack _); vm_compute; exact I).
      intros node param Hn Hparam.
      eapply Forall_forall in H; [| exact Hn]. eapply Forall_forall in H; [| exact Hparam].
      exact H.
  - exact Scenarios.scenario_unobservable.
  - unfold Scenarios.unobservable_proc. cbn [proc_nodes]. set_solver.
  - discriminate.
Defined.

End ProcFacts.


(* ===================================================================== *)
(** * Part V: further properties of the SDC scheduler                     *)
(* ===================================================================== *)

Module SdcFacts.

Import Sdc.

(** ** Node delays *)

(** [ComputeNodeDelays] asks the estimator for every node in turn. *)
Lemma ComputeNodeDelays_loop estimator l :
  forall (m m' : gmap nat Z),
    for_each (fun (result : gmap nat Z) (node : nat) =>
                delay ← estimator node; Ok (<[node := delay]> result))
             l m = Ok m' ->
    (forall n, n ∈ l -> exists z, estimator n = Ok z /\ m' !! n = Some z)
    /\ (forall n, n ∉ l -> m' !! n = m !! n).
Proof.
  induction l as [| x l IH]; intros m m'; cbn.
  - intros [= <-]. split; [| reflexivity]. intros n Hn. now apply elem_of_nil in Hn.
  - intros H. apply bind_Ok_inv in H as (m1 & H1 & H).
    apply bind_Ok_inv in H1 as (z & Hz & [= <-]).
    destruct (IH _ _ H) as [I1 I2]. split.
    + intros n Hn. destruct (decide (n ∈ l)) as [Hl | Hl]; [now apply I1 |].
      apply elem_of_cons in Hn as [-> | Hn]; [| done].
      exists z. split; [exact Hz |]. rewrite I2 by exact Hl. apply lookup_insert_eq.
    + intros n Hn. apply not_elem_of_cons in Hn as [Hne Hn].
      rewrite I2 by exact Hn. now apply lookup_insert_ne.
Qed.

Lemma ComputeNodeDelays_spec f estimator delay_map :
  ComputeNodeDelays f estimator = Ok delay_map ->
  (forall n, n < node_count f ->
      exists z, estimator n = Ok z /\ delay_map !! n = Some z)
  /\ (forall n, node_count f <= n -> delay_map !! n = None).
Proof.
  unfold ComputeNodeDelays, nodes. intros H.
  destruct (ComputeNodeDelays_loop _ _ _ _ H) as [H1 H2]. split.
  - intros n Hn. apply H1, elem_of_seq. lia.
  - intros n Hn. rewrite H2; [apply lookup_empty |]. rewrite elem_of_seq. lia.
Qed.

Lemma ComputeNodeDelays_fails f estimator n e :
  n < node_count f ->
  (forall m, m < n -> exists z, estimator m = Ok z) ->
  estimator n = Error e ->
  ComputeNodeDelays f estimator = Error e.
Proof.
  intros Hn Hbefore He. unfold ComputeNodeDelays, nodes.
  replace (node_count f) with (n + S (node_count f - S n)) by lia.
  rewrite seq_app, for_each_app. cbn [Nat.add seq].
  assert (G : forall k start (m : gmap nat Z),
             start + k <= n ->
             exists m', for_each (fun (result : gmap nat Z) (node : nat) =>
                                    delay ← estimator node;
                                    Ok (<[node := delay]> result))
                                 (seq start k) m = Ok m').
  { induction k as [| k IH]; intros start m Hk; cbn; [eauto |].
    destruct (Hbefore start ltac:(lia)) as [z ->]. cbn. apply IH. lia. }
  destruct (G n 0 ∅ ltac:(lia)) as [m' ->]. cbn. now rewrite He.
Qed.

(** X8. A failure of the delay estimator is the scheduler's failure: when
    the estimator fails on a node (and succeeded on the nodes before it),
    [ComputeNodeDelays] returns that error, and so does [SDCScheduler]
    whenever the solver could be created, without a problem being built or
    solved. *)
Theorem X8_estimator_error_is_returned :
  forall (TopoSort : FunctionBase -> list nat)
         (CreateSolver : string -> option MPSolver)
         (Solve : MPSolver -> ResultStatus * (nat -> Q))
         (f : FunctionBase) (pipeline_stages clock_period_ps : Z)
         (delay_estimator : nat -> StatusOr Z) (bounds : ScheduleBounds)
         (constraints : list SchedulingConstraint)
         (solver : MPSolver) (n : nat) (e : Status),
    n < node_count f ->
    (forall m, m < n -> exists z, delay_estimator m = Ok z) ->
    delay_estimator n = Error e ->
    CreateSolver "GLOP" = Some solver ->
    ComputeNodeDelays f delay_estimator = Error e
    /\ SDCScheduler TopoSort CreateSolver Solve f pipeline_stages clock_period_ps
                    delay_estimator bounds constraints = Error e.
Proof.
  intros TopoSort CreateSolver Solve f stages clock estimator bounds constraints
         solver n e Hn Hbefore He HC.
  pose proof (ComputeNodeDelays_fails f estimator n e Hn Hbefore He) as Hd.
  split; [exact Hd |].
  unfold SDCScheduler. rewrite HC. unfold build_problem. now rewrite Hd.
Qed.

Module Estimators.

(** An estimator that knows the first two nodes only. *)
Definition two_nodes (n : nat) : StatusOr Z :=
  if Nat.ltb n 2 then Ok 600%Z
  else Error (MkStatus kNotFound "no delay for this operation").

End Estimators.

Lemma X8_estimator_error_is_returned_witness :
  ComputeNodeDelays Pipeline.recv_op_send Estimators.two_nodes
  = Error (MkStatus kNotFound "no delay for this operation")
  /\ SDCScheduler Graphs.in_order Pipeline.glop (replay Pipeline.candidate)
                  Pipeline.recv_op_send 3 1000 Estimators.two_nodes
                  (Pipeline.bounds 2) []
     = Error (MkStatus kNotFound "no delay for this operation").
Proof.
  apply (X8_estimator_error_is_returned
           Graphs.in_order Pipeline.glop (replay Pipeline.candidate)
           Pipeline.recv_op_send 3 1000 Estimators.two_nodes (Pipeline.bounds 2) []
           Pipeline.empty_solver 2).
  - change (2 < 3). lia.
  - intros m Hm. exists 600%Z. unfold Estimators.two_nodes.
    now rewrite (proj2 (Nat.ltb_lt m 2) Hm).
  - reflexivity.
  - reflexivity.
Defined.

(** ** No combinational path longer than the clock period in one cycle *)

Section TimingGuarantee.

Variable TopoSort : FunctionBase -> list nat.
Variable CreateSolver : string -> option MPSolver.
Variable Solve : MPSolver -> ResultStatus * (nat -> Q).

Variable f : FunctionBase.
Variable pipeline_stages clock_period_ps : Z.
Variable delay_estimator : nat -> StatusOr Z.
Variable bounds : ScheduleBounds.
Variable constraints : list SchedulingConstraint.
Variable tol : Q.
Variable cycle_map : gmap nat Z.
Variable delay_map : gmap nat Z.

Hypothesis sound : solver_sound tol Solve.
Hypothesis tol_small : (tol + 2 * double_0_001 < 1)%Q.
Hypothesis scheduled :
  SDCScheduler TopoSort CreateSolver Solve f pipeline_stages clock_period_ps
               delay_estimator bounds constraints = Ok cycle_map.

(** An operand is scheduled no later than its user. *)
Lemma scheduled_causal u v :
  u < node_count f -> v < node_count f -> u ∈ operands f v ->
  exists cu cv, cycle_map !! u = Some cu /\ cycle_map !! v = Some cv /\ (cu <= cv)%Z.
Proof.
  intros Hu Hv Huv.
  destruct (SDCScheduler_inv _ _ _ _ _ _ _ _ _ _ scheduled)
    as (solver & b & solution & HC & Hb & HS & HE).
  destruct (build_problem_func _ _ _ _ _ _ _ _ _ Hb) as [Hf _].
  destruct (sound _ _ HS) as [_ Hrows].
  destruct (ExtractResult_spec _ _ _ u HE ltac:(now rewrite Hf)) as [Eu Nu].
  destruct (ExtractResult_spec _ _ _ v HE ltac:(now rewrite Hf)) as [Ev Nv].
  eexists _, _. split; [exact Eu |]. split; [exact Ev |].
  destruct (decide (cycle_var_at b u = cycle_var_at b v)) as [E | Hne].
  - rewrite E. lia.
  - destruct (build_problem_causal _ _ _ _ _ _ _ _ _ _ _ Hb Hu Hv Huv) as (name & Hrow).
    apply Hrows in Hrow. cbn in Hrow.
    apply causal_row_value in Hrow; [| exact Hne].
    eapply near_monotone; eauto.
Qed.

Hypothesis topo_ok : topological f (TopoSort f).
Hypothesis delays_computed : ComputeNodeDelays f delay_estimator = Ok delay_map.
Hypothesis delays_fit :
  forall n z, n < node_count f -> delay_estimator n = Ok z ->
              (0 <= z <= clock_period_ps)%Z.

Lemma delay_fits n : (0 <= delay_of delay_map n)%Z
                     /\ (n < node_count f -> (delay_of delay_map n <= clock_period_ps)%Z).
Proof.
  destruct (ComputeNodeDelays_spec _ _ _ delays_computed) as [H1 H2].
  unfold delay_of. destruct (decide (n < node_count f)) as [Hn | Hn].
  - destruct (H1 n Hn) as (z & Hz & ->). cbn.
    pose proof (delays_fit n z Hn Hz). split; [lia | intros _; lia].
  - rewrite H2 by lia. cbn. split; [lia | intros; lia].
Qed.

Lemma delays_nonneg n : (0 <= delay_of delay_map n)%Z.
Proof. apply delay_fits. Qed.

(** The claim for the node at position [k] of the topological order. *)
Lemma long_path_crosses_a_cycle k :
  forall b, TopoSort f !! k = Some b ->
    forall a d, path f delay_map a b d -> (d > clock_period_ps)%Z ->
      exists ca cb, cycle_map !! a = Some ca /\ cycle_map !! b = Some cb
                    /\ (ca + 1 <= cb)%Z.
Proof.
  induction (lt_wf k) as [k _ IH]. intros b Hk a d Hp Hd.
  destruct (path_nodes _ _ _ _ _ Hp) as [Ha Hb].
  pose proof (take_drop_middle _ _ _ Hk) as Hsplit. symmetry in Hsplit.
  assert (Hin : b ∈ TopoSort f) by (eapply list_elem_of_lookup_2; eauto).
  assert (Hab : a ≠ b).
  { intros ->. apply path_inv in Hp as [[_ ->] | (o & d' & Hp & Ho & _)].
    - pose proof (proj2 (delay_fits b) Hb). lia.
    - eapply (no_back_path TopoSort f delay_map topo_ok); eauto. }
  destruct (operand_distances TopoSort f clock_period_ps delay_map topo_ok delays_nonneg
              a b Ha Hin) as (zs & Hzs).
  pose proof (dval_from_operands f delay_map delays_nonneg clock_period_ps a b zs
                Hab Hb Hzs) as Hdv.
  destruct Hdv as [[_ Hno] | [_ Hlong]]; [now apply Hno in Hp |].
  set (D := (relax_all clock_period_ps (delay_of delay_map b) (-1) zs).1) in *.
  pose proof (proj2 Hlong _ Hp) as HdD.
  destruct (Z_le_gt_dec (D - delay_of delay_map b) clock_period_ps) as [Hle | Hgt].
  - (* the period is crossed at [b]: a delay constraint from [a] to [b] *)
    apply (scheduled_delay_constraint TopoSort CreateSolver Solve f pipeline_stages
             clock_period_ps delay_estimator bounds constraints tol cycle_map a b
             sound tol_small scheduled Ha Hb Hab).
    intros dm Hdm. assert (dm = delay_map) as -> by congruence.
    apply (crossing_is_constrained TopoSort f clock_period_ps delay_map topo_ok
             delays_nonneg a b D Hab Hlong); lia.
  - (* the period is crossed before [b]: go through the operand on the
       critical path *)
    destruct (path_inv _ _ _ _ _ (proj1 Hlong)) as [[E _] | (o & D' & Hpo & Ho & HD)];
      [done |].
    destruct topo_ok as (_ & _ & Hops).
    pose proof (Hops _ _ _ Hsplit o Ho) as Hdone.
    apply list_elem_of_lookup in Hdone as [j Hj].
    pose proof (lookup_lt_Some _ _ _ Hj) as Hjk. rewrite length_take in Hjk.
    rewrite lookup_take_Some in Hj. destruct Hj as [Hj _].
    destruct (IH j ltac:(lia) o Hj a D' Hpo ltac:(lia)) as (ca & co & Ea & Eo & Hao).
    destruct (path_nodes _ _ _ _ _ Hpo) as [_ Hon].
    destruct (scheduled_causal o b Hon Hb Ho) as (co' & cb & Eo' & Eb & Hob).
    assert (co' = co) as -> by congruence.
    exists ca, cb. split; [exact Ea |]. split; [exact Eb | lia].
Qed.

End TimingGuarantee.

(** X9. The timing guarantee of the schedule.  Let [TopoSort] list every
    node once with operands first, let every node delay lie between 0 and
    the clock period, and let the solver be sound.  Then in a cycle map
    that [SDCScheduler] returns, any two nodes joined by a path whose
    delay, ends included, exceeds the clock period are in different
    cycles: the end of the path is at least one cycle after its start. *)
Theorem X9_long_paths_cross_a_cycle_boundary :
  forall (TopoSort : FunctionBase -> list nat)
         (CreateSolver : string -> option MPSolver)
         (Solve : MPSolver -> ResultStatus * (nat -> Q))
         (f : FunctionBase) (pipeline_stages clock_period_ps : Z)
         (delay_estimator : nat -> StatusOr Z) (bounds : ScheduleBounds)
         (constraints : list SchedulingConstraint)
         (tol : Q) (cycle_map delay_map : gmap nat Z) (a b : nat) (d : Z),
    solver_sound tol Solve -> (tol + 2 * double_0_001 < 1)%Q ->
    SDCScheduler TopoSort CreateSolver Solve f pipeline_stages clock_period_ps
                 delay_estimator bounds constraints = Ok cycle_map ->
    topological f (TopoSort f) ->
    ComputeNodeDelays f delay_estimator = Ok delay_map ->
    (forall n z, n < node_count f -> delay_estimator n = Ok z ->
                 (0 <= z <= clock_period_ps)%Z) ->
    path f delay_map a b d -> (d > clock_period_ps)%Z ->
    exists ca cb, cycle_map !! a = Some ca /\ cycle_map !! b = Some cb
                  /\ (ca + 1 <= cb)%Z.
Proof.
  intros TopoSort CreateSolver Solve f stages clock estimator bounds constraints
         tol cm dm a b d Hsound Htol H Htopo Hdm Hfit Hp Hd.
  destruct (path_nodes _ _ _ _ _ Hp) as [_ Hb].
  assert (Hin : b ∈ TopoSort f) by (now apply Htopo).
  apply list_elem_of_lookup in Hin as [k Hk].
  eapply long_path_crosses_a_cycle; eauto.
Qed.

Module PipelineDelays.

Import Pipeline.

Definition delays : gmap nat Z := Graphs.uniform_delays recv_op_send 600.

Lemma computed : ComputeNodeDelays recv_op_send estimator = Ok delays.
Proof. vm_compute. reflexivity. Qed.

Lemma pipeline_topo : topological recv_op_send (Graphs.in_order recv_op_send).
Proof.
  apply in_order_topological.
  assert (H : Forall (fun b => Forall (fun o => o < b) (operands recv_op_send b))
                     (seq 0 3))
    by (apply (bool_decide_unpack _); vm_compute; exact I).
  intros b o Hb Ho. change (b < 3) in Hb.
  eapply Forall_forall in H; [| apply elem_of_seq; split; [lia | exact Hb]].
  eapply Forall_forall in H; [| exact Ho]. exact H.
Qed.

Lemma path_r_x : path recv_op_send delays 0 1 1200.
Proof.
  change 1200%Z with (delay_of delays 0 + delay_of delays 1)%Z.
  econstructor.
  - constructor. change (0 < 3). lia.
  - change (0 ∈ [0]). left.
  - change (1 < 3). lia.
Qed.

End PipelineDelays.

Lemma X9_long_paths_cross_a_cycle_boundary_witness :
  exists ca cb, Pipeline.cycles !! 0 = Some ca /\ Pipeline.cycles !! 1 = Some cb
                /\ (ca + 1 <= cb)%Z.
Proof.
  assert (H1 : (0 + 2 * double_0_001 < 1)%Q) by reflexivity.
  apply (X9_long_paths_cross_a_cycle_boundary
           Graphs.in_order Pipeline.glop (replay Pipeline.candidate)
           Pipeline.recv_op_send 3 1000 Pipeline.estimator (Pipeline.bounds 2)
           [RecvsFirstSendsLast] 0%Q Pipeline.cycles PipelineDelays.delays 0 1 1200
           (replay_sound Pipeline.candidate) H1 Pipeline.scheduled
           PipelineDelays.pipeline_topo PipelineDelays.computed).
  - intros n z _ [= <-]. lia.
  - exact PipelineDelays.path_r_x.
  - lia.
Defined.

(** ** IO constraints *)

(** The loop of [AddIOConstraint] that files the sends and receives under
    their channels. *)
Lemma channel_map_loop f l :
  forall (m m' : gmap string (list nat)),
    for_each (add_channel_node f) l m = Ok m' ->
    forall ch n,
      n ∈ default [] (m' !! ch) <->
      n ∈ default [] (m !! ch)
      \/ (n ∈ l /\ IsReceive f n || IsSend f n = true
          /\ GetChannelUsedByNode f n = Ok ch).
Proof.
  induction l as [| x l IH]; intros m m'; cbn.
  - intros [= <-] ch n. split; [auto |].
    intros [H | (H & _)]; [exact H | now apply elem_of_nil in H].
  - intros H. apply bind_Ok_inv in H as (m1 & H1 & H). intros ch n.
    rewrite (IH _ _ H ch n). unfold add_channel_node in H1.
    destruct (IsReceive f x || IsSend f x) eqn:Hx.
    + apply bind_Ok_inv in H1 as (chx & Hchx & [= <-]).
      destruct (decide (chx = ch)) as [-> | Hne].
      * rewrite lookup_insert_eq. cbn. rewrite elem_of_app, list_elem_of_singleton.
        split.
        -- intros [[Hn | ->] | (Hn & Hc & Hg)]; [now left | right .. ].
           ++ split; [left | auto].
           ++ split; [now right | auto].
        -- intros [Hn | (Hn & Hc & Hg)]; [now left; left |].
           apply elem_of_cons in Hn as [-> | Hn]; [left; now right | right; auto].
      * rewrite lookup_insert_ne by exact Hne. split.
        -- intros [Hn | (Hn & Hc & Hg)]; [now left | right].
           split; [now right | auto].
        -- intros [Hn | (Hn & Hc & Hg)]; [now left |].
           apply elem_of_cons in Hn as [-> | Hn]; [congruence | right; auto].
    + injection H1 as <-. split.
      * intros [Hn | (Hn & Hc & Hg)]; [now left | right]. split; [now right | auto].
      * intros [Hn | (Hn & Hc & Hg)]; [now left |].
        apply elem_of_cons in Hn as [-> | Hn]; [congruence | right; auto].
Qed.

Definition min_io_row (b : ConstraintBuilder) (c : IOConstraint) (source target : nat)
  : MPConstraint :=
  MkConstraint MinusInfinity (Real (inject_Z (- MinimumLatency c)))
    ("min_io_" +:+ GetName (func_ b) source +:+ "_" +:+ GetName (func_ b) target)
    (SetCoefficient (cycle_var_at b target) (-1)
       (SetCoefficient (cycle_var_at b source) 1 [])).

Definition max_io_row (b : ConstraintBuilder) (c : IOConstraint) (source target : nat)
  : MPConstraint :=
  MkConstraint MinusInfinity (Real (inject_Z (MaximumLatency c)))
    ("max_io_" +:+ GetName (func_ b) source +:+ "_" +:+ GetName (func_ b) target)
    (SetCoefficient (cycle_var_at b source) (-1)
       (SetCoefficient (cycle_var_at b target) 1 [])).

(** A node of the constraint's direction on the constraint's channel. *)
Definition io_endpoint (f : FunctionBase) (channel : string) (dir : IODirection)
    (n : nat) : Prop :=
  n < node_count f
  /\ GetChannelUsedByNode f n = Ok channel
  /\ node_matches_direction f n dir = true.

Lemma io_endpoint_is_io f channel dir n :
  io_endpoint f channel dir n -> IsReceive f n || IsSend f n = true.
Proof.
  intros (_ & _ & H). unfold node_matches_direction in H.
  destruct (IsSend f n), (IsReceive f n); cbn in *; auto.
Qed.

Lemma same_rows b1 b c source target :
  extends b1 b ->
  min_io_row b1 c source target = min_io_row b c source target
  /\ max_io_row b1 c source target = max_io_row b c source target.
Proof.
  intros E. unfold min_io_row, max_io_row.
  rewrite !(extends_cycle_var _ _ _ E). destruct E as (-> & _). split; reflexivity.
Qed.

Lemma AddIOConstraint_rows b c b' source target :
  AddIOConstraint b c = Ok b' ->
  io_endpoint (func_ b) (SourceChannel c) (SourceDirection c) source ->
  io_endpoint (func_ b) (TargetChannel c) (TargetDirection c) target ->
  source ≠ target ->
  min_io_row b' c source target ∈ solver_constraints (solver_ b')
  /\ max_io_row b' c source target ∈ solver_constraints (solver_ b').
Proof.
  unfold AddIOConstraint. intros H Hs Ht Hne.
  apply bind_Ok_inv in H as (m & Hm & H).
  pose proof (channel_map_loop _ _ _ _ Hm) as Hmap.
  assert (Hsrc : source ∈ default [] (m !! SourceChannel c)).
  { apply Hmap. right. split; [apply elem_of_seq; destruct Hs; lia |].
    split; [eapply io_endpoint_is_io; eauto | apply Hs]. }
  assert (Htgt : target ∈ default [] (m !! TargetChannel c)).
  { apply Hmap. right. split; [apply elem_of_seq; destruct Ht; lia |].
    split; [eapply io_endpoint_is_io; eauto | apply Ht]. }
  assert (Hinner : forall s b1 b2,
             for_each (add_io_rows c s) (default [] (m !! TargetChannel c)) b1 = Ok b2 ->
             extends b1 b2).
  { intros s b1 b2. apply for_each_extends. intros ? ? ?. apply add_io_rows_extends. }
  destruct (for_each_visits _ _ (fun b1 s b2 => Hinner s b1 b2) _ _ _ H Hsrc)
    as (b1 & b2 & E1 & Hb & E2).
  destruct (for_each_visits _ _ (add_io_rows_extends c source) _ _ _ Hb Htgt)
    as (b3 & b4 & E3 & Hrow & E4).
  pose proof (extends_trans _ _ _ E1 E3) as E13.
  assert (F3 : func_ b3 = func_ b) by apply E13.
  unfold add_io_rows in Hrow. rewrite F3 in Hrow.
  destruct Hs as (_ & _ & Hsd), Ht as (_ & _ & Htd).
  rewrite Hsd, Htd in Hrow. cbn [negb] in Hrow.
  rewrite (proj2 (Nat.eqb_neq source target) Hne) in Hrow.
  assert (Hrows4 : solver_constraints (solver_ b4)
                   = solver_constraints (solver_ b3)
                     ++ [min_io_row b3 c source target; max_io_row b3 c source target]).
  { injection Hrow as <-. cbn. unfold min_io_row, max_io_row. rewrite F3.
    rewrite <- app_assoc. reflexivity. }
  pose proof (extends_trans _ _ _ E4 E2) as Etail.
  assert (E3f : extends b3 b').
  { eapply extends_trans; [| exact Etail].
    eapply add_io_rows_extends.
    unfold add_io_rows. rewrite F3, Hsd, Htd. cbn [negb].
    rewrite (proj2 (Nat.eqb_neq source target) Hne). exact Hrow. }
  destruct (same_rows b3 b' c source target E3f) as [<- <-].
  split; eapply extends_rows; try exact Etail; rewrite Hrows4, elem_of_app; right.
  - left.
  - right. left.
Qed.

Lemma near_shift x k m : near x k -> near (x + inject_Z m) (k + m).
Proof.
  unfold near. intros H.
  assert (E : (x + inject_Z m - inject_Z (k + m) == x - inject_Z k)%Q).
  { rewrite inject_Z_plus. ring. }
  now rewrite E.
Qed.

(** What a row [var_plus - var_minus <= ub] says about a solution. *)
Lemma difference_row_value tol solution ub var_minus var_plus :
  within tol MinusInfinity (Real ub)
    (linear_value solution
       (SetCoefficient var_minus (-1) (SetCoefficient var_plus 1 []))) ->
  var_plus ≠ var_minus ->
  (solution var_plus - solution var_minus <= ub + tol)%Q.
Proof.
  intros [_ H] Hne. unfold SetCoefficient in H.
  rewrite filter_nil, filter_cons_True in H by (cbn; congruence).
  rewrite filter_nil in H. cbn in H. lra.
Qed.

Section IOConstraints.

Variable TopoSort : FunctionBase -> list nat.

Lemma build_problem_io f solver stages clock estimator bounds constraints b c
    source target :
  build_problem TopoSort f solver stages clock estimator bounds constraints = Ok b ->
  IO c ∈ constraints ->
  io_endpoint f (SourceChannel c) (SourceDirection c) source ->
  io_endpoint f (TargetChannel c) (TargetDirection c) target ->
  source ≠ target ->
  min_io_row b c source target ∈ solver_constraints (solver_ b)
  /\ max_io_row b c source target ∈ solver_constraints (solver_ b).
Proof.
  intros H Hin Hs Ht Hne.
  apply build_problem_inv in H as (dm & b1 & b2 & _ & H1 & _ & _ & E1 & E2).
  destruct (for_each_visits _ _ AddSchedulingConstraint_extends _ _ _ H1 Hin)
    as (b3 & b4 & E3 & Hb & E4). cbn in Hb.
  destruct (ConstraintBuilder_new_func f solver stages clock bounds dm) as [F0 _].
  assert (F3 : func_ b3 = f) by (destruct E3 as (-> & _); exact F0).
  rewrite <- F3 in Hs, Ht.
  destruct (AddIOConstraint_rows _ _ _ _ _ Hb Hs Ht Hne) as [Hmin Hmax].
  pose proof (extends_trans _ _ _ E4 (extends_trans _ _ _ E1 E2)) as E.
  destruct (same_rows b4 b c source target E) as [Emin Emax].
  rewrite <- Emin, <- Emax. split; eapply extends_rows; eauto.
Qed.

End IOConstraints.

(** X10. IO constraints are honoured.  With an [IOConstraint] among the
    constraints and a sound solver, in a cycle map that [SDCScheduler]
    returns every pair of distinct nodes, the first an operation of the
    source direction on the source channel and the second one of the
    target direction on the target channel, has
    [MinimumLatency <= cycle[target] - cycle[source] <= MaximumLatency]. *)
Theorem X10_io_constraints_are_honoured :
  forall (TopoSort : FunctionBase -> list nat)
         (CreateSolver : string -> option MPSolver)
         (Solve : MPSolver -> ResultStatus * (nat -> Q))
         (f : FunctionBase) (pipeline_stages clock_period_ps : Z)
         (delay_estimator : nat -> StatusOr Z) (bounds : ScheduleBounds)
         (constraints : list SchedulingConstraint)
         (tol : Q) (cycle_map : gmap nat Z) (c : IOConstraint) (source target : nat),
    solver_sound tol Solve -> (tol + 2 * double_0_001 < 1)%Q ->
    SDCScheduler TopoSort CreateSolver Solve f pipeline_stages clock_period_ps
                 delay_estimator bounds constraints = Ok cycle_map ->
    IO c ∈ constraints ->
    io_endpoint f (SourceChannel c) (SourceDirection c) source ->
    io_endpoint f (TargetChannel c) (TargetDirection c) target ->
    source ≠ target ->
    exists cs ct,
      cycle_map !! source = Some cs /\ cycle_map !! target = Some ct
      /\ (MinimumLatency c <= ct - cs <= MaximumLatency c)%Z.
Proof.
  intros TopoSort CreateSolver Solve f stages clock estimator bounds constraints
         tol cm c source target Hsound Htol H Hin Hs Ht Hne.
  apply SDCScheduler_inv in H as (solver & b & solution & HC & Hb & HS & HE).
  destruct (build_problem_func _ _ _ _ _ _ _ _ _ Hb) as [Hf _].
  destruct (Hsound _ _ HS) as [_ Hrows].
  assert (Hsn : source < node_count f) by apply Hs.
  assert (Htn : target < node_count f) by apply Ht.
  destruct (ExtractResult_spec _ _ _ source HE ltac:(now rewrite Hf)) as [Es Ns].
  destruct (ExtractResult_spec _ _ _ target HE ltac:(now rewrite Hf)) as [Et Nt].
  destruct (build_problem_io _ _ _ _ _ _ _ _ _ _ _ _ Hb Hin Hs Ht Hne) as [Hmin Hmax].
  pose proof (build_problem_cycle_var_inj _ _ _ _ _ _ _ _ _ _ _ Hb Hsn Htn Hne) as Hvar.
  apply Hrows, difference_row_value in Hmin; [| exact Hvar].
  apply Hrows, difference_row_value in Hmax; [| now apply not_eq_sym].
  set (xs := solution (cycle_var_at b source)) in *.
  set (xt := solution (cycle_var_at b target)) in *.
  rewrite inject_Z_opp in Hmin.
  eexists _, _. split; [exact Es |]. split; [exact Et |]. split.
  - assert (H1 : (round xs + MinimumLatency c <= round xt)%Z).
    { apply (near_monotone (xs + inject_Z (MinimumLatency c)) _ xt _ tol);
        [now apply near_shift | exact Nt | lra | exact Htol]. }
    lia.
  - assert (H2 : (round xt <= round xs + MaximumLatency c)%Z).
    { apply (near_monotone xt _ (xs + inject_Z (MaximumLatency c)) _ tol);
        [exact Nt | now apply near_shift | lra | exact Htol]. }
    lia.
Qed.

Module IOPipeline.

Import Pipeline.

(** The send follows the receive by exactly two cycles. *)
Definition two_cycles : IOConstraint :=
  MkIOConstraint "in" kIOReceive "out" kIOSend 2 2.

Example scheduled_io :
  SDCScheduler Graphs.in_order glop (replay candidate) recv_op_send 3 1000
               estimator (bounds 2) [IO two_cycles]
  = Ok cycles.
Proof. vm_compute. reflexivity. Qed.

End IOPipeline.

Lemma X10_io_constraints_are_honoured_witness :
  exists cs ct,
    Pipeline.cycles !! 0 = Some cs /\ Pipeline.cycles !! 2 = Some ct
    /\ (2 <= ct - cs <= 2)%Z.
Proof.
  assert (H1 : (0 + 2 * double_0_001 < 1)%Q) by reflexivity.
  apply (X10_io_constraints_are_honoured
           Graphs.in_order Pipeline.glop (replay Pipeline.candidate)
           Pipeline.recv_op_send 3 1000 Pipeline.estimator (Pipeline.bounds 2)
           [IO IOPipeline.two_cycles] 0%Q Pipeline.cycles IOPipeline.two_cycles 0 2
           (replay_sound Pipeline.candidate) H1 IOPipeline.scheduled_io).
  - left.
  - split; [change (0 < 3); lia |]. split; reflexivity.
  - split; [change (2 < 3); lia |]. split; reflexivity.
  - lia.
Defined.

(** A constraint on a channel that no send or receive of the function
    uses adds nothing. *)
Definition channel_unused (f : FunctionBase) (channel : string) : Prop :=
  forall n, n < node_count f -> IsReceive f n || IsSend f n = true ->
            exists ch, GetChannelUsedByNode f n = Ok ch /\ ch ≠ channel.

Lemma channel_map_total f l (m : gmap string (list nat)) :
  (forall n, n ∈ l -> IsReceive f n || IsSend f n = true ->
             exists ch, GetChannelUsedByNode f n = Ok ch) ->
  exists m', for_each (add_channel_node f) l m = Ok m'.
Proof.
  revert m. induction l as [| x l IH]; intros m H; cbn [for_each]; [eauto |].
  assert (Hstep : exists m1, add_channel_node f m x = Ok m1).
  { unfold add_channel_node. destruct (IsReceive f x || IsSend f x) eqn:Hx; [| eauto].
    destruct (H x ltac:(left) Hx) as [ch ->]. cbn. eauto. }
  destruct Hstep as [m1 ->].
  change (exists m', for_each (add_channel_node f) l m1 = Ok m').
  apply IH. intros n Hn. apply H. now right.
Qed.

Lemma for_each_unchanged {A S} (body : S -> A -> StatusOr S) l s :
  (forall x, x ∈ l -> body s x = Ok s) -> for_each body l s = Ok s.
Proof.
  induction l as [| x l IH]; intros H; cbn; [reflexivity |].
  rewrite H by left. cbn. apply IH. intros y Hy. apply H. now right.
Qed.

(** X11. An IO constraint that names a channel no send or receive of the
    function uses is accepted and adds no row: [AddIOConstraint] returns
    the builder unchanged, whether it is the source or the target channel
    that is unused. *)
Theorem X11_io_constraint_on_unused_channel :
  forall (b : ConstraintBuilder) (c : IOConstraint),
    channel_unused (func_ b) (SourceChannel c)
    \/ channel_unused (func_ b) (TargetChannel c) ->
    AddSchedulingConstraint b (IO c) = Ok b.
Proof.
  intros b c H. cbn. unfold AddIOConstraint.
  assert (Hall : forall n, n ∈ nodes (func_ b) ->
                   IsReceive (func_ b) n || IsSend (func_ b) n = true ->
                   exists ch, GetChannelUsedByNode (func_ b) n = Ok ch).
  { intros n Hn Hio. apply elem_of_seq in Hn.
    destruct H as [H | H]; destruct (H n ltac:(lia) Hio) as (ch & Hch & _); eauto. }
  destruct (channel_map_total (func_ b) (nodes (func_ b)) ∅ Hall) as [m Hm].
  rewrite Hm. cbn.
  pose proof (channel_map_loop _ _ _ _ Hm) as Hmap.
  assert (Hempty : forall channel,
             channel_unused (func_ b) channel -> default [] (m !! channel) = []).
  { intros channel Hu. apply elem_of_nil_inv. intros n Hn.
    apply Hmap in Hn as [Hn | (Hn & Hio & Hch)].
    - rewrite lookup_empty in Hn. cbn in Hn. now apply elem_of_nil in Hn.
    - apply elem_of_seq in Hn. destruct (Hu n ltac:(lia) Hio) as (ch & Hch' & Hne).
      congruence. }
  destruct H as [H | H]; rewrite (Hempty _ H); [reflexivity |].
  apply for_each_unchanged. reflexivity.
Qed.

Lemma X11_io_constraint_on_unused_channel_witness :
  AddSchedulingConstraint
    (ConstraintBuilder_new Pipeline.recv_op_send Pipeline.empty_solver 3 1000
                           (Pipeline.bounds 2) ∅)
    (IO (MkIOConstraint "in" kIOReceive "elsewhere" kIOSend 1 1))
  = Ok (ConstraintBuilder_new Pipeline.recv_op_send Pipeline.empty_solver 3 1000
                              (Pipeline.bounds 2) ∅).
Proof.
  apply X11_io_constraint_on_unused_channel. right.
  destruct (ConstraintBuilder_new_func Pipeline.recv_op_send Pipeline.empty_solver
              3 1000 (Pipeline.bounds 2) ∅) as [-> _].
  intros n Hn Hio. change (n < 3) in Hn.
  destruct n as [| [| [| n]]]; [| | | lia].
  - exists "in". split; [reflexivity | discriminate].
  - discriminate Hio.
  - exists "out". split; [reflexivity | discriminate].
Defined.

(** ** The cycle map *)

(** The loop of [ExtractResult] gives entries to the nodes it visits and
    to no other. *)
Lemma ExtractResult_loop b solution l :
  forall (m m' : gmap nat Z),
    for_each
      (fun (cycle_map : gmap nat Z) (node : nat) =>
         let cycle := solution (cycle_var_at b node) in
         if Qle_bool (Qabs (cycle - inject_Z (round cycle))) double_0_001
         then Ok (<[node := round cycle]> cycle_map)
         else InternalError "The scheduling result is expected to be integer")
      l m = Ok m' ->
    forall n, n ∉ l -> m' !! n = m !! n.
Proof.
  induction l as [| x l IH]; intros m m'; cbn.
  - now intros [= <-].
  - intros H n Hn. apply bind_Ok_inv in H as (m1 & H1 & H).
    apply not_elem_of_cons in Hn as [Hne Hn].
    rewrite (IH _ _ H n Hn).
    destruct (Qle_bool _ _); [| discriminate]. injection H1 as <-.
    now apply lookup_insert_ne.
Qed.

Lemma ExtractResult_outside b solution cycle_map node :
  ExtractResult b solution = Ok cycle_map ->
  node_count (func_ b) <= node -> cycle_map !! node = None.
Proof.
  unfold ExtractResult, nodes. intros H Hn.
  rewrite (ExtractResult_loop _ _ _ _ _ H); [apply lookup_empty |].
  rewrite elem_of_seq. lia.
Qed.

Lemma ExtractResult_total b solution :
  (forall node, node < node_count (func_ b) ->
                near (solution (cycle_var_at b node))
                     (round (solution (cycle_var_at b node)))) ->
  exists cycle_map, ExtractResult b solution = Ok cycle_map.
Proof.
  unfold ExtractResult, nodes. intros H.
  set (body := fun (cycle_map : gmap nat Z) (node : nat) => _).
  assert (G : forall l (m : gmap nat Z),
             (forall n, n ∈ l -> n < node_count (func_ b)) ->
             exists m', for_each body l m = Ok m').
  { induction l as [| x l IH]; intros m Hl; cbn [for_each]; [eauto |].
    assert (Hstep : exists m1, body m x = Ok m1).
    { pose proof (H x (Hl x ltac:(left))) as Hx. unfold near in Hx.
      apply Qle_bool_iff in Hx. unfold body. cbn zeta. rewrite Hx. eauto. }
    destruct Hstep as [m1 ->]. change (exists m', for_each body l m1 = Ok m').
    apply IH. intros n Hn. apply Hl. now right. }
  apply G. intros n Hn. apply elem_of_seq in Hn. lia.
Qed.

(** The integrality test at its threshold: a value that differs from its
    rounding by exactly the [double] [0.001] passes ([0.001 > 0.001] is
    false), and so does 1/1000, which lies below it; the next [double]
    after [0.001] does not pass. *)
Example integrality_test_at_the_threshold :
  near double_0_001 (round double_0_001)
  /\ near (1 # 1000) (round (1 # 1000))
  /\ ~ near (double_0_001 + (1 # 4611686018427387904))
            (round (double_0_001 + (1 # 4611686018427387904))).
Proof.
  split; [| split].
  - unfold near. vm_compute. discriminate.
  - unfold near. vm_compute. discriminate.
  - unfold near. vm_compute. intros H. now apply H.
Qed.

(** X12. [ExtractResult] returns a cycle map exactly when the value of
    every node's cycle variable differs from its rounding by no more than
    the [double] [0.001] (1152921504606847 / 2^60, a little above 1/1000);
    the map then sends every node to that rounding and has no other
    entry. *)
Theorem X12_extract_result_characterised :
  forall (b : ConstraintBuilder) (solution : nat -> Q),
    ((exists cycle_map, ExtractResult b solution = Ok cycle_map)
     <-> forall node, node < node_count (func_ b) ->
                      near (solution (cycle_var_at b node))
                           (round (solution (cycle_var_at b node))))
    /\ forall cycle_map node,
         ExtractResult b solution = Ok cycle_map ->
         cycle_map !! node
         = if decide (node < node_count (func_ b))
           then Some (round (solution (cycle_var_at b node)))
           else None.
Proof.
  intros b solution. split; [split |].
  - intros [cm H] node Hn. now destruct (ExtractResult_spec _ _ _ node H Hn).
  - apply ExtractResult_total.
  - intros cm node H. destruct (decide (node < node_count (func_ b))) as [Hn | Hn].
    + now destruct (ExtractResult_spec _ _ _ node H Hn).
    + apply (ExtractResult_outside _ _ _ _ H). lia.
Qed.

(** X13. Every node gets a cycle within its schedule bounds.  With a sound
    solver, a cycle map that [SDCScheduler] returns has an entry for each
    node of the function, between the node's lower and upper bound, and
    no entry for anything else. *)
Theorem X13_cycles_within_bounds :
  forall (TopoSort : FunctionBase -> list nat)
         (CreateSolver : string -> option MPSolver)
         (Solve : MPSolver -> ResultStatus * (nat -> Q))
         (f : FunctionBase) (pipeline_stages clock_period_ps : Z)
         (delay_estimator : nat -> StatusOr Z) (bounds : ScheduleBounds)
         (constraints : list SchedulingConstraint)
         (tol : Q) (cycle_map : gmap nat Z),
    solver_sound tol Solve -> (0 <= tol)%Q -> (tol + (2 # 1000) < 1)%Q ->
    SDCScheduler TopoSort CreateSolver Solve f pipeline_stages clock_period_ps
                 delay_estimator bounds constraints = Ok cycle_map ->
    (forall node, node < node_count f ->
        exists c, cycle_map !! node = Some c
                  /\ (bounds_lb bounds node <= c <= bounds_ub bounds node)%Z)
    /\ (forall node, node_count f <= node -> cycle_map !! node = None).
Proof.
  intros TopoSort CreateSolver Solve f stages clock estimator bounds constraints
         tol cm Hsound Htol0 Htol H.
  apply SDCScheduler_inv in H as (solver & b & solution & HC & Hb & HS & HE).
  destruct (build_problem_func _ _ _ _ _ _ _ _ _ Hb) as [Hf _].
  destruct (Hsound _ _ HS) as [Hvars _]. split.
  - intros node Hn.
    destruct (ExtractResult_spec _ _ _ node HE ltac:(now rewrite Hf)) as [Ec Nc].
    pose proof (Hvars _ _ (build_problem_cycle_var _ _ _ _ _ _ _ _ _ _ Hb Hn))
      as [Hlb Hub].
    cbn in Hlb, Hub. pose proof double_0_001_range as [_ Hthr]. eexists. split; [exact Ec |]. split.
    + apply (near_ge _ _ _ tol Nc); [exact Hlb | lra].
    + apply (near_le _ _ _ tol Nc); [exact Hub | lra].
  - intros node Hn. apply (ExtractResult_outside _ _ _ _ HE). now rewrite Hf.
Qed.

Lemma X13_cycles_within_bounds_witness :
  (exists c, Pipeline.cycles !! 1 = Some c /\ (0 <= c <= 2)%Z)
  /\ Pipeline.cycles !! 3 = None.
Proof.
  assert (H0 : (0 <= 0)%Q) by lra.
  assert (H1 : (0 + (2 # 1000) < 1)%Q) by lra.
  destruct (X13_cycles_within_bounds
              Graphs.in_order Pipeline.glop (replay Pipeline.candidate)
              Pipeline.recv_op_send 3 1000 Pipeline.estimator (Pipeline.bounds 2)
              [RecvsFirstSendsLast] 0%Q Pipeline.cycles
              (replay_sound Pipeline.candidate) H0 H1 Pipeline.scheduled) as [A B].
  split.
  - apply (A 1). change (1 < 3). lia.
  - apply (B 3). change (3 <= 3). lia.
Defined.

(** ** Rounding *)

Lemma round_comp x y : (x == y)%Q -> round x = round y.
Proof.
  intros E. unfold round.
  assert (Hb : Qle_bool 0 x = Qle_bool 0 y).
  { destruct (Qle_bool 0 x) eqn:Hx, (Qle_bool 0 y) eqn:Hy; try reflexivity.
    - apply Qle_bool_iff in Hx. rewrite E in Hx. apply Qle_bool_iff in Hx. congruence.
    - apply Qle_bool_iff in Hy. rewrite <- E in Hy. apply Qle_bool_iff in Hy. congruence. }
  rewrite Hb. destruct (Qle_bool 0 y).
  - apply Qfloor_comp. now rewrite E.
  - apply Qceiling_comp. now rewrite E.
Qed.

Lemma Qfloor_half k : Qfloor (inject_Z k + (1 # 2)) = k.
Proof.
  pose proof (Qfloor_le (inject_Z k + (1 # 2))) as H1.
  pose proof (Qlt_floor (inject_Z k + (1 # 2))) as H2.
  set (fl := Qfloor (inject_Z k + (1 # 2))) in *.
  rewrite inject_Z_plus in H2. change (inject_Z 1) with 1%Q in H2.
  assert (A : (fl < k + 1)%Z).
  { rewrite Zlt_Qlt, inject_Z_plus. change (inject_Z 1) with 1%Q. lra. }
  assert (B : (k < fl + 1)%Z).
  { rewrite Zlt_Qlt, inject_Z_plus. change (inject_Z 1) with 1%Q. lra. }
  lia.
Qed.

Lemma round_inject_Z k : round (inject_Z k) = k.
Proof.
  unfold round. destruct (Qle_bool 0 (inject_Z k)); [apply Qfloor_half |].
  unfold Qceiling.
  assert (E : (- (inject_Z k - (1 # 2)) == inject_Z (- k) + (1 # 2))%Q).
  { rewrite inject_Z_opp. ring. }
  rewrite (Qfloor_comp _ _ E), Qfloor_half. lia.
Qed.

Lemma near_inject_Z k : near (inject_Z k) k.
Proof.
  unfold near.
  assert (E : (inject_Z k - inject_Z k == 0)%Q) by ring.
  rewrite E. cbn. discriminate.
Qed.

(** X14. An integral solution is read back as it is: when the value of
    every node's cycle variable is an integer, [ExtractResult] succeeds
    and maps every node to that integer. *)
Theorem X14_integral_solution_is_extracted :
  forall (b : ConstraintBuilder) (solution : nat -> Q) (cycle : nat -> Z),
    (forall node, node < node_count (func_ b) ->
                  (solution (cycle_var_at b node) == inject_Z (cycle node))%Q) ->
    exists cycle_map,
      ExtractResult b solution = Ok cycle_map
      /\ forall node, node < node_count (func_ b) ->
                      cycle_map !! node = Some (cycle node).
Proof.
  intros b solution cycle H.
  assert (Hround : forall node, node < node_count (func_ b) ->
                     round (solution (cycle_var_at b node)) = cycle node).
  { intros node Hn. rewrite (round_comp _ _ (H node Hn)). apply round_inject_Z. }
  destruct (ExtractResult_total b solution) as [cm Hcm].
  - intros node Hn. rewrite (Hround node Hn). unfold near.
    rewrite (H node Hn). apply near_inject_Z.
  - exists cm. split; [exact Hcm |]. intros node Hn.
    destruct (ExtractResult_spec _ _ _ node Hcm Hn) as [-> _].
    now rewrite Hround.
Qed.

Lemma X14_integral_solution_is_extracted_witness :
  exists cycle_map,
    ExtractResult
      (ConstraintBuilder_new Pipeline.recv_op_send Pipeline.empty_solver 3 1000
                             (Pipeline.bounds 2) ∅)
      Pipeline.candidate = Ok cycle_map
    /\ forall node,
         node < node_count
                  (func_ (ConstraintBuilder_new Pipeline.recv_op_send Pipeline.empty_solver
                                                3 1000 (Pipeline.bounds 2) ∅)) ->
         cycle_map !! node = Some (Z.of_nat node).
Proof.
  apply (X14_integral_solution_is_extracted
           (ConstraintBuilder_new Pipeline.recv_op_send Pipeline.empty_solver 3 1000
                                  (Pipeline.bounds 2) ∅)
           Pipeline.candidate Z.of_nat).
  intros node Hn. change (node < 3) in Hn.
  destruct node as [| [| [| node]]]; [reflexivity .. | lia].
Defined.

End SdcFacts.


(* ===================================================================== *)
(** * Part VI: further properties of the Verilog AST emitter              *)
(* ===================================================================== *)

Module VastFacts.

Import Stdlib.Strings.Ascii.
Import Vast.

(** ** Names that [SanitizeIdentifier] leaves alone *)

Lemma replace_non_alnum_fixed s :
  Forall ident_char (string_chars s) -> replace_non_alnum s = s.
Proof.
  induction s as [| c rest IH]; cbn; [reflexivity |].
  intros H. apply Forall_cons in H as [Hc H]. rewrite IH by exact H. f_equal.
  destruct (ident_char_cases c Hc) as [-> | ->]; reflexivity.
Qed.

Lemma sanitize_chars s : Forall ident_char (string_chars (SanitizeIdentifier s)).
Proof.
  destruct s as [| c rest]; [repeat constructor; apply underscore_ident |].
  rewrite sanitize_unfold. destruct (ascii_isdigit c).
  - cbn [string_chars]. constructor; [apply underscore_ident |].
    apply replace_non_alnum_chars.
  - apply replace_non_alnum_chars.
Qed.

(** X15. The names [SanitizeIdentifier] returns unchanged are exactly the
    non-empty names over [[A-Za-z0-9_]] that do not start with a digit;
    every other name is changed. *)
Theorem X15_sanitize_identifier_fixed_points :
  forall s : string,
    SanitizeIdentifier s = s
    <-> s <> EmptyString
        /\ Forall ident_char (string_chars s)
        /\ ~ starts_with_digit s.
Proof.
  intros s. split.
  - intros E. split; [| split].
    + intros ->. discriminate.
    + rewrite <- E. apply sanitize_chars.
    + destruct (sanitize_head s) as (c & rest & Hs & D). rewrite E in Hs. subst s.
      cbn. rewrite <- isdigit_spec. congruence.
  - intros (Hne & Hchars & Hd). destruct s as [| c rest]; [done |].
    rewrite sanitize_unfold. destruct (ascii_isdigit c) eqn:D.
    + exfalso. apply Hd. cbn. now apply isdigit_spec.
    + now apply replace_non_alnum_fixed.
Qed.

(** ** Line tracking *)

(** Modelled from the spec: "an ordered mapping from AST-node identity to
    one or more [{start_line, end_line}] spans"; the fields are those the
    methods of [LineInfo] in [vast.cc] read and write.  A [VastNode*] is
    the node's identity, a number. *)
Record LineSpan := MkLineSpan { start_line : Z; end_line : Z }.

Record PartialLineSpans := MkPartialLineSpans {
  completed_spans : list LineSpan;
  hanging_start_line : option Z;
}.

Record LineInfo := MkLineInfo {
  current_line_number_ : Z;
  spans_ : gmap nat PartialLineSpans;
}.

(** [void LineInfo::Start(const VastNode* node)]; [None] stands for a
    failed [XLS_CHECK]. *)
Definition Start (li : LineInfo) (node : nat) : option LineInfo :=
  let spans :=
    match spans_ li !! node with
    | Some _ => spans_ li
    | None => <[node := MkPartialLineSpans [] None]> (spans_ li)
    end in
  entry ← spans !! node;
  match hanging_start_line entry with
  | Some _ => None
  | None =>
      Some (MkLineInfo (current_line_number_ li)
              (<[node := MkPartialLineSpans (completed_spans entry)
                                            (Some (current_line_number_ li))]> spans))
  end.

(** [void LineInfo::End(const VastNode* node)] *)
Definition End_ (li : LineInfo) (node : nat) : option LineInfo :=
  entry ← spans_ li !! node;
  start_line ← hanging_start_line entry;
  let end_line := current_line_number_ li in
  Some (MkLineInfo (current_line_number_ li)
          (<[node := MkPartialLineSpans
                       (completed_spans entry ++ [MkLineSpan start_line end_line])
                       None]> (spans_ li))).

(** [void LineInfo::Increase(int64_t delta)]; line numbers are assumed to
    stay within [int64_t]. *)
Definition Increase (li : LineInfo) (delta : Z) : LineInfo :=
  MkLineInfo (current_line_number_ li + delta) (spans_ li).

(** [std::optional<std::vector<LineSpan>> LineInfo::LookupNode(node)] *)
Definition LookupNode (li : LineInfo) (node : nat) : option (list LineSpan) :=
  entry ← spans_ li !! node;
  match hanging_start_line entry with
  | Some _ => None
  | None => Some (completed_spans entry)
  end.

(** A run of calls on one [LineInfo]. *)
Inductive LineCall :=
  | CallStart (node : nat)
  | CallEnd (node : nat)
  | CallIncrease (delta : Z).

Definition call (li : LineInfo) (c : LineCall) : option LineInfo :=
  match c with
  | CallStart node => Start li node
  | CallEnd node => End_ li node
  | CallIncrease delta => Some (Increase li delta)
  end.

Fixpoint calls (cs : list LineCall) (li : LineInfo) : option LineInfo :=
  match cs with
  | [] => Some li
  | c :: rest => li' ← call li c; calls rest li'
  end.

Definition about (node : nat) (c : LineCall) : bool :=
  match c with
  | CallStart n | CallEnd n => Nat.eqb n node
  | CallIncrease _ => false
  end.

Definition delta_of (c : LineCall) : Z :=
  match c with CallIncrease delta => delta | _ => 0%Z end.

(** The lines the run advances by. *)
Definition advance (cs : list LineCall) : Z := foldr (fun c acc => (delta_of c + acc)%Z) 0%Z cs.

Lemma Start_inv li node li' :
  Start li node = Some li' ->
  current_line_number_ li' = current_line_number_ li
  /\ LookupNode li node = (completed_spans <$> (spans_ li !! node))
  /\ spans_ li' !! node
     = Some (MkPartialLineSpans (default [] (completed_spans <$> (spans_ li !! node)))
                                (Some (current_line_number_ li)))
  /\ forall other, other ≠ node -> spans_ li' !! other = spans_ li !! other.
Proof.
  unfold Start, LookupNode. destruct (spans_ li !! node) as [entry |] eqn:E; cbn.
  - rewrite E. cbn. destruct (hanging_start_line entry); [discriminate |].
    intros [= <-]. cbn. rewrite lookup_insert_eq. repeat split.
    intros other Hne. now rewrite lookup_insert_ne.
  - rewrite lookup_insert_eq. cbn. intros [= <-]. cbn.
    rewrite lookup_insert_eq. repeat split.
    intros other Hne. now rewrite !lookup_insert_ne.
Qed.

Lemma End_inv li node li' :
  End_ li node = Some li' ->
  exists entry start,
    spans_ li !! node = Some entry /\ hanging_start_line entry = Some start
    /\ current_line_number_ li' = current_line_number_ li
    /\ LookupNode li' node
       = Some (completed_spans entry ++ [MkLineSpan start (current_line_number_ li)])
    /\ forall other, other ≠ node -> spans_ li' !! other = spans_ li !! other.
Proof.
  unfold End_, LookupNode. destruct (spans_ li !! node) as [entry |]; [| discriminate].
  cbn. destruct (hanging_start_line entry) as [start |] eqn:H; [| discriminate].
  cbn. intros E. injection E as <-. exists entry, start. cbn.
  rewrite lookup_insert_eq. cbn.
  repeat split; try assumption. intros other Hne. now rewrite lookup_insert_ne.
Qed.

(** Calls about other nodes leave a node's entry alone and move the
    current line by their increases. *)
Lemma calls_frame node cs :
  forallb (fun c => negb (about node c)) cs = true ->
  forall li li',
    calls cs li = Some li' ->
    spans_ li' !! node = spans_ li !! node
    /\ current_line_number_ li' = (current_line_number_ li + advance cs)%Z.
Proof.
  induction cs as [| c cs IH]; intros Hcs li li'; cbn.
  - intros [= <-]. split; [reflexivity | lia].
  - cbn in Hcs. apply andb_true_iff in Hcs as [Hc Hcs].
    destruct (call li c) as [li1 |] eqn:E; [| discriminate]. cbn.
    intros H. destruct (IH Hcs _ _ H) as [I1 I2]. rewrite I1, I2.
    unfold advance. cbn [foldr]. fold (advance cs).
    destruct c as [n | n | delta]; cbn in *.
    + apply negb_true_iff, Nat.eqb_neq in Hc.
      apply Start_inv in E as (Ec & _ & _ & Eo). rewrite Ec, Eo by congruence.
      split; [reflexivity | lia].
    + apply negb_true_iff, Nat.eqb_neq in Hc.
      apply End_inv in E as (? & ? & _ & _ & Ec & _ & Eo). rewrite Ec, Eo by congruence.
      split; [reflexivity | lia].
    + injection E as <-. cbn. split; [reflexivity | lia].
Qed.

Lemma calls_snoc cs c li li' :
  calls (cs ++ [c]) li = Some li' ->
  exists li1, calls cs li = Some li1 /\ call li1 c = Some li'.
Proof.
  revert li. induction cs as [| x cs IH]; intros li; cbn.
  - destruct (call li c) eqn:E; [| discriminate]. cbn. intros [= <-]. eauto.
  - destruct (call li x) as [li0 |]; [| discriminate]. cbn. apply IH.
Qed.

Lemma start_increase_end li li1 li2 node delta :
  Start li node = Some li1 ->
  End_ (Increase li1 delta) node = Some li2 ->
  LookupNode li2 node
  = Some (default [] (LookupNode li node)
          ++ [MkLineSpan (current_line_number_ li)
                         (current_line_number_ li + delta)])
  /\ current_line_number_ li2 = (current_line_number_ li + delta)%Z.
Proof.
  intros E1 E2. apply Start_inv in E1 as (Ec1 & El & Es1 & _).
  apply End_inv in E2 as (entry & start & He & Hh & Ec3 & Hl & _).
  cbn in He, Ec3, Hl. rewrite Es1 in He. injection He as <-. cbn in Hh.
  injection Hh as <-. rewrite Hl, Ec3, Ec1, El. cbn. split; [| reflexivity].
  destruct (spans_ li !! node); reflexivity.
Qed.

(** X16. What a [Start] ... [End] pair records.  If a node is started, any
    calls about other nodes follow, and the node is ended, then the
    node's spans are those it had before plus one new span: from the line
    that was current at [Start] to that line plus the increases made in
    between. *)
Theorem X16_start_end_records_a_span :
  forall (li li' : LineInfo) (node : nat) (between : list LineCall),
    forallb (fun c => negb (about node c)) between = true ->
    calls (CallStart node :: between ++ [CallEnd node]) li = Some li' ->
    LookupNode li' node
    = Some (default [] (LookupNode li node)
            ++ [MkLineSpan (current_line_number_ li)
                           (current_line_number_ li + advance between)])
    /\ current_line_number_ li' = (current_line_number_ li + advance between)%Z.
Proof.
  intros li li' node between Hb H. cbn [calls call] in H.
  destruct (Start li node) as [li1 |] eqn:E1; [| discriminate]. cbn in H.
  apply Start_inv in E1 as (Ec1 & El & Es1 & _).
  destruct (calls_snoc _ _ _ _ H) as (li2 & H2 & H3). cbn in H3.
  destruct (calls_frame node between Hb _ _ H2) as [F1 F2].
  apply End_inv in H3 as (entry & start & He & Hh & Ec3 & Hl & _).
  rewrite F1, Es1 in He. injection He as <-. cbn in Hh. injection Hh as <-.
  rewrite Hl. cbn. rewrite El. rewrite Ec3, F2, Ec1. split; [| reflexivity].
  destruct (spans_ li !! node); reflexivity.
Qed.


Definition empty_line_info : LineInfo := MkLineInfo 0 ∅.

Lemma X16_start_end_records_a_span_witness :
  LookupNode (MkLineInfo 3 (<[7 := MkPartialLineSpans [MkLineSpan 0 3] None]>
                              (<[8 := MkPartialLineSpans [MkLineSpan 1 3] None]> ∅))) 7
  = Some (default [] (LookupNode empty_line_info 7) ++ [MkLineSpan 0 (0 + 3)])
  /\ 3%Z = (0 + 3)%Z.
Proof.
  apply (X16_start_end_records_a_span
           empty_line_info
           (MkLineInfo 3 (<[7 := MkPartialLineSpans [MkLineSpan 0 3] None]>
                            (<[8 := MkPartialLineSpans [MkLineSpan 1 3] None]> ∅)))
           7 [CallIncrease 1; CallStart 8; CallIncrease 2; CallEnd 8]).
  - reflexivity.
  - vm_compute. reflexivity.
Defined.

(** A node's entry has a hanging start. *)
Definition hanging (li : LineInfo) (node : nat) : Prop :=
  exists entry start,
    spans_ li !! node = Some entry /\ hanging_start_line entry = Some start.

Lemma hanging_no_span li node : hanging li node -> LookupNode li node = None.
Proof. intros (entry & start & He & Hh). unfold LookupNode. now rewrite He; cbn; rewrite Hh. Qed.

Lemma hanging_no_start li node : hanging li node -> Start li node = None.
Proof.
  intros (entry & start & He & Hh). unfold Start. rewrite He. cbn. rewrite He. cbn.
  now rewrite Hh.
Qed.

Lemma hanging_kept li node c li' :
  hanging li node -> c ≠ CallEnd node -> call li c = Some li' -> hanging li' node.
Proof.
  intros Hh Hne H. destruct c as [n | n | delta]; cbn in H.
  - destruct (decide (n = node)) as [-> | Hn].
    + now rewrite hanging_no_start in H.
    + apply Start_inv in H as (_ & _ & _ & Ho). destruct Hh as (entry & start & He & Hs).
      exists entry, start. now rewrite Ho.
  - assert (Hn : n ≠ node) by congruence.
    apply End_inv in H as (? & ? & _ & _ & _ & _ & Ho).
    destruct Hh as (entry & start & He & Hs). exists entry, start. now rewrite Ho.
  - injection H as <-. exact Hh.
Qed.

(** X17. A started node reports no span until it is ended, and cannot be
    started again: after a successful [Start], whatever calls other than
    the node's [End] follow, [LookupNode] answers [nullopt] for the node
    and a second [Start] of it fails its check.  An [End] without a
    hanging [Start] fails its check as well. *)
Theorem X17_hanging_start_reports_no_span :
  forall (li li1 li2 : LineInfo) (node : nat) (cs : list LineCall),
    Start li node = Some li1 ->
    CallEnd node ∉ cs ->
    calls cs li1 = Some li2 ->
    LookupNode li2 node = None
    /\ Start li2 node = None
    /\ End_ li node = None.
Proof.
  intros li li1 li2 node cs Hs Hcs H.
  assert (Hh1 : hanging li1 node).
  { apply Start_inv in Hs as (_ & _ & Hs & _). eexists _, _. split; [exact Hs | reflexivity]. }
  assert (Hh2 : hanging li2 node).
  { clear Hs. revert li1 Hh1 H. induction cs as [| c cs IH]; intros li1 Hh1; cbn.
    - now intros [= <-].
    - apply not_elem_of_cons in Hcs as [Hc Hcs].
      destruct (call li1 c) as [l |] eqn:E; [| discriminate]. cbn.
      apply (IH Hcs). eapply hanging_kept; eauto. }
  split; [now apply hanging_no_span |]. split; [now apply hanging_no_start |].
  apply Start_inv in Hs as (_ & Hl & _). unfold End_.
  unfold LookupNode in Hl. destruct (spans_ li !! node) as [entry |]; [| reflexivity].
  cbn in *. destruct (hanging_start_line entry); [discriminate | reflexivity].
Qed.

Lemma X17_hanging_start_reports_no_span_witness :
  LookupNode (MkLineInfo 2 (<[7 := MkPartialLineSpans [] (Some 0%Z)]> ∅)) 7 = None
  /\ Start (MkLineInfo 2 (<[7 := MkPartialLineSpans [] (Some 0%Z)]> ∅)) 7 = None
  /\ End_ empty_line_info 7 = None.
Proof.
  apply (X17_hanging_start_reports_no_span
           empty_line_info (MkLineInfo 0 (<[7 := MkPartialLineSpans [] (Some 0%Z)]> ∅))
           (MkLineInfo 2 (<[7 := MkPartialLineSpans [] (Some 0%Z)]> ∅))
           7 [CallIncrease 2]).
  - vm_compute. reflexivity.
  - intros H. apply list_elem_of_singleton in H. discriminate.
  - vm_compute. reflexivity.
Defined.









(** ** Emitters of nodes that hold one piece of text *)

Definition newline : ascii := ascii_of_nat 10.

(** [int64_t NumberOfNewlines(absl::string_view string)] *)
Fixpoint NumberOfNewlines (s : string) : Z :=
  match s with
  | EmptyString => 0
  | String c rest =>
      ((if Ascii.eqb c newline then 1 else 0) + NumberOfNewlines rest)%Z
  end.

(** The helpers [LineInfoStart], [LineInfoEnd] and [LineInfoIncrease] on a
    [LineInfo* line_info] that may be [nullptr] (here [None]); the outer
    [option] is the failed check of [Start] and [End]. *)
Definition LineInfoStart (line_info : option LineInfo) (node : nat)
  : option (option LineInfo) :=
  match line_info with
  | Some li => li' ← Start li node; Some (Some li')
  | None => Some None
  end.

Definition LineInfoEnd (line_info : option LineInfo) (node : nat)
  : option (option LineInfo) :=
  match line_info with
  | Some li => li' ← End_ li node; Some (Some li')
  | None => Some None
  end.

Definition LineInfoIncrease (line_info : option LineInfo) (delta : Z)
  : option LineInfo :=
  match line_info with
  | Some li => Some (Increase li delta)
  | None => None
  end.

(** [absl::StrReplaceAll(text, {{"\n", "\n// "}})]: every newline is
    followed by a fresh comment leader; the inserted text is not scanned
    again. *)
Fixpoint StrReplaceAll_newline (text : string) : string :=
  match text with
  | EmptyString => EmptyString
  | String c rest =>
      if Ascii.eqb c newline
      then String newline ("// " +:+ StrReplaceAll_newline rest)
      else String c (StrReplaceAll_newline rest)
  end.

(** [std::string MacroRef::Emit(LineInfo* line_info)]; [this] is the
    emitting node.  The result is the text and the [LineInfo] as the call
    leaves it. *)
Definition MacroRef_Emit (name_ : string) (line_info : option LineInfo) (this : nat)
  : option (string * option LineInfo) :=
  line_info ← LineInfoStart line_info this;
  let line_info := LineInfoIncrease line_info (NumberOfNewlines name_) in
  line_info ← LineInfoEnd line_info this;
  Some ("`" +:+ name_, line_info).

(** [std::string Include::Emit(LineInfo* line_info)] *)
Definition Include_Emit (path_ : string) (line_info : option LineInfo) (this : nat)
  : option (string * option LineInfo) :=
  line_info ← LineInfoStart line_info this;
  let line_info := LineInfoIncrease line_info (NumberOfNewlines path_) in
  line_info ← LineInfoEnd line_info this;
  Some ("`include " +:+ double_quote +:+ path_ +:+ double_quote, line_info).

(** [std::string Comment::Emit(LineInfo* line_info)] *)
Definition Comment_Emit (text_ : string) (line_info : option LineInfo) (this : nat)
  : option (string * option LineInfo) :=
  line_info ← LineInfoStart line_info this;
  let line_info := LineInfoIncrease line_info (NumberOfNewlines text_) in
  line_info ← LineInfoEnd line_info this;
  Some ("// " +:+ StrReplaceAll_newline text_, line_info).

(** [std::string InlineVerilogStatement::Emit(LineInfo* line_info)] *)
Definition InlineVerilogStatement_Emit (text_ : string)
    (line_info : option LineInfo) (this : nat)
  : option (string * option LineInfo) :=
  line_info ← LineInfoStart line_info this;
  let line_info := LineInfoIncrease line_info (NumberOfNewlines text_) in
  line_info ← LineInfoEnd line_info this;
  Some (text_, line_info).

(** [std::string InlineVerilogRef::Emit(LineInfo* line_info)] *)
Definition InlineVerilogRef_Emit (name_ : string)
    (line_info : option LineInfo) (this : nat)
  : option (string * option LineInfo) :=
  line_info ← LineInfoStart line_info this;
  let line_info := LineInfoIncrease line_info (NumberOfNewlines name_) in
  line_info ← LineInfoEnd line_info this;
  Some (name_, line_info).

(** [std::string QuotedString::Emit(LineInfo* line_info)] *)
Definition QuotedString_Emit (str_ : string)
    (line_info : option LineInfo) (this : nat)
  : option (string * option LineInfo) :=
  line_info ← LineInfoStart line_info this;
  let line_info := LineInfoIncrease line_info (NumberOfNewlines str_) in
  line_info ← LineInfoEnd line_info this;
  Some (double_quote +:+ str_ +:+ double_quote, line_info).

(** The nodes above, and the virtual [Emit] that dispatches on the class. *)
Inductive TextNode :=
  | AMacroRef (name_ : string)
  | AnInclude (path_ : string)
  | AComment (text_ : string)
  | AnInlineVerilogStatement (text_ : string)
  | AnInlineVerilogRef (name_ : string)
  | AQuotedString (str_ : string).

Definition TextNode_Emit (n : TextNode)
  : option LineInfo -> nat -> option (string * option LineInfo) :=
  match n with
  | AMacroRef name_ => MacroRef_Emit name_
  | AnInclude path_ => Include_Emit path_
  | AComment text_ => Comment_Emit text_
  | AnInlineVerilogStatement text_ => InlineVerilogStatement_Emit text_
  | AnInlineVerilogRef name_ => InlineVerilogRef_Emit name_
  | AQuotedString str_ => QuotedString_Emit str_
  end.

(** The text a node holds. *)
Definition held_text (n : TextNode) : string :=
  match n with
  | AMacroRef t | AnInclude t | AComment t | AnInlineVerilogStatement t
  | AnInlineVerilogRef t | AQuotedString t => t
  end.

Lemma NumberOfNewlines_app s t :
  NumberOfNewlines (s +:+ t) = (NumberOfNewlines s + NumberOfNewlines t)%Z.
Proof.
  induction s as [| c s IH]; [reflexivity |].
  change (String c s +:+ t) with (String c (s +:+ t)). cbn [NumberOfNewlines].
  rewrite IH. lia.
Qed.

Lemma NumberOfNewlines_replace text :
  NumberOfNewlines (StrReplaceAll_newline text) = NumberOfNewlines text.
Proof.
  induction text as [| c text IH]; [reflexivity |].
  cbn [StrReplaceAll_newline NumberOfNewlines].
  destruct (Ascii.eqb c newline) eqn:E.
  - cbn [NumberOfNewlines]. rewrite NumberOfNewlines_app, IH. reflexivity.
  - cbn [NumberOfNewlines]. rewrite E, IH. reflexivity.
Qed.

Lemma emitted_newlines n text li :
  TextNode_Emit n None 0 = Some (text, li) ->
  NumberOfNewlines text = NumberOfNewlines (held_text n).
Proof.
  assert (Hq : NumberOfNewlines double_quote = 0%Z) by reflexivity.
  destruct n; cbn; intros [= <- _]; rewrite ?NumberOfNewlines_app;
    rewrite ?NumberOfNewlines_replace, ?Hq;
    repeat match goal with
           | |- context [NumberOfNewlines (String ?c ?s)] =>
               let v := eval vm_compute in (NumberOfNewlines (String c s)) in
               change (NumberOfNewlines (String c s)) with v
           end; lia.
Qed.

Lemma tracked_text n li this :
  TextNode_Emit n (Some li) this
  = (li1 ← Start li this;
     li2 ← End_ (Increase li1 (NumberOfNewlines (held_text n))) this;
     text ← fst <$> TextNode_Emit n None 0;
     Some (text, Some li2)).
Proof.
  destruct n; cbn; destruct (Start li this) as [li1 |]; cbn; try reflexivity;
    match goal with |- context [End_ ?l ?t] => destruct (End_ l t) end; reflexivity.
Qed.

Lemma untracked_text n this :
  exists text, TextNode_Emit n None this = Some (text, None).
Proof. destruct n; cbn; eauto. Qed.

(** X19. Line tracking agrees with the emitted text.  For a macro
    reference, an include, a comment, an inline Verilog statement or
    reference and a quoted string, emitted with line tracking on for a node
    that is not in the middle of a span: the emitter returns the text it
    returns with tracking off, the current line advances by the number of
    newlines in that text, and the node gains the span from the old
    current line to the new one. *)
Theorem X19_text_nodes_track_their_lines :
  forall (n : TextNode) (li : LineInfo) (this : nat),
    ~ hanging li this ->
    exists text li',
      TextNode_Emit n (Some li) this = Some (text, Some li')
      /\ TextNode_Emit n None this = Some (text, None)
      /\ current_line_number_ li'
         = (current_line_number_ li + NumberOfNewlines text)%Z
      /\ LookupNode li' this
         = Some (default [] (LookupNode li this)
                 ++ [MkLineSpan (current_line_number_ li)
                                (current_line_number_ li')]).
Proof.
  intros n li this Hh.
  destruct (untracked_text n this) as [text Ht]. exists text.
  assert (H0 : TextNode_Emit n None 0 = Some (text, None)).
  { destruct n; cbn in *; exact Ht. }
  pose proof (emitted_newlines _ _ _ H0) as Hn.
  assert (Hs : exists li1, Start li this = Some li1).
  { unfold Start. destruct (spans_ li !! this) as [entry |] eqn:E; cbn.
    - rewrite E. cbn. destruct (hanging_start_line entry) as [h |] eqn:Eh; [| eauto].
      exfalso. apply Hh. exists entry, h. split; assumption.
    - rewrite lookup_insert_eq. cbn. eauto. }
  destruct Hs as [li1 Hs].
  assert (He : exists li2, End_ (Increase li1 (NumberOfNewlines (held_text n))) this = Some li2).
  { apply Start_inv in Hs as (_ & _ & Hs & _). unfold End_. cbn. rewrite Hs. cbn. eauto. }
  destruct He as [li2 He]. exists li2.
  destruct (start_increase_end _ _ _ _ _ Hs He) as [Hl Hcur].
  rewrite tracked_text, Hs. cbn. rewrite He. cbn. rewrite H0. cbn.
  split; [reflexivity |]. split; [exact Ht |]. rewrite Hn.
  split; [rewrite Hcur; lia |]. rewrite Hl, Hcur. reflexivity.
Qed.

Definition newline_string : string := String newline EmptyString.

Definition comment_line (l : string) : string := "// " +:+ l.

Definition two_line_text : string := "a" +:+ newline_string +:+ "b".

Lemma X19_text_nodes_track_their_lines_witness :
  exists text li',
    TextNode_Emit (AComment two_line_text) (Some empty_line_info) 3 = Some (text, Some li')
    /\ TextNode_Emit (AComment two_line_text) None 3 = Some (text, None)
    /\ current_line_number_ li'
       = (current_line_number_ empty_line_info + NumberOfNewlines text)%Z
    /\ LookupNode li' 3
       = Some (default [] (LookupNode empty_line_info 3)
               ++ [MkLineSpan (current_line_number_ empty_line_info)
                              (current_line_number_ li')]).
Proof.
  apply (X19_text_nodes_track_their_lines (AComment two_line_text) empty_line_info 3).
  intros (entry & start & He & _). cbn in He. rewrite lookup_empty in He. discriminate.
Defined.

(** The lines of a text: the pieces between its newlines. *)
Fixpoint lines (text : string) : list string :=
  match text with
  | EmptyString => [EmptyString]
  | String c rest =>
      if Ascii.eqb c newline then EmptyString :: lines rest
      else match lines rest with
           | l :: ls => String c l :: ls
           | [] => [String c EmptyString]
           end
  end.

Lemma lines_nonempty text : lines text ≠ [].
Proof.
  destruct text as [| c rest]; cbn; [discriminate |].
  destruct (Ascii.eqb c newline); [discriminate |].
  destruct (lines rest); discriminate.
Qed.

(** What follows the first line in the joined comment lines. *)
Definition later_lines (ls : list string) : string :=
  match ls with
  | [] => EmptyString
  | _ :: _ => newline_string +:+ StrJoin (comment_line <$> ls) newline_string
  end.

Lemma append_empty_r (s : string) : s +:+ EmptyString = s.
Proof.
  induction s as [| c s IH]; [reflexivity |].
  change (String c s +:+ EmptyString) with (String c (s +:+ EmptyString)).
  now rewrite IH.
Qed.

Lemma joined_comment_lines l ls :
  StrJoin (comment_line <$> (l :: ls)) newline_string
  = comment_line l +:+ later_lines ls.
Proof.
  unfold StrJoin. destruct ls as [| l2 ls]; cbn [fmap list_fmap String.concat later_lines].
  - now rewrite append_empty_r.
  - reflexivity.
Qed.

Lemma replace_lines text :
  StrReplaceAll_newline text
  = match lines text with
    | l :: ls => l +:+ later_lines ls
    | [] => EmptyString
    end.
Proof.
  induction text as [| c rest IH]; [reflexivity |].
  cbn [StrReplaceAll_newline lines].
  pose proof (lines_nonempty rest) as Hne.
  destruct (Ascii.eqb c newline) eqn:E.
  - rewrite IH. destruct (lines rest) as [| l ls]; [contradiction |].
    unfold later_lines at 2. rewrite joined_comment_lines. reflexivity.
  - rewrite IH. destruct (lines rest) as [| l ls]; [contradiction |]. reflexivity.
Qed.

Lemma lines_newlines text :
  Z.of_nat (length (lines text)) = (NumberOfNewlines text + 1)%Z.
Proof.
  induction text as [| c rest IH]; [reflexivity |].
  cbn [lines NumberOfNewlines]. pose proof (lines_nonempty rest) as Hne.
  destruct (Ascii.eqb c newline).
  - cbn [length]. lia.
  - destruct (lines rest) as [| l ls]; [contradiction |]. cbn [length] in *. lia.
Qed.

Lemma lines_no_newline text :
  Forall (fun l => NumberOfNewlines l = 0%Z) (lines text).
Proof.
  induction text as [| c rest IH]; [repeat constructor |].
  cbn [lines]. pose proof (lines_nonempty rest) as Hne.
  destruct (Ascii.eqb c newline) eqn:E.
  - constructor; [reflexivity | exact IH].
  - destruct (lines rest) as [| l ls]; [contradiction |].
    apply Forall_cons in IH as [H1 H2]. constructor; [| exact H2].
    cbn [NumberOfNewlines]. rewrite E, H1. reflexivity.
Qed.

(** X20. A comment is emitted line by line.  The emitted text is the
    lines of the comment's text, each led by [// ] and joined by newlines:
    one emitted line for each line of the text, none of them left without
    the comment leader. *)
Theorem X20_comment_leads_every_line :
  forall (text_ : string) (line_info : option LineInfo) (this : nat)
         (out : string) (line_info' : option LineInfo),
    Comment_Emit text_ line_info this = Some (out, line_info') ->
    out = StrJoin (comment_line <$> lines text_) newline_string
    /\ Z.of_nat (length (lines text_)) = (NumberOfNewlines text_ + 1)%Z
    /\ Forall (fun l => NumberOfNewlines l = 0%Z) (lines text_).
Proof.
  intros text_ line_info this out line_info' H.
  split; [| split; [apply lines_newlines | apply lines_no_newline]].
  assert (Ho : out = "// " +:+ StrReplaceAll_newline text_).
  { unfold Comment_Emit in H.
    destruct (LineInfoStart line_info this) as [l1 |]; [| discriminate]. cbn in H.
    destruct (LineInfoEnd _ this) as [l2 |]; [| discriminate]. cbn in H.
    now injection H as <- _. }
  rewrite Ho, replace_lines. pose proof (lines_nonempty text_) as Hne.
  destruct (lines text_) as [| l ls]; [contradiction |].
  rewrite joined_comment_lines. reflexivity.
Qed.

Lemma X20_comment_leads_every_line_witness :
  (comment_line "a" +:+ newline_string +:+ comment_line "b") = StrJoin (comment_line <$> lines two_line_text) newline_string
  /\ Z.of_nat (length (lines two_line_text)) = (NumberOfNewlines two_line_text + 1)%Z
  /\ Forall (fun l => NumberOfNewlines l = 0%Z) (lines two_line_text).
Proof.
  apply (X20_comment_leads_every_line two_line_text None 0 (comment_line "a" +:+ newline_string +:+ comment_line "b") None).
  reflexivity.
Defined.

(** ** Data types, declarations and ports *)

Definition data_type_is_signed (t : DataType) : bool :=
  let 'MkDataType is_signed _ _ _ := t in is_signed.

Definition data_type_width (t : DataType) : option Expression :=
  let 'MkDataType _ width _ _ := t in width.

Definition packed_dims (t : DataType) : list Expression :=
  let 'MkDataType _ _ dims _ := t in dims.

Definition unpacked_dims (t : DataType) : list Expression :=
  let 'MkDataType _ _ _ dims := t in dims.

Definition def_data_kind (d : Def) : DataKind :=
  let 'MkDef _ kind _ := d in kind.

Definition FailedPreconditionError {A} (msg : string) : StatusOr A :=
  Error (MkStatus kFailedPrecondition msg).

(** The conversion of a [uint64_t] to the [int64_t] the callers of
    [Bits::ToUint64] store it in. *)
Definition as_int64 (v : N) : Z :=
  if (v <? 2 ^ 63)%N then Z.of_N v else (Z.of_N v - 2 ^ 64)%Z.

(** The result of an [int64_t] multiplication as the compiled code
    produces it: taken modulo 2^64 into the range from -2^63 to 2^63 - 1.
    (An overflow is undefined in C++; the properties below are about
    products that fit.) *)
Definition wrap_int64 (z : Z) : Z := ((z + 2 ^ 63) mod 2 ^ 64 - 2 ^ 63)%Z.

(** [enum class Direction] *)
Inductive Direction := kInput | kOutput.

(** [struct Port]: a direction and the wire declaration. *)
Record Port := MkPort { direction : Direction; wire : Def }.

Definition product (dims : list Z) : Z := foldr Z.mul 1%Z dims.

(** The keyword of a declaration, the range [[hi:0]] of a dimension of
    the given size, and the text of a run of ranges. *)
Definition kind_keyword (kind : DataKind) : string :=
  match kind with
  | kReg => "reg"
  | kWire => "wire"
  | kLogic => "logic"
  end.

Definition range_of (size : Z) : string :=
  "[" +:+ pretty (Z.to_N (size - 1)) +:+ ":0]".

Definition ranges_of (dims : list Z) : string :=
  foldr String.append EmptyString (range_of <$> dims).

Lemma append_assoc (s t u : string) : (s +:+ t) +:+ u = s +:+ (t +:+ u).
Proof.
  induction s as [| c s IH]; [reflexivity |].
  change (String c ((s +:+ t) +:+ u) = String c (s +:+ (t +:+ u))).
  now rewrite IH.
Qed.

Section DataTypes.

Variable precedence : Expression -> Z.
Variable IsReduction : Expression -> bool.
Variable IsScalar : DataType -> bool.
Variable Bits_ToString : FormatPreference -> Bits -> string.
Variable Bits_ToRawDigits : FormatPreference -> Bits -> bool -> string.

(** Declared in [vast.h], the IR's [Bits] class and the signature proto,
    which are not part of the sources at hand: the factory of plain
    literals and of subtractions, the dialect switch of the file, the
    status [Bits::ToUint64] returns for a value that does not fit, and the
    direction enumeration of [PortProto] with its two named values. *)
Variable PlainLiteral : Z -> Expression.
Variable Sub : Expression -> Expression -> Expression.
Variable use_system_verilog : bool.
Variable ToUint64_error : Bits -> Status.
Variable DirectionProto : Type.
Variable DIRECTION_INPUT DIRECTION_OUTPUT : DirectionProto.
Variable DirectionProto_eqb : DirectionProto -> DirectionProto -> bool.

(** A plain literal is a literal holding its argument. *)
Hypothesis PlainLiteral_value :
  forall v : Z, (0 <= v < 2 ^ 31)%Z ->
    exists bits format emit_bit_count,
      PlainLiteral v = Literal bits format emit_bit_count
      /\ bits_value bits = Z.to_N v.

Hypothesis DirectionProto_eqb_eq :
  forall x y, DirectionProto_eqb x y = true <-> x = y.

(** [Emit(nullptr)] of an expression. *)
Definition emit : Expression -> option string :=
  Emit precedence IsReduction IsScalar Bits_ToString Bits_ToRawDigits.

(** [message PortProto]: direction, name and width. *)
Record PortProto := MkPortProto {
  proto_direction : DirectionProto;
  proto_name : string;
  proto_width : Z;
}.

(** [Bits::ToUint64] *)
Definition ToUint64 (bits : Bits) : StatusOr N :=
  if FitsInUint64 bits then Ok (bits_value bits) else Error (ToUint64_error bits).

(** [DataType* VerilogFile::BitVectorTypeNoScalar(bit_count, loc, is_signed)] *)
Definition BitVectorTypeNoScalar (bit_count : Z) (is_signed : bool) : DataType :=
  MkDataType is_signed (Some (PlainLiteral bit_count)) [] [].

(** [DataType* VerilogFile::BitVectorType(bit_count, loc, is_signed)];
    [None] is the failed [XLS_CHECK_GT]. *)
Definition BitVectorType (bit_count : Z) (is_signed : bool) : option DataType :=
  if (0 <? bit_count)%Z then
    if (bit_count =? 1)%Z then
      if is_signed then Some (MkDataType true None [] [])
      else Some (MkDataType false None [] [])
    else Some (BitVectorTypeNoScalar bit_count is_signed)
  else None.

(** [DataType* VerilogFile::PackedArrayType(element_bit_count, dims, loc,
    is_signed)] *)
Definition PackedArrayType (element_bit_count : Z) (dims : list Z)
    (is_signed : bool) : option DataType :=
  if (0 <? element_bit_count)%Z then
    let dim_exprs := PlainLiteral <$> dims in
    Some (MkDataType is_signed (Some (PlainLiteral element_bit_count)) dim_exprs [])
  else None.

(** [DataType* VerilogFile::UnpackedArrayType(element_bit_count, dims,
    loc, is_signed)] *)
Definition UnpackedArrayType (element_bit_count : Z) (dims : list Z)
    (is_signed : bool) : option DataType :=
  if (0 <? element_bit_count)%Z then
    let dim_exprs := PlainLiteral <$> dims in
    Some (MkDataType is_signed
            (if (element_bit_count =? 1)%Z then None
             else Some (PlainLiteral element_bit_count))
            [] dim_exprs)
  else None.

(** [absl::StatusOr<int64_t> DataType::WidthAsInt64()]; the outer [option]
    is the emitter of the error message failing a check. *)
Definition WidthAsInt64 (t : DataType) : option (StatusOr Z) :=
  match data_type_width t with
  | None => Some (Ok 1%Z)
  | Some w =>
      match w with
      | Literal bits _ _ => Some (v ← ToUint64 bits; Ok (as_int64 v))
      | _ =>
          text ← emit w;
          Some (FailedPreconditionError ("Width is not a literal: " +:+ text))
      end
  end.

(** One of the two loops of [FlatBitCountAsInt64], over the packed or the
    unpacked dimensions; [bit_count = bit_count * dim_size] is a
    multiplication of [int64_t]s. *)
Fixpoint multiply_dims (what : string) (dims : list Expression) (bit_count : Z)
  : option (StatusOr Z) :=
  match dims with
  | [] => Some (Ok bit_count)
  | dim :: rest =>
      match dim with
      | Literal bits _ _ =>
          match ToUint64 bits with
          | Ok v => multiply_dims what rest (wrap_int64 (bit_count * as_int64 v))
          | Error s => Some (Error s)
          end
      | _ =>
          text ← emit dim;
          Some (FailedPreconditionError (what +:+ text))
      end
  end.

(** [absl::StatusOr<int64_t> DataType::FlatBitCountAsInt64()] *)
Definition FlatBitCountAsInt64 (t : DataType) : option (StatusOr Z) :=
  match WidthAsInt64 t with
  | Some (Ok bit_count) =>
      match multiply_dims "Packed dimension is not a literal:"
                          (packed_dims t) bit_count with
      | Some (Ok bit_count) =>
          multiply_dims "Unpacked dimension is not a literal:"
                        (unpacked_dims t) bit_count
      | other => other
      end
  | other => other
  end.

(** [static std::string WidthToLimit(LineInfo* line_info, Expression* expr)]
    with line tracking off: the value of a literal minus one, computed in
    [uint64_t], or the emitted subtraction. *)
Definition WidthToLimit (expr : Expression) : option string :=
  match expr with
  | Literal bits _ _ =>
      if FitsInUint64 bits
      then Some (pretty ((bits_value bits + (2 ^ 64 - 1)) mod 2 ^ 64)%N)
      else None
  | _ => emit (Sub expr (PlainLiteral 1))
  end.

(** [std::string DataType::EmitWithIdentifier(LineInfo* line_info,
    absl::string_view identifier)] with line tracking off. *)
Definition EmitWithIdentifier (t : DataType) (identifier : string) : option string :=
  let result := if data_type_is_signed t then " signed" else "" in
  result ← match data_type_width t with
           | Some w =>
               limit ← WidthToLimit w;
               Some (result +:+ " [" +:+ limit +:+ ":0]")
           | None => Some result
           end;
  result ← foldl (fun (acc : option string) (dim : Expression) =>
                    result ← acc;
                    limit ← WidthToLimit dim;
                    Some (result +:+ "[" +:+ limit +:+ ":0]"))
                 (Some result) (packed_dims t);
  let result := result +:+ " " +:+ identifier in
  foldl (fun (acc : option string) (dim : Expression) =>
           result ← acc;
           if use_system_verilog then
             size ← emit dim;
             Some (result +:+ "[" +:+ size +:+ "]")
           else
             limit ← WidthToLimit dim;
             Some (result +:+ "[0:" +:+ limit +:+ "]"))
        (Some result) (unpacked_dims t).

(** [std::string Def::EmitNoSemi(LineInfo* line_info)] with line tracking
    off. *)
Definition Def_EmitNoSemi (d : Def) : option string :=
  let kind_str :=
    match def_data_kind d with
    | kReg => "reg"
    | kWire => "wire"
    | kLogic => "logic"
    end in
  text ← EmitWithIdentifier (def_data_type d) (def_name d);
  Some (kind_str +:+ text).

(** [std::string Def::Emit(LineInfo* line_info)] *)
Definition Def_Emit (d : Def) : option string :=
  text ← Def_EmitNoSemi d; Some (text +:+ ";").

(** [std::string RegDef::Emit(LineInfo* line_info)]; [init_] is [None] for
    a register without initial value. *)
Definition RegDef_Emit (d : Def) (init_ : option Expression) : option string :=
  result ← Def_EmitNoSemi d;
  result ← match init_ with
           | Some init => text ← emit init; Some (result +:+ " = " +:+ text)
           | None => Some result
           end;
  Some (result +:+ ";").

(** [Port Port::FromProto(const PortProto& proto, VerilogFile* f)] *)
Definition FromProto (proto : PortProto) : option Port :=
  let direction :=
    if DirectionProto_eqb (proto_direction proto) DIRECTION_INPUT
    then kInput else kOutput in
  type ← BitVectorType (proto_width proto) false;
  Some (MkPort direction (MkDef (proto_name proto) kWire type)).

(** [absl::StatusOr<PortProto> Port::ToProto()] *)
Definition ToProto (port : Port) : option (StatusOr PortProto) :=
  let proto_direction :=
    match direction port with
    | kInput => DIRECTION_INPUT
    | kOutput => DIRECTION_OUTPUT
    end in
  let proto_name := def_name (wire port) in
  match FlatBitCountAsInt64 (def_data_type (wire port)) with
  | Some (Ok width) => Some (Ok (MkPortProto proto_direction proto_name width))
  | Some (Error s) => Some (Error s)
  | None => None
  end.

Lemma as_int64_small v : (0 <= v < 2 ^ 63)%Z -> as_int64 (Z.to_N v) = v.
Proof.
  intros H. unfold as_int64.
  destruct (N.ltb_spec (Z.to_N v) (2 ^ 63)) as [_ | Hge]; [lia |].
  exfalso. apply N2Z.inj_le in Hge. rewrite Z2N.id in Hge by lia.
  change (Z.of_N (2 ^ 63)) with (2 ^ 63)%Z in Hge. lia.
Qed.

Lemma plain_literal_uint64 v :
  (0 <= v < 2 ^ 31)%Z ->
  exists bits format emit_bit_count,
    PlainLiteral v = Literal bits format emit_bit_count
    /\ ToUint64 bits = Ok (Z.to_N v)
    /\ FitsInUint64 bits = true.
Proof.
  intros H. destruct (PlainLiteral_value v H) as (bits & format & ebc & E & Hv).
  exists bits, format, ebc. split; [exact E |].
  assert (Hf : FitsInUint64 bits = true).
  { unfold FitsInUint64. rewrite Hv. apply N.ltb_lt.
    apply N2Z.inj_lt. rewrite Z2N.id by lia.
    change (Z.of_N (2 ^ 64)) with (2 ^ 64)%Z. lia. }
  split; [| exact Hf]. unfold ToUint64. now rewrite Hf, Hv.
Qed.

Lemma wrap_int64_small z : (- 2 ^ 63 <= z < 2 ^ 63)%Z -> wrap_int64 z = z.
Proof. intros H. unfold wrap_int64. rewrite Z.mod_small by lia. lia. Qed.

Lemma product_nonneg dims :
  Forall (fun d => (0 <= d < 2 ^ 31)%Z) dims -> (0 <= product dims)%Z.
Proof.
  induction 1 as [| d dims Hd _ IH]; unfold product in *; cbn [foldr]; [lia | nia].
Qed.

Lemma multiply_plain_dims what dims bit_count :
  Forall (fun d => (0 <= d < 2 ^ 31)%Z) dims ->
  (0 <= bit_count)%Z ->
  (forall k, (bit_count * product (take k dims) < 2 ^ 63)%Z) ->
  multiply_dims what (PlainLiteral <$> dims) bit_count
  = Some (Ok (bit_count * product dims)%Z).
Proof.
  intros H. revert bit_count.
  induction H as [| d dims Hd _ IH]; intros bit_count Hb Hfit.
  - cbn. f_equal. f_equal. lia.
  - cbn [fmap list_fmap multiply_dims].
    destruct (plain_literal_uint64 d Hd) as (bits & format & ebc & -> & -> & _).
    fold (fmap PlainLiteral dims). rewrite as_int64_small by lia.
    assert (Hstep : (bit_count * d < 2 ^ 63)%Z).
    { specialize (Hfit 1). unfold product in Hfit. cbn in Hfit.
      now rewrite take_0, Z.mul_1_r in Hfit. }
    rewrite wrap_int64_small by nia.
    rewrite IH.
    + unfold product. cbn [foldr]. f_equal. f_equal. lia.
    + nia.
    + intros k. specialize (Hfit (S k)). unfold product in *. cbn [take foldr] in Hfit.
      now rewrite Z.mul_assoc in Hfit.
Qed.

Lemma width_of_plain_literal is_signed n packed unpacked :
  (0 <= n < 2 ^ 31)%Z ->
  WidthAsInt64 (MkDataType is_signed (Some (PlainLiteral n)) packed unpacked)
  = Some (Ok n).
Proof.
  intros H. unfold WidthAsInt64. cbn [data_type_width].
  destruct (plain_literal_uint64 n H) as (bits & format & ebc & -> & -> & _).
  cbn. now rewrite as_int64_small by lia.
Qed.

Lemma BitVectorType_flat n is_signed :
  (0 < n < 2 ^ 31)%Z ->
  exists t, BitVectorType n is_signed = Some t
            /\ FlatBitCountAsInt64 t = Some (Ok n).
Proof.
  intros H. unfold BitVectorType.
  destruct (Z.ltb_spec 0 n) as [_ | ?]; [| lia].
  destruct (Z.eqb_spec n 1) as [-> | Hne].
  - destruct is_signed; eexists; (split; [reflexivity |]); reflexivity.
  - eexists. split; [reflexivity |].
    unfold FlatBitCountAsInt64, BitVectorTypeNoScalar.
    rewrite width_of_plain_literal by lia. reflexivity.
Qed.

(** X21. The flat bit count of the types the file constructs.  For a
    positive element width and dimensions below 2^31: a bit vector of [n]
    bits has flat bit count [n], whether it is represented as a scalar
    ([n = 1]) or with a width; and when the product of the width and the
    dimensions, taken one dimension after the other, stays below 2^63, a
    packed and an unpacked array of such elements have flat bit count [n]
    times the product of the dimensions. *)
Theorem X21_flat_bit_count_of_constructed_types :
  forall (n : Z) (dims : list Z) (is_signed : bool),
    (0 < n < 2 ^ 31)%Z ->
    Forall (fun d => (0 <= d < 2 ^ 31)%Z) dims ->
    (exists t, BitVectorType n is_signed = Some t
               /\ FlatBitCountAsInt64 t = Some (Ok n))
    /\ ((forall k, (n * product (take k dims) < 2 ^ 63)%Z) ->
        (exists t, PackedArrayType n dims is_signed = Some t
                   /\ FlatBitCountAsInt64 t = Some (Ok (n * product dims)%Z))
        /\ (exists t, UnpackedArrayType n dims is_signed = Some t
                      /\ FlatBitCountAsInt64 t = Some (Ok (n * product dims)%Z))).
Proof.
  intros n dims is_signed Hn Hd. split; [now apply BitVectorType_flat |].
  intros Hfit. unfold PackedArrayType, UnpackedArrayType.
  destruct (Z.ltb_spec 0 n) as [_ | ?]; [| lia].
  split; eexists; (split; [reflexivity |]); unfold FlatBitCountAsInt64.
  - rewrite width_of_plain_literal by lia. cbn [packed_dims unpacked_dims].
    rewrite multiply_plain_dims by first [exact Hd | exact Hfit | lia]. reflexivity.
  - cbn [packed_dims unpacked_dims].
    destruct (Z.eqb_spec n 1) as [-> | Hne].
    + cbn [WidthAsInt64 data_type_width multiply_dims].
      now rewrite multiply_plain_dims by first [exact Hd | exact Hfit | lia].
    + rewrite width_of_plain_literal by lia. cbn [multiply_dims].
      now rewrite multiply_plain_dims by first [exact Hd | exact Hfit | lia].
Qed.

(** X22. A port survives the trip through its proto.  For a width that is
    positive and below 2^31, [FromProto] builds a port and [ToProto] of it
    succeeds with the same name and width; the direction comes back as
    input when it was input and as output in every other case, so a proto
    whose direction is input or output comes back unchanged.  For a width
    that is not positive, [FromProto] fails its check. *)
Theorem X22_port_proto_round_trip :
  forall proto : PortProto,
    ((proto_width proto <= 0)%Z -> FromProto proto = None)
    /\ ((0 < proto_width proto < 2 ^ 31)%Z ->
        exists port,
          FromProto proto = Some port
          /\ ToProto port
             = Some (Ok (MkPortProto
                           (if DirectionProto_eqb (proto_direction proto) DIRECTION_INPUT
                            then DIRECTION_INPUT else DIRECTION_OUTPUT)
                           (proto_name proto) (proto_width proto)))
          /\ (proto_direction proto = DIRECTION_INPUT
              \/ proto_direction proto = DIRECTION_OUTPUT ->
              ToProto port = Some (Ok proto))).
Proof.
  intros [dir name width]. cbn [proto_width proto_direction proto_name]. split.
  - intros H. unfold FromProto, BitVectorType. cbn [proto_width].
    destruct (Z.ltb_spec 0 width) as [? | _]; [lia | reflexivity].
  - intros H. destruct (BitVectorType_flat width false H) as (t & Ht & Hf).
    unfold FromProto. cbn [proto_width proto_direction proto_name]. rewrite Ht. cbn.
    eexists. split; [reflexivity |].
    assert (E : forall d,
               ToProto (MkPort d (MkDef name kWire t))
               = Some (Ok (MkPortProto
                             match d with
                             | kInput => DIRECTION_INPUT
                             | kOutput => DIRECTION_OUTPUT
                             end name width))).
    { intros d. unfold ToProto. cbn [wire def_data_type def_name direction].
      now rewrite Hf. }
    rewrite E. split.
    + now destruct (DirectionProto_eqb dir DIRECTION_INPUT).
    + intros Hdir. f_equal. f_equal.
      destruct (DirectionProto_eqb dir DIRECTION_INPUT) eqn:Ed.
      * apply DirectionProto_eqb_eq in Ed. now subst.
      * destruct Hdir as [-> | ->]; [| reflexivity].
        assert (Ht' : DirectionProto_eqb DIRECTION_INPUT DIRECTION_INPUT = true)
          by now apply DirectionProto_eqb_eq.
        congruence.
Qed.

Lemma limit_of_plain_literal v :
  (0 < v < 2 ^ 31)%Z ->
  WidthToLimit (PlainLiteral v) = Some (pretty (Z.to_N (v - 1))).
Proof.
  intros H.
  destruct (PlainLiteral_value v ltac:(lia)) as (bits & format & ebc & -> & Hv).
  assert (Hf : FitsInUint64 bits = true).
  { unfold FitsInUint64. rewrite Hv. apply N.ltb_lt.
    apply N2Z.inj_lt. rewrite Z2N.id by lia.
    change (Z.of_N (2 ^ 64)) with (2 ^ 64)%Z. lia. }
  unfold WidthToLimit. rewrite Hf, Hv. f_equal. f_equal.
  apply N2Z.inj. rewrite N2Z.inj_mod, N2Z.inj_add, !Z2N.id by lia.
  change (Z.of_N (2 ^ 64 - 1)) with (2 ^ 64 - 1)%Z.
  change (Z.of_N (2 ^ 64)) with (2 ^ 64)%Z.
  replace (v + (2 ^ 64 - 1))%Z with ((v - 1) + 1 * 2 ^ 64)%Z by lia.
  rewrite Z.mod_add by lia. apply Z.mod_small. lia.
Qed.

Lemma packed_ranges dims result :
  Forall (fun d => (0 < d < 2 ^ 31)%Z) dims ->
  foldl (fun (acc : option string) (dim : Expression) =>
           result ← acc;
           limit ← WidthToLimit dim;
           Some (result +:+ "[" +:+ limit +:+ ":0]"))
        (Some result) (PlainLiteral <$> dims)
  = Some (result +:+ ranges_of dims).
Proof.
  intros H. revert result. induction H as [| d dims Hd _ IH]; intros result.
  - cbn. now rewrite append_empty_r.
  - cbn [fmap list_fmap foldl]. fold (fmap PlainLiteral dims).
    rewrite limit_of_plain_literal by exact Hd. cbn [mbind option_bind].
    rewrite IH. unfold ranges_of. cbn [fmap list_fmap foldr].
    now rewrite append_assoc.
Qed.

(** X23. The declarations of the types the file constructs.  For widths
    and dimensions that are positive and below 2^31: a declaration of a
    bit vector of one bit carries no range, one of [n > 1] bits carries
    the range [[n-1:0]]; a declaration of a packed array always carries
    the range of its element, also for elements of one bit, followed by
    one range for each dimension. *)
Theorem X23_declarations_of_constructed_types :
  forall (n : Z) (dims : list Z) (is_signed : bool) (name : string)
         (kind : DataKind),
    (0 < n < 2 ^ 31)%Z ->
    Forall (fun d => (0 < d < 2 ^ 31)%Z) dims ->
    (forall t, BitVectorType n is_signed = Some t ->
       Def_Emit (MkDef name kind t)
       = Some (kind_keyword kind +:+ (if is_signed then " signed" else "")
               +:+ (if (n =? 1)%Z then "" else " " +:+ range_of n)
               +:+ " " +:+ name +:+ ";"))
    /\ (forall t, PackedArrayType n dims is_signed = Some t ->
          Def_Emit (MkDef name kind t)
          = Some (kind_keyword kind +:+ (if is_signed then " signed" else "")
                  +:+ " " +:+ range_of n +:+ ranges_of dims
                  +:+ " " +:+ name +:+ ";")).
Proof.
  intros n dims is_signed name kind Hn Hd.
  assert (Hkind : match kind with kReg => "reg" | kWire => "wire" | kLogic => "logic" end
                  = kind_keyword kind) by reflexivity.
  split; intros t Ht.
  - unfold BitVectorType in Ht.
    destruct (Z.ltb_spec 0 n) as [_ | ?]; [| lia].
    destruct (Z.eqb_spec n 1) as [-> | Hne].
    + assert (E : t = MkDataType is_signed None [] [])
        by (destruct is_signed; congruence).
      subst t. unfold Def_Emit, Def_EmitNoSemi, EmitWithIdentifier.
      cbn [def_data_type def_name def_data_kind data_type_is_signed data_type_width
           packed_dims unpacked_dims foldl mbind option_bind].
      rewrite Hkind. f_equal. rewrite !append_assoc. reflexivity.
    + injection Ht as <-. unfold Def_Emit, Def_EmitNoSemi, EmitWithIdentifier,
        BitVectorTypeNoScalar.
      cbn [def_data_type def_name def_data_kind data_type_is_signed data_type_width
           packed_dims unpacked_dims].
      rewrite limit_of_plain_literal by lia.
      cbn [foldl mbind option_bind]. rewrite Hkind. f_equal.
      unfold range_of. rewrite !append_assoc. reflexivity.
  - unfold PackedArrayType in Ht.
    destruct (Z.ltb_spec 0 n) as [_ | ?]; [| lia].
    injection Ht as <-. unfold Def_Emit, Def_EmitNoSemi, EmitWithIdentifier.
    cbn [def_data_type def_name def_data_kind data_type_is_signed data_type_width
         packed_dims unpacked_dims].
    rewrite limit_of_plain_literal by lia. cbn [mbind option_bind].
    rewrite packed_ranges by exact Hd.
    cbn [foldl mbind option_bind]. rewrite Hkind. f_equal.
    unfold range_of. rewrite !append_assoc. reflexivity.
Qed.

End DataTypes.

Module TypeFixtures.

(** A file whose plain literals are 32-bit literals in the default
    format, and the three directions of the signature proto. *)
Definition PlainLiteral (v : Z) : Expression :=
  Literal (MkBits 32 (Z.to_N v)) kDefault false.

Definition Sub (lhs rhs : Expression) : Expression := BinaryInfix lhs "-" rhs.

Definition ToUint64_error (_ : Bits) : Status :=
  MkStatus kInvalidArgument "Bits value cannot be represented as an unsigned 64-bit value".

Inductive DirectionProto := DIRECTION_INVALID | DIRECTION_INPUT | DIRECTION_OUTPUT.

Definition DirectionProto_eqb (x y : DirectionProto) : bool :=
  match x, y with
  | DIRECTION_INVALID, DIRECTION_INVALID
  | DIRECTION_INPUT, DIRECTION_INPUT
  | DIRECTION_OUTPUT, DIRECTION_OUTPUT => true
  | _, _ => false
  end.

Lemma plain_literal_fixture_value (v : Z) :
  (0 <= v < 2 ^ 31)%Z ->
  exists bits format emit_bit_count,
    PlainLiteral v = Literal bits format emit_bit_count
    /\ bits_value bits = Z.to_N v.
Proof. intros _. eexists _, _, _. split; reflexivity. Defined.

Lemma direction_fixture_eqb_eq (x y : DirectionProto) :
  DirectionProto_eqb x y = true <-> x = y.
Proof. destruct x, y; cbn; split; intros H; try reflexivity; discriminate H. Defined.

Definition flat_bit_count : DataType -> option (StatusOr Z) :=
  FlatBitCountAsInt64 Fixtures.precedence Fixtures.IsReduction Fixtures.IsScalar
    Fixtures.Bits_ToString Fixtures.Bits_ToRawDigits ToUint64_error.

Definition declaration : Def -> option string :=
  Def_Emit Fixtures.precedence Fixtures.IsReduction Fixtures.IsScalar
    Fixtures.Bits_ToString Fixtures.Bits_ToRawDigits PlainLiteral Sub false.

Definition from_proto : PortProto DirectionProto -> option Port :=
  FromProto PlainLiteral DirectionProto DIRECTION_INPUT DirectionProto_eqb.

Definition to_proto : Port -> option (StatusOr (PortProto DirectionProto)) :=
  ToProto Fixtures.precedence Fixtures.IsReduction Fixtures.IsScalar
    Fixtures.Bits_ToString Fixtures.Bits_ToRawDigits ToUint64_error
    DirectionProto DIRECTION_INPUT DIRECTION_OUTPUT.

End TypeFixtures.

Lemma X21_flat_bit_count_of_constructed_types_witness :
  (exists t, PackedArrayType TypeFixtures.PlainLiteral 8 [4; 2]%Z false = Some t
             /\ TypeFixtures.flat_bit_count t = Some (Ok (8 * product [4; 2])%Z))
  /\ (exists t, UnpackedArrayType TypeFixtures.PlainLiteral 8 [4; 2]%Z false = Some t
                /\ TypeFixtures.flat_bit_count t = Some (Ok (8 * product [4; 2])%Z)).
Proof.
  apply (proj2 (X21_flat_bit_count_of_constructed_types
                  Fixtures.precedence Fixtures.IsReduction Fixtures.IsScalar
                  Fixtures.Bits_ToString Fixtures.Bits_ToRawDigits
                  TypeFixtures.PlainLiteral TypeFixtures.ToUint64_error
                  TypeFixtures.plain_literal_fixture_value 8 [4; 2]%Z false
                  ltac:(lia) ltac:(repeat constructor; lia))).
  intros [| [| [| k]]]; vm_compute; reflexivity.
Defined.

Lemma X22_port_proto_round_trip_witness :
  exists port,
    TypeFixtures.from_proto (MkPortProto _ TypeFixtures.DIRECTION_INVALID "x" 8) = Some port
    /\ TypeFixtures.to_proto port
       = Some (Ok (MkPortProto _ TypeFixtures.DIRECTION_OUTPUT "x" 8)).
Proof.
  destruct (proj2 (X22_port_proto_round_trip
                     Fixtures.precedence Fixtures.IsReduction Fixtures.IsScalar
                     Fixtures.Bits_ToString Fixtures.Bits_ToRawDigits
                     TypeFixtures.PlainLiteral TypeFixtures.ToUint64_error
                     TypeFixtures.DirectionProto
                     TypeFixtures.DIRECTION_INPUT TypeFixtures.DIRECTION_OUTPUT
                     TypeFixtures.DirectionProto_eqb
                     TypeFixtures.plain_literal_fixture_value
                     TypeFixtures.direction_fixture_eqb_eq
                     (MkPortProto _ TypeFixtures.DIRECTION_INVALID "x" 8))
                  ltac:(cbn; lia))
    as (port & H1 & H2 & _).
  exists port. split; [exact H1 | exact H2].
Defined.

Lemma X23_declarations_of_constructed_types_witness :
  TypeFixtures.declaration
    (MkDef "x" kWire (MkDataType false (Some (TypeFixtures.PlainLiteral 8)) [] []))
  = Some "wire [7:0] x;"
  /\ TypeFixtures.declaration
       (MkDef "m" kReg
          (MkDataType false (Some (TypeFixtures.PlainLiteral 1))
             [TypeFixtures.PlainLiteral 42] []))
     = Some "reg [0:0][41:0] m;".
Proof.
  split.
  - apply (proj1 (X23_declarations_of_constructed_types
                    Fixtures.precedence Fixtures.IsReduction Fixtures.IsScalar
                    Fixtures.Bits_ToString Fixtures.Bits_ToRawDigits
                    TypeFixtures.PlainLiteral TypeFixtures.Sub false
                    TypeFixtures.plain_literal_fixture_value
                    8 [] false "x" kWire ltac:(lia) ltac:(constructor))).
    reflexivity.
  - apply (proj2 (X23_declarations_of_constructed_types
                    Fixtures.precedence Fixtures.IsReduction Fixtures.IsScalar
                    Fixtures.Bits_ToString Fixtures.Bits_ToRawDigits
                    TypeFixtures.PlainLiteral TypeFixtures.Sub false
                    TypeFixtures.plain_literal_fixture_value
                    1 [42]%Z false "m" kReg ltac:(lia) ltac:(repeat constructor; lia))).
    reflexivity.
Defined.

(** ** Containers: files, module sections and local parameters *)

(** An emitter keeps the line count when, with line tracking on, it
    leaves the current line advanced by the number of newlines in the
    text it returns. *)
Definition keeps_line_count {A : Type}
    (emit : A -> option LineInfo -> option (string * option LineInfo)) : Prop :=
  forall (a : A) (li : LineInfo) (text : string) (r : option LineInfo),
    emit a (Some li) = Some (text, r) ->
    exists li', r = Some li'
                /\ current_line_number_ li'
                   = (current_line_number_ li + NumberOfNewlines text)%Z.

Section Containers.

(** The members of a file or of a module section with their [Emit], which
    the visitors of [VerilogFile::Emit] and [EmitModuleMember] dispatch
    to, the test for a member that is a module section without members,
    and [Emit] of an expression. *)
Variable Member : Type.
Variable Member_Emit : Member -> option LineInfo -> option (string * option LineInfo).
Variable is_empty_section : Member -> bool.
Variable Expression_Emit :
  Expression -> option LineInfo -> option (string * option LineInfo).

(** The loop of [VerilogFile::Emit]. *)
Fixpoint emit_file_members (members : list Member) (line_info : option LineInfo)
    (out : string) : option (string * option LineInfo) :=
  match members with
  | [] => Some (out, line_info)
  | member :: rest =>
      '(text, line_info) ← Member_Emit member line_info;
      let out := out +:+ text +:+ newline_string in
      let line_info := LineInfoIncrease line_info 1 in
      emit_file_members rest line_info out
  end.

(** [std::string VerilogFile::Emit(LineInfo* line_info)] *)
Definition VerilogFile_Emit (members_ : list Member) (line_info : option LineInfo)
  : option (string * option LineInfo) :=
  emit_file_members members_ line_info EmptyString.

(** The loop of [ModuleSection::Emit]. *)
Fixpoint emit_section_members (members : list Member) (line_info : option LineInfo)
    (elements : list string) : option (list string * option LineInfo) :=
  match members with
  | [] => Some (elements, line_info)
  | member :: rest =>
      if is_empty_section member then emit_section_members rest line_info elements
      else
        '(text, line_info) ← Member_Emit member line_info;
        let elements := elements ++ [text] in
        let line_info := LineInfoIncrease line_info 1 in
        emit_section_members rest line_info elements
  end.

(** [std::string ModuleSection::Emit(LineInfo* line_info)]; the section is
    its node and its members. *)
Definition ModuleSection_Emit (section : nat * list Member)
    (line_info : option LineInfo) : option (string * option LineInfo) :=
  let '(this, members_) := section in
  line_info ← LineInfoStart line_info this;
  '(elements, line_info) ← emit_section_members members_ line_info [];
  let line_info :=
    if bool_decide (elements = []) then line_info
    else LineInfoIncrease line_info (-1) in
  line_info ← LineInfoEnd line_info this;
  Some (StrJoin elements newline_string, line_info).

(** [class LocalParamItem]: its node, name and value. *)
Record LocalParamItem := MkLocalParamItem {
  item_node : nat;
  item_name : string;
  item_rhs : Expression;
}.

(** [std::string LocalParamItem::Emit(LineInfo* line_info)] *)
Definition LocalParamItem_Emit (item : LocalParamItem) (line_info : option LineInfo)
  : option (string * option LineInfo) :=
  line_info ← LineInfoStart line_info (item_node item);
  let line_info := LineInfoIncrease line_info (NumberOfNewlines (item_name item)) in
  '(rhs, line_info) ← Expression_Emit (item_rhs item) line_info;
  let result := item_name item +:+ " = " +:+ rhs in
  line_info ← LineInfoEnd line_info (item_node item);
  Some (result, line_info).

(** The formatter [append_item] of [LocalParam::Emit] run over the items
    by [StrJoin]. *)
Fixpoint append_items (items : list LocalParamItem) (line_info : option LineInfo)
  : option (list string * option LineInfo) :=
  match items with
  | [] => Some ([], line_info)
  | item :: rest =>
      '(text, line_info) ← LocalParamItem_Emit item line_info;
      let line_info := LineInfoIncrease line_info 1 in
      '(texts, line_info) ← append_items rest line_info;
      Some (text :: texts, line_info)
  end.

Definition comma_newline : string := "," +:+ newline_string +:+ "  ".

(** [std::string LocalParam::Emit(LineInfo* line_info)]; the statement is
    its node and its items. *)
Definition LocalParam_Emit (param : nat * list LocalParamItem)
    (line_info : option LineInfo) : option (string * option LineInfo) :=
  let '(this, items_) := param in
  line_info ← LineInfoStart line_info this;
  let result := "localparam" in
  match items_ with
  | [item] =>
      '(text, line_info) ← LocalParamItem_Emit item line_info;
      let result := result +:+ " " +:+ text +:+ ";" in
      line_info ← LineInfoEnd line_info this;
      Some (result, line_info)
  | _ =>
      let result := result +:+ newline_string +:+ "  " in
      let line_info := LineInfoIncrease line_info 1 in
      '(texts, line_info) ← append_items items_ line_info;
      let result := result +:+ StrJoin texts comma_newline +:+ ";" in
      let line_info :=
        if bool_decide (1 < length items_) then LineInfoIncrease line_info (-1)
        else line_info in
      line_info ← LineInfoEnd line_info this;
      Some (result, line_info)
  end.

Lemma tracked_start li node r :
  LineInfoStart (Some li) node = Some r ->
  exists li', r = Some li' /\ current_line_number_ li' = current_line_number_ li.
Proof.
  cbn. destruct (Start li node) as [li' |] eqn:E; [| discriminate]. cbn.
  intros [= <-]. apply Start_inv in E as [E _]. eauto.
Qed.

Lemma tracked_end li node r :
  LineInfoEnd (Some li) node = Some r ->
  exists li', r = Some li' /\ current_line_number_ li' = current_line_number_ li.
Proof.
  cbn. destruct (End_ li node) as [li' |] eqn:E; [| discriminate]. cbn.
  intros [= <-]. apply End_inv in E as (_ & _ & _ & _ & E & _). eauto.
Qed.

Definition total_newlines (texts : list string) : Z :=
  foldr (fun text n => (NumberOfNewlines text + n)%Z) 0%Z texts.

Lemma total_newlines_app texts1 texts2 :
  total_newlines (texts1 ++ texts2)
  = (total_newlines texts1 + total_newlines texts2)%Z.
Proof.
  induction texts1 as [| t ts IH]; cbn; [reflexivity |].
  unfold total_newlines in *. cbn. rewrite IH. lia.
Qed.

Lemma joined_newlines (texts : list string) (sep : string) :
  NumberOfNewlines (StrJoin texts sep)
  = (total_newlines texts
     + NumberOfNewlines sep * Z.of_nat (Nat.pred (length texts)))%Z.
Proof.
  unfold StrJoin. induction texts as [| t ts IH]; [cbn; lia |].
  destruct ts as [| t2 ts].
  - cbn. lia.
  - cbn [String.concat]. rewrite !NumberOfNewlines_app.
    cbn [String.concat] in IH. rewrite IH.
    unfold total_newlines. cbn [foldr length Nat.pred]. lia.
Qed.

Section Consistent.

Hypothesis members_keep : keeps_line_count Member_Emit.

Lemma file_members_keep members li out text r :
  emit_file_members members (Some li) out = Some (text, r) ->
  exists li', r = Some li'
              /\ (current_line_number_ li' - NumberOfNewlines text
                  = current_line_number_ li - NumberOfNewlines out)%Z.
Proof.
  revert li out. induction members as [| m rest IH]; intros li out; cbn.
  - intros [= <- <-]. eauto.
  - destruct (Member_Emit m (Some li)) as [[t r1] |] eqn:E; [| discriminate]. cbn.
    destruct (members_keep _ _ _ _ E) as (li1 & -> & Hc). cbn.
    intros H. apply IH in H as (li' & -> & H). exists li'. split; [reflexivity |].
    rewrite H. cbn. rewrite !NumberOfNewlines_app, Hc.
    change (NumberOfNewlines newline_string) with 1%Z. lia.
Qed.

Lemma section_members_keep members li elements elements' r :
  emit_section_members members (Some li) elements = Some (elements', r) ->
  exists li' added,
    r = Some li' /\ elements' = elements ++ added
    /\ current_line_number_ li'
       = (current_line_number_ li + total_newlines added
          + Z.of_nat (length added))%Z.
Proof.
  revert li elements. induction members as [| m rest IH]; intros li elements; cbn.
  - intros [= <- <-]. exists li, []. rewrite app_nil_r. cbn. split; [| split]; try reflexivity. lia.
  - destruct (is_empty_section m); [apply IH |].
    destruct (Member_Emit m (Some li)) as [[t r1] |] eqn:E; [| discriminate]. cbn.
    destruct (members_keep _ _ _ _ E) as (li1 & -> & Hc). cbn.
    intros H. apply IH in H as (li' & added & -> & -> & H).
    exists li', (t :: added). split; [reflexivity |].
    split; [now rewrite <- app_assoc |].
    rewrite H. cbn. unfold total_newlines. cbn [foldr length]. lia.
Qed.

(** X24. Files and module sections keep the line count.  If every member
    emitter leaves the current line advanced by the number of newlines in
    its text, then so do [VerilogFile::Emit], which ends each member with
    a newline, and [ModuleSection::Emit], which joins its members with
    newlines, skips empty subsections and takes back the increase made
    after the last member. *)
Theorem X24_containers_keep_the_line_count :
  keeps_line_count VerilogFile_Emit /\ keeps_line_count ModuleSection_Emit.
Proof.
  split.
  - intros members li text r H. unfold VerilogFile_Emit in H.
    apply file_members_keep in H as (li' & -> & H). exists li'.
    split; [reflexivity |]. cbn in H. lia.
  - intros [this members] li text r H. unfold ModuleSection_Emit in H.
    destruct (LineInfoStart (Some li) this) as [r0 |] eqn:Es; [| discriminate].
    destruct (tracked_start _ _ _ Es) as (li0 & -> & Hc0). cbn in H.
    destruct (emit_section_members members (Some li0) []) as [[elements r1] |] eqn:Em;
      [| discriminate].
    apply section_members_keep in Em as (li1 & added & -> & -> & Hc1).
    cbn [mbind option_bind app] in H.
    destruct (bool_decide (added = [])) eqn:Eb.
    + apply bool_decide_eq_true in Eb. subst added.
      destruct (LineInfoEnd (Some li1) this) as [r2 |] eqn:Ee; [| discriminate].
      destruct (tracked_end _ _ _ Ee) as (li2 & -> & Hc2). cbn in H.
      injection H as <- <-. exists li2. split; [reflexivity |]. cbn in *. lia.
    + apply bool_decide_eq_false in Eb. cbn [LineInfoIncrease] in H.
      destruct (LineInfoEnd _ this) as [r2 |] eqn:Ee; [| discriminate].
      destruct (tracked_end _ _ _ Ee) as (li2 & -> & Hc2). cbn in H.
      injection H as <- <-. exists li2. split; [reflexivity |].
      rewrite joined_newlines. change (NumberOfNewlines newline_string) with 1%Z.
      cbn in Hc2. destruct added as [| t ts]; [contradiction |].
      cbn [length Nat.pred] in *. lia.
Qed.

End Consistent.

Section LocalParams.

Hypothesis expressions_keep : keeps_line_count Expression_Emit.

Lemma item_keeps : keeps_line_count LocalParamItem_Emit.
Proof.
  intros item li text r H. unfold LocalParamItem_Emit in H.
  destruct (LineInfoStart (Some li) (item_node item)) as [r0 |] eqn:Es; [| discriminate].
  destruct (tracked_start _ _ _ Es) as (li0 & -> & Hc0).
  cbn [mbind option_bind LineInfoIncrease] in H.
  destruct (Expression_Emit (item_rhs item) _) as [[rhs r1] |] eqn:Ex; [| discriminate].
  destruct (expressions_keep _ _ _ _ Ex) as (li1 & -> & Hc1).
  cbn [mbind option_bind] in H.
  destruct (LineInfoEnd (Some li1) (item_node item)) as [r2 |] eqn:Ee; [| discriminate].
  destruct (tracked_end _ _ _ Ee) as (li2 & -> & Hc2). cbn [mbind option_bind] in H.
  injection H as <- <-. exists li2. split; [reflexivity |].
  rewrite !NumberOfNewlines_app. cbn in Hc1.
  change (NumberOfNewlines " = ") with 0%Z. lia.
Qed.

Lemma append_items_keep items li texts r :
  append_items items (Some li) = Some (texts, r) ->
  exists li',
    r = Some li' /\ length texts = length items
    /\ current_line_number_ li'
       = (current_line_number_ li + total_newlines texts
          + Z.of_nat (length items))%Z.
Proof.
  revert li texts r. induction items as [| item rest IH]; intros li texts r;
    cbn [append_items].
  - intros [= <- <-]. exists li. cbn. repeat split. lia.
  - destruct (LocalParamItem_Emit item (Some li)) as [[t r1] |] eqn:E;
      [| discriminate].
    destruct (item_keeps _ _ _ _ E) as (li1 & -> & Hc).
    cbn [mbind option_bind LineInfoIncrease].
    destruct (append_items rest _) as [[ts r2] |] eqn:Er; [| discriminate].
    cbn [mbind option_bind].
    apply IH in Er as (li' & -> & Hl & H). intros [= <- <-].
    exists li'. split; [reflexivity |]. cbn [length]. split; [now rewrite Hl |].
    rewrite H. cbn. unfold total_newlines. cbn [foldr]. lia.
Qed.

(** X25. A [localparam] statement keeps the line count.  If expression
    emitters leave the current line advanced by the number of newlines in
    their text, so does [LocalParam::Emit]: for a single item, which is
    emitted on the line of the keyword, and for none or several, where
    the items go on lines of their own and the increase made after the
    last of several items is taken back. *)
Theorem X25_localparam_keeps_the_line_count :
  keeps_line_count LocalParam_Emit.
Proof.
  intros [this items] li text r H. unfold LocalParam_Emit in H.
  destruct (LineInfoStart (Some li) this) as [r0 |] eqn:Es; [| discriminate].
  destruct (tracked_start _ _ _ Es) as (li0 & -> & Hc0). cbn [mbind option_bind] in H.
  assert (Hmany :
    forall items,
      length items ≠ 1 ->
      ('(texts, line_info) ← append_items items (LineInfoIncrease (Some li0) 1);
       let result := ("localparam" +:+ newline_string +:+ "  ")
                     +:+ StrJoin texts comma_newline +:+ ";" in
       let line_info :=
         if bool_decide (1 < length items) then LineInfoIncrease line_info (-1)
         else line_info in
       line_info ← LineInfoEnd line_info this;
       Some (result, line_info)) = Some (text, r) ->
      exists li', r = Some li'
                  /\ current_line_number_ li'
                     = (current_line_number_ li + NumberOfNewlines text)%Z).
  { clear H. intros its Hlen H. cbn [LineInfoIncrease] in H.
    destruct (append_items its _) as [[texts r1] |] eqn:Ea; [| discriminate].
    apply append_items_keep in Ea as (li1 & -> & Hl & Hc1). cbn [mbind option_bind] in H.
    cbn zeta in H.
    destruct (bool_decide (1 < length its)) eqn:Eb.
    - apply bool_decide_eq_true in Eb. cbn [LineInfoIncrease] in H.
      destruct (LineInfoEnd _ this) as [r2 |] eqn:Ee; [| discriminate].
      destruct (tracked_end _ _ _ Ee) as (li2 & -> & Hc2). cbn in H.
      injection H as <- <-. exists li2. split; [reflexivity |].
      rewrite !NumberOfNewlines_app, joined_newlines.
      change (NumberOfNewlines comma_newline) with 1%Z.
      change (NumberOfNewlines "localparam") with 0%Z.
      change (NumberOfNewlines newline_string) with 1%Z.
      change (NumberOfNewlines "  ") with 0%Z.
      change (NumberOfNewlines ";") with 0%Z.
      cbn in Hc1, Hc2. rewrite Hl. lia.
    - apply bool_decide_eq_false in Eb.
      assert (its = []) as -> by (destruct its as [| ? [| ? ?]]; cbn in *; [reflexivity | lia | lia]).
      cbn in Hl. destruct texts; [| discriminate].
      destruct (LineInfoEnd _ this) as [r2 |] eqn:Ee; [| discriminate].
      destruct (tracked_end _ _ _ Ee) as (li2 & -> & Hc2). cbn in H.
      injection H as <- <-. exists li2. split; [reflexivity |].
      change (NumberOfNewlines (("localparam" +:+ newline_string +:+ "  ")
                                  +:+ "" +:+ ";")) with 1%Z.
      cbn in Hc1, Hc2. lia. }
  destruct items as [| item [| item2 rest]].
  - apply (Hmany []); [cbn; lia | exact H].
  - destruct (LocalParamItem_Emit item (Some li0)) as [[t r1] |] eqn:E; [| discriminate].
    destruct (item_keeps _ _ _ _ E) as (li1 & -> & Hc1). cbn [mbind option_bind] in H.
    destruct (LineInfoEnd (Some li1) this) as [r2 |] eqn:Ee; [| discriminate].
    destruct (tracked_end _ _ _ Ee) as (li2 & -> & Hc2). cbn in H.
    injection H as <- <-. exists li2. split; [reflexivity |].
    rewrite !NumberOfNewlines_app.
    change (NumberOfNewlines "localparam") with 0%Z.
    change (NumberOfNewlines " ") with 0%Z.
    change (NumberOfNewlines ";") with 0%Z. lia.
  - apply (Hmany (item :: item2 :: rest)); [cbn; lia | exact H].
Qed.

End LocalParams.

End Containers.

Lemma text_node_keeps (this : nat) :
  keeps_line_count (fun n line_info => TextNode_Emit n line_info this).
Proof.
  intros n li text r H. rewrite tracked_text in H.
  destruct (Start li this) as [li1 |] eqn:Es; [| discriminate]. cbn [mbind option_bind] in H.
  destruct (End_ _ this) as [li2 |] eqn:Ee; [| discriminate]. cbn [mbind option_bind] in H.
  destruct (TextNode_Emit n None 0) as [[t r0] |] eqn:Et; [| discriminate].
  cbn in H. injection H as <- <-. exists li2. split; [reflexivity |].
  apply emitted_newlines in Et. rewrite Et.
  apply Start_inv in Es as (Hc1 & _).
  apply End_inv in Ee as (_ & _ & _ & _ & Hc2 & _).
  rewrite Hc2. cbn. lia.
Qed.

Module ContainerFixtures.

(** Members that are text nodes, each with its node. *)
Definition Member : Type := nat * TextNode.

Definition Member_Emit (member : Member) (line_info : option LineInfo)
  : option (string * option LineInfo) :=
  TextNode_Emit member.2 line_info member.1.

(** Values that are inline Verilog references, all emitted by one node. *)
Definition Expression_Emit (e : Expression) (line_info : option LineInfo)
  : option (string * option LineInfo) :=
  match e with
  | InlineVerilogRef name => InlineVerilogRef_Emit name line_info 0
  | _ => None
  end.

Lemma member_fixture_keeps : keeps_line_count Member_Emit.
Proof. intros [this n] li text r H. exact (text_node_keeps this n li text r H). Defined.

Lemma expression_fixture_keeps : keeps_line_count Expression_Emit.
Proof.
  intros e li text r H. destruct e; try discriminate H.
  exact (text_node_keeps 0 (AnInlineVerilogRef name) li text r H).
Defined.

End ContainerFixtures.

Lemma X24_containers_keep_the_line_count_witness :
  keeps_line_count (VerilogFile_Emit ContainerFixtures.Member ContainerFixtures.Member_Emit)
  /\ keeps_line_count
       (ModuleSection_Emit ContainerFixtures.Member ContainerFixtures.Member_Emit
          (fun _ => false)).
Proof.
  apply (X24_containers_keep_the_line_count
           ContainerFixtures.Member ContainerFixtures.Member_Emit (fun _ => false)
           ContainerFixtures.member_fixture_keeps).
Defined.

Lemma X25_localparam_keeps_the_line_count_witness :
  keeps_line_count (LocalParam_Emit ContainerFixtures.Expression_Emit).
Proof.
  apply (X25_localparam_keeps_the_line_count
           ContainerFixtures.Expression_Emit
           ContainerFixtures.expression_fixture_keeps).
Defined.

(** ** Conditionals *)

Section Conditionals.

(** The statements of a block, whose classes play no part below. *)
Variable Statement : Type.

(** [class Conditional]: the condition, the consequent block and the
    alternates, each a condition ([nullptr], here [None], for a plain
    [else]) and a block. *)
Record Conditional := MkConditional {
  condition_ : Expression;
  consequent_ : list Statement;
  alternates_ : list (option Expression * list Statement);
}.

(** [Conditional::Conditional(Expression* condition, file, loc)] *)
Definition Conditional_new (condition : Expression) : Conditional :=
  MkConditional condition [] [].

(** [StatementBlock* Conditional::AddAlternate(Expression* condition)];
    [None] is the failed [XLS_CHECK], which passes when there is no
    alternate ([last] gives nothing) or the last one has a condition.  The
    block handed back is the one of the last alternate. *)
Definition AddAlternate (c : Conditional) (condition : option Expression)
  : option Conditional :=
  match last (alternates_ c) with
  | Some (None, _) => None
  | Some (Some _, _) | None =>
      Some (MkConditional (condition_ c) (consequent_ c)
              (alternates_ c ++ [(condition, [])]))
  end.

(** A run of [AddAlternate] calls. *)
Fixpoint AddAlternates (conditions : list (option Expression)) (c : Conditional)
  : option Conditional :=
  match conditions with
  | [] => Some c
  | condition :: rest => c' ← AddAlternate c condition; AddAlternates rest c'
  end.

(** Every condition but the last is present. *)
Fixpoint else_only_last (conditions : list (option Expression)) : bool :=
  match conditions with
  | [] => true
  | [_] => true
  | condition :: rest => bool_decide (is_Some condition) && else_only_last rest
  end.

Definition accepts_alternate (c : Conditional) : Prop :=
  alternates_ c = [] \/ exists e block alts, alternates_ c = alts ++ [(Some e, block)].

Lemma AddAlternate_open c condition :
  accepts_alternate c ->
  AddAlternate c condition
  = Some (MkConditional (condition_ c) (consequent_ c)
            (alternates_ c ++ [(condition, [])])).
Proof.
  intros [H | (e & block & alts & H)]; unfold AddAlternate; rewrite H.
  - reflexivity.
  - now rewrite last_snoc.
Qed.

Lemma AddAlternate_closed c block alts condition :
  alternates_ c = alts ++ [(None, block)] -> AddAlternate c condition = None.
Proof.
  intros H. unfold AddAlternate. now rewrite H, last_snoc.
Qed.

Lemma AddAlternates_open conditions c :
  accepts_alternate c ->
  AddAlternates conditions c
  = if else_only_last conditions
    then Some (MkConditional (condition_ c) (consequent_ c)
                 (alternates_ c ++ ((fun condition => (condition, [])) <$> conditions)))
    else None.
Proof.
  revert c. induction conditions as [| condition rest IH]; intros c Ho.
  - cbn. rewrite app_nil_r. now destruct c.
  - cbn [AddAlternates]. rewrite AddAlternate_open by exact Ho. cbn [mbind option_bind].
    destruct condition as [e |].
    + rewrite IH by (right; cbn; eauto). cbn [condition_ consequent_ alternates_].
      cbn [else_only_last]. rewrite bool_decide_eq_true_2 by eauto.
      rewrite <- app_assoc. cbn. now destruct rest.
    + destruct rest as [| next rest].
      * cbn. reflexivity.
      * cbn [AddAlternates else_only_last].
        erewrite AddAlternate_closed by reflexivity. reflexivity.
Qed.

Lemma else_only_last_spec conditions :
  else_only_last conditions = true
  <-> forall i, i + 1 < length conditions ->
                exists e, conditions !! i = Some (Some e).
Proof.
  induction conditions as [| condition rest IH]; [cbn; split; [intros _ i; lia | reflexivity] |].
  destruct rest as [| next rest].
  - cbn. split; [intros _ i; lia | reflexivity].
  - cbn [else_only_last]. rewrite andb_true_iff, bool_decide_eq_true, IH. split.
    + intros [[e ->] H] [| i] Hi; [cbn; eauto |]. cbn in Hi. apply (H i). cbn. lia.
    + intros H. split.
      * destruct (H 0) as [e He]; [cbn; lia |]. cbn in He. injection He as ->. eauto.
      * intros i Hi. apply (H (S i)). cbn in *. lia.
Qed.

(** X26. Only the last alternate of a conditional can be a plain [else].
    A run of [AddAlternate] calls on a new conditional succeeds exactly
    when every condition but the last is present; it then records the
    conditions in the order of the calls, each with an empty block, and
    leaves the condition and the consequent alone.  A call after an
    alternate without condition fails its check. *)
Theorem X26_else_only_as_last_alternate :
  forall (condition : Expression) (conditions : list (option Expression)),
    (is_Some (AddAlternates conditions (Conditional_new condition))
     <-> forall i, i + 1 < length conditions ->
                   exists e, conditions !! i = Some (Some e))
    /\ forall c,
         AddAlternates conditions (Conditional_new condition) = Some c ->
         c = MkConditional condition []
               ((fun condition => (condition, [])) <$> conditions).
Proof.
  intros condition conditions.
  rewrite AddAlternates_open by (left; reflexivity).
  rewrite <- else_only_last_spec. cbn [Conditional_new condition_ consequent_ alternates_ app].
  destruct (else_only_last conditions); split.
  - split; [reflexivity | eauto].
  - now intros c [= <-].
  - split; [intros [? ?]; discriminate | discriminate].
  - discriminate.
Qed.

End Conditionals.

End VastFacts.
